(** * A virtual filesystem over a sector disk: model of [main.cpp]

    The class [FileSystem] of [main.cpp] keeps a graph of heap-allocated
    [Item] objects linked by raw pointers ([children], [parent]), a sector
    bitmap and a vector of sector payloads.  The model below keeps the
    pointers: an [Item*] is an address, the heap is a finite map from
    addresses to [Item] records, [new] takes the next unused address and
    [delete] removes the address from the map.  Member functions become
    functions in a state-and-exception monad over the whole object. *)

From Stdlib Require Import ZArith String Ascii List Lia Strings.Byte.
From stdpp Require Import gmap list fin_maps.

Local Open Scope Z_scope.

(** ** Data *)

Definition SECTOR_SIZE : Z := 64.

(** An [Item*] is an address; [nullptr] is [None] in an [option ptr]. *)
Abbreviation ptr := nat (only parsing).

Record Item := mkItem {
  isFolder : bool;
  name : string;
  content : list byte;
  sectors : list Z;
  children : list ptr;
  parent : option ptr
}.

(** [heap] and [brk] stand for the free store: [heap] holds the objects
    created by [new] and not yet deleted, [brk] is the next address that
    [new] hands out. *)
Record FileSystem := mkFS {
  disk : list (list byte);
  sectorMap : list bool;
  heap : gmap ptr Item;
  brk : ptr;
  root : ptr;
  currentDir : ptr;
  totalSectors : Z
}.

Definition set_disk (d : list (list byte)) (s : FileSystem) : FileSystem :=
  mkFS d (sectorMap s) (heap s) (brk s) (root s) (currentDir s) (totalSectors s).
Definition set_sectorMap (m : list bool) (s : FileSystem) : FileSystem :=
  mkFS (disk s) m (heap s) (brk s) (root s) (currentDir s) (totalSectors s).
Definition set_heap (h : gmap ptr Item) (s : FileSystem) : FileSystem :=
  mkFS (disk s) (sectorMap s) h (brk s) (root s) (currentDir s) (totalSectors s).
Definition set_currentDir (p : ptr) (s : FileSystem) : FileSystem :=
  mkFS (disk s) (sectorMap s) (heap s) (brk s) (root s) p (totalSectors s).

Definition set_name (n : string) (it : Item) : Item :=
  mkItem (isFolder it) n (content it) (sectors it) (children it) (parent it).
Definition set_sectors (l : list Z) (it : Item) : Item :=
  mkItem (isFolder it) (name it) (content it) l (children it) (parent it).
Definition set_children (l : list ptr) (it : Item) : Item :=
  mkItem (isFolder it) (name it) (content it) (sectors it) l (parent it).
Definition set_parent (p : option ptr) (it : Item) : Item :=
  mkItem (isFolder it) (name it) (content it) (sectors it) (children it) p.

(** ** Exceptions and outcomes *)

(** [runtime_error] carries the text of [what()]; [out_of_range] is thrown
    by [freeSector] only and carries the offending sector number. *)
Inductive exn :=
| runtime_error (what : string)
| out_of_range (sector : Z).

(** A run that has no defined result: it dereferences a null or deleted
    pointer or an index out of range ([invalid_access]), or its recursion or loop never ends
    ([unbounded]). *)
Inductive fault := invalid_access | unbounded.

(** A member function either returns, or leaves by an exception (the state
    it has reached stays), or has no defined result. *)
Inductive result (A : Type) :=
| Ok (a : A) (s : FileSystem)
| Throw (e : exn) (s : FileSystem)
| Fault (f : fault).
Arguments Ok {A} a s.
Arguments Throw {A} e s.
Arguments Fault {A} f.

Definition M (A : Type) := FileSystem -> result A.

Definition ret {A} (a : A) : M A := fun s => Ok a s.
Definition bind {A B} (m : M A) (k : A -> M B) : M B :=
  fun s => match m s with
           | Ok a s' => k a s'
           | Throw e s' => Throw e s'
           | Fault f => Fault f
           end.
Definition throw {A} (e : exn) : M A := fun s => Throw e s.
Definition fail {A} (f : fault) : M A := fun _ => Fault f.
Definition gets {A} (f : FileSystem -> A) : M A := fun s => Ok (f s) s.
Definition modify (f : FileSystem -> FileSystem) : M unit := fun s => Ok tt (f s).

Notation "'let*' x ':=' m 'in' k" := (bind m (fun x => k))
  (at level 10, x name, m at level 100, k at level 200).
Notation "m ';;' k" := (bind m (fun _ => k))
  (at level 100, k at level 200, right associativity).

(** [for (x : l) body], with the loop-carried value [a]. *)
Fixpoint foldM {A B} (body : A -> B -> M A) (l : list B) (a : A) : M A :=
  match l with
  | [] => ret a
  | x :: l' => let* a' := body a x in foldM body l' a'
  end.

Definition forM {B} (l : list B) (body : B -> M unit) : M unit :=
  foldM (fun _ x => body x) l tt.

(** Reading through a pointer, writing through a pointer, [new], [delete]. *)
Definition deref (p : ptr) : M Item :=
  fun s => match heap s !! p with
           | Some it => Ok it s
           | None => Fault invalid_access
           end.

Definition update (p : ptr) (f : Item -> Item) : M unit :=
  fun s => match heap s !! p with
           | Some it => Ok tt (set_heap (<[p := f it]> (heap s)) s)
           | None => Fault invalid_access
           end.

Definition new (it : Item) : M ptr :=
  fun s => Ok (brk s)
              (mkFS (disk s) (sectorMap s) (<[brk s := it]> (heap s)) (S (brk s))
                    (root s) (currentDir s) (totalSectors s)).

Definition delete_ (p : ptr) : M unit :=
  fun s => match heap s !! p with
           | Some _ => Ok tt (set_heap (delete p (heap s)) s)
           | None => Fault invalid_access
           end.

(** [new Item()]: value-initialised. *)
Definition Item0 : Item := mkItem false EmptyString [] [] [] None.

(** ** Integer conversions

    [int] is 32 bits wide, [size_t] 64 bits.  [to_int] is the cast
    [(int)x], [to_size_t] the conversion of an [int] operand compared
    with, or passed as, a [size_t]. *)
Definition to_int (z : Z) : Z := (z + 2 ^ 31) mod 2 ^ 32 - 2 ^ 31.
Definition to_size_t (z : Z) : Z := z mod 2 ^ 64.
Definition INT_MAX : Z := 2 ^ 31 - 1.

(** A content whose length fits an [int]. *)
Definition fitsInt (data : list byte) : Prop := Z.of_nat (length data) <= INT_MAX.

(** ** Sector allocator *)

(** The scan [for (i = ...; i < sectorMap.size(); i++) if (!sectorMap[i])],
    from index [i] over the entries [m] that remain. *)
Fixpoint firstFree (i : Z) (m : list bool) : option Z :=
  match m with
  | [] => None
  | b :: m' => if b then firstFree (i + 1) m' else Some i
  end.

Definition allocateSector : M Z :=
  fun s => match firstFree 0 (sectorMap s) with
           | Some i => Ok i (set_sectorMap (<[Z.to_nat i := true]> (sectorMap s)) s)
           | None => Throw (runtime_error "No free sectors available") s
           end.

Definition freeSector (sector : Z) : M unit :=
  fun s => if (sector <? 0)
              || (Z.of_nat (length (sectorMap s)) <=? sector)
           then Throw (out_of_range sector) s
           else Ok tt (set_sectorMap (<[Z.to_nat sector := false]> (sectorMap s)) s).

(** ** Content writer *)

(** [data.substr(pos, len)] for [0 <= pos <= data.length()]. *)
Definition substr (data : list byte) (pos len : Z) : list byte :=
  take (Z.to_nat (to_size_t len)) (drop (Z.to_nat (to_size_t pos)) data).

(** [while (sector >= disk.size()) disk.push_back("")]. *)
Definition growDisk (sector : Z) (d : list (list byte)) : list (list byte) :=
  d ++ replicate (Z.to_nat sector + 1 - length d)%nat [].

(** [disk[sector] = chunk], after the disk has grown to hold [sector]. *)
Definition writeSlot (sector : Z) (chunk : list byte) : M unit :=
  modify (fun s => set_disk (<[Z.to_nat sector := chunk]> (growDisk sector (disk s))) s).

(** [min(SECTOR_SIZE, (int)data.length() - pos)]. *)
Definition chunkLen (data : list byte) (pos : Z) : Z :=
  Z.min SECTOR_SIZE (to_int (Z.of_nat (length data)) - pos).

(** The [while (pos < data.length())] loop of [saveToDisk].  [fuel] bounds
    the number of iterations; every iteration of a run on data shorter
    than [INT_MAX] advances [pos], so [length data] iterations are
    enough. *)
Fixpoint saveLoop (fuel : nat) (file : ptr) (data : list byte) (pos : Z) : M unit :=
  if to_size_t pos <? Z.of_nat (length data) then
    match fuel with
    | O => fail unbounded
    | S fuel' =>
        let* sector := allocateSector in
        update file (fun it => set_sectors (sectors it ++ [sector]) it) ;;
        let len := chunkLen data pos in
        writeSlot sector (substr data pos len) ;;
        saveLoop fuel' file data (pos + len)
    end
  else ret tt.

Definition saveToDisk (file : option ptr) : M unit :=
  match file with
  | None => ret tt
  | Some f =>
      let* it := deref f in
      if isFolder it then ret tt
      else
        forM (sectors it) freeSector ;;
        update f (set_sectors []) ;;
        saveLoop (length (content it)) f (content it) 0
  end.

(** ** Paths and names *)

Local Open Scope string_scope.
Local Open Scope list_scope.

(** [splitPath]: the loop [while (getline(stream, part, '/'))] that keeps
    the non-empty parts.  [part] holds the characters read since the last
    '/', [stream] the characters not yet read. *)
Fixpoint splitFrom (part stream : string) : list string :=
  match stream with
  | EmptyString => if part =? "" then [] else [part]
  | String c rest =>
      if (c =? "/")%char
      then (if part =? "" then splitFrom "" rest else part :: splitFrom "" rest)
      else splitFrom (part ++ String c "")%string rest
  end.

Definition splitPath (path : string) : list string := splitFrom "" path.

(** [path[0] == '/'] for a non-empty [path]. *)
Definition beginsWithSlash (path : string) : bool :=
  match path with
  | String c _ => (c =? "/")%char
  | EmptyString => false
  end.

Definition isalnum (c : ascii) : bool :=
  let n := Z.of_N (N_of_ascii c) in
  ((48 <=? n) && (n <=? 57) || (65 <=? n) && (n <=? 90) || (97 <=? n) && (n <=? 122))%Z.

Fixpoint allChars (p : ascii -> bool) (s : string) : bool :=
  match s with
  | EmptyString => true
  | String c rest => p c && allChars p rest
  end.

Definition isValidName (name : string) : bool :=
  if (name =? "") || (name =? ".") || (name =? "..") then false
  else allChars (fun c => isalnum c || (c =? "_")%char || (c =? ".")%char) name.

(** [dest.find_last_of('/')]: the index of the last '/', scanning from
    index [i] with [last] the latest index seen so far. *)
Fixpoint find_last_of (s : string) (i : nat) (last : option nat) : option nat :=
  match s with
  | EmptyString => last
  | String c rest =>
      find_last_of rest (S i) (if (c =? "/")%char then Some i else last)
  end.

(** The pair [(destDirPath, destName)] that [cp] and [mv] compute from
    [dest] when [dest] does not name an existing directory. *)
Definition splitDest (dest : string) : string * string :=
  match find_last_of dest 0 None with
  | None => (".", dest)
  | Some lastSlash =>
      (substring 0 lastSlash dest,
       substring (S lastSlash) (String.length dest - S lastSlash) dest)
  end.

(** ** Path resolution *)

(** The inner loop [for (child : current->children) if (child->name == part)]:
    the first child with that name. *)
Fixpoint findChild (cs : list ptr) (part : string) : M (option ptr) :=
  match cs with
  | [] => ret None
  | child :: cs' =>
      let* c := deref child in
      if name c =? part then ret (Some child) else findChild cs' part
  end.

(** [current->parent ? current->parent : current]. *)
Definition parentOrSelf (current : ptr) : M ptr :=
  let* c := deref current in
  ret (match parent c with Some p => p | None => current end).

(** The loop [for (part : parts)] of [getItem]. *)
Fixpoint walk (current : ptr) (parts : list string) : M (option ptr) :=
  match parts with
  | [] => ret (Some current)
  | part :: rest =>
      if part =? "." then walk current rest
      else if part =? ".." then
        let* up := parentOrSelf current in walk up rest
      else
        let* c := deref current in
        let* found := findChild (children c) part in
        match found with
        | Some child => walk child rest
        | None => ret None
        end
  end.

Definition getItem (path : string) : M (option ptr) :=
  if (path =? "") || (path =? ".") then
    let* cd := gets currentDir in ret (Some cd)
  else if path =? "/" then
    let* r := gets root in ret (Some r)
  else if path =? ".." then
    let* cd := gets currentDir in
    let* up := parentOrSelf cd in ret (Some up)
  else
    let* start := (if beginsWithSlash path then gets root else gets currentDir) in
    walk start (splitPath path).

(** ** Tree traversals

    The recursive member functions descend along [children].  On a heap
    whose items form a tree the depth of the recursion is below the number
    of items, hence below [brk]; [fuel] is that depth bound, and a
    recursion that exceeds it has met an item twice on one branch. *)

Definition depthBound : M nat := gets (fun s => S (brk s)).

Fixpoint collectAllFiles (fuel : nat) (folder : ptr) (files : list ptr) : M (list ptr) :=
  match fuel with
  | O => fail unbounded
  | S fuel' =>
      let* f := deref folder in
      foldM (fun files child =>
               let* c := deref child in
               if isFolder c then collectAllFiles fuel' child files
               else ret (files ++ [child]))
            (children f) files
  end.

(** [getFullPath]: the names from [item] up to, not including, the root,
    collected by [for (current = item; current != root; current = current->parent)]. *)
Fixpoint pathParts (fuel : nat) (current : option ptr) (acc : list string) : M (list string) :=
  let* r := gets root in
  match current with
  | None => fail invalid_access
  | Some c =>
      if Nat.eqb c r then ret acc
      else match fuel with
           | O => fail unbounded
           | S fuel' =>
               let* it := deref c in
               pathParts fuel' (parent it) (acc ++ [name it])
           end
  end.

Fixpoint joinPath (parts : list string) : string :=
  match parts with
  | [] => ""
  | [p] => p
  | p :: rest => (p ++ "/" ++ joinPath rest)%string
  end.

Definition getFullPath (item : ptr) : M string :=
  let* r := gets root in
  if Nat.eqb item r then ret "/"
  else
    let* fuel := depthBound in
    let* pathParts := pathParts fuel (Some item) [] in
    ret ("/" ++ joinPath (rev pathParts))%string.

Fixpoint freeSectorsRecursive (fuel : nat) (item : option ptr) : M unit :=
  match item with
  | None => ret tt
  | Some i =>
      match fuel with
      | O => fail unbounded
      | S fuel' =>
          let* it := deref i in
          (if negb (isFolder it) then forM (sectors it) freeSector else ret tt) ;;
          forM (children it) (fun child => freeSectorsRecursive fuel' (Some child))
      end
  end.

Fixpoint deleteTree (fuel : nat) (node : option ptr) : M unit :=
  match node with
  | None => ret tt
  | Some n =>
      match fuel with
      | O => fail unbounded
      | S fuel' =>
          let* it := deref n in
          forM (children it) (fun child => deleteTree fuel' (Some child)) ;;
          freeSectorsRecursive (S fuel') (Some n) ;;
          delete_ n
      end
  end.

Fixpoint copyItem (fuel : nat) (source : ptr) (newParent : option ptr) : M ptr :=
  match fuel with
  | O => fail unbounded
  | S fuel' =>
      let* src := deref source in
      let* newItem := new (mkItem (isFolder src) (name src) (content src) [] [] newParent) in
      (if negb (isFolder src) then saveToDisk (Some newItem) else ret tt) ;;
      forM (children src)
           (fun child =>
              let* newChild := copyItem fuel' child (Some newItem) in
              update newItem (fun it => set_children (children it ++ [newChild]) it)) ;;
      ret newItem
  end.

(** ** Construction *)

(** [FileSystem(capacity)]. *)
Definition init (capacity : Z) : FileSystem :=
  mkFS (replicate (Z.to_nat capacity) [])
       (replicate (Z.to_nat capacity) false)
       {[ 0%nat := mkItem true "/" [] [] [] None ]}
       1%nat 0%nat 0%nat capacity.

(** ** Public operations

    Each operation below except [touch] runs inside [try { ... } catch]:
    an outcome [Throw e s] of its model is the call that printed the
    message of [e] and returned with the object in state [s].  [touch]
    has no handler. *)

(** [vec.push_back(x)] and [vec.erase(find(vec.begin(), vec.end(), x))]. *)
Definition push_back (parentNode child : ptr) : M unit :=
  update parentNode (fun it => set_children (children it ++ [child]) it).

Fixpoint eraseFirst (x : ptr) (l : list ptr) : list ptr :=
  match l with
  | [] => []
  | y :: l' => if Nat.eqb y x then l' else y :: eraseFirst x l'
  end.

Definition eraseChild (parentNode child : ptr) : M unit :=
  update parentNode (fun it => set_children (eraseFirst child (children it)) it).

Definition cd (path : string) : M unit :=
  let* target := getItem path in
  match target with
  | None => throw (runtime_error ("Directory not found: " ++ path)%string)
  | Some t =>
      let* it := deref t in
      if negb (isFolder it) then throw (runtime_error ("Not a directory: " ++ path)%string)
      else modify (set_currentDir t)
  end.

(** The search of [mkdir] among [current->children]: the first child named
    [part], which must be a folder. *)
Fixpoint findFolder (cs : list ptr) (part : string) : M (option ptr) :=
  match cs with
  | [] => ret None
  | child :: cs' =>
      let* c := deref child in
      if name c =? part then
        if negb (isFolder c) then
          throw (runtime_error
                   ("Cannot create directory: '" ++ part ++ "' — a file with this name exists")%string)
        else ret (Some child)
      else findFolder cs' part
  end.

(** One iteration of the loop [for (part : parts)] of [mkdir]. *)
Definition mkdirStep (current : ptr) (part : string) : M ptr :=
  if (part =? "") || (part =? ".") || (part =? "..") then
    throw (runtime_error ("Invalid directory name in path: " ++ part)%string)
  else if negb (isValidName part) then
    throw (runtime_error ("Invalid directory name: " ++ part)%string)
  else
    let* c := deref current in
    let* found := findFolder (children c) part in
    match found with
    | Some next => ret next
    | None =>
        let* newDir := new (mkItem true part [] [] [] (Some current)) in
        push_back current newDir ;;
        getFullPath newDir ;;
        ret newDir
    end.

Definition mkdir (path : string) : M unit :=
  if path =? "" then throw (runtime_error "mkdir: missing path")
  else
    let parts := splitPath path in
    match parts with
    | [] => throw (runtime_error "Invalid path")
    | _ =>
        let* current := (if beginsWithSlash path then gets root else gets currentDir) in
        foldM mkdirStep parts current ;;
        ret tt
    end.

(** [for (child : cs) if (child->name == n) throw e]. *)
Fixpoint rejectName (cs : list ptr) (n : string) (e : exn) : M unit :=
  match cs with
  | [] => ret tt
  | child :: cs' =>
      let* c := deref child in
      if name c =? n then throw e else rejectName cs' n e
  end.

Definition touch (filename : string) : M unit :=
  if negb (isValidName filename) then
    throw (runtime_error ("Invalid file name: " ++ filename)%string)
  else
    let* cur := gets currentDir in
    let* c := deref cur in
    rejectName (children c) filename
               (runtime_error ("File already exists: " ++ filename)%string) ;;
    let* newFile := new (mkItem false filename [] [] [] (Some cur)) in
    push_back cur newFile ;;
    saveToDisk (Some newFile).

Definition rm (name : string) (recursive : bool) : M unit :=
  let* cur := gets currentDir in
  let* c := deref cur in
  let* target := findChild (children c) name in
  match target with
  | None => throw (runtime_error ("File or directory not found: " ++ name)%string)
  | Some t =>
      let* it := deref t in
      if isFolder it && negb (match children it with [] => true | _ => false end)
         && negb recursive
      then throw (runtime_error "Directory is not empty. Use -r flag to remove recursively")
      else
        eraseChild cur t ;;
        let* fuel := depthBound in
        deleteTree fuel (Some t)
  end.

(** [getItem(destDirPath)] followed by [if (!destDir || !destDir->isFolder) throw]. *)
Definition getDestDir (destDirPath : string) : M ptr :=
  let* destDir := getItem destDirPath in
  match destDir with
  | None => throw (runtime_error "Destination directory not found")
  | Some d =>
      let* it := deref d in
      if negb (isFolder it) then throw (runtime_error "Destination directory not found")
      else ret d
  end.

(** [destItem && destItem->isFolder]. *)
Definition isExistingFolder (destItem : option ptr) : M bool :=
  match destItem with
  | None => ret false
  | Some d => let* it := deref d in ret (isFolder it)
  end.

Definition cp (source dest : string) : M unit :=
  let* srcItem := getItem source in
  match srcItem with
  | None => throw (runtime_error ("Source not found: " ++ source)%string)
  | Some src =>
      let* destItem := getItem dest in
      let* intoFolder := isExistingFolder destItem in
      match destItem, intoFolder with
      | Some d, true =>
          let* s := deref src in
          let destName := name s in
          let* di := deref d in
          rejectName (children di) destName
                     (runtime_error ("Destination already exists: " ++ destName)%string) ;;
          let* fuel := depthBound in
          let* newItem := copyItem fuel src (Some d) in
          push_back d newItem
      | _, _ =>
          let (destDirPath, destName) := splitDest dest in
          let* destDir := getDestDir destDirPath in
          let* di := deref destDir in
          rejectName (children di) destName
                     (runtime_error ("Destination already exists: " ++ destName)%string) ;;
          let* fuel := depthBound in
          let* newItem := copyItem fuel src (Some destDir) in
          update newItem (set_name destName) ;;
          push_back destDir newItem
      end
  end.

(** The loop [while (checkItem)] of [mv], which throws when it meets
    [srcItem] on the way from [checkItem] up the [parent] pointers. *)
Fixpoint checkNotInside (fuel : nat) (checkItem : option ptr) (srcItem : ptr) : M unit :=
  match checkItem with
  | None => ret tt
  | Some c =>
      if Nat.eqb c srcItem then throw (runtime_error "Cannot move a folder into itself")
      else match fuel with
           | O => fail unbounded
           | S fuel' =>
               let* it := deref c in
               checkNotInside fuel' (parent it) srcItem
           end
  end.

(** [for (child : cs) if (child->name == n && child != srcItem) throw e]. *)
Fixpoint rejectOtherName (cs : list ptr) (n : string) (srcItem : ptr) (e : exn) : M unit :=
  match cs with
  | [] => ret tt
  | child :: cs' =>
      let* c := deref child in
      if (name c =? n) && negb (Nat.eqb child srcItem) then throw e
      else rejectOtherName cs' n srcItem e
  end.

(** [if (srcItem->parent) erase srcItem from srcItem->parent->children]. *)
Definition detach (srcItem : ptr) : M unit :=
  let* s := deref srcItem in
  match parent s with
  | Some p => eraseChild p srcItem
  | None => ret tt
  end.

Definition sameNode (a : option ptr) (b : ptr) : bool :=
  match a with
  | Some x => Nat.eqb x b
  | None => false
  end.

Definition mv (source dest : string) : M unit :=
  let* srcItem := getItem source in
  match srcItem with
  | None => throw (runtime_error ("Source not found: " ++ source)%string)
  | Some src =>
      let* s := deref src in
      (if isFolder s then
         let* checkItem := getItem dest in
         let* fuel := depthBound in
         checkNotInside fuel checkItem src
       else ret tt) ;;
      let* destItem := getItem dest in
      let* intoFolder := isExistingFolder destItem in
      match destItem, intoFolder with
      | Some d, true =>
          let* di := deref d in
          rejectName (children di) (name s)
                     (runtime_error ("Destination already exists: " ++ name s)%string) ;;
          if negb (sameNode (parent s) d) then
            detach src ;;
            update src (set_parent (Some d)) ;;
            push_back d src
          else ret tt
      | _, _ =>
          let (destDirPath, destName) := splitDest dest in
          let* destDir := getDestDir destDirPath in
          let* di := deref destDir in
          rejectOtherName (children di) destName src
                     (runtime_error ("Destination already exists: " ++ destName)%string) ;;
          let sameParent := sameNode (parent s) destDir in
          (if negb sameParent then detach src else ret tt) ;;
          update src (set_name destName) ;;
          if negb sameParent then
            update src (set_parent (Some destDir)) ;;
            push_back destDir src
          else ret tt
      end
  end.

(** The text that [put] builds from the real file: every line followed by
    a newline, then one final newline dropped.  [linesFrom] is the loop
    [while (getline(file, line))], with [line] the characters read since
    the last newline. *)
Definition newline : byte := x0a.

Fixpoint linesFrom (line stream : list byte) : list (list byte) :=
  match stream with
  | [] => match line with [] => [] | _ => [line] end
  | c :: rest =>
      if Byte.eqb c newline then line :: linesFrom [] rest
      else linesFrom (line ++ [c]) rest
  end.

Definition readText (file : list byte) : list byte :=
  let text := concat (map (fun line => line ++ [newline]) (linesFrom [] file)) in
  match text with
  | [] => []
  | _ => removelast text
  end.

(** [for (child : cs) if (!child->isFolder && realFile == child->name) throw e]. *)
Fixpoint rejectFileName (cs : list ptr) (n : string) (e : exn) : M unit :=
  match cs with
  | [] => ret tt
  | child :: cs' =>
      let* c := deref child in
      if negb (isFolder c) && (n =? name c) then throw e
      else rejectFileName cs' n e
  end.

(** [put(realFile, fsPath)]; [file] is the real file's bytes, [None] when
    it cannot be opened. *)
Definition put (realFile : string) (file : option (list byte)) (fsPath : string) : M unit :=
  match file with
  | None => throw (runtime_error ("Cannot open real file: " ++ realFile)%string)
  | Some bytes =>
      let content := readText bytes in
      let* destDir := getDestDir fsPath in
      let* di := deref destDir in
      rejectFileName (children di) realFile
                     (runtime_error ("File already exists: " ++ realFile)%string) ;;
      let* newFile := new (mkItem false realFile content [] [] (Some destDir)) in
      push_back destDir newFile ;;
      saveToDisk (Some newFile)
  end.

(** The loop [while (pos < data.length())] of [defrag]; returns the value
    of [nextSector] it ends with.  [sectorMap[nextSector] = true] is an
    unchecked access. *)
Definition markSector (sector : Z) : M unit :=
  fun s => if (Z.of_nat (length (sectorMap s)) <=? sector)%Z then Fault invalid_access
           else Ok tt (set_sectorMap (<[Z.to_nat sector := true]> (sectorMap s)) s).

Fixpoint defragLoop (fuel : nat) (file : ptr) (data : list byte) (pos nextSector : Z) : M Z :=
  if (to_size_t pos <? Z.of_nat (length data))%Z then
    match fuel with
    | O => fail unbounded
    | S fuel' =>
        let* total := gets totalSectors in
        if (total <=? nextSector)%Z then throw (runtime_error "Disk is full")
        else
          markSector nextSector ;;
          update file (fun it => set_sectors (sectors it ++ [nextSector]) it) ;;
          let len := chunkLen data pos in
          writeSlot nextSector (substr data pos len) ;;
          defragLoop fuel' file data (pos + len) (nextSector + 1)
    end
  else ret nextSector.

Definition defragFile (nextSector : Z) (file : ptr) : M Z :=
  let* it := deref file in
  if isFolder it then ret nextSector
  else
    update file (set_sectors []) ;;
    defragLoop (length (content it)) file (content it) 0 nextSector.

Definition defrag : M unit :=
  let* r := gets root in
  let* fuel := depthBound in
  let* allFiles := collectAllFiles fuel r [] in
  modify (fun s => set_sectorMap (map (fun _ => false) (sectorMap s)) s) ;;
  foldM defragFile allFiles 0 ;;
  ret tt.

(** * The operations as a transition system *)

(** The operations that only read and print. *)
Definition pwd : M unit :=
  let* cur := gets currentDir in
  getFullPath cur ;; ret tt.

Definition ls (path : string) : M unit :=
  let* target :=
    (if (path =? "")%string then let* cur := gets currentDir in ret (Some cur)
     else getItem path) in
  match target with
  | None => throw (runtime_error ("Path not found: " ++ path)%string)
  | Some t =>
      let* it := deref t in
      if isFolder it then forM (children it) (fun child => deref child ;; ret tt)
      else getFullPath t ;; ret tt
  end.

(** [get(filename)]; [canCreate] tells whether the real file can be opened
    for writing. *)
Definition get (filename : string) (canCreate : bool) : M unit :=
  let* file := getItem filename in
  match file with
  | None => throw (runtime_error ("File not found: " ++ filename)%string)
  | Some f =>
      let* it := deref f in
      if isFolder it then throw (runtime_error ("File not found: " ++ filename)%string)
      else if canCreate then ret tt
      else throw (runtime_error ("Cannot create file: " ++ snd (splitDest filename))%string)
  end.

Definition info (filename : string) : M unit :=
  let* file := getItem filename in
  match file with
  | None => throw (runtime_error ("File not found: " ++ filename)%string)
  | Some f => deref f ;; getFullPath f ;; ret tt
  end.

(** The commands of the shell. *)
Inductive op :=
| Pwd
| Cd (path : string)
| Ls (path : string)
| Mkdir (path : string)
| Touch (filename : string)
| Rm (name : string) (recursive : bool)
| Cp (source dest : string)
| Mv (source dest : string)
| Get (filename : string) (canCreate : bool)
| Put (realFile : string) (file : option (list byte)) (fsPath : string)
| Info (filename : string)
| Defrag.

Definition exec (o : op) : M unit :=
  match o with
  | Pwd => pwd
  | Cd path => cd path
  | Ls path => ls path
  | Mkdir path => mkdir path
  | Touch filename => touch filename
  | Rm name recursive => rm name recursive
  | Cp source dest => cp source dest
  | Mv source dest => mv source dest
  | Get filename canCreate => get filename canCreate
  | Put realFile file fsPath => put realFile file fsPath
  | Info filename => info filename
  | Defrag => defrag
  end.

(** Every operation but [touch] catches what its body throws, prints the
    message and returns; an exception of [touch] ends the program. *)
Definition catches (o : op) : bool :=
  match o with
  | Touch _ => false
  | _ => true
  end.

(** [returned o s e s']: the call of [o] in state [s] has returned in state
    [s'], having reported the error [e] if any. *)
Definition returned (o : op) (s : FileSystem) (e : option exn) (s' : FileSystem) : Prop :=
  match e with
  | None => exec o s = Ok tt s'
  | Some x => catches o = true /\ exec o s = Throw x s'
  end.

(** The two messages of the disk-full error. *)
Definition diskFull (e : exn) : Prop :=
  e = runtime_error "No free sectors available" \/ e = runtime_error "Disk is full".

(** The contents handed to the content writer fit an [int]. *)
Definition fits (o : op) : Prop :=
  match o with
  | Put _ (Some bytes) _ => fitsInt (readText bytes)
  | _ => True
  end.

(** The states of a session: those reached from a fresh filesystem by
    calls that have returned. *)
Inductive reachable : FileSystem -> Prop :=
| reachable_init capacity : 0 < capacity -> reachable (init capacity)
| reachable_step s o e s' :
    reachable s -> fits o -> returned o s e s' -> reachable s'.

(** The states reached when no call has reported the disk-full error. *)
Inductive reachableNoDiskFull : FileSystem -> Prop :=
| reachableNDF_init capacity : 0 < capacity -> reachableNoDiskFull (init capacity)
| reachableNDF_step s o e s' :
    reachableNoDiskFull s -> fits o -> returned o s e s' ->
    (forall x, e = Some x -> ~ diskFull x) ->
    reachableNoDiskFull s'.

(** ** Vocabulary of the properties *)

(** [linked h r x]: [x] is reached from [r] by following [children]. *)
Inductive linked (h : gmap ptr Item) (r : ptr) : ptr -> Prop :=
| linked_here : linked h r r
| linked_child x it c :
    linked h r x -> h !! x = Some it -> c ∈ children it -> linked h r c.

(** [inside h src x]: [src] is met on the way from [x] up the [parent]
    pointers, [x] itself included. *)
Inductive inside (h : gmap ptr Item) (src : ptr) : ptr -> Prop :=
| inside_self : inside h src src
| inside_up x it p :
    h !! x = Some it -> parent it = Some p -> inside h src p -> inside h src x.

(** [ownedBy s i p]: [p] is a file reached from the root whose sector list
    holds the id [i]. *)
Definition ownedBy (s : FileSystem) (i : Z) (p : ptr) : Prop :=
  linked (heap s) (root s) p /\
  exists it, heap s !! p = Some it /\ isFolder it = false /\ i ∈ sectors it.

(** The destination of a [mv] that renames lies in the source. *)
Definition movesIntoItself (o : op) (s : FileSystem) : Prop :=
  match o with
  | Mv source dest =>
      exists src d, getItem source s = Ok (Some src) s /\
                    getItem (fst (splitDest dest)) s = Ok (Some d) s /\
                    inside (heap s) src d
  | _ => False
  end.

(** The operations that lose track of sectors when the disk is full: [cp]
    leaves the part it has copied outside the tree, [defrag] leaves the
    files it has not reached with their old sectors. *)
Definition losesOnDiskFull (o : op) : bool :=
  match o with
  | Cp _ _ | Defrag => true
  | _ => false
  end.

Definition lost (o : op) (e : exn) : Prop := losesOnDiskFull o = true /\ diskFull e.

(** The states of a session in which no [cp] and no [defrag] has reported
    the disk-full error and no [mv] had its destination in its source. *)
Inductive reachableSafely : FileSystem -> Prop :=
| reachableS_init capacity : 0 < capacity -> reachableSafely (init capacity)
| reachableS_step s o e s' :
    reachableSafely s -> fits o -> returned o s e s' ->
    (forall x, e = Some x -> ~ lost o x) ->
    ~ movesIntoItself o s ->
    reachableSafely s'.

(** Rewriting the content of the file [f]: [f->content = data;
    saveToDisk(f)], the two statements by which [put] writes the file it
    has created.  No operation of the program rewrites a file that exists;
    [rewriteContent] stands for the content rewrite of the
    specification. *)
Definition set_content (c : list byte) (it : Item) : Item :=
  mkItem (isFolder it) (name it) c (sectors it) (children it) (parent it).

Definition rewriteContent (f : ptr) (data : list byte) : M unit :=
  update f (set_content data) ;; saveToDisk (Some f).

(** * Properties *)

Local Open Scope Z_scope.

(** ** Reasoning about monadic code *)

Lemma bind_Ok {A B} (m : M A) (k : A -> M B) s b s' :
  bind m k s = Ok b s' <-> exists a s1, m s = Ok a s1 /\ k a s1 = Ok b s'.
Proof.
  unfold bind. split.
  - destruct (m s) as [a s1| |]; intros H; try discriminate H. exists a, s1; split; [reflexivity | assumption].
  - intros (a & s1 & -> & H). exact H.
Qed.

Lemma bind_Throw {A B} (m : M A) (k : A -> M B) s e s' :
  bind m k s = Throw e s' <->
  m s = Throw e s' \/ exists a s1, m s = Ok a s1 /\ k a s1 = Throw e s'.
Proof.
  unfold bind. split.
  - destruct (m s) as [a s1| |]; intros H; try discriminate H.
    + right. exists a, s1. split; [reflexivity | assumption].
    + left. inversion H; reflexivity.
  - intros [-> | (a & s1 & -> & H)]; auto.
Qed.

Lemma bind_Fault {A B} (m : M A) (k : A -> M B) s f :
  bind m k s = Fault f <->
  m s = Fault f \/ exists a s1, m s = Ok a s1 /\ k a s1 = Fault f.
Proof.
  unfold bind. split.
  - destruct (m s) as [a s1| |]; intros H; try discriminate H.
    + right. exists a, s1. split; [reflexivity | assumption].
    + left. inversion H; reflexivity.
  - intros [-> | (a & s1 & -> & H)]; auto.
Qed.

Lemma foldM_app {A B} (body : A -> B -> M A) l1 l2 a s :
  foldM body (l1 ++ l2) a s = bind (foldM body l1 a) (foldM body l2) s.
Proof.
  revert a s. induction l1 as [|x l1 IH]; intros a s; simpl.
  - reflexivity.
  - unfold bind. destruct (body a x s) as [a' s1| |]; auto.
Qed.


(** ** The sector allocator *)

Lemma firstFree_Some k m i :
  firstFree k m = Some i ->
  k <= i /\ m !! Z.to_nat (i - k) = Some false /\
  forall j, k <= j < i -> m !! Z.to_nat (j - k) = Some true.
Proof.
  revert k. induction m as [|b m IH]; intros k H; simpl in H; [discriminate|].
  destruct b.
  - apply IH in H as (Hle & Hi & Hlow).
    split; [lia|]. split.
    + replace (Z.to_nat (i - k)) with (S (Z.to_nat (i - (k + 1)))) by lia. exact Hi.
    + intros j Hj. destruct (Z.eq_dec j k) as [->|Hne].
      * replace (Z.to_nat (k - k)) with 0%nat by lia. reflexivity.
      * replace (Z.to_nat (j - k)) with (S (Z.to_nat (j - (k + 1)))) by lia.
        apply Hlow. lia.
  - injection H as <-. split; [lia|]. split.
    + replace (Z.to_nat (k - k)) with 0%nat by lia. reflexivity.
    + intros j Hj. lia.
Qed.

Lemma firstFree_None k m :
  firstFree k m = None <-> forall j : nat, m !! j <> Some false.
Proof.
  revert k. induction m as [|b m IH]; intros k; simpl.
  - split; [intros _ j; rewrite lookup_nil; discriminate | reflexivity].
  - destruct b.
    + rewrite IH. split.
      * intros H [|j]; simpl; [discriminate | apply H].
      * intros H j. apply (H (S j)).
    + split; [discriminate|]. intros H. exfalso. apply (H 0%nat). reflexivity.
Qed.

Lemma firstFree_below k m (n : nat) :
  m !! n = Some false -> exists i, firstFree k m = Some i /\ k <= i <= k + Z.of_nat n.
Proof.
  revert k n. induction m as [|b m IH]; intros k n H.
  - rewrite lookup_nil in H. discriminate.
  - simpl. destruct b.
    + destruct n as [|n]; [discriminate|]. simpl in H.
      destruct (IH (k + 1) n H) as (i & Hi & Hr). exists i. split; [exact Hi | lia].
    + exists k. split; [reflexivity | lia].
Qed.

Lemma freeSector_Ok sector s s' :
  freeSector sector s = Ok tt s' <->
  0 <= sector < Z.of_nat (length (sectorMap s)) /\
  s' = set_sectorMap (<[Z.to_nat sector := false]> (sectorMap s)) s.
Proof.
  unfold freeSector.
  destruct (sector <? 0) eqn:Hneg; simpl.
  - apply Z.ltb_lt in Hneg. split; [discriminate | lia].
  - apply Z.ltb_ge in Hneg.
    destruct (Z.of_nat (length (sectorMap s)) <=? sector) eqn:Hge.
    + apply Z.leb_le in Hge. split; [discriminate | lia].
    + apply Z.leb_gt in Hge. split.
      * intros H. injection H as <-. split; [lia | reflexivity].
      * intros [_ ->]. reflexivity.
Qed.

Lemma allocateSector_Ok s i s' :
  allocateSector s = Ok i s' <->
  firstFree 0 (sectorMap s) = Some i /\
  s' = set_sectorMap (<[Z.to_nat i := true]> (sectorMap s)) s.
Proof.
  unfold allocateSector. destruct (firstFree 0 (sectorMap s)) as [k|].
  - split.
    + intros H. injection H as <- <-. auto.
    + intros [H ->]. injection H as ->. reflexivity.
  - split; [discriminate | intros [H _]; discriminate].
Qed.

Lemma allocateSector_Throw s e s' :
  allocateSector s = Throw e s' <->
  firstFree 0 (sectorMap s) = None /\
  e = runtime_error "No free sectors available" /\ s' = s.
Proof.
  unfold allocateSector. destruct (firstFree 0 (sectorMap s)) as [k|].
  - split; [discriminate | intros [H _]; discriminate].
  - split.
    + intros H. injection H as <- <-. auto.
    + intros (_ & -> & ->). reflexivity.
Qed.

Lemma allocateSector_no_Fault s f : allocateSector s <> Fault f.
Proof. unfold allocateSector. destruct (firstFree 0 (sectorMap s)); discriminate. Qed.

(** C7. [allocateSector] returns the lowest free id and marks it; it
    throws "No free sectors available" exactly when no id is free and
    then changes nothing; and after a [freeSector id] that returned, the
    next [allocateSector] returns [id] or a lower id that was free. *)
Theorem allocateSector_lowest_free (s : FileSystem) :
  (forall i s', allocateSector s = Ok i s' ->
     0 <= i /\
     sectorMap s !! Z.to_nat i = Some false /\
     (forall j, 0 <= j < i -> sectorMap s !! Z.to_nat j = Some true) /\
     s' = set_sectorMap (<[Z.to_nat i := true]> (sectorMap s)) s /\
     sectorMap s' !! Z.to_nat i = Some true) /\
  ((exists e s', allocateSector s = Throw e s') <->
   (forall j : nat, sectorMap s !! j <> Some false)) /\
  (forall e s', allocateSector s = Throw e s' ->
     e = runtime_error "No free sectors available" /\ s' = s) /\
  (forall f, allocateSector s <> Fault f) /\
  (forall id s1, freeSector id s = Ok tt s1 ->
     exists i s2, allocateSector s1 = Ok i s2 /\ 0 <= i <= id /\
                  sectorMap s1 !! Z.to_nat i = Some false).
Proof.
  split; [|split; [|split; [|split]]].
  - intros i s' H. apply allocateSector_Ok in H as [H ->].
    apply firstFree_Some in H as (Hle & Hi & Hlow).
    rewrite Z.sub_0_r in Hi.
    split; [exact Hle|]. split; [exact Hi|]. split; [|split; [reflexivity|]].
    + intros j Hj. specialize (Hlow j Hj). rewrite Z.sub_0_r in Hlow. exact Hlow.
    + simpl. apply list_lookup_insert_eq. apply lookup_lt_Some in Hi. exact Hi.
  - rewrite <- firstFree_None with (k := 0). split.
    + intros (e & s' & H). apply allocateSector_Throw in H. tauto.
    + intros H. exists (runtime_error "No free sectors available"), s.
      apply allocateSector_Throw. auto.
  - intros e s' H. apply allocateSector_Throw in H. tauto.
  - apply allocateSector_no_Fault.
  - intros id s1 H. apply freeSector_Ok in H as [Hr ->].
    assert (Hfree : <[Z.to_nat id := false]> (sectorMap s) !! Z.to_nat id = Some false).
    { apply list_lookup_insert_eq. lia. }
    destruct (firstFree_below 0 _ _ Hfree) as (i & Hi & Hle).
    exists i, (set_sectorMap (<[Z.to_nat i := true]> (<[Z.to_nat id := false]> (sectorMap s)))
                             (set_sectorMap (<[Z.to_nat id := false]> (sectorMap s)) s)).
    split; [apply allocateSector_Ok; auto|]. split; [lia|].
    apply firstFree_Some in Hi as (_ & Hi & _). rewrite Z.sub_0_r in Hi. exact Hi.
Qed.

Lemma allocateSector_lowest_free_witness :
  exists i s2,
    allocateSector (set_sectorMap [true; false; true; false] (init 4)) = Ok i s2 /\
    0 <= i <= 3 /\ [true; false; true; false] !! Z.to_nat i = Some false.
Proof.
  apply (proj2 (proj2 (proj2 (proj2
           (allocateSector_lowest_free (set_sectorMap [true; false; true; true] (init 4))))))
           3 (set_sectorMap [true; false; true; false] (init 4))).
  reflexivity.
Defined.


(** ** Path resolution *)

(** Splitting on '/' as the words of the specification have it: every
    maximal run of characters between two separators is a segment, and
    the empty segments are then discarded. *)
Fixpoint segments (part stream : string) : list string :=
  match stream with
  | EmptyString => [part]
  | String c rest =>
      if (c =? "/")%char then part :: segments "" rest
      else segments (part ++ String c "")%string rest
  end.

Definition nonEmpty (x : string) : bool := negb (x =? "")%string.

Definition splitDiscardingEmpty (path : string) : list string :=
  List.filter nonEmpty (segments "" path).

Lemma splitFrom_segments part stream :
  splitFrom part stream = List.filter nonEmpty (segments part stream).
Proof.
  revert part. induction stream as [|c rest IH]; intros part; simpl.
  - unfold nonEmpty. destruct (part =? "")%string; reflexivity.
  - destruct (c =? "/")%char; simpl.
    + unfold nonEmpty at 1. destruct (part =? "")%string; simpl; rewrite IH; reflexivity.
    + apply IH.
Qed.

(** The first of the children [cs] whose name is [part], read off the heap. *)
Definition childNamed (h : gmap ptr Item) (cs : list ptr) (part : string) : option ptr :=
  List.find (fun c => match h !! c with
                      | Some it => (name it =? part)%string
                      | None => false
                      end) cs.

Definition allLive (h : gmap ptr Item) (cs : list ptr) : Prop :=
  forall c, In c cs -> is_Some (h !! c).

Lemma findChild_childNamed cs part s :
  allLive (heap s) cs ->
  findChild cs part s = Ok (childNamed (heap s) cs part) s.
Proof.
  induction cs as [|c cs IH]; intros Hlive; simpl.
  - reflexivity.
  - destruct (Hlive c (or_introl eq_refl)) as [it Hit].
    unfold bind, deref. rewrite Hit.
    destruct (name it =? part)%string; [reflexivity|].
    apply IH. intros c' Hc'. apply Hlive. right. exact Hc'.
Qed.

Lemma deref_Ok p s it s' : deref p s = Ok it s' <-> heap s !! p = Some it /\ s' = s.
Proof.
  unfold deref. destruct (heap s !! p) as [it'|].
  - split; [intros H; injection H as <- <-; auto | intros [H ->]; injection H as ->; reflexivity].
  - split; [discriminate | intros [H _]; discriminate].
Qed.

(** A computation that only reads: when it returns the state is the one
    it started from, and it throws nothing. *)
Definition readonly {A} (m : M A) : Prop :=
  forall s, match m s with
            | Ok _ s' => s' = s
            | Throw _ _ => False
            | Fault _ => True
            end.

Lemma readonly_ret {A} (a : A) : readonly (ret a).
Proof. intros s. reflexivity. Qed.

Lemma readonly_gets {A} (f : FileSystem -> A) : readonly (gets f).
Proof. intros s. reflexivity. Qed.

Lemma readonly_fail {A} f : readonly (@fail A f).
Proof. intros s. exact I. Qed.

Lemma readonly_deref p : readonly (deref p).
Proof. intros s. unfold deref. destruct (heap s !! p); auto. Qed.

Lemma readonly_bind {A B} (m : M A) (k : A -> M B) :
  readonly m -> (forall a, readonly (k a)) -> readonly (bind m k).
Proof.
  intros Hm Hk s. unfold bind. specialize (Hm s).
  destruct (m s) as [a s1| |]; auto. subst s1. apply Hk.
Qed.

Lemma readonly_Ok {A} (m : M A) s a s' : readonly m -> m s = Ok a s' -> s' = s.
Proof. intros H E. specialize (H s). rewrite E in H. exact H. Qed.

Lemma readonly_Throw {A} (m : M A) s e s' : readonly m -> m s <> Throw e s'.
Proof. intros H E. specialize (H s). rewrite E in H. exact H. Qed.

Create HintDb readonly.
#[export] Hint Resolve readonly_ret readonly_gets readonly_fail readonly_deref : readonly.

Ltac readonly_tac :=
  repeat first
    [ apply readonly_bind; [|intros ?]
    | progress auto with readonly
    | match goal with
      | |- readonly (if ?b then _ else _) => destruct b
      | |- readonly (match ?x with _ => _ end) => destruct x
      end ].

Lemma readonly_findChild cs part : readonly (findChild cs part).
Proof. induction cs as [|c cs IH]; simpl; readonly_tac. Qed.

Lemma readonly_parentOrSelf p : readonly (parentOrSelf p).
Proof. unfold parentOrSelf. readonly_tac. Qed.

#[export] Hint Resolve readonly_findChild readonly_parentOrSelf : readonly.

Lemma readonly_walk parts : forall current, readonly (walk current parts).
Proof. induction parts as [|part rest IH]; intros current; simpl; readonly_tac. Qed.

#[export] Hint Resolve readonly_walk : readonly.

Lemma readonly_getItem path : readonly (getItem path).
Proof. unfold getItem. readonly_tac. Qed.

#[export] Hint Resolve readonly_getItem : readonly.

(** C8. The rules of path resolution, in their order of precedence; the
    segments of a path are those between the separators with the empty
    ones discarded; a named segment selects the first child with exactly
    that name and gives the null result when there is none; resolution
    returns the state it was given and throws nothing. *)
Theorem getItem_resolution (s : FileSystem) (path : string) :
  (path = "" \/ path = "." -> getItem path s = Ok (Some (currentDir s)) s) /\
  (path = "/" -> getItem path s = Ok (Some (root s)) s) /\
  (path = ".." -> forall c, heap s !! currentDir s = Some c ->
     getItem path s = Ok (Some (match parent c with
                                | Some p => p
                                | None => currentDir s
                                end)) s) /\
  (path <> "" -> path <> "." -> path <> "/" -> path <> ".." ->
     getItem path s =
     walk (if beginsWithSlash path then root s else currentDir s) (splitPath path) s) /\
  splitPath path = splitDiscardingEmpty path /\
  (forall current, walk current [] s = Ok (Some current) s) /\
  (forall current rest, walk current ("." :: rest) s = walk current rest s) /\
  (forall current rest c, heap s !! current = Some c ->
     walk current (".." :: rest) s =
     walk (match parent c with Some p => p | None => current end) rest s) /\
  (forall current part rest c,
     part <> "." -> part <> ".." ->
     heap s !! current = Some c -> allLive (heap s) (children c) ->
     walk current (part :: rest) s =
     match childNamed (heap s) (children c) part with
     | Some child => walk child rest s
     | None => Ok None s
     end) /\
  (forall r s', getItem path s = Ok r s' -> s' = s) /\
  (forall e s', getItem path s <> Throw e s').
Proof.
  repeat apply conj.
  - intros [-> | ->]; reflexivity.
  - intros ->. reflexivity.
  - intros -> c Hc. unfold getItem; simpl.
    unfold bind, gets, parentOrSelf, bind, deref, ret. rewrite Hc. reflexivity.
  - intros H1 H2 H3 H4. unfold getItem.
    apply String.eqb_neq in H1, H2, H3, H4. rewrite H1, H2, H3, H4. simpl.
    destruct (beginsWithSlash path); reflexivity.
  - apply splitFrom_segments.
  - reflexivity.
  - reflexivity.
  - intros current rest c Hc. simpl.
    unfold bind, parentOrSelf, bind, deref, ret. rewrite Hc. reflexivity.
  - intros current part rest c H1 H2 Hc Hlive.
    apply String.eqb_neq in H1, H2. simpl. rewrite H1, H2.
    unfold bind at 1, deref. rewrite Hc.
    unfold bind. rewrite (findChild_childNamed _ _ _ Hlive).
    destruct (childNamed (heap s) (children c) part); reflexivity.
  - intros r s'. apply readonly_Ok, readonly_getItem.
  - intros e s'. apply readonly_Throw, readonly_getItem.
Qed.


Lemma getItem_resolution_witness :
  getItem "a" (init 4) = walk 0%nat (splitPath "a") (init 4).
Proof.
  apply (proj1 (proj2 (proj2 (proj2 (getItem_resolution (init 4) "a")))));
    intros H; discriminate H.
Defined.

(** ** mkdir *)

Lemma mkdirStep_dot current d s :
  d = "." \/ d = ".." ->
  mkdirStep current d s =
  Throw (runtime_error ("Invalid directory name in path: " ++ d)%string) s.
Proof. intros [-> | ->]; reflexivity. Qed.

(** C10. When the segments of [path] contain "." or "..", [mkdir path]
    does not succeed.  It processes the segments before that one as
    usual; if one of them already fails, that is the outcome; otherwise it
    throws the invalid-name error for the dot segment, in the very state
    that the earlier segments have produced, so nothing is created for
    the dot segment or after it and what was created before stays. *)
Theorem mkdir_dot_segment (s : FileSystem) (path : string) (pre post : list string) (d : string) :
  splitPath path = pre ++ d :: post ->
  d = "." \/ d = ".." ->
  (forall s', mkdir path s <> Ok tt s') /\
  match foldM mkdirStep pre (if beginsWithSlash path then root s else currentDir s) s with
  | Ok _ s1 =>
      mkdir path s =
      Throw (runtime_error ("Invalid directory name in path: " ++ d)%string) s1
  | Throw e s1 => mkdir path s = Throw e s1
  | Fault f => mkdir path s = Fault f
  end.
Proof.
  intros Hsplit Hd.
  assert (Hmk : mkdir path s =
                bind (foldM mkdirStep pre (if beginsWithSlash path then root s else currentDir s))
                     (fun cur => bind (bind (mkdirStep cur d) (foldM mkdirStep post))
                                      (fun _ => ret tt)) s).
  { unfold mkdir. destruct (path =? "")%string eqn:Hp.
    { apply String.eqb_eq in Hp. subst path. destruct pre; discriminate Hsplit. }
    rewrite Hsplit. destruct (pre ++ d :: post) eqn:Hl.
    { destruct pre; discriminate Hl. }
    rewrite <- Hl.
    unfold bind at 1. unfold bind at 1.
    replace ((if beginsWithSlash path then gets root else gets currentDir) s)
      with (Ok (if beginsWithSlash path then root s else currentDir s) s)
      by (destruct (beginsWithSlash path); reflexivity).
    rewrite foldM_app. unfold bind.
    destruct (foldM mkdirStep pre _ s); reflexivity. }
  rewrite Hmk. unfold bind.
  destruct (foldM mkdirStep pre _ s) as [cur s1| |].
  - rewrite (mkdirStep_dot _ _ _ Hd). split; [discriminate | reflexivity].
  - split; [discriminate | reflexivity].
  - split; [discriminate | reflexivity].
Qed.

Lemma mkdir_dot_segment_witness :
  mkdir "a/../b" (init 4) <> Ok tt (init 4).
Proof.
  apply (proj1 (mkdir_dot_segment (init 4) "a/../b" ["a"] ["b"] ".."
                                  eq_refl (or_intror eq_refl))).
Defined.


(** ** Chunks of a content *)

(** The chunks that the write loops cut: 64 bytes each, the last one
    shorter when the length is no multiple of 64.  [fuel] bounds the
    number of chunks. *)
Fixpoint chunksOf (fuel : nat) (r : list byte) : list (list byte) :=
  match r with
  | [] => []
  | _ :: _ =>
      match fuel with
      | O => []
      | S fuel' => take 64 r :: chunksOf fuel' (drop 64 r)
      end
  end.

Definition chunks (data : list byte) : list (list byte) := chunksOf (length data) data.

(** [ceil(n / 64)]. *)
Definition sectorsNeeded (n : nat) : nat := ((n + 63) / 64)%nat.

Lemma chunksOf_fuel fuel r : (length r <= fuel)%nat -> chunksOf fuel r = chunks r.
Proof.
  unfold chunks. remember (length r) as n eqn:Hn.
  revert r fuel Hn. induction n as [n IH] using lt_wf_ind. intros r fuel Hn Hle.
  destruct r as [|b r]; [destruct fuel, n; reflexivity|].
  destruct fuel as [|fuel]; [simpl in Hn; lia|].
  destruct n as [|n]; [discriminate|].
  cbn [chunksOf]. f_equal.
  assert (Hd : (length (drop 64 (b :: r)) <= n)%nat).
  { rewrite length_drop. simpl in *. lia. }
  rewrite (IH (length (drop 64 (b :: r))) ltac:(lia) _ fuel eq_refl) by (simpl in *; lia).
  rewrite (IH (length (drop 64 (b :: r))) ltac:(lia) _ n eq_refl) by lia.
  reflexivity.
Qed.

Lemma chunks_nil : chunks [] = [].
Proof. reflexivity. Qed.

Lemma chunks_cons b r : chunks (b :: r) = take 64 (b :: r) :: chunks (drop 64 (b :: r)).
Proof.
  unfold chunks at 1. cbn [length chunksOf]. f_equal.
  apply chunksOf_fuel. rewrite length_drop. simpl. lia.
Qed.

Lemma chunks_ind (P : list byte -> Prop) :
  P [] ->
  (forall b r, P (drop 64 (b :: r)) -> P (b :: r)) ->
  forall data, P data.
Proof.
  intros Hnil Hcons data.
  remember (length data) as n eqn:Hn. revert data Hn.
  induction n as [n IH] using lt_wf_ind. intros data Hn.
  destruct data as [|b r]; [exact Hnil|].
  apply Hcons. apply (IH (length (drop 64 (b :: r)))); [|reflexivity].
  rewrite length_drop. subst n. simpl. lia.
Qed.

Lemma length_chunks data : length (chunks data) = sectorsNeeded (length data).
Proof.
  induction data as [|b r IH] using chunks_ind; [reflexivity|].
  rewrite chunks_cons. cbn [length]. rewrite IH, length_drop. unfold sectorsNeeded.
  simpl length. generalize (length r). intros n.
  destruct (le_lt_dec 64 (S n)) as [Hge|Hlt].
  - replace (S n + 63)%nat with ((S n - 64 + 63) + 1 * 64)%nat by lia.
    rewrite Nat.div_add by lia. lia.
  - replace (S n - 64)%nat with 0%nat by lia.
    rewrite (Nat.div_small (0 + 63)) by lia.
    assert (H : ((S n + 63) / 64 = 1)%nat).
    { replace (S n + 63)%nat with (n + 1 * 64)%nat by lia.
      rewrite Nat.div_add by lia. rewrite Nat.div_small by lia. reflexivity. }
    rewrite H. reflexivity.
Qed.

Lemma concat_chunks data : concat (chunks data) = data.
Proof.
  induction data as [|b r IH] using chunks_ind; [reflexivity|].
  rewrite chunks_cons. cbn [concat]. rewrite IH. apply take_drop.
Qed.

Lemma chunks_nonempty data c : In c (chunks data) -> c <> [] /\ (length c <= 64)%nat.
Proof.
  induction data as [|b r IH] using chunks_ind; [intros []|].
  rewrite chunks_cons. intros [<- | Hin]; [|auto].
  split; [discriminate|]. rewrite length_take. lia.
Qed.

(** ** Integer conversions on values in range *)

Lemma to_int_small z : - 2 ^ 31 <= z <= INT_MAX -> to_int z = z.
Proof. unfold to_int, INT_MAX. intros H. rewrite Z.mod_small; lia. Qed.

Lemma to_size_t_small z : 0 <= z < 2 ^ 64 -> to_size_t z = z.
Proof. unfold to_size_t. intros H. apply Z.mod_small. exact H. Qed.

(** One turn of a write loop at position [pos]: the chunk it cuts and the
    position it moves to. *)
Lemma chunk_step data pos :
  fitsInt data -> 0 <= pos < Z.of_nat (length data) ->
  exists b r,
    drop (Z.to_nat pos) data = b :: r /\
    (to_size_t pos <? Z.of_nat (length data)) = true /\
    substr data pos (chunkLen data pos) = take 64 (b :: r) /\
    0 <= pos + chunkLen data pos <= Z.of_nat (length data) /\
    drop (Z.to_nat (pos + chunkLen data pos)) data = drop 64 (b :: r).
Proof.
  intros Hfit Hpos. unfold fitsInt, INT_MAX in Hfit.
  destruct (drop (Z.to_nat pos) data) as [|b r] eqn:Hdrop.
  { apply (f_equal length) in Hdrop. rewrite length_drop in Hdrop. simpl in Hdrop. lia. }
  exists b, r. split; [reflexivity|].
  rewrite to_size_t_small by lia.
  split; [apply Z.ltb_lt; lia|].
  unfold chunkLen, substr, SECTOR_SIZE. rewrite to_int_small by (unfold INT_MAX; lia).
  rewrite (to_size_t_small pos) by lia.
  assert (Hlen : length (b :: r) = (length data - Z.to_nat pos)%nat).
  { rewrite <- Hdrop. apply length_drop. }
  rewrite Hdrop.
  destruct (Z_le_gt_dec 64 (Z.of_nat (length data) - pos)) as [Hbig|Hsmall].
  - rewrite Z.min_l by lia. rewrite to_size_t_small by lia.
    split; [reflexivity|]. split; [lia|].
    rewrite <- Hdrop, drop_drop. f_equal. lia.
  - rewrite Z.min_r by lia. rewrite to_size_t_small by lia.
    split.
    + rewrite !take_ge; [reflexivity | lia | lia].
    + split; [lia|].
      rewrite !drop_ge; [reflexivity | lia | lia].
Qed.

Lemma chunk_stop data pos :
  fitsInt data -> Z.of_nat (length data) <= pos <= INT_MAX ->
  (to_size_t pos <? Z.of_nat (length data)) = false.
Proof.
  intros Hfit Hpos. unfold INT_MAX in *. rewrite to_size_t_small by lia.
  apply Z.ltb_ge. lia.
Qed.


(** ** The content writer as a function of bitmap and disk *)

(** What the loop of [saveToDisk] does to the bitmap and the disk when it
    has the chunks [cs] to store: the ids it claims, in order, the bitmap
    and disk it ends with, and whether every chunk found a sector. *)
Fixpoint storeChunks (cs : list (list byte)) (m : list bool) (d : list (list byte))
  : list Z * list bool * list (list byte) * bool :=
  match cs with
  | [] => ([], m, d, true)
  | c :: cs' =>
      match firstFree 0 m with
      | None => ([], m, d, false)
      | Some i =>
          let '(ids, m', d', ok) :=
            storeChunks cs' (<[Z.to_nat i := true]> m) (<[Z.to_nat i := c]> (growDisk i d)) in
          (i :: ids, m', d', ok)
      end
  end.

Definition stored (s : FileSystem) (file : ptr) (it : Item)
           (r : list Z * list bool * list (list byte) * bool) : result unit :=
  let '(ids, m', d', ok) := r in
  let s' := mkFS d' m' (<[file := set_sectors (sectors it ++ ids) it]> (heap s))
                 (brk s) (root s) (currentDir s) (totalSectors s) in
  if ok then Ok tt s' else Throw (runtime_error "No free sectors available") s'.

Lemma set_sectors_id it : set_sectors (sectors it) it = it.
Proof. destruct it; reflexivity. Qed.

Lemma set_sectors_twice l1 l2 it : set_sectors l1 (set_sectors l2 it) = set_sectors l1 it.
Proof. reflexivity. Qed.

Lemma FileSystem_eta s :
  mkFS (disk s) (sectorMap s) (heap s) (brk s) (root s) (currentDir s) (totalSectors s) = s.
Proof. destruct s; reflexivity. Qed.

Lemma saveLoop_run file data : fitsInt data ->
  forall fuel pos s it,
    0 <= pos <= Z.of_nat (length data) ->
    (length (drop (Z.to_nat pos) data) <= fuel)%nat ->
    heap s !! file = Some it ->
    saveLoop fuel file data pos s =
    stored s file it (storeChunks (chunks (drop (Z.to_nat pos) data)) (sectorMap s) (disk s)).
Proof.
  intros Hfit fuel. induction fuel as [|fuel IH]; intros pos s it Hpos Hfuel Hit.
  - assert (Hend : pos = Z.of_nat (length data)).
    { rewrite length_drop in Hfuel. lia. }
    unfold saveLoop. rewrite (chunk_stop data pos Hfit) by (unfold fitsInt in Hfit; split; [lia | subst pos; exact Hfit]).
    rewrite drop_ge by lia. simpl. unfold ret.
    rewrite app_nil_r, set_sectors_id, insert_id by exact Hit.
    rewrite FileSystem_eta. reflexivity.
  - destruct (Z.eq_dec pos (Z.of_nat (length data))) as [Hend|Hne].
    + simpl. rewrite (chunk_stop data pos Hfit) by (unfold fitsInt in Hfit; split; [lia | subst pos; exact Hfit]).
      rewrite drop_ge by lia. simpl. unfold ret.
      rewrite app_nil_r, set_sectors_id, insert_id by exact Hit.
      rewrite FileSystem_eta. reflexivity.
    + destruct (chunk_step data pos Hfit ltac:(lia)) as (b & r & Hdrop & Hlt & Hsub & Hnext & Hrest).
      cbn [saveLoop]. rewrite Hlt, Hdrop, chunks_cons. cbn [storeChunks].
      unfold bind at 1. unfold allocateSector.
      destruct (firstFree 0 (sectorMap s)) as [i|] eqn:Hfree.
      * unfold bind at 1. unfold update at 1. cbn [heap set_sectorMap]. rewrite Hit.
        unfold bind at 1. unfold writeSlot, modify.
        rewrite IH with (it := set_sectors (sectors it ++ [i]) it).
        -- cbn [sectorMap disk heap set_disk set_heap set_sectorMap brk root currentDir totalSectors].
           rewrite Hsub, Hrest.
           destruct (storeChunks (chunks (drop 64 (b :: r))) _ _) as [[[ids m'] d'] ok].
           unfold stored.
           cbn [sectorMap disk heap set_disk set_heap set_sectorMap brk root currentDir totalSectors sectors].
           rewrite insert_insert_eq. unfold set_sectors.
           cbn [sectors isFolder name content children parent]. rewrite <- app_assoc. reflexivity.
        -- lia.
        -- rewrite Hrest, length_drop.
           apply (f_equal length) in Hdrop. rewrite length_drop in Hdrop.
           rewrite length_drop in Hfuel. lia.
        -- cbn. apply lookup_insert_eq.
      * unfold stored. rewrite app_nil_r, set_sectors_id, insert_id by exact Hit.
        rewrite FileSystem_eta. reflexivity.
Qed.


Lemma growDisk_lookup sector (d : list (list byte)) (j : nat) :
  (j < length d)%nat -> growDisk sector d !! j = d !! j.
Proof. intros H. unfold growDisk. apply lookup_app_l. exact H. Qed.

Lemma growDisk_length sector (d : list (list byte)) :
  0 <= sector -> (Z.to_nat sector < length (growDisk sector d))%nat /\
                 (length d <= length (growDisk sector d))%nat.
Proof. intros H. unfold growDisk. rewrite length_app, length_replicate. lia. Qed.

Record storeSpec (cs : list (list byte)) (m : list bool) (d : list (list byte))
       (ids : list Z) (m' : list bool) (d' : list (list byte)) (ok : bool) : Prop := {
  store_count : (length ids <= length cs)%nat;
  store_all : ok = true -> length ids = length cs;
  store_full : ok = false ->
               (length ids < length cs)%nat /\ forall j : nat, m' !! j <> Some false;
  store_nodup : NoDup ids;
  store_fresh : forall id, id ∈ ids ->
                0 <= id /\ m !! Z.to_nat id = Some false /\ m' !! Z.to_nat id = Some true;
  store_map_length : length m' = length m;
  store_map_other : forall j : nat, (forall id, id ∈ ids -> Z.to_nat id <> j) -> m' !! j = m !! j;
  store_slot : forall k id, ids !! k = Some id -> d' !! Z.to_nat id = cs !! k;
  store_disk_other : forall j : nat, (forall id, id ∈ ids -> Z.to_nat id <> j) ->
                     (j < length d)%nat -> d' !! j = d !! j;
  store_disk_length : (length d <= length d')%nat
}.

Lemma storeChunks_spec cs : forall m d ids m' d' ok,
  storeChunks cs m d = (ids, m', d', ok) -> storeSpec cs m d ids m' d' ok.
Proof.
  induction cs as [|c cs IH]; intros m d ids m' d' ok H; simpl in H.
  - injection H as <- <- <- <-.
    constructor; simpl; auto; try discriminate; try apply NoDup_nil_2;
      try (intros ? Hin; inversion Hin);
      try (intros ? ? Hk; rewrite lookup_nil in Hk; discriminate).
  - destruct (firstFree 0 m) as [i|] eqn:Hfree.
    + destruct (storeChunks cs _ _) as [[[ids1 m1] d1] ok1] eqn:Hrec.
      injection H as <- <- <- <-. apply IH in Hrec as [].
      apply firstFree_Some in Hfree as (Hi0 & Hi & _). rewrite Z.sub_0_r in Hi.
      pose proof (lookup_lt_Some _ _ _ Hi) as Hilt.
      assert (Hnotin : i ∉ ids1).
      { intros Hin. destruct (store_fresh0 i Hin) as (_ & Hf & _).
        rewrite list_lookup_insert_eq in Hf by exact Hilt. discriminate. }
      constructor; simpl.
      * lia.
      * intros Hok. rewrite store_all0; auto.
      * intros Hok. destruct (store_full0 Hok). split; [lia | assumption].
      * apply NoDup_cons. auto.
      * intros id Hin. apply elem_of_cons in Hin as [-> | Hin].
        -- split; [exact Hi0|]. split; [exact Hi|].
           rewrite store_map_other0.
           ++ apply list_lookup_insert_eq. exact Hilt.
           ++ intros id Hid Heq. apply Hnotin.
              destruct (store_fresh0 id Hid) as (Hid0 & _).
              replace i with id by lia. exact Hid.
        -- destruct (store_fresh0 id Hin) as (Hid0 & Hf & Ht).
           split; [exact Hid0|]. split; [|exact Ht].
           rewrite list_lookup_insert_ne in Hf; [exact Hf|].
           intros Heq. apply Hnotin. replace i with id by lia. exact Hin.
      * rewrite store_map_length0. apply length_insert.
      * intros j Hj. rewrite store_map_other0.
        -- apply list_lookup_insert_ne. apply Hj. left.
        -- intros id Hid. apply Hj. right. exact Hid.
      * intros [|k] id Hk; simpl in Hk.
        -- injection Hk as <-. simpl. rewrite store_disk_other0.
           ++ apply list_lookup_insert_eq. apply growDisk_length. exact Hi0.
           ++ intros id Hid Heq. apply Hnotin.
              destruct (store_fresh0 id Hid) as (Hid0 & _).
              replace i with id by lia. exact Hid.
           ++ rewrite length_insert. apply growDisk_length. exact Hi0.
        -- simpl. apply store_slot0. exact Hk.
      * intros j Hj Hlt. rewrite store_disk_other0.
        -- rewrite list_lookup_insert_ne by (apply Hj; left).
           apply growDisk_lookup. exact Hlt.
        -- intros id Hid. apply Hj. right. exact Hid.
        -- rewrite length_insert. pose proof (growDisk_length i d Hi0). lia.
      * rewrite length_insert in store_disk_length0.
        pose proof (growDisk_length i d Hi0). lia.
    + injection H as <- <- <- <-.
      constructor; simpl; auto; try discriminate; try lia; try apply NoDup_nil_2;
        try (intros ? Hin; inversion Hin);
        try (intros ? ? Hk; rewrite lookup_nil in Hk; discriminate).
      intros _. split; [lia|]. apply firstFree_None with (k := 0). exact Hfree.
Qed.


(** The bitmap after [freeSector] has run over the ids [l]. *)
Definition clearAll (l : list Z) (m : list bool) : list bool :=
  fold_left (fun m id => <[Z.to_nat id := false]> m) l m.

Definition validSector (m : list bool) (id : Z) : Prop :=
  0 <= id < Z.of_nat (length m).

Lemma clearAll_snoc l x m :
  clearAll (l ++ [x]) m = <[Z.to_nat x := false]> (clearAll l m).
Proof. unfold clearAll. rewrite fold_left_app. reflexivity. Qed.

Lemma length_clearAll l m : length (clearAll l m) = length m.
Proof.
  induction l as [|x l IH] using rev_ind; [reflexivity|].
  rewrite clearAll_snoc, length_insert. exact IH.
Qed.

Lemma clearAll_other l m (j : nat) :
  (forall id, id ∈ l -> Z.to_nat id <> j) -> clearAll l m !! j = m !! j.
Proof.
  induction l as [|x l IH] using rev_ind; intros H; [reflexivity|].
  rewrite clearAll_snoc, list_lookup_insert_ne.
  - apply IH. intros id Hin. apply H. apply elem_of_app. left. exact Hin.
  - apply H. apply elem_of_app. right. left.
Qed.

Lemma clearAll_cleared l m id :
  id ∈ l -> (Z.to_nat id < length m)%nat -> clearAll l m !! Z.to_nat id = Some false.
Proof.
  induction l as [|x l IH] using rev_ind; intros Hin Hlt; [inversion Hin|].
  rewrite clearAll_snoc.
  destruct (decide (Z.to_nat x = Z.to_nat id)) as [Heq|Hne].
  - rewrite Heq. apply list_lookup_insert_eq. rewrite length_clearAll. exact Hlt.
  - rewrite list_lookup_insert_ne by exact Hne. apply IH; [|exact Hlt].
    apply elem_of_app in Hin as [Hin | Hin]; [exact Hin|].
    apply list_elem_of_singleton in Hin. subst. contradiction.
Qed.

(** The loop [for (int sector : file->sectors) freeSector(sector)]. *)
Lemma freeAll_run l : forall s,
  match forM l freeSector s with
  | Ok _ s' => Forall (validSector (sectorMap s)) l /\
               s' = set_sectorMap (clearAll l (sectorMap s)) s
  | Throw e _ => exists id, e = out_of_range id
  | Fault _ => False
  end.
Proof.
  unfold forM. induction l as [|x l IH]; intros s; simpl.
  - split; [constructor|]. destruct s; reflexivity.
  - unfold bind. destruct (freeSector x s) as [[] s1| |] eqn:E.
    + apply freeSector_Ok in E as [Hx ->].
      specialize (IH (set_sectorMap (<[Z.to_nat x := false]> (sectorMap s)) s)).
      destruct (foldM _ l tt _) as [[] s2| |]; auto.
      destruct IH as [Hall ->]. simpl in *. split; [|reflexivity].
      constructor; [exact Hx|].
      eapply Forall_impl; [exact Hall|]. unfold validSector.
      intros id. rewrite length_insert. auto.
    + unfold freeSector in E.
      destruct ((x <? 0) || (Z.of_nat (length (sectorMap s)) <=? x)); [|discriminate].
      injection E as <- _. eauto.
    + unfold freeSector in E.
      destruct ((x <? 0) || (Z.of_nat (length (sectorMap s)) <=? x)); discriminate.
Qed.

Definition saved (s : FileSystem) (file : ptr) (it : Item)
           (r : list Z * list bool * list (list byte) * bool) : result unit :=
  let '(ids, m', d', ok) := r in
  let s' := mkFS d' m' (<[file := set_sectors ids it]> (heap s))
                 (brk s) (root s) (currentDir s) (totalSectors s) in
  if ok then Ok tt s' else Throw (runtime_error "No free sectors available") s'.

(** [saveToDisk] on a file, when the freeing loop goes through. *)
Lemma saveToDisk_run s f it s1 :
  heap s !! f = Some it -> isFolder it = false -> fitsInt (content it) ->
  forM (sectors it) freeSector s = Ok tt s1 ->
  saveToDisk (Some f) s =
  saved s f it (storeChunks (chunks (content it))
                            (clearAll (sectors it) (sectorMap s)) (disk s)).
Proof.
  intros Hit Hfile Hfit Hfree.
  pose proof (freeAll_run (sectors it) s) as Hrun. rewrite Hfree in Hrun.
  destruct Hrun as [_ ->].
  unfold saveToDisk. unfold bind at 1. unfold deref. rewrite Hit, Hfile.
  unfold bind at 1. rewrite Hfree.
  unfold bind at 1. unfold update. cbn [heap set_sectorMap]. rewrite Hit.
  rewrite saveLoop_run with (it := set_sectors [] it).
  - cbn [sectorMap disk heap set_heap set_sectorMap brk root currentDir totalSectors].
    rewrite drop_0.
    destruct (storeChunks _ _ _) as [[[ids m'] d'] ok]. unfold stored, saved.
    cbn [sectorMap disk heap set_heap set_sectorMap brk root currentDir totalSectors].
    rewrite insert_insert_eq. reflexivity.
  - exact Hfit.
  - lia.
  - rewrite drop_0. reflexivity.
  - cbn. apply lookup_insert_eq.
Qed.

(** A write through [put] that runs out of sectors, on a disk of one
    sector: the new file stays in the tree with one sector for its 70
    bytes. *)
Example put_disk_full :
  put "f" (Some (replicate 70 x41)) "." (init 1) =
  Throw (runtime_error "No free sectors available")
        (mkFS [replicate 64 x41] [true]
              (<[1%nat := mkItem false "f" (replicate 70 x41) [0] [] (Some 0%nat)]>
                 {[ 0%nat := mkItem true "/" [] [] [1%nat] None ]})
              2%nat 0%nat 0%nat 1).
Proof. vm_compute. reflexivity. Qed.


(** ** mv of a directory below itself *)

(** The state after [mkdir a] on a fresh filesystem of four sectors. *)
Definition oneDirState : FileSystem :=
  mkFS [[]; []; []; []] [false; false; false; false]
       (<[1%nat := mkItem true "a" [] [] [] (Some 0%nat)]>
          {[ 0%nat := mkItem true "/" [] [] [1%nat] None ]})
       2%nat 0%nat 0%nat 4.

Example mkdir_a : mkdir "a" (init 4) = Ok tt oneDirState.
Proof. vm_compute. reflexivity. Qed.

(** C2. [mv a a/b] is not rejected: [a/b] does not resolve, so the loop
    over the ancestors of the destination has nothing to walk, and the
    rename branch then takes [a] itself as destination directory.  The
    call returns normally; [a] has left the root's children and is its
    own parent and its own child. *)
Theorem mv_into_own_subtree_accepted :
  mv "a" "a/b" oneDirState =
  Ok tt (mkFS [[]; []; []; []] [false; false; false; false]
              (<[1%nat := mkItem true "b" [] [] [1%nat] (Some 1%nat)]>
                 {[ 0%nat := mkItem true "/" [] [] [] None ]})
              2%nat 0%nat 0%nat 4).
Proof. vm_compute. reflexivity. Qed.

(** The root can be moved the same way: [mv / x] makes it its own child. *)
Example mv_root_accepted :
  mv "/" "x" (init 4) =
  Ok tt (mkFS [[]; []; []; []] [false; false; false; false]
              {[ 0%nat := mkItem true "x" [] [] [0%nat] (Some 0%nat) ]}
              1%nat 0%nat 0%nat 4).
Proof. vm_compute. reflexivity. Qed.

(** ** rm *)

(** [deleteTree] and [freeSectorsRecursive] create no object and change
    none: the heap they leave is a part of the heap they found. *)
Definition heapShrinks (s s' : FileSystem) : Prop := heap s' ⊆ heap s.

Lemma heapShrinks_refl s : heapShrinks s s.
Proof. unfold heapShrinks. reflexivity. Qed.

Lemma heapShrinks_trans s1 s2 s3 :
  heapShrinks s1 s2 -> heapShrinks s2 s3 -> heapShrinks s1 s3.
Proof. unfold heapShrinks. intros H1 H2. etransitivity; eassumption. Qed.

Lemma forM_invariant {B} (R : FileSystem -> FileSystem -> Prop) (body : B -> M unit) l :
  (forall s, R s s) ->
  (forall s1 s2 s3, R s1 s2 -> R s2 s3 -> R s1 s3) ->
  (forall x, In x l -> forall s s', body x s = Ok tt s' -> R s s') ->
  forall s s', forM l body s = Ok tt s' -> R s s'.
Proof.
  intros Hrefl Htrans. unfold forM.
  induction l as [|x l IH]; intros Hbody s s' H; simpl in H.
  - injection H as <-. apply Hrefl.
  - apply bind_Ok in H as ([] & s1 & H1 & H2).
    eapply Htrans.
    + eapply Hbody; [left; reflexivity | exact H1].
    + apply IH; [|exact H2]. intros y Hy. apply Hbody. right. exact Hy.
Qed.

Lemma freeSector_heap sector s s' : freeSector sector s = Ok tt s' -> heap s' = heap s.
Proof. intros H. apply freeSector_Ok in H as [_ ->]. reflexivity. Qed.

Lemma freeSectorsRecursive_heap fuel : forall item s s',
  freeSectorsRecursive fuel item s = Ok tt s' -> heap s' = heap s.
Proof.
  induction fuel as [|fuel IH]; intros [i|] s s' H; simpl in H;
    try discriminate; try (injection H as <-; reflexivity).
  apply bind_Ok in H as (it & s1 & H1 & H).
  apply deref_Ok in H1 as [_ ->].
  apply bind_Ok in H as ([] & s1 & H1 & H).
  transitivity (heap s1).
  - revert H. apply (forM_invariant (fun a b => heap b = heap a)); auto.
    + intros a b c -> ->. reflexivity.
    + intros x _ a b. apply IH.
  - destruct (negb (isFolder it)); [|injection H1 as <-; reflexivity].
    revert H1. apply (forM_invariant (fun a b => heap b = heap a)); auto.
    + intros a b c -> ->. reflexivity.
    + intros x _ a b. apply freeSector_heap.
Qed.

Lemma deleteTree_deletes fuel : forall n s s',
  deleteTree fuel (Some n) s = Ok tt s' ->
  heap s' !! n = None /\ heapShrinks s s'.
Proof.
  induction fuel as [|fuel IH]; intros n s s' H; cbn [deleteTree] in H; [discriminate|].
  apply bind_Ok in H as (it & s1 & H1 & H). apply deref_Ok in H1 as [_ ->].
  apply bind_Ok in H as ([] & s1 & H1 & H).
  apply bind_Ok in H as ([] & s2 & H2 & H).
  assert (Hs1 : heapShrinks s s1).
  { revert H1. apply (forM_invariant heapShrinks).
    - apply heapShrinks_refl.
    - apply heapShrinks_trans.
    - intros x _ a b Hx. apply (IH _ _ _ Hx). }
  apply freeSectorsRecursive_heap in H2.
  unfold delete_ in H. destruct (heap s2 !! n); [|discriminate].
  injection H as <-. cbn [heap set_heap]. split.
  - apply lookup_delete_eq.
  - unfold heapShrinks in *. cbn [heap set_heap]. rewrite H2.
    etransitivity; [apply delete_subseteq | exact Hs1].
Qed.

(** A node that still has children when [deleteTree] reaches it: the
    children are deleted first, and the call of [freeSectorsRecursive] on
    the node then reads the first of them.  No such call returns. *)
Lemma deleteTree_use_after_free fuel n s it :
  heap s !! n = Some it -> children it <> [] ->
  forall s', deleteTree fuel (Some n) s <> Ok tt s'.
Proof.
  intros Hit Hne s' H. destruct fuel as [|fuel]; [discriminate|].
  cbn [deleteTree] in H.
  apply bind_Ok in H as (it' & s1 & H1 & H). apply deref_Ok in H1 as [Hit' ->].
  rewrite Hit in Hit'. injection Hit' as <-.
  apply bind_Ok in H as ([] & s1 & H1 & H).
  apply bind_Ok in H as ([] & s2 & H2 & _).
  destruct (children it) as [|c cs] eqn:Hcs; [contradiction|].
  assert (Hsh : heapShrinks s s1 /\ heap s1 !! c = None).
  { unfold forM in H1. simpl in H1.
    apply bind_Ok in H1 as ([] & s0 & Hc & Hrest).
    apply deleteTree_deletes in Hc as [Hc Hs0].
    assert (Hsh : heapShrinks s0 s1).
    { revert Hrest. apply (forM_invariant heapShrinks (fun child => deleteTree fuel (Some child))).
      - apply heapShrinks_refl.
      - apply heapShrinks_trans.
      - intros x _ a b Hx. apply (deleteTree_deletes _ _ _ _ Hx). }
    split; [eapply heapShrinks_trans; eassumption|].
    eapply lookup_weaken_None; [exact Hc | exact Hsh]. }
  destruct Hsh as [Hsh Hc].
  cbn [freeSectorsRecursive] in H2.
  apply bind_Ok in H2 as (itn & s3 & H3 & H2). apply deref_Ok in H3 as [Hn ->].
  assert (itn = it) as ->.
  { pose proof (lookup_weaken _ _ _ _ Hn Hsh) as Hn'. congruence. }
  apply bind_Ok in H2 as ([] & s3 & H3 & H2).
  assert (Hheap : heap s3 = heap s1).
  { destruct (negb (isFolder it)); [|injection H3 as <-; reflexivity].
    revert H3. apply (forM_invariant (fun a b => heap b = heap a)); auto.
    - intros a b c0 -> ->. reflexivity.
    - intros x _ a b. apply freeSector_heap. }
  rewrite Hcs in H2. unfold forM in H2. simpl in H2.
  apply bind_Ok in H2 as ([] & s4 & H4 & _).
  destruct fuel as [|fuel]; [discriminate|].
  cbn [freeSectorsRecursive] in H4.
  apply bind_Ok in H4 as (itc & s5 & H5 & _). apply deref_Ok in H5 as [H5 _].
  rewrite Hheap, Hc in H5. discriminate.
Qed.

(** Without the flag, a directory that has children is refused before
    anything is changed. *)
Lemma rm_not_empty_refused name s c t it :
  heap s !! currentDir s = Some c ->
  findChild (children c) name s = Ok (Some t) s ->
  heap s !! t = Some it -> isFolder it = true -> children it <> [] ->
  rm name false s =
  Throw (runtime_error "Directory is not empty. Use -r flag to remove recursively") s.
Proof.
  intros Hc Hfind Ht Hfolder Hkids. unfold rm, bind, gets, deref.
  rewrite Hc, Hfind, Ht, Hfolder. destruct (children it); [contradiction|]. reflexivity.
Qed.

(** The state after [mkdir d] and [put f d] with a one-byte file, on a
    fresh filesystem of four sectors. *)
Definition dirWithFileState : FileSystem :=
  mkFS [[x41]; []; []; []] [true; false; false; false]
       (<[2%nat := mkItem false "f" [x41] [0] [] (Some 1%nat)]>
          (<[1%nat := mkItem true "d" [] [] [2%nat] (Some 0%nat)]>
             {[ 0%nat := mkItem true "/" [] [] [1%nat] None ]}))
       3%nat 0%nat 0%nat 4.

Example dirWithFileState_reached :
  bind (mkdir "d") (fun _ => put "f" (Some [x41]) "d") (init 4) = Ok tt dirWithFileState.
Proof. vm_compute. reflexivity. Qed.

(** C5. Removing the non-empty directory [d] recursively has no defined
    result: [deleteTree] deletes the file below [d] and
    [freeSectorsRecursive] then reads it through [d]'s child list.
    Without the flag the call is refused and nothing changes. *)
Theorem rm_recursive_reads_deleted_child :
  rm "d" true dirWithFileState = Fault invalid_access /\
  rm "d" false dirWithFileState =
  Throw (runtime_error "Directory is not empty. Use -r flag to remove recursively")
        dirWithFileState.
Proof. split; vm_compute; reflexivity. Qed.


(** ** The loop of defrag as a function of bitmap and disk *)

(** What the inner loop of [defrag] does when it has the chunks [cs] to
    place from sector [next] on, on a disk of [total] sectors: the ids it
    assigns, the bitmap and disk it ends with, and whether every chunk
    was placed. *)
Fixpoint placeChunks (cs : list (list byte)) (next total : Z)
         (m : list bool) (d : list (list byte))
  : list Z * list bool * list (list byte) * bool :=
  match cs with
  | [] => ([], m, d, true)
  | c :: cs' =>
      if total <=? next then ([], m, d, false)
      else
        let '(ids, m', d', ok) :=
          placeChunks cs' (next + 1) total
                      (<[Z.to_nat next := true]> m)
                      (<[Z.to_nat next := c]> (growDisk next d)) in
        (next :: ids, m', d', ok)
  end.

Definition placed (s : FileSystem) (file : ptr) (it : Item) (next : Z)
           (r : list Z * list bool * list (list byte) * bool) : result Z :=
  let '(ids, m', d', ok) := r in
  let s' := mkFS d' m' (<[file := set_sectors (sectors it ++ ids) it]> (heap s))
                 (brk s) (root s) (currentDir s) (totalSectors s) in
  if ok then Ok (next + Z.of_nat (length ids)) s' else Throw (runtime_error "Disk is full") s'.

(** The bitmap has one entry per sector. *)
Definition mapOk (s : FileSystem) : Prop :=
  Z.of_nat (length (sectorMap s)) = totalSectors s.

Lemma defragLoop_run file data : fitsInt data ->
  forall fuel pos next s it,
    0 <= pos <= Z.of_nat (length data) ->
    (length (drop (Z.to_nat pos) data) <= fuel)%nat ->
    0 <= next -> mapOk s ->
    heap s !! file = Some it ->
    defragLoop fuel file data pos next s =
    placed s file it next
           (placeChunks (chunks (drop (Z.to_nat pos) data)) next (totalSectors s)
                        (sectorMap s) (disk s)).
Proof.
  intros Hfit fuel. induction fuel as [|fuel IH]; intros pos next s it Hpos Hfuel Hnext Hmap Hit.
  - assert (Hend : pos = Z.of_nat (length data)).
    { rewrite length_drop in Hfuel. lia. }
    unfold defragLoop.
    rewrite (chunk_stop data pos Hfit) by (unfold fitsInt in Hfit; split; [lia | subst pos; exact Hfit]).
    rewrite drop_ge by lia. simpl. unfold ret.
    rewrite app_nil_r, set_sectors_id, insert_id by exact Hit.
    rewrite FileSystem_eta, Z.add_0_r. reflexivity.
  - destruct (Z.eq_dec pos (Z.of_nat (length data))) as [Hend|Hne].
    + simpl.
      rewrite (chunk_stop data pos Hfit) by (unfold fitsInt in Hfit; split; [lia | subst pos; exact Hfit]).
      rewrite drop_ge by lia. simpl. unfold ret.
      rewrite app_nil_r, set_sectors_id, insert_id by exact Hit.
      rewrite FileSystem_eta, Z.add_0_r. reflexivity.
    + destruct (chunk_step data pos Hfit ltac:(lia)) as (b & r & Hdrop & Hlt & Hsub & Hnext' & Hrest).
      cbn [defragLoop]. rewrite Hlt, Hdrop, chunks_cons. cbn [placeChunks].
      unfold bind at 1. unfold gets at 1.
      destruct (totalSectors s <=? next) eqn:Hfull.
      * unfold throw, placed. rewrite app_nil_r, set_sectors_id, insert_id by exact Hit.
        rewrite FileSystem_eta. reflexivity.
      * apply Z.leb_gt in Hfull.
        unfold bind at 1. unfold markSector at 1.
        replace (Z.of_nat (length (sectorMap s)) <=? next) with false
          by (symmetry; apply Z.leb_gt; unfold mapOk in Hmap; lia).
        unfold bind at 1. unfold update at 1. cbn [heap set_sectorMap]. rewrite Hit.
        unfold bind at 1. unfold writeSlot, modify.
        rewrite IH with (it := set_sectors (sectors it ++ [next]) it).
        -- cbn [sectorMap disk heap set_disk set_heap set_sectorMap brk root currentDir totalSectors].
           rewrite Hsub, Hrest.
           destruct (placeChunks (chunks (drop 64 (b :: r))) _ _ _ _) as [[[ids m'] d'] ok].
           unfold placed.
           cbn [sectorMap disk heap set_disk set_heap set_sectorMap brk root currentDir totalSectors sectors].
           rewrite insert_insert_eq. unfold set_sectors.
           cbn [sectors isFolder name content children parent length].
           rewrite <- app_assoc.
           replace (next + 1 + Z.of_nat (length ids)) with (next + Z.of_nat (S (length ids))) by lia.
           reflexivity.
        -- lia.
        -- rewrite Hrest, length_drop.
           apply (f_equal length) in Hdrop. rewrite length_drop in Hdrop.
           rewrite length_drop in Hfuel. lia.
        -- lia.
        -- unfold mapOk. cbn. rewrite length_insert. exact Hmap.
        -- cbn. apply lookup_insert_eq.
Qed.

Record placeSpec (cs : list (list byte)) (next total : Z) (m : list bool) (d : list (list byte))
       (ids : list Z) (m' : list bool) (d' : list (list byte)) (ok : bool) : Prop := {
  place_ids : ids = seqZ next (Z.of_nat (length ids));
  place_count : (length ids <= length cs)%nat;
  place_all : ok = true -> length ids = length cs;
  place_full : ok = false -> (length ids < length cs)%nat;
  place_bound : ids <> [] -> next + Z.of_nat (length ids) <= total;
  place_map_length : length m' = length m;
  place_map_in : forall j : nat, next <= Z.of_nat j < next + Z.of_nat (length ids) ->
                 (j < length m)%nat -> m' !! j = Some true;
  place_map_other : forall j : nat,
                    ~ (next <= Z.of_nat j < next + Z.of_nat (length ids)) -> m' !! j = m !! j;
  place_slot : forall k : nat, (k < length ids)%nat ->
               d' !! Z.to_nat (next + Z.of_nat k) = cs !! k;
  place_disk_other : forall j : nat,
                     ~ (next <= Z.of_nat j < next + Z.of_nat (length ids)) ->
                     (j < length d)%nat -> d' !! j = d !! j;
  place_disk_length : (length d <= length d')%nat
}.

Lemma placeChunks_spec cs total : forall next m d ids m' d' ok,
  0 <= next ->
  placeChunks cs next total m d = (ids, m', d', ok) ->
  placeSpec cs next total m d ids m' d' ok.
Proof.
  induction cs as [|c cs IH]; intros next m d ids m' d' ok Hnext H; simpl in H.
  - injection H as <- <- <- <-.
    constructor; simpl; auto; try discriminate; try lia; try congruence.
  - destruct (total <=? next) eqn:Hfull.
    + injection H as <- <- <- <-.
      constructor; simpl; auto; try discriminate; try lia; try congruence.
    + apply Z.leb_gt in Hfull.
      destruct (placeChunks cs _ _ _ _) as [[[ids1 m1] d1] ok1] eqn:Hrec.
      injection H as <- <- <- <-.
      apply IH in Hrec as [Hids Hcount Hall Hstop Hbound Hmlen Hmin Hmoth Hslot Hdoth Hdlen]; [|lia].
      constructor; cbn [length].
      * rewrite Nat2Z.inj_succ, seqZ_cons by lia. f_equal.
        replace (Z.pred (Z.succ (Z.of_nat (length ids1)))) with (Z.of_nat (length ids1)) by lia.
        exact Hids.
      * lia.
      * intros Hok. rewrite Hall; auto.
      * intros Hok. specialize (Hstop Hok). lia.
      * intros _. destruct ids1 as [|i1 ids1]; [simpl; lia|].
        specialize (Hbound ltac:(discriminate)). lia.
      * rewrite Hmlen. apply length_insert.
      * intros j Hj Hlt. destruct (Z.eq_dec (Z.of_nat j) next) as [Heq|Hne].
        -- rewrite Hmoth by lia. replace j with (Z.to_nat next) by lia.
           apply list_lookup_insert_eq. lia.
        -- apply Hmin; [lia|]. rewrite length_insert. exact Hlt.
      * intros j Hj. rewrite Hmoth by lia.
        apply list_lookup_insert_ne. lia.
      * intros [|k] Hk.
        -- rewrite Z.add_0_r. simpl. rewrite Hdoth.
           ++ apply list_lookup_insert_eq. apply growDisk_length. exact Hnext.
           ++ lia.
           ++ rewrite length_insert. apply growDisk_length. exact Hnext.
        -- simpl. replace (next + Z.of_nat (S k)) with (next + 1 + Z.of_nat k) by lia.
           apply Hslot. lia.
      * intros j Hj Hlt. rewrite Hdoth.
        -- rewrite list_lookup_insert_ne by lia. apply growDisk_lookup. exact Hlt.
        -- lia.
        -- rewrite length_insert. pose proof (growDisk_length next d Hnext). lia.
      * rewrite length_insert in Hdlen. pose proof (growDisk_length next d Hnext). lia.
Qed.


(** ** Triples *)

(** From a state in [P], the computation [m] ends in [Q] when it returns
    and in [E] when it throws. *)
Definition hoare {A} (P : FileSystem -> Prop) (m : M A)
           (Q : A -> FileSystem -> Prop) (E : exn -> FileSystem -> Prop) : Prop :=
  forall s, P s -> match m s with
                   | Ok a s' => Q a s'
                   | Throw e s' => E e s'
                   | Fault _ => True
                   end.

Lemma hoare_conseq {A} (P P' : FileSystem -> Prop) (m : M A) Q Q' (E E' : exn -> FileSystem -> Prop) :
  hoare P' m Q' E' ->
  (forall s, P s -> P' s) -> (forall a s, Q' a s -> Q a s) -> (forall e s, E' e s -> E e s) ->
  hoare P m Q E.
Proof.
  intros H HP HQ HE s Hs. specialize (H s (HP s Hs)).
  destruct (m s); auto.
Qed.

Lemma hoare_pre {A} (P P' : FileSystem -> Prop) (m : M A) Q E :
  hoare P' m Q E -> (forall s, P s -> P' s) -> hoare P m Q E.
Proof. intros H HP. eapply hoare_conseq; eauto. Qed.

Lemma hoare_ret {A} (P : FileSystem -> Prop) (a : A) Q E :
  (forall s, P s -> Q a s) -> hoare P (ret a) Q E.
Proof. intros H s Hs. apply H. exact Hs. Qed.

Lemma hoare_throw {A} (P : FileSystem -> Prop) e (Q : A -> FileSystem -> Prop) E :
  (forall s, P s -> E e s) -> hoare P (throw e) Q E.
Proof. intros H s Hs. apply H. exact Hs. Qed.

Lemma hoare_fail {A} (P : FileSystem -> Prop) f (Q : A -> FileSystem -> Prop) E :
  hoare P (fail f) Q E.
Proof. intros s Hs. exact I. Qed.

Lemma hoare_bind {A B} (P : FileSystem -> Prop) (m : M A) (k : A -> M B) R Q E :
  hoare P m R E -> (forall a, hoare (R a) (k a) Q E) -> hoare P (bind m k) Q E.
Proof.
  intros Hm Hk s Hs. unfold bind. specialize (Hm s Hs).
  destruct (m s) as [a s1| |]; auto. apply Hk. exact Hm.
Qed.

Lemma hoare_gets {A} (P : FileSystem -> Prop) (f : FileSystem -> A) Q E :
  (forall s, P s -> Q (f s) s) -> hoare P (gets f) Q E.
Proof. intros H s Hs. apply H. exact Hs. Qed.

Lemma hoare_modify (P : FileSystem -> Prop) f Q E :
  (forall s, P s -> Q tt (f s)) -> hoare P (modify f) Q E.
Proof. intros H s Hs. apply H. exact Hs. Qed.

Lemma hoare_deref (P : FileSystem -> Prop) p Q E :
  (forall s it, P s -> heap s !! p = Some it -> Q it s) -> hoare P (deref p) Q E.
Proof.
  intros H s Hs. unfold deref. destruct (heap s !! p) as [it|] eqn:Hit; auto.
Qed.

Lemma hoare_update (P : FileSystem -> Prop) p f Q E :
  (forall s it, P s -> heap s !! p = Some it ->
                Q tt (set_heap (<[p := f it]> (heap s)) s)) ->
  hoare P (update p f) Q E.
Proof.
  intros H s Hs. unfold update. destruct (heap s !! p) as [it|] eqn:Hit; auto.
Qed.

Lemma hoare_new (P : FileSystem -> Prop) it Q E :
  (forall s, P s ->
     Q (brk s) (mkFS (disk s) (sectorMap s) (<[brk s := it]> (heap s)) (S (brk s))
                     (root s) (currentDir s) (totalSectors s))) ->
  hoare P (new it) Q E.
Proof. intros H s Hs. apply H. exact Hs. Qed.

Lemma hoare_delete (P : FileSystem -> Prop) p Q E :
  (forall s it, P s -> heap s !! p = Some it ->
                Q tt (set_heap (delete p (heap s)) s)) ->
  hoare P (delete_ p) Q E.
Proof.
  intros H s Hs. unfold delete_. destruct (heap s !! p) as [it|] eqn:Hit; eauto.
Qed.

Lemma hoare_foldM {A B} (I : A -> FileSystem -> Prop) (body : A -> B -> M A) l E :
  (forall a x, In x l -> hoare (I a) (body a x) I E) ->
  forall a, hoare (I a) (foldM body l a) I E.
Proof.
  induction l as [|x l IH]; intros Hbody a; simpl.
  - apply hoare_ret. auto.
  - eapply hoare_bind.
    + apply Hbody. left. reflexivity.
    + intros a'. apply IH. intros a0 y Hy. apply Hbody. right. exact Hy.
Qed.

Lemma hoare_forM {B} (I : FileSystem -> Prop) (body : B -> M unit) l E :
  (forall x, In x l -> hoare I (body x) (fun _ => I) E) ->
  hoare I (forM l body) (fun _ => I) E.
Proof.
  intros Hbody. unfold forM.
  apply (hoare_foldM (fun _ => I) (fun _ x => body x) l E).
  intros _ x Hx. apply Hbody. exact Hx.
Qed.

(** A computation that only reads keeps every property of the state. *)
Lemma hoare_readonly {A} (P : FileSystem -> Prop) (m : M A) E :
  readonly m -> hoare P m (fun _ => P) E.
Proof.
  intros Hm s Hs. specialize (Hm s). destruct (m s); auto.
  - subst. exact Hs.
  - contradiction.
Qed.

Lemma hoare_if {A} (P : FileSystem -> Prop) (b : bool) (m1 m2 : M A) Q E :
  (b = true -> hoare P m1 Q E) -> (b = false -> hoare P m2 Q E) ->
  hoare P (if b then m1 else m2) Q E.
Proof. destruct b; auto. Qed.


(** A computation that leaves the state as it is, also when it throws. *)
Definition pure {A} (m : M A) : Prop :=
  forall s, match m s with
            | Ok _ s' => s' = s
            | Throw _ s' => s' = s
            | Fault _ => True
            end.

Lemma readonly_pure {A} (m : M A) : readonly m -> pure m.
Proof. intros H s. specialize (H s). destruct (m s); auto. contradiction. Qed.

Lemma pure_ret {A} (a : A) : pure (ret a).
Proof. intros s. reflexivity. Qed.

Lemma pure_throw {A} e : pure (@throw A e).
Proof. intros s. reflexivity. Qed.

Lemma pure_fail {A} f : pure (@fail A f).
Proof. intros s. exact I. Qed.

Lemma pure_gets {A} (f : FileSystem -> A) : pure (gets f).
Proof. intros s. reflexivity. Qed.

Lemma pure_deref p : pure (deref p).
Proof. apply readonly_pure, readonly_deref. Qed.

Lemma pure_bind {A B} (m : M A) (k : A -> M B) :
  pure m -> (forall a, pure (k a)) -> pure (bind m k).
Proof.
  intros Hm Hk s. unfold bind. specialize (Hm s).
  destruct (m s) as [a s1| |]; auto. subst s1. apply Hk.
Qed.

Lemma pure_foldM {A B} (body : A -> B -> M A) l :
  (forall a x, pure (body a x)) -> forall a, pure (foldM body l a).
Proof.
  intros Hbody. induction l as [|x l IH]; intros a; simpl.
  - apply pure_ret.
  - apply pure_bind; auto.
Qed.

Lemma hoare_pure {A} (P : FileSystem -> Prop) (m : M A) :
  pure m -> hoare P m (fun _ => P) (fun _ => P).
Proof.
  intros Hm s Hs. specialize (Hm s). destruct (m s); auto; subst; exact Hs.
Qed.

Create HintDb pure.
#[export] Hint Resolve pure_ret pure_throw pure_fail pure_gets pure_deref : pure.

Ltac pure_tac :=
  repeat first
    [ apply pure_bind; [|intros ?]
    | apply pure_foldM; intros ? ?
    | progress auto with pure
    | match goal with
      | |- pure (if ?b then _ else _) => destruct b
      | |- pure (match ?x with _ => _ end) => destruct x
      end ].

Lemma pure_getItem path : pure (getItem path).
Proof. apply readonly_pure, readonly_getItem. Qed.

Lemma pure_findChild cs part : pure (findChild cs part).
Proof. apply readonly_pure, readonly_findChild. Qed.

Lemma pure_findFolder cs part : pure (findFolder cs part).
Proof. induction cs as [|c cs IH]; simpl; pure_tac. Qed.

Lemma pure_rejectName cs n e : pure (rejectName cs n e).
Proof. induction cs as [|c cs IH]; simpl; pure_tac. Qed.

Lemma pure_rejectOtherName cs n src e : pure (rejectOtherName cs n src e).
Proof. induction cs as [|c cs IH]; simpl; pure_tac. Qed.

Lemma pure_rejectFileName cs n e : pure (rejectFileName cs n e).
Proof. induction cs as [|c cs IH]; simpl; pure_tac. Qed.

#[export] Hint Resolve pure_getItem pure_findChild pure_findFolder pure_rejectName
  pure_rejectOtherName pure_rejectFileName : pure.

Lemma pure_checkNotInside fuel : forall checkItem src, pure (checkNotInside fuel checkItem src).
Proof.
  induction fuel as [|fuel IH]; intros [c|] src; simpl; pure_tac.
Qed.

Lemma pure_pathParts fuel : forall current acc, pure (pathParts fuel current acc).
Proof.
  induction fuel as [|fuel IH]; intros [c|] acc; simpl; pure_tac.
Qed.

#[export] Hint Resolve pure_checkNotInside pure_pathParts : pure.

Lemma pure_depthBound : pure depthBound.
Proof. unfold depthBound. pure_tac. Qed.

#[export] Hint Resolve pure_depthBound : pure.

Lemma pure_getFullPath item : pure (getFullPath item).
Proof. unfold getFullPath. pure_tac. Qed.

Lemma pure_getDestDir path : pure (getDestDir path).
Proof. unfold getDestDir. pure_tac. Qed.

Lemma pure_isExistingFolder d : pure (isExistingFolder d).
Proof. unfold isExistingFolder. pure_tac. Qed.

Lemma pure_collectAllFiles fuel : forall folder files, pure (collectAllFiles fuel folder files).
Proof.
  induction fuel as [|fuel IH]; intros folder files; simpl; pure_tac.
Qed.

#[export] Hint Resolve pure_getFullPath pure_getDestDir pure_isExistingFolder
  pure_collectAllFiles : pure.

Lemma pure_pwd : pure pwd.
Proof. unfold pwd. pure_tac. Qed.

Lemma pure_ls path : pure (ls path).
Proof. unfold ls, forM. pure_tac. Qed.

Lemma pure_get filename canCreate : pure (get filename canCreate).
Proof. unfold get. pure_tac. Qed.

Lemma pure_info filename : pure (info filename).
Proof. unfold info. pure_tac. Qed.


(** ** Sector counts *)

(** What C3 asks of an item: a file has as many sectors as its content has
    chunks, a directory has neither content nor sectors.  The contents of
    the model are those that fit an [int]. *)
Definition itemOk (it : Item) : Prop :=
  fitsInt (content it) /\
  if isFolder it then content it = [] /\ sectors it = []
  else length (sectors it) = sectorsNeeded (length (content it)).

(** Every live item but [q] satisfies [itemOk]. *)
Definition itemsOkBut (q : option ptr) (s : FileSystem) : Prop :=
  forall p it, heap s !! p = Some it -> Some p <> q -> itemOk it.

Definition itemsOk (s : FileSystem) : Prop :=
  forall p it, heap s !! p = Some it -> itemOk it.

(** A new item before the content writer has seen it. *)
Definition pendingItem (it : Item) : Prop :=
  fitsInt (content it) /\ sectors it = [] /\ (isFolder it = true -> content it = []).

Definition sound (s : FileSystem) : Prop := mapOk s /\ itemsOk s.

Definition pending (f : ptr) (s : FileSystem) : Prop :=
  mapOk s /\ itemsOkBut (Some f) s /\ exists it, heap s !! f = Some it /\ pendingItem it.

Lemma hoare_pure_any {A} (P : FileSystem -> Prop) (m : M A) E :
  pure m -> (forall e s, P s -> E e s) -> hoare P m (fun _ => P) E.
Proof.
  intros Hm HE s Hs. specialize (Hm s). destruct (m s); auto; subst; auto.
Qed.

Definition unlessDiskFull (P : FileSystem -> Prop) (e : exn) (s : FileSystem) : Prop :=
  ~ diskFull e -> P s.

(** Functions on items that leave kind, content and sectors alone. *)
Definition keepsData (f : Item -> Item) : Prop :=
  forall it, isFolder (f it) = isFolder it /\ content (f it) = content it /\
             sectors (f it) = sectors it.

Lemma keepsData_set_name n : keepsData (set_name n).
Proof. intros it. auto. Qed.
Lemma keepsData_set_children l : keepsData (set_children l).
Proof. intros it. auto. Qed.
Lemma keepsData_set_parent p : keepsData (set_parent p).
Proof. intros it. auto. Qed.
Lemma keepsData_push c : keepsData (fun it => set_children (children it ++ [c]) it).
Proof. intros it. auto. Qed.
Lemma keepsData_erase c : keepsData (fun it => set_children (eraseFirst c (children it)) it).
Proof. intros it. auto. Qed.

#[export] Hint Resolve keepsData_set_name keepsData_set_children keepsData_set_parent
  keepsData_push keepsData_erase : core.

Lemma keepsData_itemOk f it : keepsData f -> itemOk it -> itemOk (f it).
Proof.
  intros Hf [H1 H2]. destruct (Hf it) as (Hk & Hc & Hs).
  unfold itemOk. rewrite Hk, Hc, Hs. auto.
Qed.

Lemma keepsData_pendingItem f it : keepsData f -> pendingItem it -> pendingItem (f it).
Proof.
  intros Hf (H1 & H2 & H3). destruct (Hf it) as (Hk & Hc & Hs).
  unfold pendingItem. rewrite Hk, Hc, Hs. auto.
Qed.

Lemma itemsOk_insert s p it :
  itemsOk s -> itemOk it -> itemsOk (set_heap (<[p := it]> (heap s)) s).
Proof.
  intros Hs Hit q itq. cbn. rewrite lookup_insert. case_decide.
  - intros [= <-]. exact Hit.
  - apply Hs.
Qed.

Lemma sound_update p f E :
  keepsData f -> hoare sound (update p f) (fun _ => sound) E.
Proof.
  intros Hf. apply hoare_update. intros s it [Hm Hs] Hit. split; [exact Hm|].
  apply itemsOk_insert; [exact Hs|]. apply keepsData_itemOk; eauto.
Qed.

Lemma pending_update q p f E :
  keepsData f -> hoare (pending q) (update p f) (fun _ => pending q) E.
Proof.
  intros Hf. apply hoare_update. intros s it (Hm & Hs & itq & Hq & Hpend) Hit.
  split; [exact Hm|]. split.
  - intros r itr. cbn. rewrite lookup_insert. case_decide.
    + intros [= <-] Hne. subst r. apply keepsData_itemOk; eauto.
    + apply Hs.
  - cbn. destruct (decide (p = q)) as [->|Hne].
    + rewrite Hq in Hit. injection Hit as <-.
      exists (f itq). rewrite lookup_insert_eq. split; [reflexivity|].
      apply keepsData_pendingItem; auto.
    + exists itq. rewrite lookup_insert_ne by exact Hne. auto.
Qed.

Lemma pending_new it E :
  pendingItem it -> hoare sound (new it) pending E.
Proof.
  intros Hit. apply hoare_new. intros s [Hm Hs]. split; [exact Hm|]. split.
  - intros p itp. cbn. rewrite lookup_insert. case_decide.
    + subst. intros _ Hne. contradiction.
    + intros Hp _. eapply Hs. exact Hp.
  - exists it. cbn. rewrite lookup_insert_eq. auto.
Qed.

Lemma pending_folder f s :
  pending f s -> (forall it, heap s !! f = Some it -> isFolder it = true) -> sound s.
Proof.
  intros (Hm & Hs & it & Hit & Hfit & Hsec & Hcont) Hfolder. split; [exact Hm|].
  intros p itp Hp. destruct (decide (p = f)) as [->|Hne].
  - rewrite Hit in Hp. injection Hp as <-. unfold itemOk.
    rewrite (Hfolder it Hit). auto.
  - apply (Hs p itp Hp). congruence.
Qed.

Lemma saveToDisk_fresh s f it :
  heap s !! f = Some it -> isFolder it = false -> fitsInt (content it) -> sectors it = [] ->
  saveToDisk (Some f) s =
  saved s f it (storeChunks (chunks (content it)) (sectorMap s) (disk s)).
Proof.
  intros Hit Hfile Hfit Hsec.
  rewrite (saveToDisk_run s f it s Hit Hfile Hfit).
  - rewrite Hsec. reflexivity.
  - rewrite Hsec. reflexivity.
Qed.

Lemma sound_saveToDisk f :
  hoare (pending f) (saveToDisk (Some f)) (fun _ => sound) (unlessDiskFull sound).
Proof.
  intros s Hpend. pose proof Hpend as (Hm & Hs & it & Hit & Hfit & Hsec & Hcont).
  destruct (isFolder it) eqn:Hfolder.
  - unfold saveToDisk, bind, deref. rewrite Hit, Hfolder. unfold ret.
    apply (pending_folder f s Hpend). intros it' Hit'. congruence.
  - rewrite (saveToDisk_fresh s f it Hit Hfolder Hfit Hsec).
    destruct (storeChunks _ _ _) as [[[ids m'] d'] ok] eqn:Hstore.
    apply storeChunks_spec in Hstore as [_ Hall _ _ _ Hmlen _ _ _ _].
    unfold saved. destruct ok.
    + split.
      * unfold mapOk in *. cbn. rewrite Hmlen. exact Hm.
      * intros p itp. cbn. rewrite lookup_insert. case_decide.
        -- intros [= <-]. unfold itemOk. cbn. rewrite Hfolder.
           split; [exact Hfit|]. rewrite Hall by reflexivity. apply length_chunks.
        -- intros Hp. apply (Hs p itp Hp). congruence.
    + intros Hno. exfalso. apply Hno. left. reflexivity.
Qed.


Lemma unlessDiskFull_intro (P : FileSystem -> Prop) e s : P s -> unlessDiskFull P e s.
Proof. intros H _. exact H. Qed.

#[export] Hint Resolve unlessDiskFull_intro : core.

Ltac hoare_pure_step :=
  eapply hoare_bind; [apply hoare_pure_any; [pure_tac | auto] | intros ?].

Lemma sound_push p c E : hoare sound (push_back p c) (fun _ => sound) E.
Proof. apply sound_update. auto. Qed.

Lemma sound_erase p c E : hoare sound (eraseChild p c) (fun _ => sound) E.
Proof. apply sound_update. auto. Qed.

Lemma sound_new it E : itemOk it -> hoare sound (new it) (fun _ => sound) E.
Proof.
  intros Hit. apply hoare_new. intros s [Hm Hs]. split; [exact Hm|].
  intros p itp. cbn. rewrite lookup_insert. case_decide.
  - intros [= <-]. exact Hit.
  - apply Hs.
Qed.

Lemma fitsInt_nil : fitsInt [].
Proof. unfold fitsInt, INT_MAX. simpl. lia. Qed.

Lemma itemOk_folder n cs p : itemOk (mkItem true n [] [] cs p).
Proof. split; [apply fitsInt_nil | split; reflexivity]. Qed.

Lemma pendingItem_file n data p :
  fitsInt data -> pendingItem (mkItem false n data [] [] p).
Proof. intros H. split; [exact H|]. split; [reflexivity | discriminate]. Qed.

Lemma sound_mkdirStep current part :
  hoare sound (mkdirStep current part) (fun _ => sound) (unlessDiskFull sound).
Proof.
  unfold mkdirStep.
  destruct ((part =? "")%string || (part =? ".")%string || (part =? "..")%string);
    [apply hoare_throw; auto|].
  destruct (negb (isValidName part)); [apply hoare_throw; auto|].
  hoare_pure_step. hoare_pure_step.
  destruct a0 as [next|]; [apply hoare_ret; auto|].
  eapply hoare_bind; [apply sound_new, itemOk_folder|].
  intros newDir. eapply hoare_bind; [apply sound_push|]. intros ?.
  hoare_pure_step. apply hoare_ret. auto.
Qed.

Lemma sound_mkdir path :
  hoare sound (mkdir path) (fun _ => sound) (unlessDiskFull sound).
Proof.
  unfold mkdir. destruct (path =? "")%string; [apply hoare_throw; auto|].
  destruct (splitPath path) as [|p ps]; [apply hoare_throw; auto|].
  eapply hoare_bind.
  { apply hoare_pure_any; [destruct (beginsWithSlash path); pure_tac | auto]. }
  intros current. eapply hoare_bind.
  - apply (hoare_foldM (fun _ => sound)). intros a x _. apply sound_mkdirStep.
  - intros ?. apply hoare_ret. auto.
Qed.

Lemma sound_touch filename :
  hoare sound (touch filename) (fun _ => sound) (unlessDiskFull sound).
Proof.
  unfold touch. destruct (negb (isValidName filename)); [apply hoare_throw; auto|].
  hoare_pure_step. hoare_pure_step. hoare_pure_step.
  eapply hoare_bind.
  { apply pending_new, pendingItem_file, fitsInt_nil. }
  intros newFile. eapply hoare_bind.
  { eapply hoare_conseq; [apply (pending_update newFile), keepsData_push | auto | | ].
    - intros ? s H. exact H.
    - intros e s H. exact H. }
  intros ?. apply sound_saveToDisk.
Qed.

Lemma sound_put realFile file fsPath :
  fits (Put realFile file fsPath) ->
  hoare sound (put realFile file fsPath) (fun _ => sound) (unlessDiskFull sound).
Proof.
  unfold put. destruct file as [bytes|]; [|intros _; apply hoare_throw; auto].
  intros Hfit. simpl in Hfit.
  hoare_pure_step. hoare_pure_step. hoare_pure_step.
  eapply hoare_bind.
  { apply pending_new, pendingItem_file. exact Hfit. }
  intros newFile. eapply hoare_bind.
  { eapply hoare_conseq; [apply (pending_update newFile), keepsData_push | auto | | ].
    - intros ? s H. exact H.
    - intros e s H. exact H. }
  intros ?. apply sound_saveToDisk.
Qed.

Lemma sound_cd path : hoare sound (cd path) (fun _ => sound) (unlessDiskFull sound).
Proof.
  unfold cd. hoare_pure_step. destruct a as [t|]; [|apply hoare_throw; auto].
  hoare_pure_step. destruct (negb (isFolder a)); [apply hoare_throw; auto|].
  apply hoare_modify. intros s [Hm Hs]. split; assumption.
Qed.

Lemma sound_freeSector sector E :
  (forall e s, sound s -> E e s) ->
  hoare sound (freeSector sector) (fun _ => sound) E.
Proof.
  intros HE s Hs. unfold freeSector.
  destruct ((sector <? 0) || (Z.of_nat (length (sectorMap s)) <=? sector)); [auto|].
  destruct Hs as [Hm Hs]. split; [|exact Hs].
  unfold mapOk in *. cbn. rewrite length_insert. exact Hm.
Qed.

Lemma sound_freeSectorsRecursive fuel : forall item,
  hoare sound (freeSectorsRecursive fuel item) (fun _ => sound) (unlessDiskFull sound).
Proof.
  induction fuel as [|fuel IH]; intros [i|]; simpl;
    try (apply hoare_ret; auto); try apply hoare_fail.
  hoare_pure_step. apply hoare_bind with (R := fun _ => sound).
  - destruct (negb (isFolder a)); [|apply hoare_ret; auto].
    apply hoare_forM. intros x _. apply sound_freeSector. auto.
  - intros ?. apply hoare_forM. intros x _. apply IH.
Qed.

Lemma sound_delete p E : hoare sound (delete_ p) (fun _ => sound) E.
Proof.
  apply hoare_delete. intros s it [Hm Hs] _. split; [exact Hm|].
  intros q itq. cbn. intros Hq. apply lookup_delete_Some in Hq as [_ Hq].
  eapply Hs. exact Hq.
Qed.

Lemma sound_deleteTree fuel : forall node,
  hoare sound (deleteTree fuel node) (fun _ => sound) (unlessDiskFull sound).
Proof.
  induction fuel as [|fuel IH]; intros [n|]; cbn [deleteTree];
    try (apply hoare_ret; auto); try apply hoare_fail.
  hoare_pure_step. eapply hoare_bind.
  - apply hoare_forM. intros x _. apply IH.
  - intros ?. eapply hoare_bind; [apply sound_freeSectorsRecursive|].
    intros ?. apply sound_delete.
Qed.

Lemma sound_rm name recursive :
  hoare sound (rm name recursive) (fun _ => sound) (unlessDiskFull sound).
Proof.
  unfold rm. hoare_pure_step. hoare_pure_step. hoare_pure_step.
  destruct a1 as [t|]; [|apply hoare_throw; auto].
  hoare_pure_step.
  destruct (isFolder a1 && negb match children a1 with [] => true | _ => false end
            && negb recursive); [apply hoare_throw; auto|].
  eapply hoare_bind; [apply sound_erase|]. intros ?.
  hoare_pure_step. apply sound_deleteTree.
Qed.


Lemma sound_copyItem fuel : forall source newParent,
  hoare sound (copyItem fuel source newParent) (fun _ => sound) (unlessDiskFull sound).
Proof.
  induction fuel as [|fuel IH]; intros source newParent; cbn [copyItem]; [apply hoare_fail|].
  apply hoare_bind with (R := fun src s => sound s /\ itemOk src).
  { apply hoare_deref. intros s it Hs Hit. split; [exact Hs|]. destruct Hs as [_ Hs]. eauto. }
  intros src.
  assert (Hrest : forall newItem,
             hoare sound
                   (forM (children src)
                         (fun child =>
                            let* newChild := copyItem fuel child (Some newItem) in
                            update newItem (fun it => set_children (children it ++ [newChild]) it)) ;;
                    ret newItem)
                   (fun _ => sound) (unlessDiskFull sound)).
  { intros newItem. eapply hoare_bind.
    - apply hoare_forM. intros child _. eapply hoare_bind; [apply IH|].
      intros newChild. apply sound_update. auto.
    - intros ?. apply hoare_ret. auto. }
  destruct (isFolder src) eqn:Hkind; cbn [negb].
  - apply hoare_bind with (R := fun _ => sound).
    + intros s [Hs [Hfit Hdata]]. rewrite Hkind in Hdata. destruct Hdata as [Hc _].
      apply (sound_new _ (unlessDiskFull sound)); [|exact Hs].
      rewrite Hc. apply itemOk_folder.
    + intros newItem. apply hoare_bind with (R := fun _ => sound); [apply hoare_ret; auto|].
      intros ?. apply Hrest.
  - apply hoare_bind with (R := pending).
    + intros s [Hs [Hfit _]].
      apply (pending_new _ (unlessDiskFull sound)); [|exact Hs].
      apply pendingItem_file. exact Hfit.
    + intros newItem. eapply hoare_bind; [apply sound_saveToDisk|].
      intros ?. apply Hrest.
Qed.

Lemma sound_cp source dest :
  hoare sound (cp source dest) (fun _ => sound) (unlessDiskFull sound).
Proof.
  unfold cp. hoare_pure_step. destruct a as [src|]; [|apply hoare_throw; auto].
  hoare_pure_step. hoare_pure_step.
  assert (Hname : forall destDirPath destName,
            hoare sound
              (let* destDir := getDestDir destDirPath in
               let* di := deref destDir in
               rejectName (children di) destName
                 (runtime_error ("Destination already exists: " ++ destName)%string) ;;
               let* fuel := depthBound in
               let* newItem := copyItem fuel src (Some destDir) in
               update newItem (set_name destName) ;;
               push_back destDir newItem)
              (fun _ => sound) (unlessDiskFull sound)).
  { intros destDirPath destName.
    hoare_pure_step. hoare_pure_step. hoare_pure_step. hoare_pure_step.
    eapply hoare_bind; [apply sound_copyItem|]. intros newItem.
    eapply hoare_bind; [apply sound_update; auto|]. intros ?. apply sound_push. }
  destruct a as [d|], a0; try (destruct (splitDest dest) as [destDirPath destName]; apply Hname).
  hoare_pure_step. hoare_pure_step. hoare_pure_step. hoare_pure_step.
  eapply hoare_bind; [apply sound_copyItem|]. intros newItem. apply sound_push.
Qed.

Lemma sound_detach src E : 
  (forall e s, sound s -> E e s) -> hoare sound (detach src) (fun _ => sound) E.
Proof.
  intros HE. unfold detach.
  eapply hoare_bind; [apply hoare_pure_any; [pure_tac | exact HE]|]. intros it.
  destruct (parent it); [apply sound_erase | apply hoare_ret; auto].
Qed.

Lemma sound_mv source dest :
  hoare sound (mv source dest) (fun _ => sound) (unlessDiskFull sound).
Proof.
  unfold mv. hoare_pure_step. destruct a as [src|]; [|apply hoare_throw; auto].
  hoare_pure_step.
  apply hoare_bind with (R := fun _ => sound).
  { destruct (isFolder a); [|apply hoare_ret; auto].
    hoare_pure_step. hoare_pure_step. apply hoare_pure_any; [pure_tac | auto]. }
  intros ?. hoare_pure_step. hoare_pure_step.
  assert (Hname : forall destDirPath destName,
            hoare sound
              (let* destDir := getDestDir destDirPath in
               let* di := deref destDir in
               rejectOtherName (children di) destName src
                 (runtime_error ("Destination already exists: " ++ destName)%string) ;;
               let sameParent := sameNode (parent a) destDir in
               (if negb sameParent then detach src else ret tt) ;;
               update src (set_name destName) ;;
               if negb sameParent then
                 update src (set_parent (Some destDir)) ;;
                 push_back destDir src
               else ret tt)
              (fun _ => sound) (unlessDiskFull sound)).
  { intros destDirPath destName.
    hoare_pure_step. hoare_pure_step. hoare_pure_step. cbv zeta.
    apply hoare_bind with (R := fun _ => sound).
    { destruct (negb (sameNode (parent a) a3)); [apply sound_detach; auto | apply hoare_ret; auto]. }
    intros ?. eapply hoare_bind; [apply sound_update; auto|]. intros ?.
    destruct (negb (sameNode (parent a) a3)); [|apply hoare_ret; auto].
    eapply hoare_bind; [apply sound_update; auto|]. intros ?. apply sound_push. }
  destruct a1 as [d|], a2; try (destruct (splitDest dest) as [destDirPath destName]; apply Hname).
  hoare_pure_step. hoare_pure_step.
  destruct (negb (sameNode (parent a) d)); [|apply hoare_ret; auto].
  eapply hoare_bind; [apply sound_detach; auto|]. intros ?.
  eapply hoare_bind; [apply sound_update; auto|]. intros ?. apply sound_push.
Qed.

Lemma sound_defragFile next file :
  hoare (fun s => 0 <= next /\ sound s) (defragFile next file)
        (fun next' s => 0 <= next' /\ sound s)
        (unlessDiskFull sound).
Proof.
  intros s [Hnext [Hm Hs]]. unfold defragFile, bind at 1, deref.
  destruct (heap s !! file) as [it|] eqn:Hit; [|exact I].
  destruct (isFolder it) eqn:Hkind.
  { unfold ret. split; [exact Hnext | split; assumption]. }
  destruct (Hs _ _ Hit) as [Hfit _].
  unfold bind, update. rewrite Hit.
  rewrite defragLoop_run with (it := set_sectors [] it);
    [| exact Hfit | lia | rewrite drop_0; reflexivity | exact Hnext | exact Hm
     | cbn; apply lookup_insert_eq].
  cbn [sectorMap disk heap set_heap totalSectors]. rewrite drop_0.
  destruct (placeChunks _ _ _ _ _) as [[[ids m'] d'] ok] eqn:Hplace.
  apply placeChunks_spec in Hplace as [_ _ Hall _ _ Hmlen _ _ _ _ _]; [|exact Hnext].
  unfold placed. destruct ok.
  - split; [lia|]. split.
    + unfold mapOk in *. cbn. rewrite Hmlen. exact Hm.
    + intros p itp. cbn. rewrite insert_insert_eq, lookup_insert. case_decide.
      * intros [= <-]. unfold itemOk. cbn. rewrite Hkind.
        split; [exact Hfit|]. rewrite Hall by reflexivity. apply length_chunks.
      * apply Hs.
  - intros Hno. exfalso. apply Hno. right. reflexivity.
Qed.

Lemma sound_defrag : hoare sound defrag (fun _ => sound) (unlessDiskFull sound).
Proof.
  unfold defrag. hoare_pure_step. hoare_pure_step. hoare_pure_step.
  apply hoare_bind with (R := fun _ s => 0 <= 0 /\ sound s).
  { apply hoare_modify. intros s [Hm Hs]. split; [lia|]. split; [|exact Hs].
    unfold mapOk in *. cbn. rewrite length_map. exact Hm. }
  intros ?. eapply hoare_bind.
  - apply (hoare_foldM (fun next s => 0 <= next /\ sound s)).
    intros next file _. apply sound_defragFile.
  - intros next. apply hoare_ret. intros s [_ Hs]. exact Hs.
Qed.

(** Every operation keeps the sector counts right, unless it reports the
    disk-full error. *)
Lemma sound_exec o :
  fits o -> hoare sound (exec o) (fun _ => sound) (unlessDiskFull sound).
Proof.
  destruct o; intros Hfit; cbn [exec].
  - apply hoare_pure_any; [apply pure_pwd | auto].
  - apply sound_cd.
  - apply hoare_pure_any; [apply pure_ls | auto].
  - apply sound_mkdir.
  - apply sound_touch.
  - apply sound_rm.
  - apply sound_cp.
  - apply sound_mv.
  - apply hoare_pure_any; [apply pure_get | auto].
  - apply sound_put. exact Hfit.
  - apply hoare_pure_any; [apply pure_info | auto].
  - apply sound_defrag.
Qed.

Lemma sound_init capacity : 0 < capacity -> sound (init capacity).
Proof.
  intros Hcap. split.
  - unfold mapOk. cbn. rewrite length_replicate. lia.
  - intros p it. cbn. rewrite lookup_singleton. case_decide; [|discriminate].
    intros [= <-]. apply itemOk_folder.
Qed.

Lemma sound_returned o s e s' :
  fits o -> sound s -> returned o s e s' ->
  (forall x, e = Some x -> ~ diskFull x) -> sound s'.
Proof.
  intros Hfit Hs Hret Hno. pose proof (sound_exec o Hfit s Hs) as H.
  destruct e as [x|]; simpl in Hret.
  - destruct Hret as [_ Hret]. rewrite Hret in H. apply H. apply Hno. reflexivity.
  - rewrite Hret in H. exact H.
Qed.

Lemma sound_reachable s : reachableNoDiskFull s -> sound s.
Proof.
  induction 1 as [capacity Hcap | s o e s' _ IH Hfit Hret Hno].
  - apply sound_init. exact Hcap.
  - eapply sound_returned; eassumption.
Qed.

Lemma sectorsNeeded_ceil n :
  (n <= 64 * sectorsNeeded n < n + 64)%nat.
Proof.
  unfold sectorsNeeded.
  pose proof (Nat.div_mod_eq (n + 63) 64) as H.
  pose proof (Nat.mod_upper_bound (n + 63) 64 ltac:(lia)) as Hlt.
  lia.
Qed.


(** The state in which [put] of a 70-byte file returns on a fresh disk of
    one sector ([put_disk_full]). *)
Definition diskFullPutState : FileSystem :=
  mkFS [replicate 64 x41] [true]
       (<[1%nat := mkItem false "f" (replicate 70 x41) [0] [] (Some 0%nat)]>
          {[ 0%nat := mkItem true "/" [] [] [1%nat] None ]})
       2%nat 0%nat 0%nat 1.

Lemma diskFullPutState_reachable : reachable diskFullPutState.
Proof.
  apply (reachable_step (init 1) (Put "f" (Some (replicate 70 x41)) ".")
                        (Some (runtime_error "No free sectors available"))).
  - apply reachable_init. lia.
  - unfold fits, fitsInt, INT_MAX. vm_compute. discriminate.
  - split; [reflexivity | exact put_disk_full].
Qed.

(** C3 as stated fails: after a [put] that has returned with the disk-full
    error the new file is in the tree with one sector for 70 bytes. *)
Lemma sector_count_wrong_after_disk_full :
  reachable diskFullPutState /\
  exists it, heap diskFullPutState !! 1%nat = Some it /\
             isFolder it = false /\
             length (sectors it) = 1%nat /\
             sectorsNeeded (length (content it)) = 2%nat.
Proof.
  split; [exact diskFullPutState_reachable|].
  eexists. split; [reflexivity|]. repeat split.
Qed.

(** C3, amended. In every state reached by calls none of which has reported
    the disk-full error, every live file has exactly
    ceil(len(content) / 64) sectors, none when its content is empty, and
    every live directory has empty content and no sectors. *)
Theorem sector_counts_unless_disk_full (s : FileSystem) (p : ptr) (it : Item) :
  reachableNoDiskFull s -> heap s !! p = Some it ->
  (isFolder it = false ->
     length (sectors it) = sectorsNeeded (length (content it)) /\
     (length (content it) <= 64 * length (sectors it) < length (content it) + 64)%nat /\
     (content it = [] -> sectors it = [])) /\
  (isFolder it = true -> content it = [] /\ sectors it = []).
Proof.
  intros Hreach Hit. destruct (sound_reachable s Hreach) as [_ Hs].
  destruct (Hs p it Hit) as [_ Hok]. split; intros Hkind; rewrite Hkind in Hok.
  - split; [exact Hok|]. split.
    + rewrite Hok. apply sectorsNeeded_ceil.
    + intros Hc. rewrite Hc in Hok. destruct (sectors it); [reflexivity | discriminate].
  - exact Hok.
Qed.

(** The state after [put] of a 70-byte file on a fresh disk of four
    sectors. *)
Definition oneFileItem : Item :=
  mkItem false "f" (replicate 70 x41) [0; 1] [] (Some 0%nat).

Definition oneFileState : FileSystem :=
  mkFS [replicate 64 x41; replicate 6 x41; []; []] [true; true; false; false]
       (<[1%nat := oneFileItem]> {[ 0%nat := mkItem true "/" [] [] [1%nat] None ]})
       2%nat 0%nat 0%nat 4.

Lemma oneFileState_reachable : reachableNoDiskFull oneFileState.
Proof.
  apply (reachableNDF_step (init 4) (Put "f" (Some (replicate 70 x41)) ".") None).
  - apply reachableNDF_init. lia.
  - unfold fits, fitsInt, INT_MAX. vm_compute. discriminate.
  - vm_compute. reflexivity.
  - discriminate.
Qed.

Lemma sector_counts_unless_disk_full_witness :
  (isFolder oneFileItem = false ->
     length (sectors oneFileItem) = sectorsNeeded (length (content oneFileItem)) /\
     (length (content oneFileItem) <= 64 * length (sectors oneFileItem)
      < length (content oneFileItem) + 64)%nat /\
     (content oneFileItem = [] -> sectors oneFileItem = [])) /\
  (isFolder oneFileItem = true -> content oneFileItem = [] /\ sectors oneFileItem = []).
Proof.
  apply (sector_counts_unless_disk_full oneFileState 1%nat).
  - exact oneFileState_reachable.
  - reflexivity.
Defined.


(** * The tree of items *)

(** The shape the pointers are meant to have: [Node p ks] is the item at
    address [p] with the subtrees [ks] of its children, in the order of
    its [children] vector. *)
Set Warnings "-register-all".

Inductive tree := Node (p : ptr) (ks : list tree).

Definition top (t : tree) : ptr := match t with Node p _ => p end.
Definition kids (t : tree) : list tree := match t with Node _ ks => ks end.

Fixpoint nodes (t : tree) : list ptr :=
  match t with
  | Node p ks => p :: flat_map nodes ks
  end.

Fixpoint height (t : tree) : nat :=
  match t with
  | Node _ ks => S (fold_right Nat.max 0%nat (map height ks))
  end.

(** [shape h par t]: in the heap [h] the items of [t] are live, the item
    at the top has parent [par], and every item has exactly the tops of
    its subtrees as children and is the parent of each of them. *)
Inductive shape (h : gmap ptr Item) : option ptr -> tree -> Prop :=
| shape_node par p ks it :
    h !! p = Some it ->
    parent it = par ->
    children it = map top ks ->
    Forall (shape h (Some p)) ks ->
    shape h par (Node p ks).

Lemma tree_ind' (P : tree -> Prop) :
  (forall p ks, Forall P ks -> P (Node p ks)) -> forall t, P t.
Proof.
  intros H. fix IH 1. intros [p ks]. apply H.
  induction ks as [|k ks IHks]; constructor; [apply IH | exact IHks].
Qed.

Lemma shape_inv h par p ks :
  shape h par (Node p ks) ->
  exists it, h !! p = Some it /\ parent it = par /\ children it = map top ks /\
             Forall (shape h (Some p)) ks.
Proof. intros H. inversion H; subst. eauto. Qed.

Lemma nodes_top t : top t ∈ nodes t.
Proof. destruct t as [p ks]. left. Qed.

Lemma elem_of_flat_map {A B} (f : A -> list B) (l : list A) (y : B) :
  y ∈ flat_map f l <-> exists x, x ∈ l /\ y ∈ f x.
Proof.
  rewrite list_elem_of_In, in_flat_map. split; intros (x & Hx & Hy); exists x.
  - split; apply list_elem_of_In; assumption.
  - split; apply list_elem_of_In; assumption.
Qed.

Lemma nodes_kid p ks k x : k ∈ ks -> x ∈ nodes k -> x ∈ nodes (Node p ks).
Proof. intros Hk Hx. right. apply elem_of_flat_map. eauto. Qed.

Lemma elem_of_nodes p ks x :
  x ∈ nodes (Node p ks) <-> x = p \/ exists k, k ∈ ks /\ x ∈ nodes k.
Proof. cbn [nodes]. rewrite elem_of_cons, elem_of_flat_map. reflexivity. Qed.

(** Every node of a tree of the right shape is live. *)
Lemma shape_live h t : forall par x, shape h par t -> x ∈ nodes t -> is_Some (h !! x).
Proof.
  induction t as [p ks IH] using tree_ind'. intros par x Hsh Hx.
  apply shape_inv in Hsh as (it & Hit & _ & _ & Hks).
  apply elem_of_nodes in Hx as [-> | (k & Hk & Hx)]; [eauto|].
  rewrite Forall_forall in IH, Hks. eapply IH; eauto.
Qed.

(** The shape only depends on the [parent] and [children] fields of the
    nodes of the tree. *)
Definition sameLinks (h h' : gmap ptr Item) (x : ptr) : Prop :=
  forall it, h !! x = Some it ->
             exists it', h' !! x = Some it' /\ parent it' = parent it /\
                         children it' = children it.

Lemma shape_frame h h' t : forall par,
  shape h par t -> (forall x, x ∈ nodes t -> sameLinks h h' x) -> shape h' par t.
Proof.
  induction t as [p ks IH] using tree_ind'. intros par Hsh Hsame.
  apply shape_inv in Hsh as (it & Hit & Hpar & Hch & Hks).
  destruct (Hsame p (nodes_top (Node p ks)) it Hit) as (it' & Hit' & Hpar' & Hch').
  apply shape_node with (it := it'); [exact Hit' | congruence | congruence |].
  rewrite Forall_forall in IH, Hks. apply Forall_forall. intros k Hk.
  apply IH; [exact Hk | apply Hks; exact Hk |].
  intros x Hx. apply Hsame. eapply nodes_kid; eauto.
Qed.

(** The subtree below the node [x]. *)
Fixpoint subtree (x : ptr) (t : tree) : option tree :=
  match t with
  | Node p ks =>
      if Nat.eqb p x then Some t
      else fold_right (fun k r => match subtree x k with
                                  | Some u => Some u
                                  | None => r
                                  end) None ks
  end.

Lemma subtree_top x t u : subtree x t = Some u -> top u = x.
Proof.
  revert u. induction t as [p ks IH] using tree_ind'. intros u H. cbn [subtree] in H.
  destruct (Nat.eqb p x) eqn:E.
  - injection H as <-. apply Nat.eqb_eq in E. exact E.
  - clear E. induction ks as [|k ks IHks]; simpl in H; [discriminate|].
    apply Forall_cons in IH as [Hk Hrest].
    destruct (subtree x k) as [u'|] eqn:Ek.
    + injection H as <-. apply Hk. reflexivity.
    + apply IHks; assumption.
Qed.

Lemma subtree_nodes x t u y : subtree x t = Some u -> y ∈ nodes u -> y ∈ nodes t.
Proof.
  revert u. induction t as [p ks IH] using tree_ind'. intros u H Hy. cbn [subtree] in H.
  destruct (Nat.eqb p x) eqn:E.
  - injection H as <-. exact Hy.
  - clear E. right. induction ks as [|k ks IHks]; simpl in H; [discriminate|].
    apply Forall_cons in IH as [Hk Hrest]. simpl. apply elem_of_app.
    destruct (subtree x k) as [u'|] eqn:Ek.
    + injection H as <-. left. eapply Hk; eauto.
    + right. apply IHks; assumption.
Qed.

Lemma subtree_exists x t : x ∈ nodes t -> exists u, subtree x t = Some u.
Proof.
  induction t as [p ks IH] using tree_ind'. intros Hx. cbn [subtree].
  destruct (Nat.eqb p x) eqn:E; [eauto|].
  apply Nat.eqb_neq in E.
  apply elem_of_nodes in Hx as [-> | (k & Hk & Hx)]; [contradiction|].
  clear E. induction ks as [|k' ks IHks]; [inversion Hk|].
  apply Forall_cons in IH as [Hk' Hrest]. simpl.
  destruct (subtree x k') as [u'|] eqn:Ek; [eauto|].
  apply elem_of_cons in Hk as [-> | Hk].
  - destruct (Hk' Hx) as [u Hu]. congruence.
  - apply IHks; assumption.
Qed.

Lemma subtree_shape h x t : forall par u,
  shape h par t -> subtree x t = Some u -> exists par', shape h par' u.
Proof.
  induction t as [p ks IH] using tree_ind'. intros par u Hsh H. cbn [subtree] in H.
  destruct (Nat.eqb p x) eqn:E.
  - injection H as <-. eauto.
  - clear E. apply shape_inv in Hsh as (it & _ & _ & _ & Hks).
    induction ks as [|k ks IHks]; simpl in H; [discriminate|].
    apply Forall_cons in IH as [Hk Hrest]. apply Forall_cons in Hks as [Hsk Hsks].
    destruct (subtree x k) as [u'|] eqn:Ek.
    + injection H as <-. eapply Hk; eauto.
    + apply IHks; assumption.
Qed.


(** ** Parents and children inside a tree *)

Lemma shape_top h par t it : shape h par t -> h !! top t = Some it -> parent it = par.
Proof.
  destruct t as [p ks]. intros Hsh Hit.
  apply shape_inv in Hsh as (it' & Hit' & Hpar & _). simpl in Hit. congruence.
Qed.

(** A child of a node of the tree is a node of the tree. *)
Lemma shape_child h t : forall par q qi c,
  shape h par t -> q ∈ nodes t -> h !! q = Some qi -> c ∈ children qi -> c ∈ nodes t.
Proof.
  induction t as [p ks IH] using tree_ind'. intros par q qi c Hsh Hq Hqi Hc.
  apply shape_inv in Hsh as (it & Hit & _ & Hch & Hks).
  apply elem_of_nodes in Hq as [-> | (k & Hk & Hq)].
  - rewrite Hit in Hqi. injection Hqi as <-. rewrite Hch in Hc.
    apply list_elem_of_fmap in Hc as (k & -> & Hk).
    eapply nodes_kid; [exact Hk | apply nodes_top].
  - rewrite Forall_forall in IH, Hks.
    eapply nodes_kid; [exact Hk|]. eapply IH; eauto.
Qed.

(** A node other than the top has its parent in the tree, and is one of
    the children of that parent. *)
Lemma shape_parent h t : forall par x it,
  shape h par t -> x ∈ nodes t -> h !! x = Some it -> x <> top t ->
  exists q qi, parent it = Some q /\ q ∈ nodes t /\ h !! q = Some qi /\ x ∈ children qi.
Proof.
  induction t as [p ks IH] using tree_ind'. intros par x it Hsh Hx Hit Hne.
  apply shape_inv in Hsh as (pit & Hpit & _ & Hch & Hks).
  apply elem_of_nodes in Hx as [-> | (k & Hk & Hx)]; [contradiction|].
  rewrite Forall_forall in IH, Hks.
  destruct (decide (x = top k)) as [->|Hnk].
  - exists p, pit. split; [|split; [left | split; [exact Hpit|]]].
    + eapply shape_top; [apply Hks; exact Hk | exact Hit].
    + rewrite Hch. apply list_elem_of_fmap. eauto.
  - destruct (IH k Hk (Some p) x it (Hks k Hk) Hx Hit Hnk) as (q & qi & Hq1 & Hq2 & Hq3 & Hq4).
    exists q, qi. split; [exact Hq1|]. split; [|auto].
    eapply nodes_kid; eauto.
Qed.

(** ** Trees without repeated nodes *)

Lemma NoDup_nodes_kids p ks :
  NoDup (nodes (Node p ks)) ->
  (p ∉ flat_map nodes ks) /\ NoDup (flat_map nodes ks).
Proof. cbn [nodes]. apply NoDup_cons. Qed.

Lemma NoDup_flat_map_kid (ks : list tree) k :
  NoDup (flat_map nodes ks) -> k ∈ ks -> NoDup (nodes k).
Proof.
  induction ks as [|k' ks IH]; intros Hnd Hk; [inversion Hk|].
  simpl in Hnd. apply NoDup_app in Hnd as (H1 & H2 & H3).
  apply elem_of_cons in Hk as [-> | Hk]; auto.
Qed.

Lemma NoDup_nodes_kid p ks k : NoDup (nodes (Node p ks)) -> k ∈ ks -> NoDup (nodes k).
Proof.
  intros H Hk. apply NoDup_nodes_kids in H as [_ H]. eapply NoDup_flat_map_kid; eauto.
Qed.

(** In a tree without repeated nodes the top is in no subtree below it. *)
Lemma NoDup_top_not_below p ks k :
  NoDup (nodes (Node p ks)) -> k ∈ ks -> p ∉ nodes k.
Proof.
  intros H Hk Hp. apply NoDup_nodes_kids in H as [H _]. apply H.
  apply elem_of_flat_map. eauto.
Qed.

(** The height of a tree is at most its number of nodes. *)
Lemma height_le_nodes t : (height t <= length (nodes t))%nat.
Proof.
  induction t as [p ks IH] using tree_ind'. cbn [height nodes length].
  apply le_n_S. induction ks as [|k ks IHks]; simpl; [lia|].
  apply Forall_cons in IH as [Hk Hrest]. specialize (IHks Hrest).
  rewrite length_app. lia.
Qed.

Lemma height_kid p ks k : k ∈ ks -> (height k < height (Node p ks))%nat.
Proof.
  intros Hk. cbn [height]. apply Nat.lt_succ_r.
  induction ks as [|k' ks IH]; [inversion Hk|].
  simpl. apply elem_of_cons in Hk as [-> | Hk]; [lia|]. specialize (IH Hk). lia.
Qed.

(** Distinct addresses below a bound are at most as many as the bound. *)
Lemma NoDup_bounded_length (l : list nat) (n : nat) :
  NoDup l -> (forall x, x ∈ l -> (x < n)%nat) -> (length l <= n)%nat.
Proof.
  intros Hnd Hlt.
  assert (Hlen : length (seq 0 n) = n) by apply length_seq.
  rewrite <- Hlen at 1. clear Hlen. apply NoDup_incl_length.
  - apply NoDup_ListNoDup. exact Hnd.
  - intros x Hx. apply in_seq. apply list_elem_of_In in Hx. specialize (Hlt x Hx). lia.
Qed.


(** ** The traversal of defrag *)

(** The files that [collectAllFiles] finds below the top of [t]: depth
    first, children in their order, descending into the directories. *)
Fixpoint filesBelow (h : gmap ptr Item) (t : tree) : list ptr :=
  match t with
  | Node _ ks =>
      flat_map (fun k => match h !! top k with
                         | Some it => if isFolder it then filesBelow h k else [top k]
                         | None => []
                         end) ks
  end.

Lemma collectAllFiles_tree s t : forall par fuel files,
  shape (heap s) par t -> (height t <= fuel)%nat ->
  collectAllFiles fuel (top t) files s = Ok (files ++ filesBelow (heap s) t) s.
Proof.
  induction t as [p ks IH] using tree_ind'. intros par fuel files Hsh Hfuel.
  destruct fuel as [|fuel]; [cbn [height] in Hfuel; lia|].
  pose proof Hsh as Hsh'.
  apply shape_inv in Hsh' as (it & Hit & _ & Hch & Hks).
  cbn [collectAllFiles top]. unfold bind at 1, deref. rewrite Hit, Hch.
  assert (Hh : forall k, k ∈ ks -> (height k <= fuel)%nat).
  { intros k Hk. pose proof (height_kid p ks k Hk). lia. }
  clear Hfuel Hch Hit Hsh. cbn [filesBelow]. revert files.
  induction ks as [|k ks IHks]; intros files; simpl.
  - rewrite app_nil_r. reflexivity.
  - apply Forall_cons in IH as [IHk IHrest]. apply Forall_cons in Hks as [Hk Hrest].
    pose proof Hk as Hk'. destruct k as [c cks].
    apply shape_inv in Hk' as (cit & Hcit & _ & _ & _).
    unfold bind at 1. unfold bind at 1, deref. cbn [top]. rewrite Hcit.
    destruct (isFolder cit).
    + pose proof (IHk (Some p) fuel files Hk ltac:(apply Hh; left)) as E.
      cbn [top] in E. rewrite E. clear E.
      rewrite IHks; [rewrite app_assoc; reflexivity | exact IHrest | exact Hrest |].
      intros k' Hk'. apply Hh. right. exact Hk'.
    + unfold ret.
      rewrite IHks; [rewrite <- app_assoc; reflexivity | exact IHrest | exact Hrest |].
      intros k' Hk'. apply Hh. right. exact Hk'.
Qed.

Lemma filesBelow_sub h t x : x ∈ filesBelow h t -> x ∈ nodes t.
Proof.
  induction t as [p ks IH] using tree_ind'. cbn [filesBelow]. intros Hx.
  apply elem_of_flat_map in Hx as (k & Hk & Hx).
  rewrite Forall_forall in IH. eapply nodes_kid; [exact Hk|].
  destruct (h !! top k) as [it|]; [|inversion Hx].
  destruct (isFolder it); [apply IH; assumption|].
  apply list_elem_of_singleton in Hx. subst. apply nodes_top.
Qed.

Lemma NoDup_flat_map_sub {A} (f g : A -> list ptr) (l : list A) :
  (forall x, x ∈ l -> NoDup (f x)) ->
  (forall x y, x ∈ l -> y ∈ f x -> y ∈ g x) ->
  NoDup (flat_map g l) -> NoDup (flat_map f l).
Proof.
  intros Hnd Hsub. induction l as [|a l IH]; simpl; intros H; [constructor|].
  apply NoDup_app in H as (H1 & H2 & H3). apply NoDup_app. split; [|split].
  - apply Hnd. left.
  - intros y Hy Hy'. apply (H2 y).
    + apply (Hsub a); [left | exact Hy].
    + apply elem_of_flat_map in Hy' as (b & Hb & Hy').
      apply elem_of_flat_map. exists b. split; [exact Hb|].
      apply (Hsub b); [right; exact Hb | exact Hy'].
  - apply IH; [| |exact H3].
    + intros x Hx. apply Hnd. right. exact Hx.
    + intros x y Hx. apply Hsub. right. exact Hx.
Qed.

Lemma NoDup_filesBelow h t : NoDup (nodes t) -> NoDup (filesBelow h t).
Proof.
  induction t as [p ks IH] using tree_ind'. intros Hnd. cbn [filesBelow].
  apply NoDup_nodes_kids in Hnd as [_ Hnd]. rewrite Forall_forall in IH.
  apply NoDup_flat_map_sub with (g := nodes); [| |exact Hnd].
  - intros k Hk. destruct (h !! top k) as [it|]; [|constructor].
    destruct (isFolder it); [|apply NoDup_singleton].
    apply IH; [exact Hk|]. eapply NoDup_flat_map_kid; eauto.
  - intros k y Hk Hy. destruct (h !! top k) as [it|]; [|inversion Hy].
    destruct (isFolder it); [apply filesBelow_sub in Hy; exact Hy|].
    apply list_elem_of_singleton in Hy. subst. apply nodes_top.
Qed.

Lemma filesBelow_file h t : forall par x,
  shape h par t -> x ∈ filesBelow h t ->
  exists it, h !! x = Some it /\ isFolder it = false.
Proof.
  induction t as [p ks IH] using tree_ind'. intros par x Hsh Hx. cbn [filesBelow] in Hx.
  apply shape_inv in Hsh as (_ & _ & _ & _ & Hks).
  apply elem_of_flat_map in Hx as (k & Hk & Hx).
  rewrite Forall_forall in IH, Hks.
  destruct (h !! top k) as [it|] eqn:Hit; [|inversion Hx].
  destruct (isFolder it) eqn:Hkind.
  - eapply IH; eauto.
  - apply list_elem_of_singleton in Hx. subst. eauto.
Qed.

(** When files have no children, every file below the top is found. *)
Definition filesAreLeaves (h : gmap ptr Item) : Prop :=
  forall p it, h !! p = Some it -> isFolder it = false -> children it = [].

Lemma filesBelow_complete h t : forall par x it,
  filesAreLeaves h -> shape h par t ->
  x ∈ nodes t -> x <> top t -> h !! x = Some it -> isFolder it = false ->
  x ∈ filesBelow h t.
Proof.
  induction t as [p ks IH] using tree_ind'. intros par x it Hleaf Hsh Hx Hne Hit Hkind.
  apply shape_inv in Hsh as (_ & _ & _ & _ & Hks).
  apply elem_of_nodes in Hx as [-> | (k & Hk & Hx)]; [contradiction|].
  rewrite Forall_forall in IH, Hks. cbn [filesBelow].
  apply elem_of_flat_map. exists k. split; [exact Hk|].
  specialize (Hks k Hk). pose proof Hks as Hks'. destruct k as [c cks].
  apply shape_inv in Hks' as (cit & Hcit & _ & Hcch & _). cbn [top]. rewrite Hcit.
  destruct (isFolder cit) eqn:Hckind.
  - destruct (decide (x = c)) as [->|Hxc]; [congruence|].
    eapply (IH (Node c cks)); eauto.
  - pose proof (Hleaf c cit Hcit Hckind) as Hnil. rewrite Hnil in Hcch.
    destruct cks; [|discriminate]. cbn in Hx.
    apply list_elem_of_singleton in Hx. subst. left.
Qed.


(** ** The layout that defrag produces *)

Definition sectorsAt (h : gmap ptr Item) (p : ptr) : list Z :=
  match h !! p with
  | Some it => sectors it
  | None => []
  end.

(** Reading a content back: the slots of the sectors [ids], in order. *)
Definition readBack (d : list (list byte)) (ids : list Z) : list byte :=
  concat (map (fun id => default [] (d !! Z.to_nat id)) ids).

(** The state [s] of a defragmentation that started in [s0], has gone
    through the files [done] and stands at sector [next]. *)
Record laid (s0 : FileSystem) (done : list ptr) (next : Z) (s : FileSystem) : Prop := {
  laid_next : 0 <= next;
  laid_bound : next <= totalSectors s;
  laid_mapOk : mapOk s;
  laid_total : totalSectors s = totalSectors s0;
  laid_rest : brk s = brk s0 /\ root s = root s0 /\ currentDir s = currentDir s0;
  laid_map : forall j : nat, (j < length (sectorMap s))%nat ->
             sectorMap s !! j = Some (bool_decide (Z.of_nat j < next));
  laid_disk : (Z.to_nat next <= length (disk s))%nat;
  laid_other : forall p, p ∉ done -> heap s !! p = heap s0 !! p;
  laid_done : forall p, p ∈ done ->
              exists it0, heap s0 !! p = Some it0 /\ isFolder it0 = false /\
                          heap s !! p = Some (set_sectors (sectorsAt (heap s) p) it0) /\
                          length (sectorsAt (heap s) p) = sectorsNeeded (length (content it0)) /\
                          readBack (disk s) (sectorsAt (heap s) p) = content it0;
  laid_ids : flat_map (sectorsAt (heap s)) done = seqZ 0 next
}.

Lemma flat_map_ext_elem {A B} (f g : A -> list B) (l : list A) :
  (forall x, x ∈ l -> f x = g x) -> flat_map f l = flat_map g l.
Proof.
  intros H. induction l as [|a l IH]; simpl; [reflexivity|].
  rewrite (H a) by left. rewrite IH; [reflexivity|]. intros x Hx. apply H. right. exact Hx.
Qed.

Lemma readBack_ext d d' ids :
  (forall id, id ∈ ids -> d' !! Z.to_nat id = d !! Z.to_nat id) ->
  readBack d' ids = readBack d ids.
Proof.
  intros H. unfold readBack. f_equal.
  induction ids as [|id ids IH]; simpl; [reflexivity|].
  rewrite (H id) by left. f_equal. apply IH. intros x Hx. apply H. right. exact Hx.
Qed.

Lemma readBack_seqZ d cs next :
  0 <= next ->
  (forall k : nat, (k < length cs)%nat -> d !! Z.to_nat (next + Z.of_nat k) = cs !! k) ->
  readBack d (seqZ next (Z.of_nat (length cs))) = concat cs.
Proof.
  intros Hnext. unfold readBack. revert next Hnext.
  induction cs as [|c cs IH]; intros next Hnext H; [reflexivity|].
  cbn [length]. rewrite Nat2Z.inj_succ, seqZ_cons by lia. cbn [map concat].
  pose proof (H 0%nat ltac:(simpl; lia)) as H0. rewrite Z.add_0_r in H0. rewrite H0. cbn.
  f_equal. replace (Z.pred (Z.succ (Z.of_nat (length cs)))) with (Z.of_nat (length cs)) by lia.
  apply IH; [lia|]. intros k Hk.
  specialize (H (S k) ltac:(simpl; lia)). simpl in H.
  replace (Z.succ next + Z.of_nat k) with (next + Z.of_nat (S k)) by lia. exact H.
Qed.

(** ** A write that runs out of sectors *)

(** Reading back the ids [ids], whose slots hold the first chunks
    [cs]. *)
Lemma readBack_prefix (d : list (list byte)) (ids : list Z) : forall cs,
  (length ids <= length cs)%nat ->
  (forall k id, ids !! k = Some id -> d !! Z.to_nat id = cs !! k) ->
  readBack d ids = concat (take (length ids) cs).
Proof.
  unfold readBack. induction ids as [|id ids IH]; intros cs Hlen Hslot; [reflexivity|].
  destruct cs as [|c cs]; [cbn in Hlen; lia|]. cbn [map concat length take].
  rewrite (Hslot 0%nat id eq_refl). cbn [lookup default]. f_equal.
  apply IH; [cbn in Hlen; lia|].
  intros k i Hk. apply (Hslot (S k) i Hk).
Qed.

(** The first [k] chunks of a content are its first [64 * k] bytes. *)
Lemma concat_take_chunks (k : nat) : forall data,
  concat (take k (chunks data)) = take (64 * k) data.
Proof.
  induction k as [|k IH]; intros data; [rewrite Nat.mul_0_r; reflexivity|].
  destruct data as [|b r]; [rewrite chunks_nil; reflexivity|].
  rewrite chunks_cons. cbn [take concat]. rewrite IH.
  replace (64 * S k)%nat with (64 + 64 * k)%nat by lia.
  symmetry. rewrite <- take_take_drop. reflexivity.
Qed.

(** C9. A write by [saveToDisk] is not transactional.  When it leaves
    by "No free sectors available": the loop over the previous sectors
    of the item had gone through, so each of them was a valid id and
    was free (and nothing else had changed) when the writing began;
    the item's sector list now holds exactly the ids this write has
    claimed, fewer than its content needs, and every previous sector is
    among them, claimed again; all of them (indeed all sectors) are
    marked allocated, and no other bit of the bitmap and no other slot
    of the disk differs from before the call; the slot of the k-th
    claimed id holds the k-th chunk, so the sectors read back the
    first 64 bytes per claimed sector only, a proper part of the
    content field, which is untouched. *)
Theorem saveToDisk_not_transactional (s s' : FileSystem) (f : ptr) (it : Item) :
  heap s !! f = Some it -> isFolder it = false -> fitsInt (content it) ->
  saveToDisk (Some f) s = Throw (runtime_error "No free sectors available") s' ->
  exists (ids : list Z) (s1 : FileSystem),
    forM (sectors it) freeSector s = Ok tt s1 /\
    heap s1 = heap s /\ disk s1 = disk s /\
    length (sectorMap s1) = length (sectorMap s) /\
    (forall old, old ∈ sectors it ->
       0 <= old < Z.of_nat (length (sectorMap s)) /\
       sectorMap s1 !! Z.to_nat old = Some false) /\
    (forall j : nat, (forall old, old ∈ sectors it -> Z.to_nat old <> j) ->
       sectorMap s1 !! j = sectorMap s !! j) /\
    heap s' = <[f := set_sectors ids it]> (heap s) /\
    (length ids < sectorsNeeded (length (content it)))%nat /\
    NoDup ids /\
    (forall j : nat, sectorMap s' !! j <> Some false) /\
    (forall id, id ∈ ids ->
       0 <= id /\ sectorMap s1 !! Z.to_nat id = Some false /\
       sectorMap s' !! Z.to_nat id = Some true) /\
    (forall old, old ∈ sectors it -> old ∈ ids) /\
    (forall j : nat, (forall id, id ∈ ids -> Z.to_nat id <> j) ->
       sectorMap s' !! j = sectorMap s !! j /\
       ((j < length (disk s))%nat -> disk s' !! j = disk s !! j)) /\
    (forall k id, ids !! k = Some id ->
       disk s' !! Z.to_nat id = chunks (content it) !! k) /\
    readBack (disk s') ids = take (64 * length ids) (content it) /\
    (64 * length ids < length (content it))%nat /\
    (forall id, id ∈ ids ->
       sectorMap s !! Z.to_nat id = Some false \/
       exists old, old ∈ sectors it /\ Z.to_nat old = Z.to_nat id).
Proof.
  intros Hit Hfile Hfit H.
  destruct (forM (sectors it) freeSector s) as [[] s1| |] eqn:Hfree.
  - rewrite (saveToDisk_run _ _ _ _ Hit Hfile Hfit Hfree) in H.
    pose proof (freeAll_run (sectors it) s) as Hrun. rewrite Hfree in Hrun.
    destruct Hrun as [Hvalid ->]. rewrite Forall_forall in Hvalid.
    destruct (storeChunks _ _ _) as [[[ids m'] d'] ok] eqn:Hstore.
    apply storeChunks_spec in Hstore
      as [Hcount _ Hstop Hnodup Hfresh _ Hmoth Hslot Hdoth _]. unfold saved in H.
    destruct ok; [discriminate|]. injection H as <-.
    cbn [heap sectorMap disk set_sectorMap].
    destruct (Hstop eq_refl) as [Hless Hfull].
    assert (Hold : forall old, old ∈ sectors it -> old ∈ ids).
    { intros old Hin. destruct (decide (old ∈ ids)) as [Hyes|Hno]; [exact Hyes|].
      exfalso. destruct (Hvalid old Hin) as [Hold0 Holdlt].
      apply (Hfull (Z.to_nat old)). rewrite Hmoth.
      - apply clearAll_cleared; [exact Hin | lia].
      - intros id Hid Heq. apply Hno. destruct (Hfresh id Hid) as (Hid0 & _).
        replace old with id by lia. exact Hid. }
    assert (Hnot : forall j : nat, (forall id, id ∈ ids -> Z.to_nat id <> j) ->
                   forall old, old ∈ sectors it -> Z.to_nat old <> j).
    { intros j Hj old Hin. apply Hj. apply Hold. exact Hin. }
    exists ids, (set_sectorMap (clearAll (sectors it) (sectorMap s)) s).
    split; [reflexivity|]. split; [reflexivity|]. split; [reflexivity|].
    cbn [heap sectorMap disk set_sectorMap].
    split; [apply length_clearAll|]. split.
    { intros old Hin. destruct (Hvalid old Hin) as [Hold0 Holdlt].
      split; [split; assumption|]. apply clearAll_cleared; [exact Hin | lia]. }
    split; [intros j Hj; apply clearAll_other; exact Hj|].
    split; [reflexivity|]. split.
    { rewrite <- length_chunks. exact Hless. }
    split; [exact Hnodup|]. split; [exact Hfull|]. split; [exact Hfresh|].
    split; [exact Hold|]. split.
    { intros j Hj. split.
      - rewrite Hmoth by exact Hj. apply clearAll_other. apply Hnot. exact Hj.
      - intros Hlt. apply Hdoth; assumption. }
    split; [exact Hslot|]. split.
    { rewrite (readBack_prefix _ _ (chunks (content it))); [| lia | exact Hslot].
      apply concat_take_chunks. }
    split.
    { rewrite length_chunks in Hless.
      pose proof (sectorsNeeded_ceil (length (content it))). lia. }
    intros id Hin. destruct (Hfresh id Hin) as (_ & Hwas & _).
    destruct (decide (Exists (fun old => Z.to_nat old = Z.to_nat id) (sectors it))) as [Hex|Hno].
    + right. apply Exists_exists in Hex as (old & Hin' & Heq).
      exists old. split; [exact Hin' | exact Heq].
    + left. rewrite clearAll_other in Hwas; [exact Hwas|].
      intros old Hin' Heq. apply Hno. apply Exists_exists.
      exists old. split; [exact Hin' | exact Heq].
  - exfalso. unfold saveToDisk, bind, deref in H. rewrite Hit, Hfile, Hfree in H.
    pose proof (freeAll_run (sectors it) s) as Hrun. rewrite Hfree in Hrun.
    destruct Hrun as [id ->]. discriminate H.
  - exfalso. pose proof (freeAll_run (sectors it) s) as Hrun. rewrite Hfree in Hrun.
    exact Hrun.
Qed.

(** A disk of three sectors on which the file [f], of 200 bytes, holds
    sector 1 and the file [g] holds sector 0: rewriting [f] frees
    sector 1, claims it again and then sector 2, and finds no third. *)
Definition partialWriteItem : Item :=
  mkItem false "f" (replicate 200 x41) [1] [] (Some 0%nat).

Definition partialWriteState : FileSystem :=
  mkFS [[x42]; [x41]; []] [true; true; false]
       (<[2%nat := mkItem false "g" [x42] [0] [] (Some 0%nat)]>
          (<[1%nat := partialWriteItem]>
             {[ 0%nat := mkItem true "/" [] [] [1%nat; 2%nat] None ]}))
       3%nat 0%nat 0%nat 3.

Definition partialWriteFreed : FileSystem :=
  set_sectorMap [true; false; false] partialWriteState.

Definition partialWriteAfter : FileSystem :=
  mkFS [[x42]; replicate 64 x41; replicate 64 x41] [true; true; true]
       (<[1%nat := set_sectors [1; 2] partialWriteItem]> (heap partialWriteState))
       3%nat 0%nat 0%nat 3.

Lemma saveToDisk_not_transactional_witness :
  exists (ids : list Z) (s1 : FileSystem),
    forM (sectors partialWriteItem) freeSector partialWriteState = Ok tt s1 /\
    heap s1 = heap partialWriteState /\ disk s1 = disk partialWriteState /\
    length (sectorMap s1) = length (sectorMap partialWriteState) /\
    (forall old, old ∈ sectors partialWriteItem ->
       0 <= old < Z.of_nat (length (sectorMap partialWriteState)) /\
       sectorMap s1 !! Z.to_nat old = Some false) /\
    (forall j : nat, (forall old, old ∈ sectors partialWriteItem -> Z.to_nat old <> j) ->
       sectorMap s1 !! j = sectorMap partialWriteState !! j) /\
    heap partialWriteAfter = <[1%nat := set_sectors ids partialWriteItem]> (heap partialWriteState) /\
    (length ids < sectorsNeeded (length (content partialWriteItem)))%nat /\
    NoDup ids /\
    (forall j : nat, sectorMap partialWriteAfter !! j <> Some false) /\
    (forall id, id ∈ ids ->
       0 <= id /\ sectorMap s1 !! Z.to_nat id = Some false /\
       sectorMap partialWriteAfter !! Z.to_nat id = Some true) /\
    (forall old, old ∈ sectors partialWriteItem -> old ∈ ids) /\
    (forall j : nat, (forall id, id ∈ ids -> Z.to_nat id <> j) ->
       sectorMap partialWriteAfter !! j = sectorMap partialWriteState !! j /\
       ((j < length (disk partialWriteState))%nat ->
        disk partialWriteAfter !! j = disk partialWriteState !! j)) /\
    (forall k id, ids !! k = Some id ->
       disk partialWriteAfter !! Z.to_nat id = chunks (content partialWriteItem) !! k) /\
    readBack (disk partialWriteAfter) ids = take (64 * length ids) (content partialWriteItem) /\
    (64 * length ids < length (content partialWriteItem))%nat /\
    (forall id, id ∈ ids ->
       sectorMap partialWriteState !! Z.to_nat id = Some false \/
       exists old, old ∈ sectors partialWriteItem /\ Z.to_nat old = Z.to_nat id).
Proof.
  apply (saveToDisk_not_transactional partialWriteState partialWriteAfter 1%nat partialWriteItem).
  - reflexivity.
  - reflexivity.
  - unfold fitsInt, INT_MAX. simpl. lia.
  - vm_compute. reflexivity.
Defined.

(** The run of the witness, computed: the previous sector 1 of [f] is
    freed and claimed again, sector 2 is claimed, the third chunk finds
    no sector; the sector 0 of [g] is not touched. *)
Example partialWrite_run :
  forM (sectors partialWriteItem) freeSector partialWriteState = Ok tt partialWriteFreed /\
  saveToDisk (Some 1%nat) partialWriteState =
  Throw (runtime_error "No free sectors available") partialWriteAfter.
Proof. split; vm_compute; reflexivity. Qed.


Lemma elem_of_seqZ_0 id n : id ∈ seqZ 0 n -> 0 <= id < n.
Proof. intros H. apply elem_of_seqZ in H. lia. Qed.

Lemma laid_step s0 done next s f it0 :
  laid s0 done next s -> f ∉ done ->
  heap s0 !! f = Some it0 -> isFolder it0 = false -> fitsInt (content it0) ->
  match defragFile next f s with
  | Ok next' s' => laid s0 (done ++ [f]) next' s'
  | Throw e _ => e = runtime_error "Disk is full"
  | Fault _ => False
  end.
Proof.
  intros [Hnext Hbound Hm Htot Hrest Hmap Hdisk Hother Hdone Hids] Hf Hit0 Hkind Hfit.
  assert (Hit : heap s !! f = Some it0) by (rewrite Hother; assumption).
  unfold defragFile, bind, deref, update. rewrite Hit, Hkind, Hit.
  rewrite defragLoop_run with (it := set_sectors [] it0);
    [| exact Hfit | lia | rewrite drop_0; reflexivity | exact Hnext | exact Hm
     | cbn; apply lookup_insert_eq].
  cbn [sectorMap disk heap set_heap totalSectors]. rewrite drop_0.
  destruct (placeChunks _ _ _ _ _) as [[[ids m'] d'] ok] eqn:Hplace.
  apply placeChunks_spec in Hplace
    as [Hidseq _ Hall _ Hfull Hmlen Hmin Hmoth Hslot Hdoth Hdlen]; [|exact Hnext].
  unfold placed. destruct ok; [|reflexivity].
  specialize (Hall eq_refl). cbv zeta. cbn [sectors set_sectors app].
  cbn [heap set_heap brk root currentDir totalSectors].
  rewrite insert_insert_eq.
  set (n := Z.of_nat (length ids)) in *.
  assert (Hheap : forall p, p <> f ->
            <[f := set_sectors ids (set_sectors [] it0)]> (heap s) !! p = heap s !! p).
  { intros p Hp. apply lookup_insert_ne. congruence. }
  assert (Hold : forall p id, p ∈ done -> id ∈ sectorsAt (heap s) p -> 0 <= id < next).
  { intros p id Hp Hid. apply elem_of_seqZ_0. rewrite <- Hids.
    apply elem_of_flat_map. eauto. }
  assert (Hsame : forall p, p ∈ done ->
            sectorsAt (<[f := set_sectors ids (set_sectors [] it0)]> (heap s)) p
            = sectorsAt (heap s) p).
  { intros p Hp. unfold sectorsAt. rewrite Hheap; [reflexivity|]. intros ->. contradiction. }
  constructor; cbn [sectorMap disk heap totalSectors brk root currentDir].
  - lia.
  - destruct ids as [|i0 ids']; [subst n; simpl; lia|].
    apply Hfull. discriminate.
  - unfold mapOk in *. cbn. rewrite Hmlen. exact Hm.
  - exact Htot.
  - exact Hrest.
  - intros j Hj. rewrite Hmlen in Hj.
    destruct (decide (next <= Z.of_nat j < next + n)) as [Hin|Hout].
    + rewrite Hmin by assumption. rewrite bool_decide_eq_true_2 by lia. reflexivity.
    + rewrite Hmoth by assumption. rewrite Hmap by exact Hj.
      f_equal. apply bool_decide_ext. lia.
  - destruct (decide (length ids = 0%nat)) as [H0|Hpos].
    + subst n. rewrite H0. simpl. rewrite Z.add_0_r. lia.
    + pose proof (Hslot (length ids - 1)%nat ltac:(lia)) as Hs.
      destruct (chunks (content it0) !! (length ids - 1)%nat) eqn:Hc.
      * apply lookup_lt_Some in Hs. subst n. lia.
      * apply lookup_ge_None in Hc. lia.
  - intros p Hp. rewrite Hheap.
    + apply Hother. intros Hin. apply Hp. apply elem_of_app. left. exact Hin.
    + intros ->. apply Hp. apply elem_of_app. right. left.
  - intros p Hp. apply elem_of_app in Hp as [Hp | Hp].
    + destruct (Hdone p Hp) as (itp & Hp0 & Hpk & Hps & Hpl & Hpr).
      exists itp. rewrite (Hsame p Hp). rewrite Hheap by (intros ->; contradiction).
      split; [exact Hp0|]. split; [exact Hpk|]. split; [exact Hps|]. split; [exact Hpl|].
      rewrite <- Hpr. apply readBack_ext. intros id Hid.
      specialize (Hold p id Hp Hid). apply Hdoth; lia.
    + apply list_elem_of_singleton in Hp. subst p. exists it0.
      unfold sectorsAt. rewrite lookup_insert_eq. cbn [sectors set_sectors].
      split; [exact Hit0|]. split; [exact Hkind|]. split; [reflexivity|].
      split; [rewrite Hall; apply length_chunks|].
      rewrite Hidseq. fold n. rewrite <- (concat_chunks (content it0)).
      subst n. rewrite Hall. apply readBack_seqZ; [exact Hnext|].
      intros k Hk. apply Hslot. rewrite Hall. exact Hk.
  - rewrite flat_map_app. simpl. rewrite app_nil_r.
    rewrite (flat_map_ext_elem _ (sectorsAt (heap s))) by exact Hsame.
    rewrite Hids. unfold sectorsAt at 1. rewrite lookup_insert_eq. cbn [sectors set_sectors].
    rewrite Hidseq. fold n.
    rewrite seqZ_app by lia. rewrite Z.add_0_l. reflexivity.
Qed.

Lemma laid_fold s0 : forall files done next s,
  laid s0 done next s -> NoDup files ->
  (forall f, f ∈ files ->
     (f ∉ done) /\ exists it0, heap s0 !! f = Some it0 /\ isFolder it0 = false /\
                             fitsInt (content it0)) ->
  match foldM defragFile files next s with
  | Ok next' s' => laid s0 (done ++ files) next' s'
  | Throw e _ => e = runtime_error "Disk is full"
  | Fault _ => False
  end.
Proof.
  induction files as [|f files IH]; intros done next s Hlaid Hnd Hfiles; simpl.
  - rewrite app_nil_r. exact Hlaid.
  - apply NoDup_cons in Hnd as [Hf Hnd].
    destruct (Hfiles f ltac:(left)) as (Hfd & it0 & Hit0 & Hkind & Hfit).
    pose proof (laid_step s0 done next s f it0 Hlaid Hfd Hit0 Hkind Hfit) as Hstep.
    unfold bind. destruct (defragFile next f s) as [next1 s1| |]; auto.
    specialize (IH (done ++ [f]) next1 s1 Hstep Hnd).
    rewrite <- app_assoc in IH. apply IH.
    intros g Hg. destruct (Hfiles g ltac:(right; exact Hg)) as (Hgd & Hrest).
    split; [|exact Hrest]. intros Hin. apply elem_of_app in Hin as [Hin | Hin].
    + contradiction.
    + apply list_elem_of_singleton in Hin. subst g. contradiction.
Qed.


Lemma depthBound_enough s t :
  NoDup (nodes t) -> (forall p, p ∈ nodes t -> (p < brk s)%nat) ->
  (height t <= S (brk s))%nat.
Proof.
  intros Hnd Hlt. pose proof (height_le_nodes t).
  pose proof (NoDup_bounded_length _ _ Hnd Hlt). lia.
Qed.

(** The run of [defrag] on a tree: the files are laid out one after the
    other, or the disk is reported full. *)
Lemma defrag_laid (s : FileSystem) (T : tree) :
  shape (heap s) None T -> top T = root s -> NoDup (nodes T) ->
  (forall p, p ∈ nodes T -> (p < brk s)%nat) ->
  mapOk s ->
  (forall p it, heap s !! p = Some it -> fitsInt (content it)) ->
  match defrag s with
  | Ok _ s' => exists next,
      laid (set_sectorMap (map (fun _ => false) (sectorMap s)) s)
           (filesBelow (heap s) T) next s'
  | Throw e _ => e = runtime_error "Disk is full"
  | Fault _ => False
  end.
Proof.
  intros Hsh Htop Hnd Hbrk Hm Hfit.
  unfold defrag, bind at 1, gets at 1.
  unfold bind at 1, depthBound, gets at 1.
  rewrite <- Htop.
  unfold bind at 1.
  rewrite (collectAllFiles_tree s T None (S (brk s)) [] Hsh)
    by (apply depthBound_enough; assumption).
  cbn [app]. set (files := filesBelow (heap s) T).
  unfold bind at 1, modify.
  set (s0 := set_sectorMap (map (fun _ => false) (sectorMap s)) s).
  assert (Hlaid0 : laid s0 [] 0 s0).
  { unfold s0.
    constructor; cbn [sectorMap heap disk totalSectors brk root currentDir set_sectorMap];
      auto; try lia; try (intros p Hp; apply elem_of_nil in Hp; contradiction).
    - unfold mapOk in Hm. lia.
    - unfold mapOk in *. cbn. rewrite length_map. exact Hm.
    - intros j Hj. rewrite length_map in Hj. rewrite list_lookup_fmap.
      rewrite bool_decide_eq_false_2 by lia.
      destruct (sectorMap s !! j) eqn:E; [reflexivity|].
      apply lookup_ge_None in E. lia. }
  pose proof (laid_fold s0 files [] 0 s0 Hlaid0 (NoDup_filesBelow _ _ Hnd)) as Hfold.
  assert (Hfiles : forall f, f ∈ files ->
            (f ∉ []) /\ exists it0, heap s0 !! f = Some it0 /\ isFolder it0 = false /\
                                    fitsInt (content it0)).
  { intros f Hf. split; [intros Hin; inversion Hin|].
    destruct (filesBelow_file _ _ _ _ Hsh Hf) as (it & Hit & Hkind).
    exists it. cbn. eauto. }
  specialize (Hfold Hfiles). unfold bind.
  destruct (foldM defragFile files 0 s0) as [next s1| |]; auto.
  unfold ret. exists next. exact Hfold.
Qed.

(** C4. On a state whose items form a tree below the root, when [defrag]
    returns: the sector lists of the files, taken in the order of the
    depth-first traversal, are together 0, 1, ..., S-1, where S is the sum
    of their lengths; the bitmap marks exactly the ids below S; every
    file keeps its content, has as many sectors as the content needs, and
    reads back that content from the disk; nothing else changes in the
    heap.  The traversal finds every file of the tree when files have no
    children. *)
Theorem defrag_layout (s s' : FileSystem) (T : tree) :
  shape (heap s) None T -> top T = root s -> NoDup (nodes T) ->
  (forall p, p ∈ nodes T -> (p < brk s)%nat) ->
  mapOk s ->
  (forall p it, heap s !! p = Some it -> fitsInt (content it)) ->
  defrag s = Ok tt s' ->
  let files := filesBelow (heap s) T in
  let total := Z.of_nat (length (flat_map (sectorsAt (heap s')) files)) in
  flat_map (sectorsAt (heap s')) files = seqZ 0 total /\
  total <= totalSectors s /\
  length (sectorMap s') = length (sectorMap s) /\
  (forall j : nat, (j < length (sectorMap s'))%nat ->
     sectorMap s' !! j = Some (bool_decide (Z.of_nat j < total))) /\
  (forall f, f ∈ files ->
     exists it, heap s !! f = Some it /\ isFolder it = false /\
                heap s' !! f = Some (set_sectors (sectorsAt (heap s') f) it) /\
                length (sectorsAt (heap s') f) = sectorsNeeded (length (content it)) /\
                readBack (disk s') (sectorsAt (heap s') f) = content it) /\
  (forall p, p ∉ files -> heap s' !! p = heap s !! p) /\
  (filesAreLeaves (heap s) ->
   forall p it, p ∈ nodes T -> p <> root s -> heap s !! p = Some it ->
                isFolder it = false -> p ∈ files).
Proof.
  intros Hsh Htop Hnd Hbrk Hm Hfit Hrun files total.
  pose proof (defrag_laid s T Hsh Htop Hnd Hbrk Hm Hfit) as Hlaid.
  rewrite Hrun in Hlaid. destruct Hlaid as [next Hlaid]. fold files in Hlaid.
  destruct Hlaid as [Hnext Hbound Hm1 Htot Hrest Hmap Hdisk Hother Hdone Hids].
  assert (HS : total = next).
  { subst total. rewrite Hids, length_seqZ. lia. }
  rewrite HS. split; [exact Hids|]. split; [rewrite Htot in Hbound; exact Hbound|].
  split.
  { unfold mapOk in *. cbn in Htot. lia. }
  split; [exact Hmap|]. split; [exact Hdone|]. split; [exact Hother|].
  intros Hleaf p it Hp Hne Hit Hkind.
  eapply filesBelow_complete; eauto. congruence.
Qed.


(** A fragmented disk: after [mkdir d], [put a .] (70 bytes), [put b d]
    (1 byte), [rm a] and [put c .] (130 bytes) on four sectors, the file
    [c] holds the sectors 0, 1 and 3 and [b] holds sector 2. *)
Definition fragmentedHeap : gmap ptr Item :=
  <[4%nat := mkItem false "c" (replicate 130 x43) [0; 1; 3] [] (Some 0%nat)]>
    (<[3%nat := mkItem false "b" [x42] [2] [] (Some 1%nat)]>
       (<[1%nat := mkItem true "d" [] [] [3%nat] (Some 0%nat)]>
          {[ 0%nat := mkItem true "/" [] [] [1%nat; 4%nat] None ]})).

Definition fragmentedState : FileSystem :=
  mkFS [replicate 64 x43; replicate 64 x43; [x42]; replicate 2 x43]
       [true; true; true; true] fragmentedHeap 5%nat 0%nat 0%nat 4.

Definition fragmentedTree : tree :=
  Node 0%nat [Node 1%nat [Node 3%nat []]; Node 4%nat []].

Definition defragmentedState : FileSystem :=
  match defrag fragmentedState with
  | Ok _ s' => s'
  | _ => fragmentedState
  end.

Example fragmentedState_reached :
  bind (mkdir "d") (fun _ =>
  bind (put "a" (Some (replicate 70 x41)) ".") (fun _ =>
  bind (put "b" (Some [x42]) "d") (fun _ =>
  bind (rm "a" false) (fun _ =>
  put "c" (Some (replicate 130 x43)) ".")))) (init 4)
  = Ok tt fragmentedState.
Proof. vm_compute. reflexivity. Qed.

Lemma fragmentedTree_shape : shape fragmentedHeap None fragmentedTree.
Proof.
  unfold fragmentedTree.
  repeat first
    [ apply List.Forall_nil
    | apply List.Forall_cons
    | eapply shape_node; [vm_compute; reflexivity | reflexivity | reflexivity |] ].
Qed.

Lemma defrag_layout_witness :
  let files := filesBelow (heap fragmentedState) fragmentedTree in
  let total := Z.of_nat (length (flat_map (sectorsAt (heap defragmentedState)) files)) in
  flat_map (sectorsAt (heap defragmentedState)) files = seqZ 0 total /\
  total <= totalSectors fragmentedState /\
  length (sectorMap defragmentedState) = length (sectorMap fragmentedState) /\
  (forall j : nat, (j < length (sectorMap defragmentedState))%nat ->
     sectorMap defragmentedState !! j = Some (bool_decide (Z.of_nat j < total))) /\
  (forall f, f ∈ files ->
     exists it, heap fragmentedState !! f = Some it /\ isFolder it = false /\
                heap defragmentedState !! f =
                Some (set_sectors (sectorsAt (heap defragmentedState) f) it) /\
                length (sectorsAt (heap defragmentedState) f) =
                sectorsNeeded (length (content it)) /\
                readBack (disk defragmentedState) (sectorsAt (heap defragmentedState) f) =
                content it) /\
  (forall p, p ∉ files -> heap defragmentedState !! p = heap fragmentedState !! p) /\
  (filesAreLeaves (heap fragmentedState) ->
   forall p it, p ∈ nodes fragmentedTree -> p <> root fragmentedState ->
                heap fragmentedState !! p = Some it ->
                isFolder it = false -> p ∈ files).
Proof.
  apply (defrag_layout fragmentedState defragmentedState fragmentedTree).
  - exact fragmentedTree_shape.
  - reflexivity.
  - apply (bool_decide_unpack _). vm_compute. exact I.
  - intros p Hp. cbn in Hp.
    repeat (apply elem_of_cons in Hp as [-> | Hp]; [simpl; lia|]).
    apply elem_of_nil in Hp. contradiction.
  - reflexivity.
  - intros p it H. cbn [heap fragmentedState] in H. unfold fragmentedHeap in H.
    repeat (apply lookup_insert_Some in H as [[_ <-] | [_ H]];
            [unfold fitsInt, INT_MAX; vm_compute; discriminate|]).
    apply lookup_singleton_Some in H as [_ <-].
    unfold fitsInt, INT_MAX. vm_compute. discriminate.
  - vm_compute. reflexivity.
Defined.


(** ** Grafting and pruning *)

(** [graft q sub t]: [sub] becomes the last child of the node [q]. *)
Fixpoint graft (q : ptr) (sub : tree) (t : tree) : tree :=
  match t with
  | Node p ks =>
      Node p (if Nat.eqb p q then map (graft q sub) ks ++ [sub]
              else map (graft q sub) ks)
  end.

(** [prune c t]: the subtree whose top is [c] is taken out from below its
    parent. *)
Fixpoint prune (c : ptr) (t : tree) : tree :=
  match t with
  | Node p ks =>
      Node p (List.filter (fun k => negb (Nat.eqb (top k) c)) (map (prune c) ks))
  end.

Lemma graft_top q sub t : top (graft q sub t) = top t.
Proof. destruct t; reflexivity. Qed.

Lemma map_top_graft q sub ks : map top (map (graft q sub) ks) = map top ks.
Proof.
  rewrite map_map. apply map_ext. intros k. apply graft_top.
Qed.

Lemma graft_notin q sub t : q ∉ nodes t -> graft q sub t = t.
Proof.
  induction t as [p ks IH] using tree_ind'. intros Hq. cbn [graft].
  destruct (Nat.eqb p q) eqn:E.
  { apply Nat.eqb_eq in E. subst. exfalso. apply Hq. left. }
  f_equal. rewrite Forall_forall in IH.
  rewrite <- (map_id ks) at 2. apply map_ext_in. intros k Hk.
  apply list_elem_of_In in Hk. apply IH; [exact Hk|].
  intros Hin. apply Hq. eapply nodes_kid; eauto.
Qed.

Lemma map_graft_notin q sub (ks : list tree) :
  q ∉ flat_map nodes ks -> map (graft q sub) ks = ks.
Proof.
  intros Hq. rewrite <- (map_id ks) at 2. apply map_ext_in. intros k Hk.
  apply graft_notin. intros Hin. apply Hq. apply elem_of_flat_map.
  exists k. split; [apply list_elem_of_In; exact Hk | exact Hin].
Qed.

Lemma flat_map_graft q sub (ks : list tree) :
  (forall k, k ∈ ks -> q ∈ nodes k -> NoDup (nodes k) ->
             nodes (graft q sub k) ≡ₚ nodes k ++ nodes sub) ->
  NoDup (flat_map nodes ks) -> q ∈ flat_map nodes ks ->
  flat_map nodes (map (graft q sub) ks) ≡ₚ flat_map nodes ks ++ nodes sub.
Proof.
  induction ks as [|k ks IH]; intros Hk Hnd Hq; [inversion Hq|].
  cbn [map flat_map] in *. apply NoDup_app in Hnd as (Hnd1 & Hdisj & Hnd2).
  apply elem_of_app in Hq as [Hq | Hq].
  - rewrite map_graft_notin by (intros Hin; exact (Hdisj q Hq Hin)).
    rewrite (Hk k ltac:(left) Hq Hnd1).
    rewrite <- !app_assoc. apply Permutation_app_head. apply Permutation_app_comm.
  - rewrite (graft_notin q sub k) by (intros Hin; exact (Hdisj q Hin Hq)).
    rewrite IH; [rewrite app_assoc; reflexivity | | exact Hnd2 | exact Hq].
    intros k' Hk'. apply Hk. right. exact Hk'.
Qed.

(** The nodes of the grafted tree are those of the tree and of the graft. *)
Lemma nodes_graft q sub t :
  q ∈ nodes t -> NoDup (nodes t) -> nodes (graft q sub t) ≡ₚ nodes t ++ nodes sub.
Proof.
  induction t as [p ks IH] using tree_ind'. intros Hq Hnd. cbn [graft].
  pose proof (NoDup_nodes_kids p ks Hnd) as [Hp Hks].
  destruct (Nat.eqb p q) eqn:E.
  - apply Nat.eqb_eq in E. subst q.
    rewrite map_graft_notin by exact Hp.
    cbn [nodes]. rewrite flat_map_app. simpl. rewrite app_nil_r. reflexivity.
  - apply Nat.eqb_neq in E.
    apply elem_of_nodes in Hq as [-> | (k & Hk & Hq)]; [contradiction|].
    cbn [nodes]. simpl. apply Permutation_cons; [reflexivity|].
    apply flat_map_graft; [|exact Hks|apply elem_of_flat_map; eauto].
    rewrite Forall_forall in IH. intros k' Hk' Hq' Hnd'. apply IH; assumption.
Qed.

(** The shape of the grafted tree, once [q] has the new child and the
    graft hangs below [q]. *)
Lemma shape_graft h q qi sub t :
  h !! q = Some qi ->
  let h' := <[q := set_children (children qi ++ [top sub]) qi]> h in
  shape h' (Some q) sub ->
  forall par, shape h par t -> NoDup (nodes t) -> shape h' par (graft q sub t).
Proof.
  intros Hqi h' Hsub.
  induction t as [p ks IH] using tree_ind'. intros par Hsh Hnd.
  pose proof (NoDup_nodes_kids p ks Hnd) as [Hp Hks].
  apply shape_inv in Hsh as (it & Hit & Hpar & Hch & Hkids).
  rewrite Forall_forall in IH, Hkids. cbn [graft].
  destruct (Nat.eqb p q) eqn:E.
  - apply Nat.eqb_eq in E. subst q. rewrite Hit in Hqi. injection Hqi as <-.
    rewrite map_graft_notin by exact Hp.
    apply shape_node with (it := set_children (children it ++ [top sub]) it).
    + apply lookup_insert_eq.
    + exact Hpar.
    + cbn. rewrite Hch, map_app. reflexivity.
    + apply Forall_app. split; [|constructor; [exact Hsub | constructor]].
      apply Forall_forall. intros k Hk.
      apply shape_frame with (h := h); [apply Hkids; exact Hk|].
      intros x Hx itx Hitx. exists itx. subst h'.
      rewrite lookup_insert_ne; [auto|].
      intros ->. apply Hp. apply elem_of_flat_map. eauto.
  - apply Nat.eqb_neq in E.
    apply shape_node with (it := it).
    + subst h'. rewrite lookup_insert_ne by congruence. exact Hit.
    + exact Hpar.
    + rewrite map_top_graft. exact Hch.
    + apply Forall_forall. intros k' Hk'.
      apply list_elem_of_fmap in Hk' as (k & -> & Hk).
      apply IH; [exact Hk | apply Hkids; exact Hk |].
      eapply NoDup_flat_map_kid; eauto.
Qed.


Definition keeps (c : ptr) (k : tree) : bool := negb (Nat.eqb (top k) c).

Lemma prune_unfold c p ks :
  prune c (Node p ks) = Node p (List.filter (keeps c) (map (prune c) ks)).
Proof. reflexivity. Qed.

Lemma prune_top c t : top (prune c t) = top t.
Proof. destruct t; reflexivity. Qed.

Lemma subtree_elem c t u : subtree c t = Some u -> c ∈ nodes t.
Proof.
  intros H. eapply subtree_nodes; [exact H|].
  rewrite <- (subtree_top _ _ _ H). apply nodes_top.
Qed.

Lemma subtree_notin c t : c ∉ nodes t -> subtree c t = None.
Proof.
  intros Hc. destruct (subtree c t) as [u|] eqn:E; [|reflexivity].
  exfalso. apply Hc. eapply subtree_elem; eauto.
Qed.

Lemma filter_keeps_all c (ks : list tree) :
  (forall k, k ∈ ks -> top k <> c) -> List.filter (keeps c) ks = ks.
Proof.
  induction ks as [|k ks IH]; intros H; simpl; [reflexivity|].
  unfold keeps at 1. rewrite (proj2 (Nat.eqb_neq (top k) c)) by (apply H; left). simpl.
  rewrite IH; [reflexivity|]. intros k' Hk'. apply H. right. exact Hk'.
Qed.

Lemma prune_notin c t : c ∉ nodes t -> prune c t = t.
Proof.
  induction t as [p ks IH] using tree_ind'. intros Hc. rewrite prune_unfold. f_equal.
  rewrite Forall_forall in IH.
  assert (Hmap : map (prune c) ks = ks).
  { rewrite <- (map_id ks) at 2. apply map_ext_in. intros k Hk.
    apply list_elem_of_In in Hk. apply IH; [exact Hk|].
    intros Hin. apply Hc. eapply nodes_kid; eauto. }
  rewrite Hmap. apply filter_keeps_all. intros k Hk Heq. apply Hc.
  eapply nodes_kid; [exact Hk|]. rewrite <- Heq. apply nodes_top.
Qed.

Lemma pruneL_notin c (ks : list tree) :
  c ∉ flat_map nodes ks -> List.filter (keeps c) (map (prune c) ks) = ks.
Proof.
  intros Hc.
  assert (Hmap : map (prune c) ks = ks).
  { rewrite <- (map_id ks) at 2. apply map_ext_in. intros k Hk.
    apply list_elem_of_In in Hk. apply prune_notin.
    intros Hin. apply Hc. apply elem_of_flat_map. eauto. }
  rewrite Hmap. apply filter_keeps_all. intros k Hk Heq. apply Hc.
  apply elem_of_flat_map. exists k. split; [exact Hk|]. rewrite <- Heq. apply nodes_top.
Qed.

(** The subtree of [c] among the trees [ks], as [subtree] looks for it. *)
Definition subtreeL (c : ptr) (ks : list tree) : option tree :=
  fold_right (fun k r => match subtree c k with
                         | Some u => Some u
                         | None => r
                         end) None ks.

Lemma subtree_unfold c p ks :
  subtree c (Node p ks) = if Nat.eqb p c then Some (Node p ks) else subtreeL c ks.
Proof. reflexivity. Qed.

Lemma nodes_pruneL c u (ks : list tree) :
  Forall (fun t => NoDup (nodes t) -> c <> top t -> subtree c t = Some u ->
                   nodes t ≡ₚ nodes (prune c t) ++ nodes u) ks ->
  NoDup (flat_map nodes ks) -> subtreeL c ks = Some u ->
  flat_map nodes ks ≡ₚ flat_map nodes (List.filter (keeps c) (map (prune c) ks)) ++ nodes u.
Proof.
  induction ks as [|k ks IHks]; intros IH Hnd Hsub; [discriminate|].
  apply Forall_cons in IH as [IHk IH]. cbn [flat_map] in Hnd.
  apply NoDup_app in Hnd as (Hnd1 & Hdisj & Hnd2).
  cbn [subtreeL fold_right] in Hsub. fold (subtreeL c ks) in Hsub.
  cbn [map List.filter flat_map].
  destruct (subtree c k) as [u'|] eqn:Ek.
  - injection Hsub as ->.
    assert (Hck : c ∈ nodes k) by (eapply subtree_elem; eauto).
    rewrite pruneL_notin by (intros Hin; exact (Hdisj c Hck Hin)).
    unfold keeps at 1. rewrite prune_top.
    destruct (Nat.eqb (top k) c) eqn:E; cbn [negb].
    + apply Nat.eqb_eq in E. destruct k as [p' ks']. cbn [top] in E. subst p'.
      rewrite subtree_unfold, Nat.eqb_refl in Ek. injection Ek as <-.
      apply Permutation_app_comm.
    + apply Nat.eqb_neq in E. cbn [flat_map].
      rewrite (IHk Hnd1 ltac:(congruence) eq_refl).
      rewrite <- !app_assoc. apply Permutation_app_head. apply Permutation_app_comm.
  - assert (Hck : c ∉ nodes k).
    { intros Hin. destruct (subtree_exists c k Hin) as [u' Hu']. congruence. }
    rewrite (prune_notin c k Hck). unfold keeps at 1.
    assert (E : Nat.eqb (top k) c = false).
    { apply Nat.eqb_neq. intros Heq. apply Hck. rewrite <- Heq. apply nodes_top. }
    rewrite E. cbn [negb flat_map].
    rewrite <- app_assoc. apply Permutation_app_head. apply IHks; assumption.
Qed.

(** The nodes of a tree are those that stay and those of the subtree
    pruned. *)
Lemma nodes_prune c u t :
  NoDup (nodes t) -> c <> top t -> subtree c t = Some u ->
  nodes t ≡ₚ nodes (prune c t) ++ nodes u.
Proof.
  revert u. induction t as [p ks IH] using tree_ind'. intros u Hnd Hc Hsub.
  cbn [top] in Hc. rewrite subtree_unfold in Hsub.
  rewrite (proj2 (Nat.eqb_neq p c)) in Hsub by congruence.
  rewrite prune_unfold. cbn [nodes]. simpl. apply Permutation_cons; [reflexivity|].
  apply nodes_pruneL; [|apply NoDup_nodes_kids in Hnd; tauto | exact Hsub].
  eapply Forall_impl; [exact IH|]. intros k Hk. apply Hk.
Qed.

Lemma eraseFirst_filter c (l : list ptr) :
  NoDup l -> eraseFirst c l = List.filter (fun x => negb (Nat.eqb x c)) l.
Proof.
  induction l as [|x l IH]; intros Hnd; simpl; [reflexivity|].
  apply NoDup_cons in Hnd as [Hx Hnd].
  destruct (Nat.eqb x c) eqn:E; simpl.
  - apply Nat.eqb_eq in E. subst x. symmetry.
    clear IH. induction l as [|y l IH]; simpl; [reflexivity|].
    assert (Nat.eqb y c = false) as ->.
    { apply Nat.eqb_neq. intros ->. apply Hx. left. }
    simpl. f_equal. apply IH.
    + intros Hin. apply Hx. right. exact Hin.
    + apply NoDup_cons in Hnd. tauto.
  - f_equal. apply IH. exact Hnd.
Qed.

Lemma map_top_pruneL c (ks : list tree) :
  map top (List.filter (keeps c) (map (prune c) ks))
  = List.filter (fun x => negb (Nat.eqb x c)) (map top ks).
Proof.
  induction ks as [|k ks IH]; simpl; [reflexivity|].
  unfold keeps at 1. rewrite prune_top.
  destruct (Nat.eqb (top k) c); simpl; [exact IH|].
  rewrite prune_top. f_equal. exact IH.
Qed.

Lemma NoDup_tops (ks : list tree) : NoDup (flat_map nodes ks) -> NoDup (map top ks).
Proof.
  induction ks as [|k ks IH]; intros Hnd; simpl; [constructor|].
  cbn [flat_map] in Hnd. apply NoDup_app in Hnd as (Hnd1 & Hdisj & Hnd2).
  apply NoDup_cons. split; [|apply IH; exact Hnd2].
  intros Hin. apply list_elem_of_fmap in Hin as (k' & Heq & Hk').
  apply (Hdisj (top k)); [apply nodes_top|].
  apply elem_of_flat_map. exists k'. split; [exact Hk'|]. rewrite Heq. apply nodes_top.
Qed.

(** The shape of the pruned tree, once the parent [q] of [c] has lost the
    child. *)
Lemma shape_prune h c ci q qi t :
  h !! c = Some ci -> parent ci = Some q -> h !! q = Some qi ->
  let h' := <[q := set_children (eraseFirst c (children qi)) qi]> h in
  forall par, shape h par t -> NoDup (nodes t) -> c <> top t -> shape h' par (prune c t).
Proof.
  intros Hci Hcpar Hqi h'.
  induction t as [p ks IH] using tree_ind'. intros par Hsh Hnd Hc.
  pose proof (NoDup_nodes_kids p ks Hnd) as [Hp Hks].
  apply shape_inv in Hsh as (it & Hit & Hpar & Hch & Hkids).
  rewrite Forall_forall in IH, Hkids. rewrite prune_unfold. cbn [top] in Hc.
  assert (Hsub : Forall (shape h' (Some p)) (List.filter (keeps c) (map (prune c) ks))).
  { apply Forall_forall. intros k' Hk'.
    apply list_elem_of_In, filter_In in Hk' as [Hk' Hkeep].
    apply list_elem_of_In, list_elem_of_fmap in Hk' as (k & -> & Hk).
    unfold keeps in Hkeep. rewrite prune_top in Hkeep.
    apply negb_true_iff, Nat.eqb_neq in Hkeep.
    apply IH; [exact Hk | apply Hkids; exact Hk | eapply NoDup_flat_map_kid; eauto | congruence]. }
  destruct (decide (p = q)) as [->|Hpq].
  - rewrite Hit in Hqi. injection Hqi as <-.
    apply shape_node with (it := set_children (eraseFirst c (children it)) it).
    + apply lookup_insert_eq.
    + exact Hpar.
    + cbn. rewrite Hch, map_top_pruneL. apply eraseFirst_filter, NoDup_tops, Hks.
    + exact Hsub.
  - apply shape_node with (it := it).
    + subst h'. rewrite lookup_insert_ne by congruence. exact Hit.
    + exact Hpar.
    + rewrite map_top_pruneL, Hch. symmetry.
      rewrite <- (map_id (map top ks)) at 2.
      clear -Hkids Hci Hcpar Hpq.
      induction ks as [|k ks IHks]; simpl; [reflexivity|].
      assert (Hk : top k <> c).
      { intros Heq. pose proof (Hkids k ltac:(left)) as Hsk.
        rewrite <- Heq in Hci. pose proof (shape_top _ _ _ _ Hsk Hci). congruence. }
      rewrite (proj2 (Nat.eqb_neq _ _) Hk). simpl. f_equal.
      apply IHks. intros k' Hk'. apply Hkids. right. exact Hk'.
    + exact Hsub.
Qed.


(** The top of a subtree taken from below the top of a tree has its
    parent in the tree and outside the subtree. *)
Lemma subtree_parent h c ci q u t : forall par,
  shape h par t -> NoDup (nodes t) -> subtree c t = Some u -> c <> top t ->
  h !! c = Some ci -> parent ci = Some q ->
  q ∈ nodes t /\ q ∉ nodes u.
Proof.
  induction t as [p ks IH] using tree_ind'. intros par Hsh Hnd Hsub Hc Hci Hcpar.
  pose proof (NoDup_nodes_kids p ks Hnd) as [Hp Hks].
  apply shape_inv in Hsh as (it & Hit & Hpar & Hch & Hkids).
  cbn [top] in Hc. rewrite subtree_unfold in Hsub.
  rewrite (proj2 (Nat.eqb_neq p c)) in Hsub by congruence.
  clear Hch Hnd Hit Hpar.
  assert (Hgoal : (q = p \/ q ∈ flat_map nodes ks) /\ q ∉ nodes u).
  { induction ks as [|k ks IHks]; [discriminate|].
    apply Forall_cons in IH as [IHk IH]. apply Forall_cons in Hkids as [Hk Hkids].
    cbn [flat_map] in Hks, Hp. apply NoDup_app in Hks as (Hnd1 & Hdisj & Hnd2).
    cbn [subtreeL fold_right] in Hsub. fold (subtreeL c ks) in Hsub.
    destruct (subtree c k) as [u'|] eqn:Ek.
    - injection Hsub as ->.
      destruct (decide (c = top k)) as [->|Hck].
      + pose proof (shape_top _ _ _ _ Hk Hci) as Hq. rewrite Hcpar in Hq. injection Hq as ->.
        destruct k as [c' ks']. rewrite subtree_unfold, Nat.eqb_refl in Ek. injection Ek as <-.
        split; [left; reflexivity|]. intros Hin. apply Hp. apply elem_of_app. left. exact Hin.
      + destruct (IHk (Some p) Hk Hnd1 eq_refl Hck Hci Hcpar) as [Hq1 Hq2].
        split; [|exact Hq2]. right. cbn [flat_map]. apply elem_of_app. left. exact Hq1.
    - assert (Hp' : p ∉ flat_map nodes ks).
      { intros Hin. apply Hp. apply elem_of_app. right. exact Hin. }
      destruct (IHks IH Hkids Hsub Hp' Hnd2) as [Hq1 Hq2]. split; [|exact Hq2].
      destruct Hq1 as [-> | Hq1]; [left; reflexivity|].
      right. cbn [flat_map]. apply elem_of_app. right. exact Hq1. }
  destruct Hgoal as [[-> | Hq1] Hq2]; (split; [|exact Hq2]); [left | right; exact Hq1].
Qed.

(** Giving the top of a tree another parent. *)
Lemma shape_reparent h t it par par' :
  shape h par t -> NoDup (nodes t) -> h !! top t = Some it ->
  shape (<[top t := set_parent par' it]> h) par' t.
Proof.
  destruct t as [p ks]. intros Hsh Hnd Hit. cbn [top] in *.
  pose proof (NoDup_nodes_kids p ks Hnd) as [Hp Hks].
  apply shape_inv in Hsh as (it' & Hit' & Hpar & Hch & Hkids).
  rewrite Hit in Hit'. injection Hit' as <-.
  apply shape_node with (it := set_parent par' it).
  - apply lookup_insert_eq.
  - reflexivity.
  - exact Hch.
  - rewrite Forall_forall in Hkids. apply Forall_forall. intros k Hk.
    apply shape_frame with (h := h); [apply Hkids; exact Hk|].
    intros x Hx itx Hitx. exists itx.
    rewrite lookup_insert_ne; [auto|].
    intros ->. apply Hp. apply elem_of_flat_map. eauto.
Qed.

(** ** Reachability along the pointers *)

Lemma shape_linked h t : forall par x,
  shape h par t -> x ∈ nodes t -> linked h (top t) x.
Proof.
  induction t as [p ks IH] using tree_ind'. intros par x Hsh Hx.
  apply shape_inv in Hsh as (it & Hit & _ & Hch & Hkids).
  rewrite Forall_forall in IH, Hkids.
  apply elem_of_nodes in Hx as [-> | (k & Hk & Hx)]; [constructor|].
  assert (Hlk : linked h p (top k)).
  { apply linked_child with (x := p) (it := it); [constructor | exact Hit|].
    rewrite Hch. apply list_elem_of_fmap. eauto. }
  specialize (IH k Hk (Some p) x (Hkids k Hk) Hx). cbn [top].
  clear -IH Hlk. induction IH as [|y ity c Hy IHy Hity Hc]; [exact Hlk|].
  eapply linked_child; eauto.
Qed.

Lemma linked_shape h t par x :
  shape h par t -> linked h (top t) x -> x ∈ nodes t.
Proof.
  intros Hsh H. induction H as [|y it c Hy IH Hit Hc]; [apply nodes_top|].
  eapply shape_child; eauto.
Qed.

Lemma shape_inside h t : forall par x,
  shape h par t -> x ∈ nodes t -> inside h (top t) x.
Proof.
  induction t as [p ks IH] using tree_ind'. intros par x Hsh Hx.
  apply shape_inv in Hsh as (it & Hit & _ & Hch & Hkids).
  rewrite Forall_forall in IH, Hkids.
  apply elem_of_nodes in Hx as [-> | (k & Hk & Hx)]; [constructor|].
  specialize (IH k Hk (Some p) x (Hkids k Hk) Hx). cbn [top].
  pose proof (Hkids k Hk) as Hsk. clear Hx.
  induction IH as [|y ity q Hity Hq Hin IHin].
  - destruct (shape_live _ _ _ _ Hsk (nodes_top k)) as [itk Hitk].
    eapply inside_up; [exact Hitk | eapply shape_top; eauto | constructor].
  - eapply inside_up; eauto.
Qed.


(** * The tree invariant *)

Definition isDir (h : gmap ptr Item) (p : ptr) : Prop :=
  exists it, h !! p = Some it /\ isFolder it = true.

(** Every live address has been handed out by [new]. *)
Definition brkOk (s : FileSystem) : Prop :=
  forall p, is_Some (heap s !! p) -> (p < brk s)%nat.

(** The live items are exactly the nodes of the tree [T] below the root;
    the current directory is one of its directories; files have no
    children. *)
Record wfTree (s : FileSystem) (T : tree) : Prop := {
  wf_top : top T = root s;
  wf_shape : shape (heap s) None T;
  wf_nodup : NoDup (nodes T);
  wf_dom : forall p, is_Some (heap s !! p) -> p ∈ nodes T;
  wf_brk : brkOk s;
  wf_cur : currentDir s ∈ nodes T;
  wf_curdir : isDir (heap s) (currentDir s);
  wf_rootdir : isDir (heap s) (root s);
  wf_leaves : filesAreLeaves (heap s)
}.

Lemma wfTree_live s T p : wfTree s T -> p ∈ nodes T -> is_Some (heap s !! p).
Proof. intros H Hp. eapply shape_live; [apply H | exact Hp]. Qed.

Lemma wfTree_fresh s T : wfTree s T -> brk s ∉ nodes T.
Proof.
  intros H Hin. pose proof (wf_brk s T H (brk s) (wfTree_live s T _ H Hin)). lia.
Qed.

Lemma wfTree_root s T : wfTree s T -> root s ∈ nodes T.
Proof. intros H. rewrite <- (wf_top s T H). apply nodes_top. Qed.

(** *** Path resolution stays in the tree *)

Lemma findChild_elem cs part s r s' :
  findChild cs part s = Ok (Some r) s' -> r ∈ cs.
Proof.
  induction cs as [|c cs IH]; simpl; intros H; [discriminate|].
  apply bind_Ok in H as (it & s1 & H1 & H).
  apply deref_Ok in H1 as [_ ->].
  destruct (name it =? part)%string.
  - injection H as <- _. left.
  - right. apply IH. exact H.
Qed.

Lemma parentOrSelf_in s T current up s' :
  wfTree s T -> current ∈ nodes T -> parentOrSelf current s = Ok up s' -> up ∈ nodes T.
Proof.
  intros Hwf Hc H. unfold parentOrSelf in H.
  apply bind_Ok in H as (it & s1 & H1 & H). apply deref_Ok in H1 as [Hit ->].
  injection H as <- _. destruct (parent it) as [q|] eqn:Hq; [|exact Hc].
  destruct (decide (current = top T)) as [->|Hne].
  - pose proof (shape_top _ _ _ _ (wf_shape s T Hwf) Hit). congruence.
  - destruct (shape_parent _ _ _ _ _ (wf_shape s T Hwf) Hc Hit Hne) as (q' & qi & Hq' & Hin & _).
    congruence.
Qed.

Lemma walk_in s T parts : forall current r s',
  wfTree s T -> current ∈ nodes T -> walk current parts s = Ok (Some r) s' -> r ∈ nodes T.
Proof.
  induction parts as [|part rest IH]; intros current r s' Hwf Hc H; simpl in H.
  - injection H as <- _. exact Hc.
  - destruct (part =? ".")%string; [eapply IH; eauto|].
    destruct (part =? "..")%string.
    + apply bind_Ok in H as (up & s1 & H1 & H).
      pose proof (readonly_Ok _ _ _ _ (readonly_parentOrSelf current) H1). subst s1.
      eapply IH; [exact Hwf | | exact H]. eapply parentOrSelf_in; eauto.
    + apply bind_Ok in H as (it & s1 & H1 & H). apply deref_Ok in H1 as [Hit ->].
      apply bind_Ok in H as (found & s1 & H1 & H).
      pose proof (readonly_Ok _ _ _ _ (readonly_findChild _ _) H1). subst s1.
      destruct found as [child|]; [|discriminate].
      eapply IH; [exact Hwf | | exact H].
      eapply shape_child; [apply Hwf | exact Hc | exact Hit |].
      eapply findChild_elem. exact H1.
Qed.

Lemma getItem_in s T path r s' :
  wfTree s T -> getItem path s = Ok (Some r) s' -> r ∈ nodes T.
Proof.
  intros Hwf H. unfold getItem in H.
  destruct ((path =? "")%string || (path =? ".")%string).
  { unfold bind, gets, ret in H. injection H as <- _. exact (wf_cur s T Hwf). }
  destruct (path =? "/")%string.
  { unfold bind, gets, ret in H. injection H as <- _. eapply wfTree_root; eauto. }
  destruct (path =? "..")%string.
  { apply bind_Ok in H as (cur & s1 & H1 & H). injection H1 as <- <-.
    apply bind_Ok in H as (up & s1 & H1 & H). injection H as <- _.
    eapply parentOrSelf_in; [exact Hwf | exact (wf_cur s T Hwf) | exact H1]. }
  apply bind_Ok in H as (start & s1 & H1 & H).
  destruct (beginsWithSlash path); injection H1 as <- <-.
  - eapply walk_in; [exact Hwf | eapply wfTree_root; eauto | exact H].
  - eapply walk_in; [exact Hwf | exact (wf_cur s T Hwf) | exact H].
Qed.

(** *** Changes that leave the links alone *)

(** The states [s] and [s'] have the same items up to [name], [content]
    and [sectors], and the same [brk], [root] and [currentDir]. *)
Definition sameLinksAll (s s' : FileSystem) : Prop :=
  brk s' = brk s /\ root s' = root s /\ currentDir s' = currentDir s /\
  forall p, match heap s !! p, heap s' !! p with
            | Some it, Some it' =>
                isFolder it' = isFolder it /\ children it' = children it /\
                parent it' = parent it
            | None, None => True
            | _, _ => False
            end.

Lemma sameLinksAll_refl s : sameLinksAll s s.
Proof.
  repeat split. intros p. destruct (heap s !! p); auto.
Qed.

Lemma sameLinksAll_trans s1 s2 s3 :
  sameLinksAll s1 s2 -> sameLinksAll s2 s3 -> sameLinksAll s1 s3.
Proof.
  intros (Hb & Hr & Hc & H) (Hb' & Hr' & Hc' & H').
  split; [congruence|]. split; [congruence|]. split; [congruence|].
  intros p. specialize (H p). specialize (H' p).
  destruct (heap s1 !! p), (heap s2 !! p), (heap s3 !! p); try tauto.
  destruct H as (? & ? & ?), H' as (? & ? & ?). repeat split; congruence.
Qed.

Lemma wfTree_sameLinks s s' T : wfTree s T -> sameLinksAll s s' -> wfTree s' T.
Proof.
  intros [Htop Hsh Hnd Hdom Hbrk Hcur Hcd Hrd Hleaf] (Hb & Hr & Hc & H).
  constructor.
  - congruence.
  - eapply shape_frame; [exact Hsh|]. intros x _ it Hit. specialize (H x).
    rewrite Hit in H. destruct (heap s' !! x) as [it'|] eqn:E; [|contradiction].
    exists it'. tauto.
  - exact Hnd.
  - intros p [it' Hp]. apply Hdom. specialize (H p). rewrite Hp in H.
    destruct (heap s !! p); [eauto | contradiction].
  - intros p [it' Hp]. rewrite Hb. apply Hbrk. specialize (H p). rewrite Hp in H.
    destruct (heap s !! p); [eauto | contradiction].
  - rewrite Hc. exact Hcur.
  - rewrite Hc. destruct Hcd as (it & Hit & Hk). specialize (H (currentDir s)).
    rewrite Hit in H. destruct (heap s' !! currentDir s) as [it'|] eqn:E; [|contradiction].
    exists it'. split; [exact E|]. destruct H as (-> & _). exact Hk.
  - rewrite Hr. destruct Hrd as (it & Hit & Hk). specialize (H (root s)).
    rewrite Hit in H. destruct (heap s' !! root s) as [it'|] eqn:E; [|contradiction].
    exists it'. split; [exact E|]. destruct H as (-> & _). exact Hk.
  - intros p it' Hp Hk. specialize (H p). rewrite Hp in H.
    destruct (heap s !! p) as [it|] eqn:Hit; [|contradiction].
    destruct H as (Hk' & -> & _). apply (Hleaf p it Hit). congruence.
Qed.


Definition keepsLinks (f : Item -> Item) : Prop :=
  forall it, isFolder (f it) = isFolder it /\ children (f it) = children it /\
             parent (f it) = parent it.

Lemma keepsLinks_set_name n : keepsLinks (set_name n).
Proof. intros it. auto. Qed.
Lemma keepsLinks_set_sectors l : keepsLinks (set_sectors l).
Proof. intros it. auto. Qed.
Lemma keepsLinks_push_sector x : keepsLinks (fun it => set_sectors (sectors it ++ [x]) it).
Proof. intros it. auto. Qed.

#[export] Hint Resolve keepsLinks_set_name keepsLinks_set_sectors keepsLinks_push_sector : core.

Definition linksFrom (s0 : FileSystem) : FileSystem -> Prop := sameLinksAll s0.

Lemma linksFrom_update s0 p f E :
  keepsLinks f -> hoare (linksFrom s0) (update p f) (fun _ => linksFrom s0) E.
Proof.
  intros Hf. apply hoare_update. intros s it (Hb & Hr & Hc & H) Hit.
  split; [exact Hb|]. split; [exact Hr|]. split; [exact Hc|].
  intros q. cbn. specialize (H q). rewrite lookup_insert. case_decide.
  - subst q. rewrite Hit in H. destruct (heap s0 !! p) as [it0|]; [|contradiction].
    destruct (Hf it) as (-> & -> & ->). exact H.
  - exact H.
Qed.

Lemma linksFrom_bitmap s0 (f : FileSystem -> FileSystem) s :
  linksFrom s0 s -> heap (f s) = heap s -> brk (f s) = brk s -> root (f s) = root s ->
  currentDir (f s) = currentDir s -> linksFrom s0 (f s).
Proof.
  intros (Hb & Hr & Hc & H) Hh Hb' Hr' Hc'.
  split; [congruence|]. split; [congruence|]. split; [congruence|].
  rewrite Hh. exact H.
Qed.

Lemma linksFrom_freeSector s0 sector :
  hoare (linksFrom s0) (freeSector sector) (fun _ => linksFrom s0) (fun _ => linksFrom s0).
Proof.
  intros s Hs. unfold freeSector.
  destruct ((sector <? 0) || (Z.of_nat (length (sectorMap s)) <=? sector)); [exact Hs|].
  apply (linksFrom_bitmap s0 (set_sectorMap _)); auto.
Qed.

Lemma linksFrom_allocateSector s0 :
  hoare (linksFrom s0) allocateSector (fun _ => linksFrom s0) (fun _ => linksFrom s0).
Proof.
  intros s Hs. unfold allocateSector. destruct (firstFree 0 (sectorMap s)); [|exact Hs].
  apply (linksFrom_bitmap s0 (set_sectorMap _)); auto.
Qed.

Lemma linksFrom_writeSlot s0 sector chunk E :
  hoare (linksFrom s0) (writeSlot sector chunk) (fun _ => linksFrom s0) E.
Proof.
  apply hoare_modify. intros s Hs. apply (linksFrom_bitmap s0 (set_disk _)); auto.
Qed.

Lemma linksFrom_saveLoop s0 fuel : forall file data pos,
  hoare (linksFrom s0) (saveLoop fuel file data pos) (fun _ => linksFrom s0)
        (fun _ => linksFrom s0).
Proof.
  induction fuel as [|fuel IH]; intros file data pos; simpl;
    (destruct (to_size_t pos <? Z.of_nat (length data)); [|apply hoare_ret; auto]).
  - apply hoare_fail.
  - eapply hoare_bind; [apply linksFrom_allocateSector|]. intros sector.
    eapply hoare_bind; [apply linksFrom_update; auto|]. intros ?.
    eapply hoare_bind; [apply linksFrom_writeSlot|]. intros ?. apply IH.
Qed.

Lemma linksFrom_saveToDisk s0 file :
  hoare (linksFrom s0) (saveToDisk file) (fun _ => linksFrom s0) (fun _ => linksFrom s0).
Proof.
  destruct file as [f|]; simpl; [|apply hoare_ret; auto].
  eapply hoare_bind; [apply hoare_pure_any; [pure_tac | auto]|]. intros it.
  destruct (isFolder it); [apply hoare_ret; auto|].
  eapply hoare_bind; [apply hoare_forM; intros x _; apply linksFrom_freeSector|]. intros ?.
  eapply hoare_bind; [apply linksFrom_update; auto|]. intros ?.
  apply linksFrom_saveLoop.
Qed.

Lemma linksFrom_defragLoop s0 fuel : forall file data pos next,
  hoare (linksFrom s0) (defragLoop fuel file data pos next) (fun _ => linksFrom s0)
        (fun _ => linksFrom s0).
Proof.
  induction fuel as [|fuel IH]; intros file data pos next; simpl;
    (destruct (to_size_t pos <? Z.of_nat (length data)); [|apply hoare_ret; auto]).
  - apply hoare_fail.
  - eapply hoare_bind; [apply hoare_pure_any; [pure_tac | auto]|]. intros total.
    destruct (total <=? next); [apply hoare_throw; auto|].
    apply hoare_bind with (R := fun _ => linksFrom s0).
    { intros s Hs. unfold markSector.
      destruct (Z.of_nat (length (sectorMap s)) <=? next); [exact I|].
      apply (linksFrom_bitmap s0 (set_sectorMap _)); auto. }
    intros ?. eapply hoare_bind; [apply linksFrom_update; auto|]. intros ?.
    eapply hoare_bind; [apply linksFrom_writeSlot|]. intros ?. apply IH.
Qed.

Lemma linksFrom_defrag s0 :
  hoare (linksFrom s0) defrag (fun _ => linksFrom s0) (fun _ => linksFrom s0).
Proof.
  unfold defrag.
  eapply hoare_bind; [apply hoare_pure_any; [pure_tac | auto]|]. intros r.
  eapply hoare_bind; [apply hoare_pure_any; [pure_tac | auto]|]. intros fuel.
  eapply hoare_bind; [apply hoare_pure_any; [pure_tac | auto]|]. intros files.
  apply hoare_bind with (R := fun _ => linksFrom s0).
  { apply hoare_modify. intros s Hs. apply (linksFrom_bitmap s0 (set_sectorMap _)); auto. }
  intros ?. eapply hoare_bind.
  - apply (hoare_foldM (fun _ => linksFrom s0)). intros next file _. unfold defragFile.
    eapply hoare_bind; [apply hoare_pure_any; [pure_tac | auto]|]. intros it.
    destruct (isFolder it); [apply hoare_ret; auto|].
    eapply hoare_bind; [apply linksFrom_update; auto|]. intros ?.
    apply linksFrom_defragLoop.
  - intros ?. apply hoare_ret. auto.
Qed.

(** [defrag] keeps the tree, whatever its outcome. *)
Lemma wfTree_defrag s T :
  wfTree s T ->
  match defrag s with
  | Ok _ s' => wfTree s' T
  | Throw _ s' => wfTree s' T
  | Fault _ => True
  end.
Proof.
  intros Hwf. pose proof (linksFrom_defrag s s (sameLinksAll_refl s)) as H.
  destruct (defrag s); auto; eapply wfTree_sameLinks; eauto.
Qed.


(** *** A tree and a subtree about to be attached *)

(** The live items are the nodes of the tree [T] below the root and of a
    second tree [sub], whose top already names the directory [d] of [T]
    as its parent but is not yet among the children of [d]. *)
Record wfPlus (s : FileSystem) (T : tree) (d : ptr) (sub : tree) : Prop := {
  wp_top : top T = root s;
  wp_shape : shape (heap s) None T;
  wp_sub : shape (heap s) (Some d) sub;
  wp_nodup : NoDup (nodes T ++ nodes sub);
  wp_dom : forall p, is_Some (heap s !! p) -> p ∈ nodes T ++ nodes sub;
  wp_brk : brkOk s;
  wp_cur : currentDir s ∈ nodes T ++ nodes sub;
  wp_curdir : isDir (heap s) (currentDir s);
  wp_rootdir : isDir (heap s) (root s);
  wp_leaves : filesAreLeaves (heap s);
  wp_d : d ∈ nodes T;
  wp_ddir : isDir (heap s) d
}.

Lemma isDir_insert h p it q :
  isDir h q -> (forall old, h !! p = Some old -> isFolder old = true -> isFolder it = true) ->
  isDir (<[p := it]> h) q.
Proof.
  intros (qi & Hqi & Hk) Hkeep. unfold isDir. rewrite lookup_insert. case_decide.
  - subst q. exists it. split; [reflexivity|]. eapply Hkeep; eauto.
  - exists qi. auto.
Qed.

(** Attaching: [d] gets the top of [sub] as its last child. *)
Lemma wfTree_attach s T d sub di s' :
  wfPlus s T d sub -> heap s !! d = Some di ->
  heap s' = <[d := set_children (children di ++ [top sub]) di]> (heap s) ->
  brk s' = brk s -> root s' = root s -> currentDir s' = currentDir s ->
  wfTree s' (graft d sub T).
Proof.
  intros [Htop Hsh Hsub Hnd Hdom Hbrk Hcur Hcd Hrd Hleaf Hd Hdd] Hdi Hheap Hb Hr Hc.
  apply NoDup_app in Hnd as (HndT & Hdisj & Hnds).
  assert (Hperm : nodes (graft d sub T) ≡ₚ nodes T ++ nodes sub)
    by (apply nodes_graft; assumption).
  assert (Hdir : isFolder di = true).
  { destruct Hdd as (di' & Hdi' & Hk). congruence. }
  constructor.
  - rewrite graft_top, Hr. exact Htop.
  - rewrite Hheap. apply shape_graft; [exact Hdi | | exact Hsh | exact HndT].
    apply shape_frame with (h := heap s); [exact Hsub|].
    intros x Hx it Hit. exists it. rewrite lookup_insert_ne; [auto|].
    intros ->. exact (Hdisj x Hd Hx).
  - rewrite Hperm. apply NoDup_app. auto.
  - intros p [it Hp]. rewrite Hperm. apply Hdom. rewrite Hheap in Hp.
    rewrite lookup_insert in Hp. case_decide; [subst; eauto | eauto].
  - intros p [it Hp]. rewrite Hb. apply Hbrk. rewrite Hheap in Hp.
    rewrite lookup_insert in Hp. case_decide; [subst; eauto | eauto].
  - rewrite Hc, Hperm. exact Hcur.
  - rewrite Hc, Hheap. apply isDir_insert; [exact Hcd|]. intros old Hold _.
    rewrite Hdi in Hold. injection Hold as <-. exact Hdir.
  - rewrite Hr, Hheap. apply isDir_insert; [exact Hrd|]. intros old Hold _.
    rewrite Hdi in Hold. injection Hold as <-. exact Hdir.
  - intros p it. rewrite Hheap, lookup_insert. case_decide.
    + intros [= <-]. cbn. congruence.
    + apply Hleaf.
Qed.

(** A new item that names [d] as parent and has no children. *)
Lemma wfPlus_new s T d it :
  wfTree s T -> d ∈ nodes T -> isDir (heap s) d ->
  parent it = Some d -> children it = [] ->
  wfPlus (mkFS (disk s) (sectorMap s) (<[brk s := it]> (heap s)) (S (brk s))
               (root s) (currentDir s) (totalSectors s))
         T d (Node (brk s) []).
Proof.
  intros Hwf Hd Hdd Hpar Hch.
  pose proof (wfTree_fresh s T Hwf) as Hfresh.
  destruct Hwf as [Htop Hsh Hnd Hdom Hbrk Hcur Hcd Hrd Hleaf].
  assert (Hne : forall p, p ∈ nodes T -> brk s <> p) by (intros p Hp Heq; subst p; contradiction).
  assert (Hkeep : forall q, q ∈ nodes T -> isDir (heap s) q ->
                            isDir (<[brk s := it]> (heap s)) q).
  { intros q Hq (qi & Hqi & Hk). exists qi. rewrite lookup_insert_ne by (apply Hne; exact Hq). auto. }
  constructor; cbn [heap brk root currentDir].
  - exact Htop.
  - apply shape_frame with (h := heap s); [exact Hsh|].
    intros x Hx itx Hitx. exists itx. rewrite lookup_insert_ne by (apply Hne; exact Hx). auto.
  - apply shape_node with (it := it); [apply lookup_insert_eq | exact Hpar | exact Hch | constructor].
  - apply NoDup_app. split; [exact Hnd|]. split; [|apply NoDup_singleton].
    intros x Hx Hin. cbn in Hin. apply list_elem_of_singleton in Hin. subst. contradiction.
  - intros p [itp Hp]. apply elem_of_app. rewrite lookup_insert in Hp. case_decide.
    + right. subst. left.
    + left. apply Hdom. eauto.
  - intros p [itp Hp]. cbn in *. rewrite lookup_insert in Hp. case_decide; [lia|].
    specialize (Hbrk p ltac:(eauto)). lia.
  - apply elem_of_app. left. exact Hcur.
  - apply Hkeep; assumption.
  - apply Hkeep; [|exact Hrd]. rewrite <- Htop. apply nodes_top.
  - intros p itp. rewrite lookup_insert. case_decide.
    + intros [= <-] _. exact Hch.
    + apply Hleaf.
  - exact Hd.
  - apply Hkeep; assumption.
Qed.

Lemma wfPlus_sameLinks s s' T d sub : wfPlus s T d sub -> sameLinksAll s s' -> wfPlus s' T d sub.
Proof.
  intros [Htop Hsh Hsub Hnd Hdom Hbrk Hcur Hcd Hrd Hleaf Hd Hdd] (Hb & Hr & Hc & H).
  assert (Hframe : forall par t, shape (heap s) par t -> shape (heap s') par t).
  { intros par t Ht. eapply shape_frame; [exact Ht|]. intros x _ it Hit. specialize (H x).
    rewrite Hit in H. destruct (heap s' !! x) as [it'|] eqn:E; [|contradiction].
    exists it'. tauto. }
  assert (Hdir : forall q, isDir (heap s) q -> isDir (heap s') q).
  { intros q (it & Hit & Hk). specialize (H q). rewrite Hit in H.
    destruct (heap s' !! q) as [it'|] eqn:E; [|contradiction].
    exists it'. split; [exact E|]. destruct H as (-> & _). exact Hk. }
  assert (Hlive : forall p, is_Some (heap s' !! p) -> is_Some (heap s !! p)).
  { intros p [it' Hp]. specialize (H p). rewrite Hp in H.
    destruct (heap s !! p); [eauto | contradiction]. }
  constructor; auto.
  - congruence.
  - intros p Hp. rewrite Hb. apply Hbrk. auto.
  - rewrite Hc. exact Hcur.
  - rewrite Hc. auto.
  - rewrite Hr. auto.
  - intros p it' Hp Hk. specialize (H p). rewrite Hp in H.
    destruct (heap s !! p) as [it|] eqn:Hit; [|contradiction].
    destruct H as (Hk' & -> & _). apply (Hleaf p it Hit). congruence.
Qed.


(** *** The operations keep the tree *)

(** The outcome of an operation that keeps [P], unless it leaves by an
    exception in [X]. *)
Definition keepsUnless {A} (X : exn -> Prop) (P : FileSystem -> Prop) (r : result A) : Prop :=
  match r with
  | Ok _ s' => P s'
  | Throw e s' => ~ X e -> P s'
  | Fault _ => True
  end.

Definition nothing (e : exn) : Prop := False.

(** One step of a run whose first computation only reads: the state stays,
    and the result is named. *)
Ltac pure_step E :=
  unfold bind at 1;
  lazymatch goal with
  | |- keepsUnless _ _ (match ?m ?s with _ => _ end) =>
      let Hp := fresh "Hp" in
      let a := fresh "a" in
      let s1 := fresh "s" in
      let e := fresh "e" in
      assert (Hp : pure m) by pure_tac;
      specialize (Hp s);
      destruct (m s) as [a s1|e s1|] eqn:E;
      [subst s1 | subst s1; intros _ | exact I]
  end.

Definition hasTree (s : FileSystem) : Prop := exists T, wfTree s T.

Lemma hasTree_cd path s : hasTree s -> keepsUnless nothing hasTree (cd path s).
Proof.
  intros [T Hwf]. unfold cd.
  pure_step E; [|exists T; exact Hwf].
  destruct a as [t|]; [|intros _; exists T; exact Hwf].
  pure_step Et; [|exists T; exact Hwf].
  apply deref_Ok in Et as [Ht _].
  destruct (isFolder a) eqn:Hk; cbn [negb]; [|intros _; exists T; exact Hwf].
  exists T. destruct Hwf as [Htop Hsh Hnd Hdom Hbrk Hcur Hcd Hrd Hleaf].
  assert (Hin : t ∈ nodes T).
  { eapply getItem_in; [|exact E]. constructor; auto. }
  constructor; cbn [heap brk root currentDir set_currentDir modify]; auto.
  exists a. auto.
Qed.

Lemma findFolder_elem cs part s r s' :
  findFolder cs part s = Ok (Some r) s' ->
  r ∈ cs /\ exists it, heap s !! r = Some it /\ isFolder it = true.
Proof.
  induction cs as [|c cs IH]; simpl; intros H; [discriminate|].
  apply bind_Ok in H as (it & s1 & H1 & H).
  apply deref_Ok in H1 as [Hit ->].
  destruct (name it =? part)%string.
  - destruct (isFolder it) eqn:Hk; cbn [negb] in H; [|discriminate].
    injection H as <- _. split; [left | eauto].
  - destruct (IH H) as [Hin Hr]. split; [right; exact Hin | exact Hr].
Qed.

(** The state of the loop of [mkdir]: a tree, and the directory the loop
    stands in. *)
Definition standsIn (current : ptr) (s : FileSystem) : Prop :=
  exists T, wfTree s T /\ current ∈ nodes T /\ isDir (heap s) current.

Lemma standsIn_mkdirStep current part s :
  standsIn current s ->
  match mkdirStep current part s with
  | Ok next s' => standsIn next s'
  | Throw _ s' => hasTree s'
  | Fault _ => True
  end.
Proof.
  intros (T & Hwf & Hcur & Hdir). unfold mkdirStep.
  destruct ((part =? "")%string || (part =? ".")%string || (part =? "..")%string);
    [exists T; exact Hwf|].
  destruct (negb (isValidName part)); [exists T; exact Hwf|].
  pose proof Hdir as (c & Hc & Hck).
  unfold bind at 1, deref. rewrite Hc.
  unfold bind at 1.
  pose proof (pure_findFolder (children c) part s) as Hp.
  destruct (findFolder (children c) part s) as [found s1|e s1|] eqn:Ef;
    [subst s1 | subst s1; exists T; exact Hwf | exact I].
  destruct found as [next|].
  - apply findFolder_elem in Ef as [Hin Hnext]. unfold ret.
    exists T. split; [exact Hwf|]. split; [|exact Hnext].
    eapply shape_child; [apply Hwf | exact Hcur | exact Hc | exact Hin].
  - unfold bind at 1, new. unfold bind at 1, push_back, update.
    cbn [heap]. rewrite lookup_insert_ne.
    2:{ intros Heq. apply (wfTree_fresh s T Hwf). rewrite Heq. exact Hcur. }
    rewrite Hc.
    set (s2 := set_heap _ _).
    assert (Hwf2 : wfTree s2 (graft current (Node (brk s) []) T)).
    { eapply (wfTree_attach _ T current (Node (brk s) []) c).
      - apply (wfPlus_new s T current (mkItem true part [] [] [] (Some current)));
          auto.
      - cbn. rewrite lookup_insert_ne; [exact Hc|].
        intros Heq. apply (wfTree_fresh s T Hwf). rewrite Heq. exact Hcur.
      - reflexivity.
      - reflexivity.
      - reflexivity.
      - reflexivity. }
    unfold bind at 1.
    pose proof (pure_getFullPath (brk s) s2) as Hp2.
    destruct (getFullPath (brk s) s2) as [str s3|e s3|]; [subst s3 | subst s3 | exact I].
    + unfold ret. exists (graft current (Node (brk s) []) T). split; [exact Hwf2|].
      split.
      * rewrite nodes_graft by (try exact Hcur; apply Hwf).
        apply elem_of_app. right. left.
      * exists (mkItem true part [] [] [] (Some current)). subst s2. cbn.
        rewrite lookup_insert_ne, lookup_insert_eq; [auto|].
        intros Heq. apply (wfTree_fresh s T Hwf). rewrite <- Heq. exact Hcur.
    + eexists. exact Hwf2.
Qed.

Lemma standsIn_foldM parts : forall start s,
  standsIn start s ->
  match foldM mkdirStep parts start s with
  | Ok next s' => standsIn next s'
  | Throw _ s' => hasTree s'
  | Fault _ => True
  end.
Proof.
  induction parts as [|part parts IH]; intros start s Hstand; cbn [foldM].
  - exact Hstand.
  - unfold bind. pose proof (standsIn_mkdirStep start part s Hstand) as Hstep.
    destruct (mkdirStep start part s) as [next s1|e s1|]; [|exact Hstep|exact I].
    apply IH. exact Hstep.
Qed.

Lemma hasTree_mkdir path s : hasTree s -> keepsUnless nothing hasTree (mkdir path s).
Proof.
  intros [T Hwf]. unfold mkdir.
  destruct (path =? "")%string; [intros _; exists T; exact Hwf|].
  destruct (splitPath path) as [|p ps]; [intros _; exists T; exact Hwf|].
  unfold bind at 1.
  assert (Hstart : exists start,
             (if beginsWithSlash path then gets root else gets currentDir) s = Ok start s /\
             standsIn start s).
  { destruct (beginsWithSlash path).
    - exists (root s). split; [reflexivity|]. exists T. split; [exact Hwf|].
      split; [eapply wfTree_root; eauto | exact (wf_rootdir s T Hwf)].
    - exists (currentDir s). split; [reflexivity|]. exists T. split; [exact Hwf|].
      split; [exact (wf_cur s T Hwf) | exact (wf_curdir s T Hwf)]. }
  destruct Hstart as (start & -> & Hstand).
  unfold bind. pose proof (standsIn_foldM (p :: ps) start s Hstand) as Hfold.
  destruct (foldM mkdirStep (p :: ps) start s) as [next s1|e s1|]; cbn [keepsUnless].
  - unfold ret. destruct Hfold as (T' & Hwf' & _). exists T'. exact Hwf'.
  - intros _. exact Hfold.
  - exact I.
Qed.


(** [new] of a childless item below [d], followed by the [push_back] into
    [d]: the run goes on in a state with the grafted tree. *)
Lemma attach_leaf_run s T d it :
  wfTree s T -> d ∈ nodes T -> isDir (heap s) d ->
  parent it = Some d -> children it = [] ->
  exists s2,
    (forall B (k : ptr -> M B),
        bind (new it) (fun n => bind (push_back d n) (fun _ => k n)) s = k (brk s) s2) /\
    wfTree s2 (graft d (Node (brk s) []) T) /\
    heap s2 !! brk s = Some it /\
    disk s2 = disk s /\ sectorMap s2 = sectorMap s /\ totalSectors s2 = totalSectors s.
Proof.
  intros Hwf Hd Hdd Hpar Hch. pose proof Hdd as (di & Hdi & Hk).
  assert (Hne : brk s <> d).
  { intros Heq. apply (wfTree_fresh s T Hwf). rewrite Heq. exact Hd. }
  exists (set_heap
       (<[d:=set_children (children di ++ [brk s]) di]>
          (<[brk s:=it]> (heap s)))
       (mkFS (disk s) (sectorMap s) (<[brk s:=it]> (heap s)) (S (brk s))
             (root s) (currentDir s) (totalSectors s))).
  split; [|split; [|split; [|auto]]].
  - intros B k. unfold bind at 1, new. unfold bind at 1, push_back, update.
    cbn [heap]. rewrite lookup_insert_ne by exact Hne. rewrite Hdi. reflexivity.
  - eapply (wfTree_attach _ T d (Node (brk s) []) di).
    + apply (wfPlus_new s T d it); assumption.
    + cbn. rewrite lookup_insert_ne by exact Hne. exact Hdi.
    + reflexivity.
    + reflexivity.
    + reflexivity.
    + reflexivity.
  - cbn. rewrite lookup_insert_ne by congruence. apply lookup_insert_eq.
Qed.

Lemma hasTree_saveToDisk file s T :
  wfTree s T ->
  match saveToDisk file s with
  | Ok _ s' => wfTree s' T
  | Throw _ s' => wfTree s' T
  | Fault _ => True
  end.
Proof.
  intros Hwf. pose proof (linksFrom_saveToDisk s file s (sameLinksAll_refl s)) as H.
  destruct (saveToDisk file s); auto; eapply wfTree_sameLinks; eauto.
Qed.

Lemma hasTree_touch filename s : hasTree s -> keepsUnless nothing hasTree (touch filename s).
Proof.
  intros [T Hwf]. unfold touch.
  destruct (negb (isValidName filename)); [intros _; exists T; exact Hwf|].
  pure_step E1; [|exists T; exact Hwf]. injection E1 as <-.
  pure_step E2; [|exists T; exact Hwf].
  pure_step E3; [|exists T; exact Hwf].
  destruct (attach_leaf_run s T (currentDir s) (mkItem false filename [] [] [] (Some (currentDir s)))
              Hwf (wf_cur s T Hwf) (wf_curdir s T Hwf) eq_refl eq_refl)
    as (s2 & Hrun & Hwf2 & _).
  rewrite Hrun.
  pose proof (hasTree_saveToDisk (Some (brk s)) s2 _ Hwf2) as H.
  destruct (saveToDisk (Some (brk s)) s2); cbn [keepsUnless]; [eexists; exact H | intros _; eexists; exact H | exact I].
Qed.

Lemma getDestDir_in path s T d s' :
  wfTree s T -> getDestDir path s = Ok d s' ->
  s' = s /\ d ∈ nodes T /\ isDir (heap s) d.
Proof.
  intros Hwf H. unfold getDestDir in H.
  apply bind_Ok in H as (r & s1 & H1 & H).
  pose proof (readonly_Ok _ _ _ _ (readonly_getItem path) H1). subst s1.
  destruct r as [r|]; [|discriminate].
  apply bind_Ok in H as (it & s1 & H2 & H). apply deref_Ok in H2 as [Hit ->].
  destruct (isFolder it) eqn:Hk; cbn [negb] in H; [|discriminate].
  injection H as <- <-. split; [reflexivity|]. split; [|exists it; auto].
  eapply getItem_in; eauto.
Qed.

Lemma hasTree_put realFile file fsPath s :
  hasTree s -> keepsUnless nothing hasTree (put realFile file fsPath s).
Proof.
  intros [T Hwf]. unfold put. destruct file as [bytes|]; [|intros _; exists T; exact Hwf].
  pure_step E1; [|exists T; exact Hwf].
  apply (getDestDir_in _ _ T) in E1 as (_ & Hd & Hdd); [|exact Hwf].
  pure_step E2; [|exists T; exact Hwf].
  pure_step E3; [|exists T; exact Hwf].
  destruct (attach_leaf_run s T a (mkItem false realFile (readText bytes) [] [] (Some a))
              Hwf Hd Hdd eq_refl eq_refl)
    as (s2 & Hrun & Hwf2 & _).
  rewrite Hrun.
  pose proof (hasTree_saveToDisk (Some (brk s)) s2 _ Hwf2) as H.
  destruct (saveToDisk (Some (brk s)) s2); cbn [keepsUnless]; [eexists; exact H | intros _; eexists; exact H | exact I].
Qed.


(** * Ownership of sectors *)

(** [owns h m]: the bitmap [m] marks exactly the ids that the items of
    the heap [h] list in [sectors]; no id is listed twice, within an item
    or by two items; directories list none. *)
Record owns (h : gmap ptr Item) (m : list bool) : Prop := {
  own_marked : forall p it i, h !! p = Some it -> i ∈ sectors it ->
               0 <= i /\ m !! Z.to_nat i = Some true;
  own_owned : forall n : nat, m !! n = Some true ->
              exists p it, h !! p = Some it /\ Z.of_nat n ∈ sectors it;
  own_nodup : forall p it, h !! p = Some it -> NoDup (sectors it);
  own_excl : forall p q ip iq i, h !! p = Some ip -> h !! q = Some iq ->
             i ∈ sectors ip -> i ∈ sectors iq -> p = q;
  own_dirs : forall p it, h !! p = Some it -> isFolder it = true -> sectors it = []
}.


(** An item is replaced by one with the same kind and sectors. *)
Lemma owns_insert_same h m p it it' :
  owns h m -> h !! p = Some it -> sectors it' = sectors it -> isFolder it' = isFolder it ->
  owns (<[p := it']> h) m.
Proof.
  intros [Hmk Hown Hnd Hex Hdir] Hit Hsec Hkind. constructor.
  - intros q itq i Hq Hi. rewrite lookup_insert in Hq. case_decide.
    + injection Hq as <-. rewrite Hsec in Hi. eapply Hmk; eauto.
    + eapply Hmk; eauto.
  - intros n Hn. destruct (Hown n Hn) as (q & itq & Hq & Hi).
    destruct (decide (p = q)) as [->|Hne].
    + exists q, it'. rewrite lookup_insert_eq. split; [reflexivity|].
      rewrite Hsec. congruence.
    + exists q, itq. rewrite lookup_insert_ne by exact Hne. auto.
  - intros q itq Hq. rewrite lookup_insert in Hq. case_decide.
    + injection Hq as <-. rewrite Hsec. eapply Hnd; eauto.
    + eapply Hnd; eauto.
  - intros q1 q2 i1 i2 i H1 H2 Hi1 Hi2.
    destruct (decide (p = q1)) as [<-|Hn1], (decide (p = q2)) as [<-|Hn2]; try reflexivity.
    + rewrite lookup_insert_eq in H1. rewrite lookup_insert_ne in H2 by exact Hn2.
      injection H1 as <-. rewrite Hsec in Hi1. eapply Hex; eauto.
    + rewrite lookup_insert_eq in H2. rewrite lookup_insert_ne in H1 by exact Hn1.
      injection H2 as <-. rewrite Hsec in Hi2. eapply Hex; eauto.
    + rewrite lookup_insert_ne in H1 by exact Hn1.
      rewrite lookup_insert_ne in H2 by exact Hn2. eapply Hex; eauto.
  - intros q itq Hq Hk. rewrite lookup_insert in Hq. case_decide.
    + injection Hq as <-. rewrite Hsec. rewrite Hkind in Hk. eapply Hdir; eauto.
    + eapply Hdir; eauto.
Qed.

(** A new item without sectors. *)
Lemma owns_insert_new h m p it' :
  owns h m -> h !! p = None -> sectors it' = [] -> owns (<[p := it']> h) m.
Proof.
  intros [Hmk Hown Hnd Hex Hdir] Hit Hsec. constructor.
  - intros q itq i Hq Hi. rewrite lookup_insert in Hq. case_decide.
    + injection Hq as <-. rewrite Hsec in Hi. apply elem_of_nil in Hi. contradiction.
    + eapply Hmk; eauto.
  - intros n Hn. destruct (Hown n Hn) as (q & itq & Hq & Hi).
    exists q, itq. rewrite lookup_insert_ne by congruence. auto.
  - intros q itq Hq. rewrite lookup_insert in Hq. case_decide.
    + injection Hq as <-. rewrite Hsec. constructor.
    + eapply Hnd; eauto.
  - intros q1 q2 i1 i2 i H1 H2 Hi1 Hi2.
    destruct (decide (p = q1)) as [<-|Hn1], (decide (p = q2)) as [<-|Hn2]; try reflexivity.
    + rewrite lookup_insert_eq in H1.
      injection H1 as <-. rewrite Hsec in Hi1. apply elem_of_nil in Hi1. contradiction.
    + rewrite lookup_insert_eq in H2.
      injection H2 as <-. rewrite Hsec in Hi2. apply elem_of_nil in Hi2. contradiction.
    + rewrite lookup_insert_ne in H1 by exact Hn1.
      rewrite lookup_insert_ne in H2 by exact Hn2. eapply Hex; eauto.
  - intros q itq Hq Hk. rewrite lookup_insert in Hq. case_decide.
    + injection Hq as <-. exact Hsec.
    + eapply Hdir; eauto.
Qed.

(** The sectors of the item [f] are freed, and [f] is deleted or loses its
    list. *)
Lemma owns_freed h m f it h' :
  owns h m -> h !! f = Some it ->
  (forall p itp, h' !! p = Some itp ->
     (p = f /\ sectors itp = []) \/ (p <> f /\ h !! p = Some itp)) ->
  (forall p itp, p <> f -> h !! p = Some itp -> h' !! p = Some itp) ->
  owns h' (clearAll (sectors it) m).
Proof.
  intros [Hmk Hown Hnd Hex Hdir] Hit Hsub Hsup. constructor.
  - intros p itp i Hp Hi. destruct (Hsub p itp Hp) as [[-> Hnil] | [Hne Hp']].
    + rewrite Hnil in Hi. apply elem_of_nil in Hi. contradiction.
    + destruct (Hmk p itp i Hp' Hi) as [H0 Hm]. split; [exact H0|].
      rewrite clearAll_other; [exact Hm|].
      intros id Hid Heq. apply Hne.
      destruct (Hmk f it id Hit Hid) as [Hid0 _].
      assert (id = i) by lia. subst id. eapply Hex; eauto.
  - intros n Hn.
    destruct (decide (Z.of_nat n ∈ sectors it)) as [Hin|Hout].
    + destruct (Hmk f it _ Hit Hin) as [_ Hm]. rewrite Nat2Z.id in Hm.
      apply lookup_lt_Some in Hm.
      pose proof (clearAll_cleared (sectors it) m (Z.of_nat n) Hin) as Hc.
      rewrite Nat2Z.id in Hc. rewrite Hc in Hn by exact Hm. discriminate.
    + rewrite clearAll_other in Hn.
      * destruct (Hown n Hn) as (p & itp & Hp & Hi).
        exists p, itp. split; [|exact Hi]. apply Hsup; [|exact Hp].
        intros ->. rewrite Hit in Hp. injection Hp as <-. contradiction.
      * intros id Hid Heq. apply Hout.
        destruct (Hmk f it id Hit Hid) as [Hid0 _].
        replace (Z.of_nat n) with id by lia. exact Hid.
  - intros p itp Hp. destruct (Hsub p itp Hp) as [[-> Hnil] | [Hne Hp']].
    + rewrite Hnil. constructor.
    + eapply Hnd; eauto.
  - intros p q ip iq i Hp Hq Hi1 Hi2.
    destruct (Hsub p ip Hp) as [[-> Hnil] | [Hne Hp']].
    { rewrite Hnil in Hi1. apply elem_of_nil in Hi1. contradiction. }
    destruct (Hsub q iq Hq) as [[-> Hnil] | [Hne' Hq']].
    { rewrite Hnil in Hi2. apply elem_of_nil in Hi2. contradiction. }
    eapply Hex; eauto.
  - intros p itp Hp Hk. destruct (Hsub p itp Hp) as [[-> Hnil] | [Hne Hp']].
    + exact Hnil.
    + eapply Hdir; eauto.
Qed.

(** A free id is claimed for the file [f]. *)
Lemma owns_claim h m f it i :
  owns h m -> h !! f = Some it -> isFolder it = false ->
  firstFree 0 m = Some i ->
  owns (<[f := set_sectors (sectors it ++ [i]) it]> h) (<[Z.to_nat i := true]> m).
Proof.
  intros [Hmk Hown Hnd Hex Hdir] Hit Hkind Hfree.
  apply firstFree_Some in Hfree as (Hi0 & Hfalse & _). rewrite Z.sub_0_r in Hfalse.
  assert (Hlt : (Z.to_nat i < length m)%nat) by (eapply lookup_lt_Some; eauto).
  assert (Hnew : forall p itp, h !! p = Some itp -> i ∉ sectors itp).
  { intros p itp Hp Hin. destruct (Hmk p itp i Hp Hin) as [_ Hm]. congruence. }
  assert (Hkeep : forall j, 0 <= j -> m !! Z.to_nat j = Some true ->
                            <[Z.to_nat i := true]> m !! Z.to_nat j = Some true).
  { intros j Hj Hm. destruct (decide (Z.to_nat i = Z.to_nat j)) as [Heq|Hne].
    - rewrite Heq. apply list_lookup_insert_eq. rewrite <- Heq. exact Hlt.
    - rewrite list_lookup_insert_ne by exact Hne. exact Hm. }
  constructor.
  - intros p itp j Hp Hj. rewrite lookup_insert in Hp. case_decide.
    + injection Hp as <-. cbn in Hj. apply elem_of_app in Hj as [Hj | Hj].
      * destruct (Hmk f it j Hit Hj). split; [assumption|]. apply Hkeep; assumption.
      * apply list_elem_of_singleton in Hj. subst j. split; [lia|].
        apply list_lookup_insert_eq. exact Hlt.
    + destruct (Hmk p itp j Hp Hj). split; [assumption|]. apply Hkeep; assumption.
  - intros n Hn. destruct (decide (Z.to_nat i = n)) as [Heq|Hne].
    + exists f, (set_sectors (sectors it ++ [i]) it). rewrite lookup_insert_eq.
      split; [reflexivity|]. cbn. apply elem_of_app. right.
      replace (Z.of_nat n) with i by lia. left.
    + rewrite list_lookup_insert_ne in Hn by exact Hne.
      destruct (Hown n Hn) as (p & itp & Hp & Hin).
      destruct (decide (p = f)) as [->|Hpf].
      * rewrite Hit in Hp. injection Hp as <-.
        exists f, (set_sectors (sectors it ++ [i]) it). rewrite lookup_insert_eq.
        split; [reflexivity|]. cbn. apply elem_of_app. left. exact Hin.
      * exists p, itp. rewrite lookup_insert_ne by congruence. auto.
  - intros p itp Hp. rewrite lookup_insert in Hp. case_decide.
    + injection Hp as <-. cbn. apply NoDup_app. split; [eapply Hnd; eauto|].
      split; [|apply NoDup_singleton].
      intros x Hx Hx'. apply list_elem_of_singleton in Hx'. subst x.
      exact (Hnew f it Hit Hx).
    + eapply Hnd; eauto.
  - intros p q ip iq j Hp Hq Hj1 Hj2.
    destruct (decide (f = p)) as [<-|Hn1], (decide (f = q)) as [<-|Hn2]; try reflexivity.
    + rewrite lookup_insert_eq in Hp. rewrite lookup_insert_ne in Hq by exact Hn2.
      injection Hp as <-. cbn in Hj1. apply elem_of_app in Hj1 as [Hj1 | Hj1].
      * eapply Hex; eauto.
      * apply list_elem_of_singleton in Hj1. subst j. exfalso. eapply Hnew; eauto.
    + rewrite lookup_insert_eq in Hq. rewrite lookup_insert_ne in Hp by exact Hn1.
      injection Hq as <-. cbn in Hj2. apply elem_of_app in Hj2 as [Hj2 | Hj2].
      * eapply Hex; eauto.
      * apply list_elem_of_singleton in Hj2. subst j. exfalso. eapply Hnew; eauto.
    + rewrite lookup_insert_ne in Hp by exact Hn1.
      rewrite lookup_insert_ne in Hq by exact Hn2. eapply Hex; eauto.
  - intros p itp Hp Hk. rewrite lookup_insert in Hp. case_decide.
    + injection Hp as <-. cbn in Hk. congruence.
    + eapply Hdir; eauto.
Qed.


(** The invariant of the sector bookkeeping.  It holds whenever a public
    operation other than [defrag] returns, also by an exception. *)
Definition sectorsOk (s : FileSystem) : Prop :=
  owns (heap s) (sectorMap s) /\ brkOk s.

Definition isFile (f : ptr) (s : FileSystem) : Prop :=
  exists it, heap s !! f = Some it /\ isFolder it = false.

Lemma brkOk_insert s p it :
  brkOk s -> is_Some (heap s !! p) -> brkOk (set_heap (<[p := it]> (heap s)) s).
Proof.
  intros Hb Hp q Hq. cbn in *. rewrite lookup_insert in Hq. case_decide.
  - subst. apply Hb. exact Hp.
  - apply Hb. exact Hq.
Qed.

Lemma sectorsOk_update p f E :
  keepsData f -> hoare sectorsOk (update p f) (fun _ => sectorsOk) E.
Proof.
  intros Hf. apply hoare_update. intros s it [Ho Hb] Hit.
  destruct (Hf it) as (Hk & _ & Hs). split.
  - cbn. eapply owns_insert_same; eauto.
  - apply brkOk_insert; eauto.
Qed.

Lemma sectorsOk_new it E :
  sectors it = [] ->
  hoare sectorsOk (new it) (fun n s => sectorsOk s /\ heap s !! n = Some it) E.
Proof.
  intros Hsec. apply hoare_new. intros s [Ho Hb]. cbn.
  assert (Hfresh : heap s !! brk s = None).
  { destruct (heap s !! brk s) eqn:E'; [|reflexivity].
    pose proof (Hb (brk s) ltac:(eauto)). lia. }
  split; [split|].
  - cbn. apply owns_insert_new; assumption.
  - intros q Hq. cbn in *. rewrite lookup_insert in Hq. case_decide.
    + subst. lia.
    + specialize (Hb q Hq). lia.
  - apply lookup_insert_eq.
Qed.

Lemma isFile_update f p g s it :
  keepsData g -> isFile f s -> heap s !! p = Some it ->
  isFile f (set_heap (<[p := g it]> (heap s)) s).
Proof.
  intros Hg (itf & Hf & Hk) Hp. unfold isFile. cbn.
  destruct (decide (p = f)) as [->|Hne].
  - rewrite lookup_insert_eq. exists (g it). split; [reflexivity|].
    rewrite Hf in Hp. injection Hp as <-. destruct (Hg itf) as (-> & _). exact Hk.
  - rewrite lookup_insert_ne by exact Hne. eauto.
Qed.

(** The writing loop claims free ids one by one. *)
Lemma sectorsOk_saveLoop fuel : forall file data pos,
  hoare (fun s => sectorsOk s /\ isFile file s) (saveLoop fuel file data pos)
        (fun _ => sectorsOk) (fun _ => sectorsOk).
Proof.
  induction fuel as [|fuel IH]; intros file data pos s [Hs Hf]; cbn [saveLoop];
    (destruct (to_size_t pos <? Z.of_nat (length data)); [|exact Hs]); [exact I|].
  unfold bind at 1. destruct (allocateSector s) as [i s1| |] eqn:Ea.
  - apply allocateSector_Ok in Ea as [Hfree ->].
    destruct Hf as (it & Hit & Hkind). destruct Hs as [Ho Hb].
    unfold bind at 1, update. cbn [heap set_sectorMap]. rewrite Hit.
    unfold bind at 1, writeSlot, modify.
    apply IH. split; [split|].
    + cbn. apply owns_claim; assumption.
    + intros q Hq. cbn in *. apply Hb. rewrite lookup_insert in Hq. case_decide; subst; eauto.
    + exists (set_sectors (sectors it ++ [i]) it). cbn. rewrite lookup_insert_eq. auto.
  - apply allocateSector_Throw in Ea as (_ & _ & ->). exact Hs.
  - exact I.
Qed.

Lemma freeAll_valid l : forall s,
  Forall (validSector (sectorMap s)) l ->
  forM l freeSector s = Ok tt (set_sectorMap (clearAll l (sectorMap s)) s).
Proof.
  unfold forM. induction l as [|x l IH]; intros s Hall; simpl.
  - destruct s; reflexivity.
  - apply Forall_cons in Hall as [Hx Hall].
    unfold bind.
    rewrite (proj2 (freeSector_Ok x s _) (conj Hx eq_refl)).
    rewrite IH; [reflexivity|].
    eapply Forall_impl; [exact Hall|]. unfold validSector. cbn.
    intros id. rewrite length_insert. auto.
Qed.

Lemma owns_valid h m p it :
  owns h m -> h !! p = Some it -> Forall (validSector m) (sectors it).
Proof.
  intros Ho Hit. apply Forall_forall. intros i Hi.
  destruct (own_marked h m Ho p it i Hit Hi) as [H0 Hm].
  apply lookup_lt_Some in Hm. unfold validSector. lia.
Qed.

Lemma sectorsOk_saveToDisk file :
  hoare sectorsOk (saveToDisk file) (fun _ => sectorsOk) (fun _ => sectorsOk).
Proof.
  intros s Hs. destruct file as [f|]; [|exact Hs]. cbn [saveToDisk].
  unfold bind at 1, deref. destruct (heap s !! f) as [it|] eqn:Hit; [|exact I].
  destruct (isFolder it) eqn:Hkind; [exact Hs|].
  destruct Hs as [Ho Hb].
  unfold bind at 1. rewrite freeAll_valid by (eapply owns_valid; eauto).
  unfold bind at 1, update. cbn [heap set_sectorMap]. rewrite Hit.
  apply sectorsOk_saveLoop. split; [split|].
  - cbn. apply (owns_freed (heap s) (sectorMap s) f it); [exact Ho | exact Hit | |].
    + intros p itp Hp. rewrite lookup_insert in Hp. case_decide.
      * left. subst. injection Hp as <-. auto.
      * right. split; [congruence | exact Hp].
    + intros p itp Hne Hp. rewrite lookup_insert_ne by congruence. exact Hp.
  - intros q Hq. cbn in *. apply Hb. rewrite lookup_insert in Hq. case_decide; subst; eauto.
  - exists (set_sectors [] it). cbn. rewrite lookup_insert_eq. auto.
Qed.

Lemma sectorsOk_push p c E : hoare sectorsOk (push_back p c) (fun _ => sectorsOk) E.
Proof. apply sectorsOk_update. auto. Qed.

Lemma sectorsOk_erase p c E : hoare sectorsOk (eraseChild p c) (fun _ => sectorsOk) E.
Proof. apply sectorsOk_update. auto. Qed.

Lemma sectorsOk_new_ it E :
  sectors it = [] -> hoare sectorsOk (new it) (fun _ => sectorsOk) E.
Proof.
  intros H. eapply hoare_conseq; [apply (sectorsOk_new it E H) | auto | | auto].
  intros a s [Hs _]. exact Hs.
Qed.

Lemma sectorsOk_mkdirStep current part :
  hoare sectorsOk (mkdirStep current part) (fun _ => sectorsOk) (fun _ => sectorsOk).
Proof.
  unfold mkdirStep.
  destruct ((part =? "")%string || (part =? ".")%string || (part =? "..")%string);
    [apply hoare_throw; auto|].
  destruct (negb (isValidName part)); [apply hoare_throw; auto|].
  hoare_pure_step. hoare_pure_step.
  destruct a0 as [next|]; [apply hoare_ret; auto|].
  eapply hoare_bind; [apply sectorsOk_new_; reflexivity|].
  intros newDir. eapply hoare_bind; [apply sectorsOk_push|]. intros ?.
  hoare_pure_step. apply hoare_ret. auto.
Qed.

Lemma sectorsOk_mkdir path :
  hoare sectorsOk (mkdir path) (fun _ => sectorsOk) (fun _ => sectorsOk).
Proof.
  unfold mkdir. destruct (path =? "")%string; [apply hoare_throw; auto|].
  destruct (splitPath path) as [|p ps]; [apply hoare_throw; auto|].
  eapply hoare_bind.
  { apply hoare_pure_any; [destruct (beginsWithSlash path); pure_tac | auto]. }
  intros current. eapply hoare_bind.
  - apply (hoare_foldM (fun _ => sectorsOk)). intros a x _. apply sectorsOk_mkdirStep.
  - intros ?. apply hoare_ret. auto.
Qed.

Lemma sectorsOk_touch filename :
  hoare sectorsOk (touch filename) (fun _ => sectorsOk) (fun _ => sectorsOk).
Proof.
  unfold touch. destruct (negb (isValidName filename)); [apply hoare_throw; auto|].
  hoare_pure_step. hoare_pure_step. hoare_pure_step.
  eapply hoare_bind; [apply sectorsOk_new_; reflexivity|].
  intros newFile. eapply hoare_bind; [apply sectorsOk_push|].
  intros ?. apply sectorsOk_saveToDisk.
Qed.

Lemma sectorsOk_put realFile file fsPath :
  hoare sectorsOk (put realFile file fsPath) (fun _ => sectorsOk) (fun _ => sectorsOk).
Proof.
  unfold put. destruct file as [bytes|]; [|apply hoare_throw; auto].
  hoare_pure_step. hoare_pure_step. hoare_pure_step.
  eapply hoare_bind; [apply sectorsOk_new_; reflexivity|].
  intros newFile. eapply hoare_bind; [apply sectorsOk_push|].
  intros ?. apply sectorsOk_saveToDisk.
Qed.

Lemma sectorsOk_cd path : hoare sectorsOk (cd path) (fun _ => sectorsOk) (fun _ => sectorsOk).
Proof.
  unfold cd. hoare_pure_step. destruct a as [t|]; [|apply hoare_throw; auto].
  hoare_pure_step. destruct (negb (isFolder a)); [apply hoare_throw; auto|].
  apply hoare_modify. intros s [Hm Hs]. split; assumption.
Qed.

Lemma sectorsOk_copyItem fuel : forall source newParent,
  hoare sectorsOk (copyItem fuel source newParent) (fun _ => sectorsOk) (fun _ => sectorsOk).
Proof.
  induction fuel as [|fuel IH]; intros source newParent; cbn [copyItem]; [apply hoare_fail|].
  hoare_pure_step.
  eapply hoare_bind; [apply sectorsOk_new_; reflexivity|]. intros newItem.
  apply hoare_bind with (R := fun _ => sectorsOk).
  { destruct (negb (isFolder a)); [apply sectorsOk_saveToDisk | apply hoare_ret; auto]. }
  intros ?. eapply hoare_bind.
  - apply hoare_forM. intros child _. eapply hoare_bind; [apply IH|].
    intros newChild. apply sectorsOk_update. auto.
  - intros ?. apply hoare_ret. auto.
Qed.

Lemma sectorsOk_cp source dest :
  hoare sectorsOk (cp source dest) (fun _ => sectorsOk) (fun _ => sectorsOk).
Proof.
  unfold cp. hoare_pure_step. destruct a as [src|]; [|apply hoare_throw; auto].
  hoare_pure_step. hoare_pure_step.
  assert (Hname : forall destDirPath destName,
            hoare sectorsOk
              (let* destDir := getDestDir destDirPath in
               let* di := deref destDir in
               rejectName (children di) destName
                 (runtime_error ("Destination already exists: " ++ destName)%string) ;;
               let* fuel := depthBound in
               let* newItem := copyItem fuel src (Some destDir) in
               update newItem (set_name destName) ;;
               push_back destDir newItem)
              (fun _ => sectorsOk) (fun _ => sectorsOk)).
  { intros destDirPath destName.
    hoare_pure_step. hoare_pure_step. hoare_pure_step. hoare_pure_step.
    eapply hoare_bind; [apply sectorsOk_copyItem|]. intros newItem.
    eapply hoare_bind; [apply sectorsOk_update; auto|]. intros ?. apply sectorsOk_push. }
  destruct a as [d|], a0; try (destruct (splitDest dest) as [destDirPath destName]; apply Hname).
  hoare_pure_step. hoare_pure_step. hoare_pure_step. hoare_pure_step.
  eapply hoare_bind; [apply sectorsOk_copyItem|]. intros newItem. apply sectorsOk_push.
Qed.

Lemma sectorsOk_detach src E :
  (forall e s, sectorsOk s -> E e s) -> hoare sectorsOk (detach src) (fun _ => sectorsOk) E.
Proof.
  intros HE. unfold detach.
  eapply hoare_bind; [apply hoare_pure_any; [pure_tac | exact HE]|]. intros it.
  destruct (parent it); [apply sectorsOk_erase | apply hoare_ret; auto].
Qed.

Lemma sectorsOk_mv source dest :
  hoare sectorsOk (mv source dest) (fun _ => sectorsOk) (fun _ => sectorsOk).
Proof.
  unfold mv. hoare_pure_step. destruct a as [src|]; [|apply hoare_throw; auto].
  hoare_pure_step.
  apply hoare_bind with (R := fun _ => sectorsOk).
  { destruct (isFolder a); [|apply hoare_ret; auto].
    hoare_pure_step. hoare_pure_step. apply hoare_pure_any; [pure_tac | auto]. }
  intros ?. hoare_pure_step. hoare_pure_step.
  assert (Hname : forall destDirPath destName,
            hoare sectorsOk
              (let* destDir := getDestDir destDirPath in
               let* di := deref destDir in
               rejectOtherName (children di) destName src
                 (runtime_error ("Destination already exists: " ++ destName)%string) ;;
               let sameParent := sameNode (parent a) destDir in
               (if negb sameParent then detach src else ret tt) ;;
               update src (set_name destName) ;;
               if negb sameParent then
                 update src (set_parent (Some destDir)) ;;
                 push_back destDir src
               else ret tt)
              (fun _ => sectorsOk) (fun _ => sectorsOk)).
  { intros destDirPath destName.
    hoare_pure_step. hoare_pure_step. hoare_pure_step. cbv zeta.
    apply hoare_bind with (R := fun _ => sectorsOk).
    { destruct (negb (sameNode (parent a) a3)); [apply sectorsOk_detach; auto | apply hoare_ret; auto]. }
    intros ?. eapply hoare_bind; [apply sectorsOk_update; auto|]. intros ?.
    destruct (negb (sameNode (parent a) a3)); [|apply hoare_ret; auto].
    eapply hoare_bind; [apply sectorsOk_update; auto|]. intros ?. apply sectorsOk_push. }
  destruct a1 as [d|], a2; try (destruct (splitDest dest) as [destDirPath destName]; apply Hname).
  hoare_pure_step. hoare_pure_step.
  destruct (negb (sameNode (parent a) d)); [|apply hoare_ret; auto].
  eapply hoare_bind; [apply sectorsOk_detach; auto|]. intros ?.
  eapply hoare_bind; [apply sectorsOk_update; auto|]. intros ?. apply sectorsOk_push.
Qed.


(** *** Taking a subtree out *)

Lemma shape_child_parent h t : forall par q qi c,
  shape h par t -> q ∈ nodes t -> h !! q = Some qi -> c ∈ children qi ->
  exists ci, h !! c = Some ci /\ parent ci = Some q.
Proof.
  induction t as [p ks IH] using tree_ind'. intros par q qi c Hsh Hq Hqi Hc.
  apply shape_inv in Hsh as (it & Hit & _ & Hch & Hks).
  rewrite Forall_forall in IH, Hks.
  apply elem_of_nodes in Hq as [-> | (k & Hk & Hq)].
  - rewrite Hit in Hqi. injection Hqi as <-. rewrite Hch in Hc.
    apply list_elem_of_fmap in Hc as (k & -> & Hk).
    destruct (shape_live _ _ _ _ (Hks k Hk) (nodes_top k)) as [ci Hci].
    exists ci. split; [exact Hci|]. eapply shape_top; eauto.
  - eapply IH; eauto.
Qed.

(** The node [c], not the root, is erased from the children of its
    parent [q]: what stays is the pruned tree, and the subtree of [c]
    hangs free with its parent pointer still at [q]. *)
Lemma shape_cut h T c ci :
  shape h None T -> NoDup (nodes T) -> c ∈ nodes T -> c <> top T -> h !! c = Some ci ->
  exists q qi u,
    parent ci = Some q /\ h !! q = Some qi /\ q ∈ nodes T /\ c ∈ children qi /\
    subtree c T = Some u /\ top u = c /\ (q ∉ nodes u) /\
    nodes T ≡ₚ nodes (prune c T) ++ nodes u /\
    shape (<[q := set_children (eraseFirst c (children qi)) qi]> h) None (prune c T) /\
    shape (<[q := set_children (eraseFirst c (children qi)) qi]> h) (Some q) u.
Proof.
  intros Hsh Hnd Hc Hne Hci.
  destruct (shape_parent _ _ _ _ _ Hsh Hc Hci Hne) as (q & qi & Hpar & Hq & Hqi & Hcq).
  destruct (subtree_exists c T Hc) as [u Hu].
  destruct (subtree_parent h c ci q u T None Hsh Hnd Hu Hne Hci Hpar) as [_ Hqu].
  exists q, qi, u. repeat (split; [first [assumption | eapply subtree_top; eauto]|]).
  split; [apply nodes_prune; assumption|]. split.
  - eapply shape_prune; eauto.
  - destruct (subtree_shape h c T None u Hsh Hu) as [par' Hshu].
    assert (par' = Some q) as ->.
    { pose proof (subtree_top _ _ _ Hu) as Htop. rewrite <- Htop in Hci.
      pose proof (shape_top _ _ _ _ Hshu Hci). congruence. }
    eapply shape_frame; [exact Hshu|]. intros x Hx itx Hitx. exists itx.
    rewrite lookup_insert_ne; [auto|]. intros ->. contradiction.
Qed.

Lemma NoDup_app_perm {A} (l l1 l2 : list A) :
  NoDup l -> l ≡ₚ l1 ++ l2 -> NoDup l1 /\ NoDup l2 /\ forall x, x ∈ l1 -> x ∉ l2.
Proof.
  intros Hnd Hp. rewrite Hp in Hnd. apply NoDup_app in Hnd as (H1 & H2 & H3). auto.
Qed.

Lemma isDir_update h p f it q :
  h !! p = Some it -> isFolder (f it) = isFolder it -> isDir h q -> isDir (<[p := f it]> h) q.
Proof.
  intros Hp Hk (itq & Hq & Hkq). destruct (decide (p = q)) as [->|Hne].
  - exists (f it). rewrite lookup_insert_eq. split; [reflexivity|]. congruence.
  - exists itq. rewrite lookup_insert_ne by exact Hne. auto.
Qed.

(** [rm] of a file or of an empty directory: the run. *)
Lemma rm_leaf_run name recursive s c t it :
  heap s !! currentDir s = Some c ->
  findChild (children c) name s = Ok (Some t) s ->
  heap s !! t = Some it -> children it = [] -> t <> currentDir s ->
  Forall (validSector (sectorMap s)) (sectors it) ->
  (isFolder it = true -> sectors it = []) ->
  rm name recursive s =
  Ok tt (mkFS (disk s) (clearAll (sectors it) (sectorMap s))
              (delete t (<[currentDir s := set_children (eraseFirst t (children c)) c]> (heap s)))
              (brk s) (root s) (currentDir s) (totalSectors s)).
Proof.
  intros Hc Hfind Ht Hkids Hne Hvalid Hdir.
  unfold rm. unfold bind at 1, gets. unfold bind at 1, deref. rewrite Hc.
  unfold bind at 1. rewrite Hfind. unfold bind at 1. rewrite Ht, Hkids.
  rewrite andb_false_r. cbn [andb negb].
  unfold bind at 1, eraseChild, update. rewrite Hc.
  unfold bind at 1, depthBound, gets. cbn [brk set_heap].
  cbn [deleteTree]. unfold bind at 1, deref. cbn [heap set_heap].
  rewrite lookup_insert_ne by congruence. rewrite Ht, Hkids.
  unfold bind at 1, forM at 1. cbn [foldM]. unfold ret at 1.
  unfold bind at 1. cbn [freeSectorsRecursive].
  unfold bind at 1, deref. cbn [heap set_heap].
  rewrite lookup_insert_ne by congruence. rewrite Ht, Hkids.
  destruct (isFolder it) eqn:Hk; cbn [negb].
  - rewrite (Hdir eq_refl). unfold bind at 1, ret at 1.
    unfold forM, foldM, ret. unfold delete_. cbn [heap set_heap].
    rewrite lookup_insert_ne by congruence. rewrite Ht. reflexivity.
  - unfold bind at 1. rewrite freeAll_valid by exact Hvalid.
    unfold forM, foldM, ret. unfold delete_. cbn [heap set_heap set_sectorMap].
    rewrite lookup_insert_ne by congruence. rewrite Ht. reflexivity.
Qed.


(** *** Removal *)

(** Every sector listed by an item is an index of the bitmap of [n]
    entries. *)
Definition validAll (n : nat) (s : FileSystem) : Prop :=
  length (sectorMap s) = n /\
  forall p it i, heap s !! p = Some it -> i ∈ sectors it -> 0 <= i < Z.of_nat n.

Definition never (e : exn) (s : FileSystem) : Prop := False.

Lemma validAll_freeSector n x :
  0 <= x < Z.of_nat n -> hoare (validAll n) (freeSector x) (fun _ => validAll n) never.
Proof.
  intros Hx s [Hlen Hs]. unfold freeSector.
  destruct (x <? 0) eqn:E1; [apply Z.ltb_lt in E1; lia|].
  destruct (Z.of_nat (length (sectorMap s)) <=? x) eqn:E2; [apply Z.leb_le in E2; lia|].
  cbn [orb]. split; [cbn; rewrite length_insert; exact Hlen | exact Hs].
Qed.

Lemma validAll_freeSectorsRecursive n fuel : forall item,
  hoare (validAll n) (freeSectorsRecursive fuel item) (fun _ => validAll n) never.
Proof.
  induction fuel as [|fuel IH]; intros [i|]; cbn [freeSectorsRecursive];
    try (apply hoare_ret; auto); try apply hoare_fail.
  apply hoare_bind with
    (R := fun it s => validAll n s /\ forall x, x ∈ sectors it -> 0 <= x < Z.of_nat n).
  { apply hoare_deref. intros s it Hs Hit. split; [exact Hs|].
    intros x Hx. eapply (proj2 Hs); eauto. }
  intros it. apply hoare_bind with (R := fun _ => validAll n).
  - destruct (negb (isFolder it)).
    + intros s [Hs Hval]. apply (hoare_forM (validAll n)); [|exact Hs].
      intros x Hx. apply validAll_freeSector. apply Hval. apply list_elem_of_In. exact Hx.
    + apply hoare_ret. tauto.
  - intros ?. apply hoare_forM. intros x _. apply IH.
Qed.

Lemma validAll_deleteTree n fuel : forall node,
  hoare (validAll n) (deleteTree fuel node) (fun _ => validAll n) never.
Proof.
  induction fuel as [|fuel IH]; intros [i|]; cbn [deleteTree];
    try (apply hoare_ret; auto); try apply hoare_fail.
  apply hoare_bind with (R := fun _ => validAll n).
  { apply hoare_deref. auto. }
  intros it. eapply hoare_bind.
  - apply hoare_forM. intros x _. apply IH.
  - intros ?. eapply hoare_bind; [apply validAll_freeSectorsRecursive|].
    intros ?. apply hoare_delete. intros s it' [Hlen Hs] _. split; [exact Hlen|].
    intros p itp x Hp. cbn in Hp. apply lookup_delete_Some in Hp as [_ Hp]. eauto.
Qed.

Lemma owns_validAll s : owns (heap s) (sectorMap s) -> validAll (length (sectorMap s)) s.
Proof.
  intros Ho. split; [reflexivity|]. intros p it i Hp Hi.
  destruct (own_marked _ _ Ho p it i Hp Hi) as [H0 Hm].
  apply lookup_lt_Some in Hm. lia.
Qed.

(** The state and its tree, together with the sector bookkeeping. *)
Definition wf (s : FileSystem) : Prop := hasTree s /\ sectorsOk s.

Lemma wf_rm name recursive s : wf s -> keepsUnless nothing wf (rm name recursive s).
Proof.
  intros [[T Hwf] [Ho Hb]].
  assert (Hsame : wf s) by (split; [exists T; exact Hwf | split; assumption]).
  destruct (wf_curdir s T Hwf) as (c & Hc & Hck).
  pose proof (readonly_findChild (children c) name s) as Hro.
  destruct (findChild (children c) name s) as [[t|] s1|e s1|] eqn:Hfind;
    [subst s1 | subst s1 | contradiction |].
  2:{ unfold rm, bind, gets, deref. rewrite Hc, Hfind. intros _. exact Hsame. }
  2:{ unfold rm, bind, gets, deref. rewrite Hc, Hfind. exact I. }
  pose proof (findChild_elem _ _ _ _ _ Hfind) as Htc.
  assert (Ht : t ∈ nodes T).
  { eapply shape_child; [apply (wf_shape s T Hwf) | apply (wf_cur s T Hwf) | exact Hc | exact Htc]. }
  destruct (shape_child_parent _ _ _ _ _ _ (wf_shape s T Hwf) (wf_cur s T Hwf) Hc Htc)
    as (it & Hit & Hpar).
  assert (Hnt : t <> top T).
  { intros ->. pose proof (shape_top _ _ _ _ (wf_shape s T Hwf) Hit). congruence. }
  destruct (shape_cut _ _ _ _ (wf_shape s T Hwf) (wf_nodup s T Hwf) Ht Hnt Hit)
    as (q & qi & u & Hq & Hqi & HqT & _ & Hu & Htop & Hqu & Hperm & Hsh1 & Hshu).
  assert (q = currentDir s) by congruence. subst q.
  rewrite Hc in Hqi. injection Hqi as <-.
  assert (Hne : t <> currentDir s).
  { intros Heq. apply Hqu. rewrite <- Heq, <- Htop. apply nodes_top. }
  destruct (children it) as [|k ks] eqn:Hkids.
  - (* a file or an empty directory *)
    rewrite (rm_leaf_run name recursive s c t it Hc Hfind Hit Hkids Hne);
      [| eapply owns_valid; eauto | intros Hk; eapply own_dirs; eauto].
    cbn [keepsUnless].
    assert (Hnu : nodes u = [t]).
    { destruct u as [t' us]. cbn [top] in Htop. subst t'.
      apply shape_inv in Hshu as (it' & Hit' & _ & Hch & _).
      rewrite lookup_insert_ne in Hit' by congruence.
      rewrite Hit in Hit'. injection Hit' as <-. rewrite Hkids in Hch.
      destruct us; [reflexivity | discriminate]. }
    rewrite Hnu in Hperm.
    destruct (NoDup_app_perm _ _ _ (wf_nodup s T Hwf) Hperm) as (Hnd1 & _ & Hdisj).
    assert (Hin : forall p, p ∈ nodes T -> p <> t -> p ∈ nodes (prune t T)).
    { intros p Hp Hpt. rewrite Hperm in Hp. apply elem_of_app in Hp as [Hp | Hp]; [exact Hp|].
      apply list_elem_of_singleton in Hp. contradiction. }
    assert (Hout : forall p, p ∈ nodes (prune t T) -> p <> t).
    { intros p Hp ->. apply (Hdisj t Hp). left. }
    split.
    + exists (prune t T).
      constructor; unfold brkOk, isDir, filesAreLeaves; cbn [heap brk root currentDir].
      * rewrite prune_top. apply (wf_top s T Hwf).
      * eapply shape_frame; [exact Hsh1|]. intros x Hx itx Hitx. exists itx.
        rewrite lookup_delete_ne by (intros ->; exact (Hout _ Hx eq_refl)). auto.
      * exact Hnd1.
      * intros p [itp Hp]. apply lookup_delete_Some in Hp as [Hpt Hp].
        apply Hin; [|congruence]. apply (wf_dom s T Hwf).
        rewrite lookup_insert in Hp. case_decide; subst; eauto.
      * intros p [itp Hp]. apply lookup_delete_Some in Hp as [Hpt Hp].
        apply (wf_brk s T Hwf).
        rewrite lookup_insert in Hp. case_decide; subst; eauto.
      * apply Hin; [apply (wf_cur s T Hwf) | congruence].
      * exists (set_children (eraseFirst t (children c)) c).
        rewrite lookup_delete_ne by congruence. rewrite lookup_insert_eq. auto.
      * destruct (isDir_update (heap s) (currentDir s)
                    (fun it => set_children (eraseFirst t (children it)) it) c (root s)
                    Hc eq_refl (wf_rootdir s T Hwf)) as (ri & Hri & Hrk).
        exists ri. rewrite lookup_delete_ne; [auto|].
        rewrite <- (wf_top s T Hwf). congruence.
      * intros p itp Hp Hk. apply lookup_delete_Some in Hp as [Hpt Hp].
        rewrite lookup_insert in Hp. case_decide.
        -- injection Hp as <-. cbn in Hk. congruence.
        -- eapply (wf_leaves s T Hwf); eauto.
    + split; cbn [heap sectorMap].
      * apply (owns_freed (<[currentDir s := set_children (eraseFirst t (children c)) c]> (heap s))
                          (sectorMap s) t it).
        -- eapply owns_insert_same; eauto.
        -- rewrite lookup_insert_ne by congruence. exact Hit.
        -- intros p itp Hp. apply lookup_delete_Some in Hp as [Hpt Hp]. right. split; congruence.
        -- intros p itp Hpt Hp. rewrite lookup_delete_ne by congruence. exact Hp.
      * intros p [itp Hp]. cbn in *. apply lookup_delete_Some in Hp as [Hpt Hp].
        apply Hb. rewrite lookup_insert in Hp. case_decide; subst; eauto.
  - (* a directory with children *)
    unfold rm, bind at 1, gets. unfold bind at 1, deref. rewrite Hc.
    unfold bind at 1. rewrite Hfind. unfold bind at 1. rewrite Hit, Hkids.
    destruct (isFolder it && negb false && negb recursive); [intros _; exact Hsame|].
    unfold bind at 1, eraseChild, update. rewrite Hc.
    unfold bind at 1, depthBound, gets.
    set (s1 := set_heap _ s).
    assert (Hit1 : heap s1 !! t = Some it).
    { subst s1. cbn. rewrite lookup_insert_ne by congruence. exact Hit. }
    pose proof (deleteTree_use_after_free (S (brk s1)) t s1 it Hit1) as Huaf.
    rewrite Hkids in Huaf. specialize (Huaf ltac:(discriminate)).
    assert (Hval : validAll (length (sectorMap s1)) s1).
    { apply owns_validAll. subst s1. cbn. eapply owns_insert_same; eauto. }
    pose proof (validAll_deleteTree _ (S (brk s1)) (Some t) s1 Hval) as Hnever.
    destruct (deleteTree (S (brk s1)) (Some t) s1) as [[] s2|e s2|]; cbn [keepsUnless].
    + exfalso. exact (Huaf s2 eq_refl).
    + destruct Hnever.
    + exact I.
Qed.


(** *** Moving *)

(** A run of [checkNotInside] that returns has not met [src] on the way
    up from [checkItem]. *)
Lemma checkNotInside_Ok fuel : forall c src s s',
  checkNotInside fuel (Some c) src s = Ok tt s' -> ~ inside (heap s) src c.
Proof.
  induction fuel as [|fuel IH]; intros c src s s' H; cbn [checkNotInside] in H;
    destruct (Nat.eqb c src) eqn:E; try discriminate.
  apply Nat.eqb_neq in E.
  apply bind_Ok in H as (it & s1 & H1 & H). apply deref_Ok in H1 as [Hit ->].
  intros Hin. inversion Hin as [|x it' p Hit' Hp Hin']; subst; [congruence|].
  rewrite Hit in Hit'. injection Hit' as <-. rewrite Hp in H.
  exact (IH p src s s' H Hin').
Qed.

(** Only a directory has nodes below it. *)
Lemma inside_file s T src its d :
  wfTree s T -> d ∈ nodes T -> heap s !! src = Some its -> isFolder its = false ->
  inside (heap s) src d -> d = src.
Proof.
  intros Hwf Hd Hits Hk Hin. induction Hin as [|x it p Hit Hp Hin IH]; [reflexivity|].
  assert (Hne : x <> top T).
  { intros ->. pose proof (shape_top _ _ _ _ (wf_shape s T Hwf) Hit). congruence. }
  destruct (shape_parent _ _ _ _ _ (wf_shape s T Hwf) Hd Hit Hne) as (q & qi & Hq & HqT & Hqi & Hx).
  assert (q = p) by congruence. subst q.
  specialize (IH HqT). subst p. rewrite Hits in Hqi. injection Hqi as <-.
  rewrite (wf_leaves s T Hwf src its Hits Hk) in Hx. apply elem_of_nil in Hx. contradiction.
Qed.

Lemma wfTree_inside_root s T d : wfTree s T -> d ∈ nodes T -> inside (heap s) (root s) d.
Proof.
  intros Hwf Hd. rewrite <- (wf_top s T Hwf).
  eapply shape_inside; [apply (wf_shape s T Hwf) | exact Hd].
Qed.

(** The node [src] is taken from its parent [q], renamed and given the
    parent [d], a directory outside the subtree of [src]: the state is
    ready for attaching the subtree to [d]. *)
Lemma wfPlus_moved s T src its q qi d n' :
  wfTree s T -> src ∈ nodes T -> heap s !! src = Some its ->
  parent its = Some q -> heap s !! q = Some qi ->
  d ∈ nodes T -> isDir (heap s) d -> ~ inside (heap s) src d ->
  exists u,
    top u = src /\ q <> src /\
    wfPlus (set_heap (<[src := set_parent (Some d) (set_name n' its)]>
                        (<[q := set_children (eraseFirst src (children qi)) qi]> (heap s))) s)
           (prune src T) d u.
Proof.
  intros Hwf Hsrc Hits Hpar Hqi Hd Hdd Hnot.
  assert (Hne : src <> top T).
  { intros ->. pose proof (shape_top _ _ _ _ (wf_shape s T Hwf) Hits). congruence. }
  destruct (shape_cut _ _ _ _ (wf_shape s T Hwf) (wf_nodup s T Hwf) Hsrc Hne Hits)
    as (q' & qi' & u & Hq & Hqi' & HqT & _ & Hu & Htop & Hqu & Hperm & Hsh1 & Hshu).
  assert (q' = q) by congruence. subst q'.
  rewrite Hqi in Hqi'. injection Hqi' as <-.
  assert (Hqs : q <> src).
  { intros ->. apply Hqu. rewrite <- Htop. apply nodes_top. }
  exists u. split; [exact Htop|]. split; [exact Hqs|].
  destruct (NoDup_app_perm _ _ _ (wf_nodup s T Hwf) Hperm) as (Hnd1 & Hnd2 & Hdisj).
  assert (Hdu : d ∉ nodes u).
  { intros Hin. apply Hnot. rewrite <- Htop.
    destruct (subtree_shape _ _ _ _ _ (wf_shape s T Hwf) Hu) as [par' Hshu'].
    eapply shape_inside; eauto. }
  assert (Hsu : src ∈ nodes u) by (rewrite <- Htop; apply nodes_top).
  assert (Hsp : src ∉ nodes (prune src T)).
  { intros Hin. exact (Hdisj _ Hin Hsu). }
  set (h1 := <[q := set_children (eraseFirst src (children qi)) qi]> (heap s)) in *.
  assert (Hits1 : h1 !! src = Some its).
  { subst h1. rewrite lookup_insert_ne by exact Hqs. exact Hits. }
  assert (Hdir : forall x, isDir (heap s) x ->
            isDir (<[src := set_parent (Some d) (set_name n' its)]> h1) x).
  { intros x Hx.
    apply (isDir_update h1 src (fun it => set_parent (Some d) (set_name n' it)) its x Hits1 eq_refl).
    subst h1.
    apply (isDir_update (heap s) q (fun it => set_children (eraseFirst src (children it)) it)
                        qi x Hqi eq_refl Hx). }
  assert (Hlive : forall p, is_Some (<[src := set_parent (Some d) (set_name n' its)]> h1 !! p) ->
                            is_Some (heap s !! p)).
  { intros p [itp Hp]. rewrite lookup_insert in Hp. case_decide; [subst; eauto|].
    subst h1. rewrite lookup_insert in Hp. case_decide; subst; eauto. }
  constructor; unfold brkOk, filesAreLeaves; cbn [heap brk root currentDir set_heap].
  - rewrite prune_top. apply (wf_top s T Hwf).
  - eapply shape_frame; [exact Hsh1|]. intros x Hx itx Hitx. exists itx.
    rewrite lookup_insert_ne; [auto|]. intros ->. contradiction.
  - assert (Hsh2 : shape (<[src := set_name n' its]> h1) (Some q) u).
    { eapply shape_frame; [exact Hshu|]. intros x Hx itx Hitx.
      rewrite lookup_insert. case_decide.
      - subst x. rewrite Hits1 in Hitx. injection Hitx as <-.
        exists (set_name n' its). auto.
      - exists itx. auto. }
    pose proof (shape_reparent _ u (set_name n' its) (Some q) (Some d) Hsh2 Hnd2) as Hre.
    rewrite Htop in Hre. rewrite lookup_insert_eq in Hre. specialize (Hre eq_refl).
    rewrite insert_insert_eq in Hre. exact Hre.
  - apply NoDup_app. auto.
  - intros p Hp. rewrite <- Hperm. apply (wf_dom s T Hwf). auto.
  - intros p Hp. apply (wf_brk s T Hwf). auto.
  - rewrite <- Hperm. apply (wf_cur s T Hwf).
  - apply Hdir. apply (wf_curdir s T Hwf).
  - apply Hdir. apply (wf_rootdir s T Hwf).
  - intros p itp Hp Hk. rewrite lookup_insert in Hp. case_decide.
    + injection Hp as <-. cbn in *. eapply (wf_leaves s T Hwf); eauto.
    + subst h1. rewrite lookup_insert in Hp. case_decide.
      * injection Hp as <-. cbn in *.
        rewrite (wf_leaves s T Hwf q qi Hqi Hk). reflexivity.
      * eapply (wf_leaves s T Hwf); eauto.
  - rewrite Hperm in Hd. apply elem_of_app in Hd as [Hd | Hd]; [exact Hd | contradiction].
  - apply Hdir. exact Hdd.
Qed.

(** The tree after a move: [src] has left its parent [q], has the name
    [n'] and the parent [d], and is the last child of [d]. *)
Lemma move_tree s T src its d n' :
  wfTree s T -> src ∈ nodes T -> heap s !! src = Some its ->
  d ∈ nodes T -> isDir (heap s) d -> ~ inside (heap s) src d ->
  exists q qi di,
    parent its = Some q /\ heap s !! q = Some qi /\ q <> src /\
    let h3 := <[src := set_parent (Some d) (set_name n' its)]>
                (<[q := set_children (eraseFirst src (children qi)) qi]> (heap s)) in
    h3 !! d = Some di /\
    forall s', heap s' = <[d := set_children (children di ++ [src]) di]> h3 ->
               brk s' = brk s -> root s' = root s -> currentDir s' = currentDir s ->
               hasTree s'.
Proof.
  intros Hwf Hsrc Hits Hd Hdd Hnot.
  assert (Hne : src <> top T).
  { intros Heq. apply Hnot. rewrite Heq, (wf_top s T Hwf).
    eapply wfTree_inside_root; eauto. }
  destruct (shape_parent _ _ _ _ _ (wf_shape s T Hwf) Hsrc Hits Hne)
    as (q & qi & Hq & HqT & Hqi & _).
  destruct (wfPlus_moved s T src its q qi d n' Hwf Hsrc Hits Hq Hqi Hd Hdd Hnot)
    as (u & Htop & Hqs & Hplus).
  destruct (wp_ddir _ _ _ _ Hplus) as (di & Hdi & _). cbn [heap set_heap] in Hdi.
  exists q, qi, di. split; [exact Hq|]. split; [exact Hqi|]. split; [exact Hqs|].
  split; [exact Hdi|].
  intros s' Hheap Hb Hr Hc. exists (graft d u (prune src T)).
  eapply (wfTree_attach _ _ d u di); [exact Hplus | exact Hdi | | | |];
    cbn [heap brk root currentDir set_heap]; try assumption.
  rewrite Htop. exact Hheap.
Qed.

Lemma set_name_same it : set_name (name it) it = it.
Proof. destruct it; reflexivity. Qed.

Lemma sameNode_true a b : sameNode a b = true <-> a = Some b.
Proof.
  destruct a as [x|]; simpl; [|split; discriminate].
  rewrite Nat.eqb_eq. split; congruence.
Qed.

Lemma hasTree_rename s src its n :
  hasTree s -> heap s !! src = Some its ->
  hasTree (set_heap (<[src := set_name n its]> (heap s)) s).
Proof.
  intros [T Hwf] Hits. exists T. eapply wfTree_sameLinks; [exact Hwf|].
  repeat split. intros p. cbn [heap set_heap]. rewrite lookup_insert. case_decide.
  - subst p. rewrite Hits. auto.
  - destruct (heap s !! p); auto.
Qed.

Ltac pure_step_as E a :=
  unfold bind at 1;
  lazymatch goal with
  | |- keepsUnless _ _ (match ?m ?s with _ => _ end) =>
      let Hp := fresh "Hp" in
      let s1 := fresh "s" in
      let e := fresh "e" in
      assert (Hp : pure m) by pure_tac;
      specialize (Hp s);
      destruct (m s) as [a s1|e s1|] eqn:E;
      [subst s1 | subst s1; intros _ | exact I]
  end.

Lemma hasTree_mv source dest s :
  hasTree s -> ~ movesIntoItself (Mv source dest) s -> keepsUnless nothing hasTree (mv source dest s).
Proof.
  intros [T Hwf] Hnot.
  assert (Hsame : hasTree s) by (exists T; exact Hwf).
  unfold mv. pure_step_as Esrc osrc; [|exact Hsame].
  destruct osrc as [src|]; [|intros _; exact Hsame].
  pose proof (readonly_Ok _ _ _ _ (readonly_getItem source) Esrc) as _.
  assert (Hsrc : src ∈ nodes T) by (eapply getItem_in; eauto).
  pure_step_as Eits its; [|exact Hsame]. apply deref_Ok in Eits as [Hits _].
  pure_step_as Echk chk; [|exact Hsame].
  pure_step_as Edst destItem; [|exact Hsame].
  pure_step_as Efol intoFolder; [|exact Hsame].
  assert (Hrename : forall destDirPath destName,
            splitDest dest = (destDirPath, destName) ->
            keepsUnless nothing hasTree
              ((let* destDir := getDestDir destDirPath in
                let* di := deref destDir in
                rejectOtherName (children di) destName src
                  (runtime_error ("Destination already exists: " ++ destName)%string) ;;
                let sameParent := sameNode (parent its) destDir in
                (if negb sameParent then detach src else ret tt) ;;
                update src (set_name destName) ;;
                if negb sameParent then
                  update src (set_parent (Some destDir)) ;;
                  push_back destDir src
                else ret tt) s)).
  { intros destDirPath destName Hsplit.
    pure_step_as Edir d; [|exact Hsame].
    pose proof Edir as Edir'.
    apply (getDestDir_in _ _ T) in Edir' as (_ & Hd & Hdd); [|exact Hwf].
    pure_step_as Edi di0; [|exact Hsame].
    pure_step_as Erej rej; [|exact Hsame]. cbv zeta.
    destruct (sameNode (parent its) d) eqn:Esame; cbn [negb].
    - unfold bind at 1, ret at 1. unfold bind at 1, update. rewrite Hits.
      unfold ret. cbn [keepsUnless]. apply hasTree_rename; assumption.
    - assert (Hin : ~ inside (heap s) src d).
      { intros Hin. apply Hnot. exists src, d. rewrite Hsplit. cbn [fst].
        split; [exact Esrc|]. split; [|exact Hin].
        unfold getDestDir in Edir.
        apply bind_Ok in Edir as (r & s1 & H1 & H).
        pose proof (readonly_Ok _ _ _ _ (readonly_getItem destDirPath) H1). subst s1.
        destruct r as [r|]; [|discriminate].
        apply bind_Ok in H as (it & s1 & H2 & H). apply deref_Ok in H2 as [_ ->].
        destruct (negb (isFolder it)); [discriminate|]. injection H as <-. exact H1. }
      destruct (move_tree s T src its d destName Hwf Hsrc Hits Hd Hdd Hin)
        as (q & qi & di & Hq & Hqi & Hqs & Hdi & Htree).
      unfold bind at 1, detach. unfold bind at 1, deref. rewrite Hits, Hq.
      unfold eraseChild, update at 1. rewrite Hqi.
      unfold bind at 1, update at 1. cbn [heap set_heap].
      rewrite lookup_insert_ne by exact Hqs. rewrite Hits.
      unfold bind at 1, update at 1. cbn [heap set_heap].
      rewrite lookup_insert_eq, insert_insert_eq.
      unfold push_back, update. cbn [heap set_heap]. cbv zeta in Hdi. rewrite Hdi.
      cbn [keepsUnless]. apply Htree; reflexivity. }
  destruct destItem as [d|]; [destruct intoFolder|];
    try (destruct (splitDest dest) as [destDirPath destName] eqn:Hsplit;
         apply (Hrename destDirPath destName eq_refl)).
  (* into the existing directory [d] *)
  assert (Hd : d ∈ nodes T) by (eapply getItem_in; eauto).
  assert (Hdd : isDir (heap s) d).
  { unfold isExistingFolder in Efol.
    apply bind_Ok in Efol as (it & s1 & H1 & H). apply deref_Ok in H1 as [Hit ->].
    injection H as H. exists it. auto. }
  pure_step_as Edi di0; [|exact Hsame].
  pure_step_as Erej rej; [|exact Hsame].
  destruct (sameNode (parent its) d) eqn:Esame; cbn [negb]; [exact Hsame|].
  assert (Hin : ~ inside (heap s) src d).
  { destruct (isFolder its) eqn:Hk.
    - apply bind_Ok in Echk as (c & s1 & H1 & H).
      pose proof (readonly_Ok _ _ _ _ (readonly_getItem dest) H1). subst s1.
      rewrite H1 in Edst. injection Edst as ->.
      apply bind_Ok in H as (fuel & s1 & H2 & H). injection H2 as <- <-.
      destruct chk; eapply checkNotInside_Ok; eauto.
    - intros Hin. pose proof (inside_file s T src its d Hwf Hd Hits Hk Hin). subst d.
      destruct Hdd as (it' & Hit' & Hk'). congruence. }
  destruct (move_tree s T src its d (name its) Hwf Hsrc Hits Hd Hdd Hin)
    as (q & qi & di & Hq & Hqi & Hqs & Hdi & Htree).
  rewrite set_name_same in Hdi, Htree.
  unfold bind at 1, detach. unfold bind at 1, deref. rewrite Hits, Hq.
  unfold eraseChild, update at 1. rewrite Hqi.
  unfold bind at 1, update at 1. cbn [heap set_heap].
  rewrite lookup_insert_ne by exact Hqs. rewrite Hits.
  unfold push_back, update. cbn [heap set_heap]. cbv zeta in Hdi. rewrite Hdi.
  cbn [keepsUnless]. apply Htree; reflexivity.
Qed.


(** * Copying *)

(** ** What the content writer touches *)

(** [rewrites f s0 s]: the state [s] differs from [s0] in bitmap and disk,
    and in the [sectors] of the item at [f]. *)
Definition rewrites (f : ptr) (s0 s : FileSystem) : Prop :=
  brk s = brk s0 /\ root s = root s0 /\ currentDir s = currentDir s0 /\
  (totalSectors s = totalSectors s0 /\ length (sectorMap s) = length (sectorMap s0)) /\
  (forall p, p <> f -> heap s !! p = heap s0 !! p) /\
  match heap s0 !! f, heap s !! f with
  | Some it0, Some it => exists ids, it = set_sectors ids it0
  | None, None => True
  | _, _ => False
  end.

Lemma rewrites_refl f s : rewrites f s s.
Proof.
  repeat split. destruct (heap s !! f) as [it|]; [|exact I].
  exists (sectors it). destruct it; reflexivity.
Qed.

Lemma rewrites_bitmap f s0 (g : FileSystem -> FileSystem) s :
  rewrites f s0 s -> heap (g s) = heap s -> brk (g s) = brk s -> root (g s) = root s ->
  currentDir (g s) = currentDir s -> totalSectors (g s) = totalSectors s ->
  length (sectorMap (g s)) = length (sectorMap s) ->
  rewrites f s0 (g s).
Proof.
  intros (Hb & Hr & Hc & [Ht Hl] & Ho & Hf) Hh Hb' Hr' Hc' Ht' Hl'.
  split; [congruence|]. split; [congruence|]. split; [congruence|].
  split; [split; congruence|].
  rewrite Hh. auto.
Qed.

Lemma rewrites_update f s0 ids' E :
  hoare (rewrites f s0) (update f (fun it => set_sectors (ids' it) it))
        (fun _ => rewrites f s0) E.
Proof.
  apply hoare_update. intros s it (Hb & Hr & Hc & Ht & Ho & Hf) Hit.
  split; [exact Hb|]. split; [exact Hr|]. split; [exact Hc|]. split; [exact Ht|].
  cbn [heap set_heap]. split.
  - intros p Hp. rewrite lookup_insert_ne by congruence. apply Ho. exact Hp.
  - rewrite lookup_insert_eq. rewrite Hit in Hf.
    destruct (heap s0 !! f) as [it0|]; [|contradiction].
    destruct Hf as [ids ->]. exists (ids' (set_sectors ids it0)). reflexivity.
Qed.

Lemma rewrites_mark f s0 i b s :
  rewrites f s0 s -> rewrites f s0 (set_sectorMap (<[i := b]> (sectorMap s)) s).
Proof.
  intros Hs. apply (rewrites_bitmap f s0 (set_sectorMap _)); auto.
  cbn. apply length_insert.
Qed.

Lemma rewrites_saveLoop s0 fuel : forall file data pos,
  hoare (rewrites file s0) (saveLoop fuel file data pos) (fun _ => rewrites file s0)
        (fun _ => rewrites file s0).
Proof.
  induction fuel as [|fuel IH]; intros file data pos; simpl;
    (destruct (to_size_t pos <? Z.of_nat (length data)); [|apply hoare_ret; auto]).
  - apply hoare_fail.
  - apply hoare_bind with (R := fun _ => rewrites file s0).
    { intros s Hs. unfold allocateSector. destruct (firstFree 0 (sectorMap s)); [|exact Hs].
      apply rewrites_mark. exact Hs. }
    intros sector.
    eapply hoare_bind;
      [apply (rewrites_update file s0 (fun it => sectors it ++ [sector]))|]. intros ?.
    apply hoare_bind with (R := fun _ => rewrites file s0).
    { apply hoare_modify. intros s Hs. apply (rewrites_bitmap file s0 (set_disk _)); auto. }
    intros ?. apply IH.
Qed.

Lemma rewrites_saveToDisk s0 f :
  hoare (rewrites f s0) (saveToDisk (Some f)) (fun _ => rewrites f s0) (fun _ => rewrites f s0).
Proof.
  simpl.
  eapply hoare_bind; [apply hoare_pure_any; [pure_tac | auto]|]. intros it.
  destruct (isFolder it); [apply hoare_ret; auto|].
  apply hoare_bind with (R := fun _ => rewrites f s0).
  { apply hoare_forM. intros x _ s Hs. unfold freeSector.
    destruct ((x <? 0) || (Z.of_nat (length (sectorMap s)) <=? x)); [exact Hs|].
    apply rewrites_mark. exact Hs. }
  intros ?.
  eapply hoare_bind; [apply (rewrites_update f s0 (fun _ => []))|]. intros ?.
  apply rewrites_saveLoop.
Qed.

(** The writer of a new item fails by the disk-full error only. *)
Lemma saveLoop_throws fuel : forall file data pos,
  hoare (fun _ => True) (saveLoop fuel file data pos) (fun _ _ => True)
        (fun e _ => diskFull e).
Proof.
  induction fuel as [|fuel IH]; intros file data pos; simpl;
    (destruct (to_size_t pos <? Z.of_nat (length data)); [|apply hoare_ret; auto]).
  - apply hoare_fail.
  - apply hoare_bind with (R := fun _ _ => True).
    { intros s _. unfold allocateSector. destruct (firstFree 0 (sectorMap s)); [exact I|].
      left. reflexivity. }
    intros sector.
    apply hoare_bind with (R := fun _ _ => True); [apply hoare_update; auto|]. intros ?.
    apply hoare_bind with (R := fun _ _ => True); [apply hoare_modify; auto|]. intros ?.
    apply IH.
Qed.

Lemma saveToDisk_new_throws f s it e s' :
  heap s !! f = Some it -> sectors it = [] ->
  saveToDisk (Some f) s = Throw e s' -> diskFull e.
Proof.
  intros Hit Hsec H. cbn [saveToDisk] in H. unfold bind at 1, deref in H. rewrite Hit in H.
  destruct (isFolder it); [discriminate|]. rewrite Hsec in H.
  unfold bind at 1, forM, foldM, ret in H.
  unfold bind at 1, update in H. rewrite Hit in H.
  pose proof (saveLoop_throws (length (content it)) f (content it) 0
                (set_heap (<[f := set_sectors [] it]> (heap s)) s) I) as Hl.
  rewrite H in Hl. exact Hl.
Qed.


(** ** The copy of a tree *)

(** [stocked it]: the file [it] has as many sectors as its content needs. *)
Definition stocked (it : Item) : Prop :=
  isFolder it = false -> length (sectors it) = sectorsNeeded (length (content it)).

(** [mirror h h' t t']: the tree [t'] in the heap [h'] has the form of
    the tree [t] in [h], corresponding items agree in kind, name and
    content, and the files of [t'] have the sectors their contents need. *)
Inductive mirror (h h' : gmap ptr Item) : tree -> tree -> Prop :=
| mirror_node p ks p' ks' it it' :
    h !! p = Some it -> h' !! p' = Some it' ->
    isFolder it' = isFolder it -> name it' = name it -> content it' = content it ->
    stocked it' ->
    Forall2 (mirror h h') ks ks' ->
    mirror h h' (Node p ks) (Node p' ks').

Lemma mirror_inv h h' p ks t' :
  mirror h h' (Node p ks) t' ->
  exists p' ks' it it',
    t' = Node p' ks' /\ h !! p = Some it /\ h' !! p' = Some it' /\
    isFolder it' = isFolder it /\ name it' = name it /\ content it' = content it /\
    stocked it' /\ Forall2 (mirror h h') ks ks'.
Proof. intros H. inversion H; subst. eauto 14. Qed.

Lemma mirror_frame h1 h1' h2 h2' t : forall t',
  mirror h1 h1' t t' ->
  (forall x, x ∈ nodes t -> h2 !! x = h1 !! x) ->
  (forall x, x ∈ nodes t' -> h2' !! x = h1' !! x) ->
  mirror h2 h2' t t'.
Proof.
  induction t as [p ks IH] using tree_ind'. intros t' Hm H1 H2.
  apply mirror_inv in Hm
    as (p' & ks' & it & it' & -> & Hit & Hit' & Hk & Hn & Hc & Hst & Hks).
  apply mirror_node with (it := it) (it' := it'); auto.
  - rewrite H1; [exact Hit | left].
  - rewrite H2; [exact Hit' | left].
  - assert (H1' : forall k x, k ∈ ks -> x ∈ nodes k -> h2 !! x = h1 !! x).
    { intros k x Hk' Hx. apply H1. eapply nodes_kid; eauto. }
    assert (H2' : forall k x, k ∈ ks' -> x ∈ nodes k -> h2' !! x = h1' !! x).
    { intros k x Hk' Hx. apply H2. eapply nodes_kid; eauto. }
    clear H1 H2 Hit Hit'.
    induction Hks as [|k k' ks ks' Hkk Hks IHks]; constructor.
    + apply Forall_cons in IH as [IHk _]. apply IHk; [exact Hkk | |].
      * intros x Hx. eapply H1'; [left | exact Hx].
      * intros x Hx. eapply H2'; [left | exact Hx].
    + apply Forall_cons in IH as [_ IH]. apply IHks; [exact IH | |].
      * intros k0 x Hk0. apply H1'. right. exact Hk0.
      * intros k0 x Hk0. apply H2'. right. exact Hk0.
Qed.

(** The state [s'] after the copy [t'] of the tree [t] has been made from
    the state [s]. *)
Record copied (s s' : FileSystem) (t : tree) (newParent : option ptr) (t' : tree) : Prop := {
  cp_brk : brk s' = (brk s + length (nodes t))%nat;
  cp_root : root s' = root s;
  cp_cur : currentDir s' = currentDir s;
  cp_total : totalSectors s' = totalSectors s /\ length (sectorMap s') = length (sectorMap s);
  cp_old : forall p, (p < brk s)%nat -> heap s' !! p = heap s !! p;
  cp_brkOk : brkOk s';
  cp_top : top t' = brk s;
  cp_nodes : nodes t' = seq (brk s) (length (nodes t));
  cp_shape : shape (heap s') newParent t';
  cp_mirror : mirror (heap s) (heap s') t t'
}.

(** The state [s] of the loop of [copyItem] over the children, when the
    subtrees [ks] have been copied as [ks'] below the new item [n]. *)
Record kidsCopied (s0 : FileSystem) (n : ptr) (base : Item) (ks ks' : list tree)
       (s : FileSystem) : Prop := {
  kc_brk : brk s = (S n + length (flat_map nodes ks))%nat;
  kc_root : root s = root s0;
  kc_cur : currentDir s = currentDir s0;
  kc_total : totalSectors s = totalSectors s0 /\ length (sectorMap s) = length (sectorMap s0);
  kc_old : forall p, (p < n)%nat -> heap s !! p = heap s0 !! p;
  kc_brkOk : brkOk s;
  kc_nodes : flat_map nodes ks' = seq (S n) (length (flat_map nodes ks));
  kc_shape : Forall (shape (heap s) (Some n)) ks';
  kc_mirror : Forall2 (mirror (heap s0) (heap s)) ks ks';
  kc_item : heap s !! n = Some (set_children (map top ks') base)
}.

Definition fitsIn (h : gmap ptr Item) (k : tree) : Prop :=
  forall x it, x ∈ nodes k -> h !! x = Some it -> fitsInt (content it).

Definition copiesWell (k : tree) : Prop :=
  forall fuel par newParent s n s',
    shape (heap s) par k -> brkOk s -> fitsIn (heap s) k ->
    copyItem fuel (top k) newParent s = Ok n s' ->
    n = brk s /\ exists t', copied s s' k newParent t'.

Lemma shape_same h h' par t :
  shape h par t -> (forall x, x ∈ nodes t -> h' !! x = h !! x) -> shape h' par t.
Proof.
  intros Hsh Heq. eapply shape_frame; [exact Hsh|].
  intros x Hx it Hit. exists it. rewrite Heq by exact Hx. auto.
Qed.

Lemma copyKids fuel s0 n p base : forall ks2 ks1 ks1' sj s_end,
  Forall copiesWell ks2 ->
  Forall (shape (heap s0) (Some p)) ks2 ->
  Forall (fitsIn (heap s0)) ks2 ->
  brkOk s0 -> n = brk s0 ->
  kidsCopied s0 n base ks1 ks1' sj ->
  forM (map top ks2)
       (fun child =>
          let* newChild := copyItem fuel child (Some n) in
          update n (fun it => set_children (children it ++ [newChild]) it)) sj
  = Ok tt s_end ->
  exists ks2', kidsCopied s0 n base (ks1 ++ ks2) (ks1' ++ ks2') s_end.
Proof.
  induction ks2 as [|k ks2 IH]; intros ks1 ks1' sj s_end Hwell Hsh Hfits Hb0 Hn Hinv Hrun.
  - injection Hrun as <-. exists []. rewrite !app_nil_r. exact Hinv.
  - apply Forall_cons in Hwell as [Hk Hwell]. apply Forall_cons in Hsh as [Hshk Hsh].
    apply Forall_cons in Hfits as [Hfitk Hfits].
    unfold forM in Hrun. cbn [map foldM] in Hrun.
    apply bind_Ok in Hrun as ([] & sj2 & Hbody & Hrun).
    apply bind_Ok in Hbody as (c & sj1 & Hcopy & Hupd).
    destruct Hinv as [Hbrk Hroot Hcur Htot Hold Hbok Hnodes Hshape Hmirror Hitem].
    assert (Hlow : forall x, x ∈ nodes k -> (x < n)%nat).
    { intros x Hx. subst n. apply Hb0. eapply shape_live; eauto. }
    assert (Hshk' : shape (heap sj) (Some p) k).
    { eapply shape_same; [exact Hshk|]. intros x Hx. apply Hold. auto. }
    assert (Hfitk' : fitsIn (heap sj) k).
    { intros x it Hx Hit. rewrite Hold in Hit by auto. eapply Hfitk; eauto. }
    destruct (Hk fuel (Some p) (Some n) sj c sj1 Hshk' Hbok Hfitk' Hcopy) as [-> [t' Hc]].
    destruct Hc as [Hbrk1 Hroot1 Hcur1 Htot1 Hold1 Hbok1 Htop1 Hnodes1 Hshape1 Hmirror1].
    assert (Hn1 : heap sj1 !! n = Some (set_children (map top ks1') base)).
    { rewrite Hold1 by lia. exact Hitem. }
    unfold update in Hupd. rewrite Hn1 in Hupd. injection Hupd as <-.
    assert (Hnew : forall x, x ∈ nodes t' -> (brk sj <= x)%nat).
    { intros x Hx. rewrite Hnodes1 in Hx. apply elem_of_seq in Hx. lia. }
    assert (Hmid : forall x, x ∈ flat_map nodes ks1' -> (n < x < brk sj)%nat).
    { intros x Hx. rewrite Hnodes in Hx. apply elem_of_seq in Hx. lia. }
    lazymatch type of Hrun with foldM _ _ _ ?st = _ => set (sj2 := st) in * end.
    destruct (IH (ks1 ++ [k]) (ks1' ++ [t']) sj2 s_end Hwell Hsh Hfits Hb0 Hn) as [ks2' Hend];
      [|exact Hrun|exists (t' :: ks2'); rewrite <- !app_assoc in Hend; exact Hend].
    subst sj2. constructor; cbn [heap brk root currentDir totalSectors sectorMap set_heap].
    + rewrite Hbrk1, Hbrk, flat_map_app, length_app. simpl. rewrite app_nil_r. lia.
    + congruence.
    + congruence.
    + destruct Htot, Htot1. split; congruence.
    + intros x Hx. rewrite lookup_insert_ne by lia. rewrite Hold1 by lia. apply Hold. exact Hx.
    + apply brkOk_insert; [exact Hbok1 | eauto].
    + rewrite !flat_map_app, !length_app. simpl. rewrite !app_nil_r.
      rewrite Hnodes, Hnodes1, Hbrk. rewrite seq_app. reflexivity.
    + apply Forall_app. split.
      * rewrite Forall_forall in Hshape. apply Forall_forall. intros k' Hk'.
        eapply shape_same; [apply Hshape; exact Hk'|].
        intros x Hx.
        assert (n < x < brk sj)%nat by (apply Hmid; apply elem_of_flat_map; eauto).
        rewrite lookup_insert_ne by lia. apply Hold1. lia.
      * constructor; [|constructor].
        eapply shape_same; [exact Hshape1|].
        intros x Hx. specialize (Hnew x Hx). rewrite lookup_insert_ne by lia. reflexivity.
    + apply Forall2_app.
      * assert (Hsub : forall k' x, k' ∈ ks1' -> x ∈ nodes k' -> (n < x < brk sj)%nat).
        { intros k' x Hk' Hx. apply Hmid. apply elem_of_flat_map. eauto. }
        match goal with |- Forall2 (mirror _ ?h) _ _ => set (h2 := h) end.
        assert (Hh2 : forall x, x <> n -> h2 !! x = heap sj1 !! x).
        { intros x Hx. subst h2. apply lookup_insert_ne. congruence. }
        clearbody h2. clear -Hmirror Hsub Hold1 Hh2.
        induction Hmirror as [|a a' l l' Ha Hl IHl]; constructor.
        -- eapply mirror_frame; [exact Ha | auto |].
           intros x Hx. specialize (Hsub a' x ltac:(left) Hx).
           rewrite Hh2 by lia. apply Hold1. lia.
        -- apply IHl. intros k' x Hk'. apply Hsub. right. exact Hk'.
      * constructor; [|constructor].
        eapply mirror_frame; [exact Hmirror1 | |].
        -- intros x Hx. symmetry. apply Hold. auto.
        -- intros x Hx. specialize (Hnew x Hx). rewrite lookup_insert_ne by lia. reflexivity.
    + rewrite lookup_insert_eq. cbn. rewrite map_app. cbn. rewrite Htop1.
      destruct base; reflexivity.
Qed.


(** [copyItem] on the top of a tree returns the next address, and leaves
    there a copy of the tree, built on consecutive addresses in the order
    of the nodes, above a heap that is otherwise as before. *)
Lemma copyItem_copied t : copiesWell t.
Proof.
  induction t as [p ks IH] using tree_ind'.
  intros fuel par newParent s n s' Hsh Hb Hfits H.
  destruct fuel as [|fuel]; [discriminate|]. cbn [copyItem top] in H.
  apply bind_Ok in H as (src & s1 & H1 & H). apply deref_Ok in H1 as [Hsrc ->].
  apply bind_Ok in H as (n0 & s1 & Hnew & H). unfold new in Hnew. injection Hnew as <- <-.
  apply bind_Ok in H as ([] & s2 & Hsave & H).
  apply bind_Ok in H as ([] & s3 & Hloop & H). injection H as <- <-.
  split; [reflexivity|].
  apply shape_inv in Hsh as (src' & Hsrc' & _ & Hch & Hks).
  rewrite Hsrc in Hsrc'. injection Hsrc' as <-.
  set (newIt := mkItem (isFolder src) (name src) (content src) [] [] newParent) in *.
  set (s1 := mkFS (disk s) (sectorMap s) (<[brk s := newIt]> (heap s)) (S (brk s))
                  (root s) (currentDir s) (totalSectors s)) in *.
  assert (Hrw : rewrites (brk s) s1 s2).
  { destruct (negb (isFolder src)).
    - pose proof (rewrites_saveToDisk s1 (brk s) s1 (rewrites_refl _ _)) as Hr.
      rewrite Hsave in Hr. exact Hr.
    - injection Hsave as <-. apply rewrites_refl. }
  destruct Hrw as (Hb2 & Hr2 & Hc2 & Ht2 & Ho2 & Hf2).
  assert (Hn1 : heap s1 !! brk s = Some newIt) by (subst s1; cbn; apply lookup_insert_eq).
  rewrite Hn1 in Hf2. destruct (heap s2 !! brk s) as [it2|] eqn:Hn2; [|contradiction].
  destruct Hf2 as [ids ->].
  assert (Hstocked : stocked (set_sectors ids newIt)).
  { intros Hfile. cbn in Hfile. rewrite Hfile in Hsave. cbn [negb] in Hsave.
    assert (Hfit : fitsInt (content newIt)).
    { apply (Hfits p src); [left | exact Hsrc]. }
    rewrite (saveToDisk_fresh s1 (brk s) newIt Hn1 Hfile Hfit eq_refl) in Hsave.
    destruct (storeChunks _ _ _) as [[[ids' m'] d'] ok] eqn:Hstore.
    apply storeChunks_spec in Hstore as [_ Hall _ _ _ _ _ _ _ _].
    unfold saved in Hsave. destruct ok; [|discriminate]. injection Hsave as <-.
    cbn [heap] in Hn2. rewrite lookup_insert_eq in Hn2. injection Hn2 as Hids.
    cbn [sectors set_sectors content]. rewrite <- Hids, Hall by reflexivity.
    apply length_chunks. }
  assert (Hold2 : forall x, (x < brk s)%nat -> heap s2 !! x = heap s !! x).
  { intros x Hx. rewrite Ho2 by lia. subst s1. cbn. apply lookup_insert_ne. lia. }
  assert (Hinv : kidsCopied s (brk s) (set_sectors ids newIt) [] [] s2).
  { constructor; cbn [flat_map map length].
    - rewrite Hb2. subst s1. cbn. lia.
    - rewrite Hr2. reflexivity.
    - rewrite Hc2. reflexivity.
    - exact Ht2.
    - exact Hold2.
    - intros q [itq Hq]. rewrite Hb2. subst s1. cbn [brk].
      destruct (decide (q = brk s)) as [->|Hne]; [lia|].
      rewrite Ho2 in Hq by exact Hne. cbn in Hq. rewrite lookup_insert_ne in Hq by congruence.
      specialize (Hb q ltac:(eauto)). lia.
    - reflexivity.
    - constructor.
    - constructor.
    - rewrite Hn2. reflexivity. }
  rewrite Hch in Hloop.
  assert (Hfitks : Forall (fitsIn (heap s)) ks).
  { apply Forall_forall. intros k Hk x it Hx. apply Hfits. eapply nodes_kid; eauto. }
  destruct (copyKids fuel s (brk s) p (set_sectors ids newIt) ks [] [] s2 s3
              IH Hks Hfitks Hb eq_refl Hinv Hloop) as [ks' Hend].
  cbn [app] in Hend.
  destruct Hend as [Hbrk Hroot Hcur Htot Hold Hbok Hnodes Hshape Hmirror Hitem].
  exists (Node (brk s) ks'). constructor; cbn [nodes top length].
  - rewrite Hbrk. lia.
  - exact Hroot.
  - exact Hcur.
  - exact Htot.
  - exact Hold.
  - exact Hbok.
  - reflexivity.
  - rewrite Hnodes. reflexivity.
  - eapply shape_node; [exact Hitem | reflexivity | reflexivity | exact Hshape].
  - eapply mirror_node; [exact Hsrc | exact Hitem | reflexivity | reflexivity | reflexivity
                        | exact Hstocked | exact Hmirror].
Qed.


(** In the copy of a tree whose files have no children, files have no
    children. *)
Lemma mirror_leaves h h' t : forall t' par par' x it',
  mirror h h' t t' -> shape h par t -> shape h' par' t' -> filesAreLeaves h ->
  x ∈ nodes t' -> h' !! x = Some it' -> isFolder it' = false -> children it' = [].
Proof.
  induction t as [p ks IH] using tree_ind'.
  intros t' par par' x it' Hm Hsh Hsh' Hleaf Hx Hit' Hk.
  apply mirror_inv in Hm as (p' & ks' & it & it2 & -> & Hit & Hit2 & Hk2 & _ & _ & _ & Hks).
  apply shape_inv in Hsh as (it0 & Hit0 & _ & Hch & Hshk).
  apply shape_inv in Hsh' as (it0' & Hit0' & _ & Hch' & Hshk').
  rewrite Hit in Hit0. injection Hit0 as <-. rewrite Hit2 in Hit0'. injection Hit0' as <-.
  apply elem_of_nodes in Hx as [-> | (k' & Hk' & Hx)].
  - rewrite Hit2 in Hit'. injection Hit' as <-.
    rewrite Hk in Hk2. symmetry in Hk2. rewrite (Hleaf p it Hit Hk2) in Hch.
    destruct ks; [|discriminate]. inversion Hks; subst. exact Hch'.
  - clear Hch Hch' Hit Hit2 Hk2.
    induction Hks as [|k k2 ks ks' Hkk Hks IHks]; [inversion Hk'|].
    apply Forall_cons in IH as [IHk IH]. apply Forall_cons in Hshk as [Hs1 Hshk].
    apply Forall_cons in Hshk' as [Hs1' Hshk'].
    apply elem_of_cons in Hk' as [-> | Hk'].
    + eapply IHk; eauto.
    + apply IHks; assumption.
Qed.

(** The top of the copy keeps kind and content (its name may be given
    anew), and below it the copy mirrors the original. *)
Definition mirrorTop (h h' : gmap ptr Item) (t t' : tree) : Prop :=
  exists it it', h !! top t = Some it /\ h' !! top t' = Some it' /\
                 isFolder it' = isFolder it /\ content it' = content it /\
                 stocked it' /\
                 Forall2 (mirror h h') (kids t) (kids t').

(** Functions on items that change the name at most. *)
Definition renames (f : Item -> Item) : Prop :=
  forall it, isFolder (f it) = isFolder it /\ content (f it) = content it /\
             sectors (f it) = sectors it /\ children (f it) = children it /\
             parent (f it) = parent it.

Lemma renames_set_name n : renames (set_name n).
Proof. intros it. repeat split. Qed.

Lemma renames_id : renames (fun it => it).
Proof. intros it. repeat split. Qed.

(** The copy [t'] of the subtree [t] of [T], made for the directory [d],
    with its top renamed by [f] and attached to [d]. *)
Lemma copy_attach s T t par d s1 t' :
  wfTree s T -> shape (heap s) par t -> (forall x, x ∈ nodes t -> x ∈ nodes T) ->
  d ∈ nodes T -> isDir (heap s) d ->
  copied s s1 t (Some d) t' ->
  exists di it1,
    heap s !! d = Some di /\ heap s1 !! d = Some di /\ heap s1 !! brk s = Some it1 /\
    forall f s3,
      renames f ->
      heap s3 = <[d := set_children (children di ++ [brk s]) di]>
                  (<[brk s := f it1]> (heap s1)) ->
      brk s3 = brk s1 -> root s3 = root s1 -> currentDir s3 = currentDir s1 ->
      wfTree s3 (graft d t' T) /\ mirrorTop (heap s) (heap s3) t t' /\
      shape (heap s3) (Some d) t' /\
      (forall p, (p < brk s)%nat -> p <> d -> heap s3 !! p = heap s !! p) /\
      (forall p, p ∈ nodes t' -> p <> brk s -> heap s3 !! p = heap s1 !! p) /\
      heap s3 !! brk s = Some (f it1).
Proof.
  intros Hwf Hsh Hsub Hd Hdd [Hbrk Hroot Hcur _ Hold Hbok Htop Hnodes Hshape Hmirror].
  assert (Hlow : forall x, x ∈ nodes T -> (x < brk s)%nat).
  { intros x Hx. apply (wf_brk s T Hwf). eapply wfTree_live; eauto. }
  assert (Hhigh : forall x, x ∈ nodes t' -> (brk s <= x < brk s1)%nat).
  { intros x Hx. rewrite Hnodes in Hx. apply elem_of_seq in Hx. lia. }
  destruct Hdd as (di & Hdi & Hdk).
  assert (Hdi1 : heap s1 !! d = Some di) by (rewrite Hold; auto).
  destruct (shape_live _ _ _ _ Hshape (nodes_top t')) as [it1 Hit1]. rewrite Htop in Hit1.
  exists di, it1. split; [exact Hdi|]. split; [exact Hdi1|]. split; [exact Hit1|].
  intros f s3 Hf Hheap Hb3 Hr3 Hc3.
  assert (Hdn : d <> brk s) by (specialize (Hlow d Hd); lia).
  set (s2 := set_heap (<[brk s := f it1]> (heap s1)) s1).
  assert (Hkeep : forall x, x ∈ nodes T -> isDir (heap s) x -> isDir (heap s1) x).
  { intros x Hx (itx & Hitx & Hkx). exists itx. rewrite Hold by auto. auto. }
  assert (Hplus1 : wfPlus s1 T d t').
  { constructor.
    - rewrite Hroot. apply (wf_top s T Hwf).
    - eapply shape_same; [apply (wf_shape s T Hwf)|]. intros x Hx. apply Hold. auto.
    - exact Hshape.
    - apply NoDup_app. split; [apply (wf_nodup s T Hwf)|]. split.
      + intros x Hx Hx'. specialize (Hlow x Hx). specialize (Hhigh x Hx'). lia.
      + rewrite Hnodes. apply NoDup_seq.
    - intros q Hq. apply elem_of_app. destruct (decide (q < brk s)%nat) as [Hlt|Hge].
      + left. apply (wf_dom s T Hwf). rewrite <- Hold by exact Hlt. exact Hq.
      + right. rewrite Hnodes. apply elem_of_seq. specialize (Hbok q Hq). lia.
    - exact Hbok.
    - rewrite Hcur. apply elem_of_app. left. apply (wf_cur s T Hwf).
    - rewrite Hcur. apply Hkeep; [apply (wf_cur s T Hwf) | apply (wf_curdir s T Hwf)].
    - rewrite Hroot. apply Hkeep; [eapply wfTree_root; eauto | apply (wf_rootdir s T Hwf)].
    - intros q itq Hq Hk. destruct (decide (q < brk s)%nat) as [Hlt|Hge].
      + rewrite Hold in Hq by exact Hlt. eapply (wf_leaves s T Hwf); eauto.
      + eapply (mirror_leaves (heap s) (heap s1) t t'); eauto.
        * apply (wf_leaves s T Hwf).
        * rewrite Hnodes. apply elem_of_seq. specialize (Hbok q ltac:(eauto)). lia.
    - exact Hd.
    - exists di. auto. }
  assert (Hplus2 : wfPlus s2 T d t').
  { eapply wfPlus_sameLinks; [exact Hplus1|]. subst s2.
    repeat split. intros q. cbn [heap set_heap]. rewrite lookup_insert. case_decide.
    - subst q. rewrite Hit1. destruct (Hf it1) as (? & ? & ? & ? & ?). auto.
    - destruct (heap s1 !! q); auto. }
  assert (Hdi2 : heap s2 !! d = Some di).
  { subst s2. cbn. rewrite lookup_insert_ne by congruence. exact Hdi1. }
  assert (Hh3 : forall x, x <> d -> x <> brk s -> heap s3 !! x = heap s1 !! x).
  { intros x Hxd Hxn. rewrite Hheap. rewrite !lookup_insert_ne by congruence. reflexivity. }
  assert (Hh3n : heap s3 !! brk s = Some (f it1)).
  { rewrite Hheap. rewrite lookup_insert_ne by congruence. apply lookup_insert_eq. }
  assert (Hnd' : NoDup (nodes t')) by (rewrite Hnodes; apply NoDup_seq).
  split; [|split; [|split; [|split; [|split]]]].
  - eapply (wfTree_attach s2 T d t' di); [exact Hplus2 | exact Hdi2 | | | |];
      subst s2; cbn [heap brk root currentDir set_heap]; try assumption.
    rewrite Htop. exact Hheap.
  - destruct t as [p ks].
    apply mirror_inv in Hmirror
      as (p' & ks' & it & it' & -> & Hit & Hit' & Hk & _ & Hc & Hst & Hks).
    cbn [top] in Htop. subst p'. rewrite Hit1 in Hit'. injection Hit' as <-.
    exists it, (f it1). cbn [top kids]. destruct (Hf it1) as (Hfk & Hfc & Hfs & _).
    split; [exact Hit|]. split; [exact Hh3n|]. split; [congruence|]. split; [congruence|].
    split; [unfold stocked in *; rewrite Hfk, Hfc, Hfs; exact Hst|].
    pose proof (NoDup_nodes_kids _ _ Hnd') as [Htopnot _].
    assert (Hkid : forall k' x, k' ∈ ks' -> x ∈ nodes k' -> heap s3 !! x = heap s1 !! x).
    { intros k' x Hk' Hx.
      assert (Hxt : x ∈ nodes (Node (brk s) ks')) by (eapply nodes_kid; eauto).
      specialize (Hhigh x Hxt). specialize (Hlow d Hd).
      apply Hh3; [lia|]. intros ->. apply Htopnot. apply elem_of_flat_map. eauto. }
    clear -Hks Hkid. induction Hks as [|k k' ks ks' Hkk Hks IHks]; constructor.
    + eapply mirror_frame; [exact Hkk | auto |]. intros x Hx. eapply Hkid; [left | exact Hx].
    + apply IHks. intros k0 x Hk0. apply Hkid. right. exact Hk0.
  - eapply shape_same; [apply (wp_sub _ _ _ _ Hplus2)|].
    intros x Hx. subst s2. cbn [heap set_heap]. rewrite Hheap.
    specialize (Hhigh x Hx). specialize (Hlow d Hd).
    rewrite (lookup_insert_ne _ d) by lia. reflexivity.
  - intros q Hq Hqd. rewrite Hh3 by (first [exact Hqd | lia]). apply Hold. exact Hq.
  - intros q Hq Hqn. apply Hh3; [|exact Hqn].
    specialize (Hhigh q Hq). specialize (Hlow d Hd). lia.
  - exact Hh3n.
Qed.


(** [copyItem] fails by the disk-full error only. *)
Lemma copyItem_throws fuel : forall source newParent,
  hoare (fun _ => True) (copyItem fuel source newParent) (fun _ _ => True)
        (fun e _ => diskFull e).
Proof.
  induction fuel as [|fuel IH]; intros source newParent; cbn [copyItem]; [apply hoare_fail|].
  apply hoare_bind with (R := fun _ _ => True); [apply hoare_deref; auto|]. intros src.
  apply hoare_bind with
    (R := fun n s => exists it, heap s !! n = Some it /\ sectors it = []).
  { apply hoare_new. intros s _. eexists. cbn. rewrite lookup_insert_eq. eauto. }
  intros n. apply hoare_bind with (R := fun _ _ => True).
  { destruct (negb (isFolder src)); [|apply hoare_ret; auto].
    intros s (it & Hit & Hsec). destruct (saveToDisk (Some n) s) eqn:E; auto.
    eapply saveToDisk_new_throws; eauto. }
  intros ?. apply hoare_bind with (R := fun _ _ => True); [|intros ?; apply hoare_ret; auto].
  apply (hoare_forM (fun _ => True)). intros child _.
  eapply hoare_bind; [apply IH|]. intros newChild. apply hoare_update. auto.
Qed.

Lemma pure_Ok {A} (m : M A) s a s' : pure m -> m s = Ok a s' -> s' = s.
Proof. intros Hp H. specialize (Hp s). rewrite H in Hp. exact Hp. Qed.

(** A [cp] that fails has changed nothing, or the disk is full. *)
Lemma cp_Throw source dest s e s' :
  cp source dest s = Throw e s' -> diskFull e \/ s' = s.
Proof.
  intros H.
  assert (Hh : hoare (fun x => x = s) (cp source dest) (fun _ _ => True)
                     (fun e x => diskFull e \/ x = s)).
  { assert (Hcopy : forall fuel src d (k : ptr -> M unit),
              (forall n, hoare (fun _ => True) (k n) (fun _ _ => True) (fun e _ => diskFull e)) ->
              hoare (fun x => x = s) (let* newItem := copyItem fuel src (Some d) in k newItem)
                    (fun _ _ => True) (fun e x => diskFull e \/ x = s)).
    { intros fuel src d k Hk. apply hoare_bind with (R := fun _ _ => True).
      - eapply hoare_conseq; [apply copyItem_throws | intros; exact I | intros; exact I |].
        intros e0 x Hx. left. exact Hx.
      - intros n. eapply hoare_conseq; [apply Hk | intros; exact I | intros; exact I |].
        intros e0 x Hx. left. exact Hx. }
    unfold cp. hoare_pure_step. destruct a as [src|]; [|apply hoare_throw; auto].
    hoare_pure_step. hoare_pure_step.
    assert (Hname : forall destDirPath destName,
              hoare (fun x => x = s)
                (let* destDir := getDestDir destDirPath in
                 let* di := deref destDir in
                 rejectName (children di) destName
                   (runtime_error ("Destination already exists: " ++ destName)%string) ;;
                 let* fuel := depthBound in
                 let* newItem := copyItem fuel src (Some destDir) in
                 update newItem (set_name destName) ;;
                 push_back destDir newItem)
                (fun _ _ => True) (fun e x => diskFull e \/ x = s)).
    { intros destDirPath destName.
      hoare_pure_step. hoare_pure_step. hoare_pure_step. hoare_pure_step.
      apply Hcopy. intros n.
      apply hoare_bind with (R := fun _ _ => True); [apply hoare_update; auto|]. intros ?.
      apply hoare_update. auto. }
    destruct a as [d|], a0; try (destruct (splitDest dest) as [destDirPath destName]; apply Hname).
    hoare_pure_step. hoare_pure_step. hoare_pure_step. hoare_pure_step.
    apply Hcopy. intros n. apply hoare_update. auto. }
  specialize (Hh s eq_refl). rewrite H in Hh. exact Hh.
Qed.

(** What a [cp] that returns has done: the subtree [t] of the source has
    the copy [t'], on new addresses, below the directory [d]. *)
Record cpDone (s s' : FileSystem) (T : tree) (src d : ptr) (t t' : tree) : Prop := {
  cd_sub : subtree src T = Some t;
  cd_d : d ∈ nodes T;
  cd_ddir : isDir (heap s) d;
  cd_top : top t' = brk s;
  cd_nodes : nodes t' = seq (brk s) (length (nodes t));
  cd_brk : brk s' = (brk s + length (nodes t))%nat;
  cd_total : totalSectors s' = totalSectors s /\ length (sectorMap s') = length (sectorMap s);
  cd_shape : shape (heap s') (Some d) t';
  cd_mirror : mirrorTop (heap s) (heap s') t t';
  cd_old : forall p, (p < brk s)%nat -> p <> d -> heap s' !! p = heap s !! p;
  cd_dest : exists di, heap s !! d = Some di /\
                       heap s' !! d = Some (set_children (children di ++ [brk s]) di);
  cd_tree : wfTree s' (graft d t' T)
}.

Lemma copy_into fuel s T src t d n s1 :
  wfTree s T -> (forall p it, heap s !! p = Some it -> fitsInt (content it)) ->
  subtree src T = Some t -> d ∈ nodes T -> isDir (heap s) d ->
  copyItem fuel src (Some d) s = Ok n s1 ->
  exists t',
    forall s', push_back d n s1 = Ok tt s' \/
               (exists nm, (update n (set_name nm) ;; push_back d n) s1 = Ok tt s') ->
               cpDone s s' T src d t t'.
Proof.
  intros Hwf Hfits Hsub Hd Hdd Hcopy.
  destruct (subtree_shape _ _ _ _ _ (wf_shape s T Hwf) Hsub) as [par Hsh].
  pose proof (subtree_top _ _ _ Hsub) as Htop. rewrite <- Htop in Hcopy.
  destruct (copyItem_copied t fuel par (Some d) s n s1 Hsh (wf_brk s T Hwf)
              (fun x it _ Hit => Hfits x it Hit) Hcopy)
    as [-> [t' Hc]].
  exists t'. intros s' Hrun.
  destruct (copy_attach s T t par d s1 t' Hwf Hsh
              ltac:(intros x Hx; eapply subtree_nodes; eauto) Hd Hdd Hc)
    as (di & it1 & Hdi & Hdi1 & Hit1 & Hattach).
  assert (Hdn : d <> brk s).
  { pose proof (wf_brk s T Hwf d ltac:(eauto)). lia. }
  assert (Hdone : forall f, renames f ->
            heap s' = <[d := set_children (children di ++ [brk s]) di]>
                        (<[brk s := f it1]> (heap s1)) ->
            brk s' = brk s1 -> root s' = root s1 -> currentDir s' = currentDir s1 ->
            totalSectors s' = totalSectors s1 -> sectorMap s' = sectorMap s1 ->
            cpDone s s' T src d t t').
  { intros f Hf Hheap Hb Hr Hcur Ht Hm.
    destruct (Hattach f s' Hf Hheap Hb Hr Hcur) as (Htree & Hmir & Hshape & Hold & _ & _).
    constructor.
    - exact Hsub.
    - exact Hd.
    - exact Hdd.
    - apply (cp_top _ _ _ _ _ Hc).
    - apply (cp_nodes _ _ _ _ _ Hc).
    - rewrite Hb. apply (cp_brk _ _ _ _ _ Hc).
    - rewrite Ht, Hm. apply (cp_total _ _ _ _ _ Hc).
    - exact Hshape.
    - exact Hmir.
    - exact Hold.
    - exists di. split; [exact Hdi|]. rewrite Hheap. apply lookup_insert_eq.
    - exact Htree. }
  destruct Hrun as [Hrun | [nm Hrun]].
  - unfold push_back, update in Hrun. rewrite Hdi1 in Hrun. injection Hrun as <-.
    apply (Hdone (fun it => it) renames_id);
      cbn [heap brk root currentDir totalSectors sectorMap set_heap]; auto.
    rewrite (insert_id (heap s1) (brk s) it1 Hit1). reflexivity.
  - unfold bind, update in Hrun. rewrite Hit1 in Hrun.
    unfold push_back, update in Hrun. cbn [heap set_heap] in Hrun.
    rewrite lookup_insert_ne in Hrun by congruence. rewrite Hdi1 in Hrun.
    injection Hrun as <-.
    apply (Hdone (set_name nm) (renames_set_name nm));
      cbn [heap brk root currentDir totalSectors sectorMap set_heap]; auto.
Qed.

Lemma cp_done source dest s s' T :
  wfTree s T -> (forall p it, heap s !! p = Some it -> fitsInt (content it)) ->
  cp source dest s = Ok tt s' ->
  exists src d t t', getItem source s = Ok (Some src) s /\ cpDone s s' T src d t t'.
Proof.
  intros Hwf Hfits H. unfold cp in H.
  apply bind_Ok in H as (osrc & s1 & Esrc & H).
  pose proof (pure_Ok _ _ _ _ (pure_getItem source) Esrc). subst s1.
  destruct osrc as [src|]; [|discriminate].
  assert (Hsrc : src ∈ nodes T) by (eapply getItem_in; eauto).
  destruct (subtree_exists src T Hsrc) as [t Ht].
  apply bind_Ok in H as (destItem & s1 & Edst & H).
  pose proof (pure_Ok _ _ _ _ (pure_getItem dest) Edst). subst s1.
  apply bind_Ok in H as (intoFolder & s1 & Efol & H).
  pose proof (pure_Ok _ _ _ _ (pure_isExistingFolder destItem) Efol). subst s1.
  assert (Hname : forall destDirPath destName,
            (let* destDir := getDestDir destDirPath in
             let* di := deref destDir in
             rejectName (children di) destName
               (runtime_error ("Destination already exists: " ++ destName)%string) ;;
             let* fuel := depthBound in
             let* newItem := copyItem fuel src (Some destDir) in
             update newItem (set_name destName) ;;
             push_back destDir newItem) s = Ok tt s' ->
            exists src d t t', getItem source s = Ok (Some src) s /\ cpDone s s' T src d t t').
  { intros destDirPath destName H'.
    apply bind_Ok in H' as (d & s1 & Edir & H').
    destruct (getDestDir_in _ _ T _ _ Hwf Edir) as (-> & Hd & Hdd).
    apply bind_Ok in H' as (di & s1 & Edi & H'). apply deref_Ok in Edi as [_ ->].
    apply bind_Ok in H' as ([] & s1 & Erej & H').
    pose proof (pure_Ok _ _ _ _ (pure_rejectName _ _ _) Erej). subst s1.
    apply bind_Ok in H' as (fuel & s1 & Efuel & H'). injection Efuel as <- <-.
    apply bind_Ok in H' as (n & s1 & Ecopy & H').
    destruct (copy_into _ s T src t d n s1 Hwf Hfits Ht Hd Hdd Ecopy) as [t' Hdone].
    exists src, d, t, t'. split; [exact Esrc|]. apply Hdone. right. eauto. }
  destruct destItem as [d|]; [destruct intoFolder|];
    try (destruct (splitDest dest) as [destDirPath destName]; eapply Hname; exact H).
  assert (Hd : d ∈ nodes T) by (eapply getItem_in; eauto).
  assert (Hdd : isDir (heap s) d).
  { unfold isExistingFolder in Efol.
    apply bind_Ok in Efol as (it & s1 & H1 & H'). apply deref_Ok in H1 as [Hit ->].
    injection H' as H'. exists it. auto. }
  apply bind_Ok in H as (its & s1 & Eits & H). apply deref_Ok in Eits as [_ ->].
  apply bind_Ok in H as (di & s1 & Edi & H). apply deref_Ok in Edi as [_ ->].
  apply bind_Ok in H as ([] & s1 & Erej & H).
  pose proof (pure_Ok _ _ _ _ (pure_rejectName _ _ _) Erej). subst s1.
  apply bind_Ok in H as (fuel & s1 & Efuel & H). injection Efuel as <- <-.
  apply bind_Ok in H as (n & s1 & Ecopy & H).
  destruct (copy_into _ s T src t d n s1 Hwf Hfits Ht Hd Hdd Ecopy) as [t' Hdone].
  exists src, d, t, t'. split; [exact Esrc|]. apply Hdone. left. exact H.
Qed.

Lemma hasTree_cp source dest s :
  hasTree s -> (forall p it, heap s !! p = Some it -> fitsInt (content it)) ->
  keepsUnless diskFull hasTree (cp source dest s).
Proof.
  intros [T Hwf] Hfits. destruct (cp source dest s) as [[] s'|e s'|] eqn:E; cbn [keepsUnless].
  - destruct (cp_done source dest s s' T Hwf Hfits E) as (src & d & t & t' & _ & Hdone).
    exists (graft d t' T). apply (cd_tree _ _ _ _ _ _ _ Hdone).
  - intros Hno. destruct (cp_Throw _ _ _ _ _ E) as [Hfull | ->]; [contradiction|].
    exists T. exact Hwf.
  - exact I.
Qed.


(** * Contents that fit

    [fitsAll]: the bitmap has [totalSectors] entries and every content
    fits an [int].  Every operation keeps it, also when it fails. *)
Definition fitsAll (s : FileSystem) : Prop :=
  mapOk s /\ forall p it, heap s !! p = Some it -> fitsInt (content it).

Definition keepsContent (f : Item -> Item) : Prop :=
  forall it, content (f it) = content it.

Lemma keepsData_keepsContent f : keepsData f -> keepsContent f.
Proof. intros H it. apply H. Qed.

Lemma fitsAll_update p f E :
  keepsContent f -> hoare fitsAll (update p f) (fun _ => fitsAll) E.
Proof.
  intros Hf. apply hoare_update. intros s it [Hm Hs] Hit. split; [exact Hm|].
  intros q itq. cbn. rewrite lookup_insert. case_decide.
  - intros [= <-]. rewrite Hf. eauto.
  - apply Hs.
Qed.

Lemma fitsAll_new it E :
  fitsInt (content it) -> hoare fitsAll (new it) (fun _ => fitsAll) E.
Proof.
  intros Hit. apply hoare_new. intros s [Hm Hs]. split; [exact Hm|].
  intros q itq. cbn. rewrite lookup_insert. case_decide.
  - intros [= <-]. exact Hit.
  - apply Hs.
Qed.

Lemma fitsAll_delete p E : hoare fitsAll (delete_ p) (fun _ => fitsAll) E.
Proof.
  apply hoare_delete. intros s it [Hm Hs] _. split; [exact Hm|].
  intros q itq Hq. cbn in Hq. apply lookup_delete_Some in Hq as [_ Hq]. eauto.
Qed.

Lemma fitsAll_mark s i b : fitsAll s -> fitsAll (set_sectorMap (<[i := b]> (sectorMap s)) s).
Proof.
  intros [Hm Hs]. split; [|exact Hs]. unfold mapOk in *. cbn. rewrite length_insert. exact Hm.
Qed.

Lemma fitsAll_freeSector x : hoare fitsAll (freeSector x) (fun _ => fitsAll) (fun _ => fitsAll).
Proof.
  intros s Hs. unfold freeSector.
  destruct ((x <? 0) || (Z.of_nat (length (sectorMap s)) <=? x)); [exact Hs|].
  apply fitsAll_mark. exact Hs.
Qed.

Lemma fitsAll_allocateSector :
  hoare fitsAll allocateSector (fun _ => fitsAll) (fun _ => fitsAll).
Proof.
  intros s Hs. unfold allocateSector. destruct (firstFree 0 (sectorMap s)); [|exact Hs].
  apply fitsAll_mark. exact Hs.
Qed.

Lemma fitsAll_markSector x E : hoare fitsAll (markSector x) (fun _ => fitsAll) E.
Proof.
  intros s Hs. unfold markSector.
  destruct (Z.of_nat (length (sectorMap s)) <=? x); [exact I|].
  apply fitsAll_mark. exact Hs.
Qed.

Lemma fitsAll_writeSlot x c E : hoare fitsAll (writeSlot x c) (fun _ => fitsAll) E.
Proof. apply hoare_modify. intros s [Hm Hs]. split; assumption. Qed.

Lemma keepsContent_set_sectors l : keepsContent (set_sectors l).
Proof. intros it. reflexivity. Qed.

Lemma keepsContent_push_sector x : keepsContent (fun it => set_sectors (sectors it ++ [x]) it).
Proof. intros it. reflexivity. Qed.

Lemma fitsAll_push p c E : hoare fitsAll (push_back p c) (fun _ => fitsAll) E.
Proof. apply fitsAll_update. intros it. reflexivity. Qed.

Lemma fitsAll_erase p c E : hoare fitsAll (eraseChild p c) (fun _ => fitsAll) E.
Proof. apply fitsAll_update. intros it. reflexivity. Qed.

Create HintDb fitsAll.
#[export] Hint Resolve fitsAll_update fitsAll_delete fitsAll_freeSector fitsAll_allocateSector
  fitsAll_markSector fitsAll_writeSlot fitsAll_push fitsAll_erase
  keepsContent_set_sectors keepsContent_push_sector keepsData_keepsContent : fitsAll.

(** The steps of a proof that a piece of code keeps [fitsAll]. *)
Ltac fits_step :=
  first
    [ apply hoare_ret; solve [auto]
    | apply hoare_throw; solve [auto]
    | apply hoare_fail
    | solve [auto with fitsAll]
    | apply fitsAll_new; solve [apply fitsInt_nil | assumption]
    | apply hoare_forM; intros ? _
    | apply (hoare_foldM (fun _ => fitsAll)); intros ? ? _
    | apply hoare_pure_any; [solve [pure_tac] | solve [auto]]
    | apply hoare_bind with (R := fun _ => fitsAll); [|intros ?]
    | match goal with
      | |- hoare _ (if ?b then _ else _) _ _ => destruct b
      | |- hoare _ (match ?x with Some _ => _ | None => _ end) _ _ => destruct x
      | |- hoare _ (let (_, _) := ?x in _) _ _ => destruct x
      end ].

Ltac fits_tac := repeat fits_step.

Lemma fitsAll_saveLoop fuel : forall file data pos,
  hoare fitsAll (saveLoop fuel file data pos) (fun _ => fitsAll) (fun _ => fitsAll).
Proof.
  induction fuel as [|fuel IH]; intros file data pos; cbn [saveLoop];
    (destruct (to_size_t pos <? Z.of_nat (length data)); [|apply hoare_ret; auto]).
  - apply hoare_fail.
  - fits_tac.
Qed.

Lemma fitsAll_saveToDisk file :
  hoare fitsAll (saveToDisk file) (fun _ => fitsAll) (fun _ => fitsAll).
Proof.
  destruct file as [f|]; cbn [saveToDisk]; [|apply hoare_ret; auto].
  fits_tac; apply fitsAll_saveLoop.
Qed.

Lemma fitsAll_freeSectorsRecursive fuel : forall item,
  hoare fitsAll (freeSectorsRecursive fuel item) (fun _ => fitsAll) (fun _ => fitsAll).
Proof.
  induction fuel as [|fuel IH]; intros [i|]; cbn [freeSectorsRecursive]; fits_tac.
Qed.

Lemma fitsAll_deleteTree fuel : forall node,
  hoare fitsAll (deleteTree fuel node) (fun _ => fitsAll) (fun _ => fitsAll).
Proof.
  induction fuel as [|fuel IH]; intros [n|]; cbn [deleteTree]; fits_tac;
    apply fitsAll_freeSectorsRecursive.
Qed.

Lemma fitsAll_copyItem fuel : forall source newParent,
  hoare fitsAll (copyItem fuel source newParent) (fun _ => fitsAll) (fun _ => fitsAll).
Proof.
  induction fuel as [|fuel IH]; intros source newParent; cbn [copyItem]; [apply hoare_fail|].
  apply hoare_bind with (R := fun src s => fitsAll s /\ fitsInt (content src)).
  { apply hoare_deref. intros s it Hs Hit. split; [exact Hs|]. eapply (proj2 Hs); eauto. }
  intros src. apply hoare_bind with (R := fun _ => fitsAll).
  { intros s [Hs Hfit]. apply (fitsAll_new _ (fun _ => fitsAll)); assumption. }
  intros newItem. apply hoare_bind with (R := fun _ => fitsAll).
  { destruct (negb (isFolder src)); [apply fitsAll_saveToDisk | apply hoare_ret; auto]. }
  intros ?. fits_tac.
Qed.

Lemma fitsAll_defragLoop fuel : forall file data pos next,
  hoare fitsAll (defragLoop fuel file data pos next) (fun _ => fitsAll) (fun _ => fitsAll).
Proof.
  induction fuel as [|fuel IH]; intros file data pos next; cbn [defragLoop];
    (destruct (to_size_t pos <? Z.of_nat (length data)); [|apply hoare_ret; auto]).
  - apply hoare_fail.
  - fits_tac.
Qed.

#[export] Hint Resolve fitsAll_saveToDisk fitsAll_deleteTree fitsAll_copyItem
  fitsAll_defragLoop : fitsAll.

Lemma fitsAll_mkdirStep current part :
  hoare fitsAll (mkdirStep current part) (fun _ => fitsAll) (fun _ => fitsAll).
Proof. unfold mkdirStep. fits_tac. Qed.

Lemma fitsAll_defragFile next file :
  hoare fitsAll (defragFile next file) (fun _ => fitsAll) (fun _ => fitsAll).
Proof. unfold defragFile. fits_tac. Qed.

Lemma fitsAll_detach src : hoare fitsAll (detach src) (fun _ => fitsAll) (fun _ => fitsAll).
Proof. unfold detach. fits_tac. Qed.

#[export] Hint Resolve fitsAll_mkdirStep fitsAll_defragFile fitsAll_detach : fitsAll.

Lemma fitsAll_exec o :
  fits o -> hoare fitsAll (exec o) (fun _ => fitsAll) (fun _ => fitsAll).
Proof.
  destruct o; intros Hfit; cbn [exec].
  - apply hoare_pure_any; [apply pure_pwd | auto].
  - unfold cd. fits_tac. apply hoare_modify. intros s [Hm Hs]. split; assumption.
  - apply hoare_pure_any; [apply pure_ls | auto].
  - unfold mkdir. fits_tac.
  - unfold touch. fits_tac.
  - unfold rm. fits_tac.
  - unfold cp. fits_tac.
  - unfold mv. fits_tac.
  - apply hoare_pure_any; [apply pure_get | auto].
  - unfold put. destruct file as [bytes|]; [|apply hoare_throw; auto]. cbv zeta.
    simpl in Hfit. fits_tac.
  - apply hoare_pure_any; [apply pure_info | auto].
  - unfold defrag. fits_tac.
    apply hoare_modify. intros s [Hm Hs]. split; [|exact Hs].
    unfold mapOk in *. cbn. rewrite length_map. exact Hm.
Qed.

Lemma fitsAll_init capacity : 0 < capacity -> fitsAll (init capacity).
Proof.
  intros Hcap. split.
  - unfold mapOk. cbn. rewrite length_replicate. lia.
  - intros p it. cbn. rewrite lookup_singleton. case_decide; [|discriminate].
    intros [= <-]. apply fitsInt_nil.
Qed.


(** * Defragmentation keeps the bookkeeping *)

Lemma NoDup_flat_map_elem {A B} (f : A -> list B) (l : list A) x :
  NoDup (flat_map f l) -> x ∈ l -> NoDup (f x).
Proof.
  induction l as [|a l IH]; intros Hnd Hx; [inversion Hx|].
  cbn [flat_map] in Hnd. apply NoDup_app in Hnd as (H1 & _ & H2).
  apply elem_of_cons in Hx as [-> | Hx]; auto.
Qed.

Lemma NoDup_flat_map_inj {A B} (f : A -> list B) (l : list A) x y i :
  NoDup (flat_map f l) -> x ∈ l -> y ∈ l -> i ∈ f x -> i ∈ f y -> x = y.
Proof.
  induction l as [|a l IH]; intros Hnd Hx Hy Hix Hiy; [inversion Hx|].
  cbn [flat_map] in Hnd. apply NoDup_app in Hnd as (H1 & Hdisj & H2).
  apply elem_of_cons in Hx as [-> | Hx]; apply elem_of_cons in Hy as [-> | Hy].
  - reflexivity.
  - exfalso. apply (Hdisj i Hix). apply elem_of_flat_map. eauto.
  - exfalso. apply (Hdisj i Hiy). apply elem_of_flat_map. eauto.
  - auto.
Qed.

Lemma wf_defrag s : wf s -> fitsAll s -> keepsUnless diskFull wf (defrag s).
Proof.
  intros [[T Hwf] [Ho Hb]] [Hm Hitems].
  pose proof (wfTree_defrag s T Hwf) as Htree.
  assert (Hlow : forall p, p ∈ nodes T -> (p < brk s)%nat).
  { intros p Hp. apply (wf_brk s T Hwf). eapply wfTree_live; eauto. }
  pose proof (defrag_laid s T (wf_shape s T Hwf) (wf_top s T Hwf) (wf_nodup s T Hwf)
                Hlow Hm Hitems) as Hlaid.
  destruct (defrag s) as [[] s'|e s'|]; cbn [keepsUnless]; [|intros Hno|exact I].
  2:{ exfalso. apply Hno. right. exact Hlaid. }
  destruct Hlaid as [next Hlaid].
  split; [exists T; exact Htree|]. split; [|apply (wf_brk s' T Htree)].
  set (files := filesBelow (heap s) T) in *.
  destruct Hlaid as [Hnext Hbound Hm1 Htot Hrest Hmap Hdisk Hother Hdone Hids].
  cbn [heap set_sectorMap] in Hother, Hdone.
  assert (Hnd : NoDup (flat_map (sectorsAt (heap s')) files)).
  { rewrite Hids. apply NoDup_seqZ. }
  assert (Hfile : forall p it, heap s' !! p = Some it -> p ∈ files ->
                               isFolder it = false /\ sectors it = sectorsAt (heap s') p).
  { intros p it Hp Hin. destruct (Hdone p Hin) as (it0 & _ & Hk & Hp' & _).
    rewrite Hp in Hp'. injection Hp' as ->. auto. }
  assert (Hrest' : forall p it, heap s' !! p = Some it -> p ∉ files ->
                                heap s !! p = Some it /\ isFolder it = true).
  { intros p it Hp Hout. rewrite Hother in Hp by exact Hout. split; [exact Hp|].
    destruct (isFolder it) eqn:Hk; [reflexivity|]. exfalso. apply Hout.
    eapply filesBelow_complete;
      [apply (wf_leaves s T Hwf) | apply (wf_shape s T Hwf) | | | exact Hp | exact Hk].
    - apply (wf_dom s T Hwf). eauto.
    - rewrite (wf_top s T Hwf). intros ->.
      destruct (wf_rootdir s T Hwf) as (ri & Hri & Hrk). congruence. }
  assert (Hin : forall p it i, heap s' !! p = Some it -> i ∈ sectors it ->
                               p ∈ files /\ i ∈ sectorsAt (heap s') p).
  { intros p it i Hp Hi. destruct (decide (p ∈ files)) as [Hpf|Hpf].
    - split; [exact Hpf|]. destruct (Hfile p it Hp Hpf) as [_ <-]. exact Hi.
    - destruct (Hrest' p it Hp Hpf) as [Hp0 Hk].
      rewrite (own_dirs _ _ Ho p it Hp0 Hk) in Hi. apply elem_of_nil in Hi. contradiction. }
  constructor.
  - intros p it i Hp Hi. destruct (Hin p it i Hp Hi) as [Hpf Hi'].
    assert (Hrange : 0 <= i < next).
    { apply elem_of_seqZ_0. rewrite <- Hids. apply elem_of_flat_map. eauto. }
    split; [lia|]. unfold mapOk in Hm1.
    rewrite Hmap by lia. rewrite bool_decide_eq_true_2 by lia. reflexivity.
  - intros n Hn. pose proof (lookup_lt_Some _ _ _ Hn) as Hlt.
    rewrite Hmap in Hn by exact Hlt. injection Hn as Hn.
    apply bool_decide_eq_true_1 in Hn.
    assert (Hmem : Z.of_nat n ∈ flat_map (sectorsAt (heap s')) files).
    { rewrite Hids. apply elem_of_seqZ. lia. }
    apply elem_of_flat_map in Hmem as (p & Hp & Hi).
    destruct (Hdone p Hp) as (it0 & _ & _ & Hp' & _).
    eexists p, _. split; [exact Hp'|]. exact Hi.
  - intros p it Hp. destruct (decide (p ∈ files)) as [Hpf|Hpf].
    + destruct (Hfile p it Hp Hpf) as [_ ->]. eapply NoDup_flat_map_elem; eauto.
    + destruct (Hrest' p it Hp Hpf) as [Hp0 Hk].
      rewrite (own_dirs _ _ Ho p it Hp0 Hk). constructor.
  - intros p q ip iq i Hp Hq Hi1 Hi2.
    destruct (Hin p ip i Hp Hi1) as [Hpf Hi1']. destruct (Hin q iq i Hq Hi2) as [Hqf Hi2'].
    eapply NoDup_flat_map_inj; eauto.
  - intros p it Hp Hk. destruct (decide (p ∈ files)) as [Hpf|Hpf].
    + destruct (Hfile p it Hp Hpf) as [Hk' _]. congruence.
    + destruct (Hrest' p it Hp Hpf) as [Hp0 _]. eapply own_dirs; eauto.
Qed.


(** * The invariant over a session *)

Lemma keeps_both {A} X (P Q : FileSystem -> Prop) (r : result A) :
  keepsUnless X P r ->
  match r with Ok _ s' => Q s' | Throw _ s' => Q s' | Fault _ => True end ->
  keepsUnless X (fun s => P s /\ Q s) r.
Proof. destruct r; cbn; auto. Qed.

Lemma keeps_pure {A} X (P : FileSystem -> Prop) (m : M A) s :
  pure m -> P s -> keepsUnless X P (m s).
Proof.
  intros Hp Hs. specialize (Hp s). destruct (m s); cbn; auto; subst; auto.
Qed.

Lemma keeps_weaken {A} (X X' : exn -> Prop) (P : FileSystem -> Prop) (r : result A) :
  (forall e, X e -> X' e) -> keepsUnless X P r -> keepsUnless X' P r.
Proof. intros HX. destruct r; cbn; auto. Qed.

(** Every operation keeps the tree and the sector bookkeeping, unless it
    is a [cp] or a [defrag] that reports the disk-full error, or a [mv] of
    a directory into itself. *)
Lemma wf_exec o s :
  wf s -> fitsAll s -> ~ movesIntoItself o s -> keepsUnless (lost o) wf (exec o s).
Proof.
  intros Hwf Hfits Hnot. pose proof Hwf as [Ht Hs].
  assert (Hnone : forall e, nothing e -> lost o e) by (intros e []).
  destruct o; cbn [exec].
  - apply keeps_pure; [apply pure_pwd | exact Hwf].
  - apply (keeps_weaken nothing); [exact Hnone|].
    apply keeps_both; [apply hasTree_cd; exact Ht | apply sectorsOk_cd; exact Hs].
  - apply keeps_pure; [apply pure_ls | exact Hwf].
  - apply (keeps_weaken nothing); [exact Hnone|].
    apply keeps_both; [apply hasTree_mkdir; exact Ht | apply sectorsOk_mkdir; exact Hs].
  - apply (keeps_weaken nothing); [exact Hnone|].
    apply keeps_both; [apply hasTree_touch; exact Ht | apply sectorsOk_touch; exact Hs].
  - apply (keeps_weaken nothing); [exact Hnone|]. apply wf_rm. exact Hwf.
  - apply (keeps_weaken diskFull); [intros e He; split; [reflexivity | exact He]|].
    apply keeps_both; [apply hasTree_cp; [exact Ht | apply Hfits] | apply sectorsOk_cp; exact Hs].
  - apply (keeps_weaken nothing); [exact Hnone|].
    apply keeps_both; [apply hasTree_mv; assumption | apply sectorsOk_mv; exact Hs].
  - apply keeps_pure; [apply pure_get | exact Hwf].
  - apply (keeps_weaken nothing); [exact Hnone|].
    apply keeps_both; [apply hasTree_put; exact Ht | apply sectorsOk_put; exact Hs].
  - apply keeps_pure; [apply pure_info | exact Hwf].
  - apply (keeps_weaken diskFull); [intros e He; split; [reflexivity | exact He]|].
    apply wf_defrag; assumption.
Qed.

Lemma wf_init capacity : wf (init capacity).
Proof.
  split.
  - exists (Node 0%nat []). constructor; unfold brkOk, isDir, filesAreLeaves; cbn.
    + reflexivity.
    + eapply shape_node; [apply lookup_singleton_eq | reflexivity | reflexivity | constructor].
    + apply NoDup_singleton.
    + intros p [it Hp]. apply lookup_singleton_Some in Hp as [<- _]. left.
    + intros p [it Hp]. apply lookup_singleton_Some in Hp as [<- _]. lia.
    + left.
    + eexists. split; [apply lookup_singleton_eq | reflexivity].
    + eexists. split; [apply lookup_singleton_eq | reflexivity].
    + intros p it Hp. apply lookup_singleton_Some in Hp as [_ <-]. discriminate.
  - split; [|intros p [it Hp]; cbn in *; apply lookup_singleton_Some in Hp as [<- _]; lia].
    constructor; cbn.
    + intros p it i Hp Hi. apply lookup_singleton_Some in Hp as [_ <-].
      apply elem_of_nil in Hi. contradiction.
    + intros n Hn. apply lookup_replicate in Hn as [Hn _]. discriminate.
    + intros p it Hp. apply lookup_singleton_Some in Hp as [_ <-]. constructor.
    + intros p q ip iq i Hp Hq. apply lookup_singleton_Some in Hp as [<- _].
      apply lookup_singleton_Some in Hq as [<- _]. reflexivity.
    + intros p it Hp _. apply lookup_singleton_Some in Hp as [_ <-]. reflexivity.
Qed.

Lemma fitsAll_reachable s : reachableSafely s -> fitsAll s.
Proof.
  induction 1 as [capacity Hcap | s o e s' _ IH Hfit Hret _ _].
  - apply fitsAll_init. exact Hcap.
  - pose proof (fitsAll_exec o Hfit s IH) as H.
    destruct e as [x|]; simpl in Hret.
    + destruct Hret as [_ Hret]. rewrite Hret in H. exact H.
    + rewrite Hret in H. exact H.
Qed.

Lemma wf_reachable s : reachableSafely s -> wf s.
Proof.
  induction 1 as [capacity Hcap | s o e s' Hreach IH Hfit Hret Hno Hmv].
  - apply wf_init.
  - pose proof (wf_exec o s IH (fitsAll_reachable s Hreach) Hmv) as H.
    destruct e as [x|]; simpl in Hret.
    + destruct Hret as [_ Hret]. rewrite Hret in H. apply H. apply Hno. reflexivity.
    + rewrite Hret in H. exact H.
Qed.

(** C1, amended.  In every state reached by calls that have returned,
    none of which was a [cp] or a [defrag] that reported the disk-full
    error or a [mv] with its destination directory inside its source
    (a [put] that reported the disk-full error is allowed): every sector id below
    [totalSectors] has an entry in the bitmap, and the entry is [true] if
    and only if exactly one file that is reached from the root lists the
    id in its [sectors]; and no item lists an id twice. *)
Theorem sectors_owned_by_one_file (s : FileSystem) (i : Z) :
  reachableSafely s -> 0 <= i < totalSectors s ->
  (exists b, sectorMap s !! Z.to_nat i = Some b) /\
  (sectorMap s !! Z.to_nat i = Some true <->
   exists p, ownedBy s i p /\ forall q, ownedBy s i q -> q = p) /\
  (forall p it, heap s !! p = Some it -> NoDup (sectors it)).
Proof.
  intros Hreach Hi.
  destruct (wf_reachable s Hreach) as [[T Hwf] [Ho Hb]].
  destruct (fitsAll_reachable s Hreach) as [Hm _].
  split; [|split].
  - apply lookup_lt_is_Some. unfold mapOk in Hm. lia.
  - split.
    + intros Hmark. destruct (own_owned _ _ Ho _ Hmark) as (p & it & Hp & Hin).
      rewrite Z2Nat.id in Hin by lia.
      exists p. split.
      * split.
        -- rewrite <- (wf_top s T Hwf).
           eapply shape_linked; [apply (wf_shape s T Hwf)|]. apply (wf_dom s T Hwf). eauto.
        -- exists it. split; [exact Hp|]. split; [|exact Hin].
           destruct (isFolder it) eqn:Hk; [|reflexivity].
           rewrite (own_dirs _ _ Ho p it Hp Hk) in Hin. apply elem_of_nil in Hin. contradiction.
      * intros q (_ & itq & Hq & _ & Hinq). eapply own_excl; eauto.
    + intros (p & (_ & it & Hp & _ & Hin) & _).
      apply (own_marked _ _ Ho p it i Hp Hin).
  - intros p it Hp. eapply own_nodup; eauto.
Qed.

(** The state after [put f] of a 128-byte file and [cp f g] on a disk of
    three sectors: the copy has claimed sector 2 when [cp] reports that no
    sector is free, and it is in no directory. *)
Definition orphanState : FileSystem :=
  mkFS [replicate 64 x41; replicate 64 x41; replicate 64 x41] [true; true; true]
       (<[2%nat := mkItem false "f" (replicate 128 x41) [2] [] (Some 0%nat)]>
          (<[1%nat := mkItem false "f" (replicate 128 x41) [0; 1] [] (Some 0%nat)]>
             {[ 0%nat := mkItem true "/" [] [] [1%nat] None ]}))
       3%nat 0%nat 0%nat 3.

(** The state after the [put]. *)
Definition oneBigFileState : FileSystem :=
  mkFS [replicate 64 x41; replicate 64 x41; []] [true; true; false]
       (<[1%nat := mkItem false "f" (replicate 128 x41) [0; 1] [] (Some 0%nat)]>
          {[ 0%nat := mkItem true "/" [] [] [1%nat] None ]})
       2%nat 0%nat 0%nat 3.

Example oneBigFileState_reached :
  put "f" (Some (replicate 128 x41)) "." (init 3) = Ok tt oneBigFileState.
Proof. vm_compute. reflexivity. Qed.

Example orphanState_reached :
  cp "f" "g" oneBigFileState = Throw (runtime_error "No free sectors available") orphanState.
Proof. vm_compute. reflexivity. Qed.

Lemma orphanState_reachable : reachable orphanState.
Proof.
  apply (reachable_step oneBigFileState (Cp "f" "g")
                        (Some (runtime_error "No free sectors available"))).
  - apply (reachable_step (init 3) (Put "f" (Some (replicate 128 x41)) ".") None).
    + apply reachable_init. lia.
    + unfold fits, fitsInt, INT_MAX. vm_compute. discriminate.
    + exact oneBigFileState_reached.
  - exact I.
  - split; [reflexivity | exact orphanState_reached].
Qed.

(** C1 as stated fails: after a [cp] that has returned with the disk-full
    error, sector 2 is marked allocated and no file reached from the root
    lists it. *)
Lemma orphan_sector_after_cp_disk_full :
  reachable orphanState /\
  0 <= 2 < totalSectors orphanState /\
  sectorMap orphanState !! Z.to_nat 2 = Some true /\
  ~ exists p, ownedBy orphanState 2 p.
Proof.
  split; [exact orphanState_reachable|]. split; [cbn; lia|]. split; [reflexivity|].
  intros (p & Hl & it & Hp & Hk & Hin).
  assert (Hp01 : p = 0%nat \/ p = 1%nat).
  { clear it Hp Hk Hin. cbn [root orphanState] in Hl.
    induction Hl as [|x it c Hx IH Hit Hc]; [left; reflexivity|].
    cbn [heap orphanState] in Hit. destruct IH as [-> | ->].
    - rewrite lookup_insert_ne in Hit by discriminate.
      rewrite lookup_insert_ne in Hit by discriminate.
      rewrite lookup_singleton_eq in Hit. injection Hit as <-.
      cbn in Hc. apply list_elem_of_singleton in Hc. right. exact Hc.
    - rewrite lookup_insert_ne in Hit by discriminate.
      rewrite lookup_insert_eq in Hit. injection Hit as <-.
      cbn in Hc. apply elem_of_nil in Hc. contradiction. }
  cbn [heap orphanState] in Hp. destruct Hp01 as [-> | ->].
  - rewrite lookup_insert_ne in Hp by discriminate.
    rewrite lookup_insert_ne in Hp by discriminate.
    rewrite lookup_singleton_eq in Hp. injection Hp as <-. discriminate.
  - rewrite lookup_insert_ne in Hp by discriminate.
    rewrite lookup_insert_eq in Hp. injection Hp as <-.
    cbn in Hin. apply elem_of_cons in Hin as [Hin | Hin]; [discriminate|].
    apply list_elem_of_singleton in Hin. discriminate.
Qed.

Lemma oneFileState_reachableSafely : reachableSafely oneFileState.
Proof.
  apply (reachableS_step (init 4) (Put "f" (Some (replicate 70 x41)) ".") None).
  - apply reachableS_init. lia.
  - unfold fits, fitsInt, INT_MAX. vm_compute. discriminate.
  - vm_compute. reflexivity.
  - discriminate.
  - intros H. exact H.
Qed.

Lemma sectors_owned_by_one_file_witness :
  (exists b, sectorMap oneFileState !! Z.to_nat 1 = Some b) /\
  (sectorMap oneFileState !! Z.to_nat 1 = Some true <->
   exists p, ownedBy oneFileState 1 p /\ forall q, ownedBy oneFileState 1 q -> q = p) /\
  (forall p it, heap oneFileState !! p = Some it -> NoDup (sectors it)).
Proof.
  apply (sectors_owned_by_one_file oneFileState 1).
  - exact oneFileState_reachableSafely.
  - cbn. lia.
Defined.


(** * Independence of the stored contents *)

(** [protects g ig s0 s]: the item at [g] is [ig], its sectors are marked
    and their slots read as in [s0]. *)
Definition protects (g : ptr) (ig : Item) (s0 s : FileSystem) : Prop :=
  heap s !! g = Some ig /\
  forall i, i ∈ sectors ig ->
            0 <= i /\ sectorMap s !! Z.to_nat i = Some true /\
            default [] (disk s !! Z.to_nat i) = default [] (disk s0 !! Z.to_nat i).

Lemma growDisk_default sector (d : list (list byte)) (j : nat) :
  default [] (growDisk sector d !! j) = default [] (d !! j).
Proof.
  unfold growDisk. destruct (decide (j < length d)%nat) as [Hlt|Hge].
  - rewrite lookup_app_l by exact Hlt. reflexivity.
  - rewrite lookup_app_r by lia. rewrite (lookup_ge_None_2 d j) by lia.
    destruct (replicate _ _ !! _) as [x|] eqn:E; [|reflexivity].
    apply lookup_replicate in E as [-> _]. reflexivity.
Qed.

Lemma protects_saveLoop g ig s0 fuel : forall file data pos,
  file <> g ->
  hoare (protects g ig s0) (saveLoop fuel file data pos)
        (fun _ => protects g ig s0) (fun _ => protects g ig s0).
Proof.
  induction fuel as [|fuel IH]; intros file data pos Hne s Hs; cbn [saveLoop];
    (destruct (to_size_t pos <? Z.of_nat (length data)); [|exact Hs]); [exact I|].
  unfold bind at 1. destruct (allocateSector s) as [j s1| |] eqn:Ea.
  - apply allocateSector_Ok in Ea as [Hfree ->].
    apply firstFree_Some in Hfree as (Hj0 & Hfalse & _). rewrite Z.sub_0_r in Hfalse.
    unfold bind at 1, update. cbn [heap set_sectorMap].
    destruct (heap s !! file) as [it|] eqn:Hit; [|exact I].
    unfold bind at 1, writeSlot, modify.
    apply IH; [exact Hne|]. destruct Hs as [Hg Hsec]. split.
    + cbn. rewrite lookup_insert_ne by exact Hne. exact Hg.
    + intros i Hi. destruct (Hsec i Hi) as (Hi0 & Hmark & Hslot).
      assert (Hij : Z.to_nat j <> Z.to_nat i) by (intros Heq; congruence).
      split; [exact Hi0|]. cbn [disk sectorMap heap set_disk set_heap set_sectorMap]. split.
      * rewrite list_lookup_insert_ne by exact Hij. exact Hmark.
      * rewrite list_lookup_insert_ne by exact Hij. rewrite growDisk_default. exact Hslot.
  - apply allocateSector_Throw in Ea as (_ & _ & ->). exact Hs.
  - exact I.
Qed.

Lemma protects_saveToDisk g ig s0 f :
  f <> g ->
  hoare (fun s => protects g ig s0 s /\ owns (heap s) (sectorMap s)) (saveToDisk (Some f))
        (fun _ => protects g ig s0) (fun _ => protects g ig s0).
Proof.
  intros Hne s [[Hg Hsec] Ho]. cbn [saveToDisk].
  unfold bind at 1, deref. destruct (heap s !! f) as [it|] eqn:Hit; [|exact I].
  destruct (isFolder it) eqn:Hkind; [split; assumption|].
  unfold bind at 1. rewrite freeAll_valid by (eapply owns_valid; eauto).
  unfold bind at 1, update. cbn [heap set_sectorMap]. rewrite Hit.
  apply protects_saveLoop; [exact Hne|]. split.
  - cbn. rewrite lookup_insert_ne by exact Hne. exact Hg.
  - intros i Hi. destruct (Hsec i Hi) as (Hi0 & Hmark & Hslot).
    split; [exact Hi0|]. cbn. split; [|exact Hslot].
    rewrite clearAll_other; [exact Hmark|].
    intros x Hx Heq. apply Hne.
    destruct (own_marked _ _ Ho f it x Hit Hx) as [Hx0 _].
    assert (x = i) by lia. subst x. eapply own_excl; eauto.
Qed.

Lemma protects_readBack g ig s0 s :
  protects g ig s0 s -> readBack (disk s) (sectors ig) = readBack (disk s0) (sectors ig).
Proof.
  intros [_ Hsec]. unfold readBack. f_equal.
  induction (sectors ig) as [|i l IH]; [reflexivity|]. cbn [map]. f_equal.
  - apply (Hsec i). left.
  - apply IH. intros j Hj. apply Hsec. right. exact Hj.
Qed.

(** Rewriting [f] leaves [g] alone: the item, the marks of its sectors
    and what its sectors read back; and the rewriting returns, normally or
    by an exception, when the new content fits an [int]. *)
Definition independent (s : FileSystem) (f g : ptr) : Prop :=
  forall data ig,
    heap s !! g = Some ig ->
    (fitsInt data -> is_Some (heap s !! f) -> forall x, rewriteContent f data s <> Fault x) /\
    match rewriteContent f data s with
    | Ok _ s' | Throw _ s' =>
        heap s' !! g = Some ig /\
        (forall i, i ∈ sectors ig -> sectorMap s' !! Z.to_nat i = Some true) /\
        readBack (disk s') (sectors ig) = readBack (disk s) (sectors ig)
    | Fault _ => True
    end.

Lemma rewriteContent_returns s f data :
  owns (heap s) (sectorMap s) -> fitsInt data -> is_Some (heap s !! f) ->
  forall x, rewriteContent f data s <> Fault x.
Proof.
  intros Ho Hfit [it Hit] x. unfold rewriteContent, bind at 1, update. rewrite Hit.
  set (s1 := set_heap (<[f := set_content data it]> (heap s)) s).
  assert (Hit1 : heap s1 !! f = Some (set_content data it)).
  { subst s1. cbn. apply lookup_insert_eq. }
  destruct (isFolder it) eqn:Hkind.
  - cbn [saveToDisk]. unfold bind, deref. rewrite Hit1. cbn [isFolder set_content].
    rewrite Hkind. discriminate.
  - assert (Hfree : forM (sectors (set_content data it)) freeSector s1
                    = Ok tt (set_sectorMap (clearAll (sectors it) (sectorMap s1)) s1)).
    { apply freeAll_valid. subst s1. cbn. eapply owns_valid; eauto. }
    rewrite (saveToDisk_run s1 f (set_content data it) _ Hit1 Hkind Hfit Hfree).
    destruct (storeChunks _ _ _) as [[[ids m'] d'] ok]. unfold saved.
    destruct ok; discriminate.
Qed.

Lemma rewriteContent_independent s f g :
  sectorsOk s -> f <> g -> independent s f g.
Proof.
  intros [Ho Hb] Hne data ig Hg. split.
  { intros Hfit Hf. apply rewriteContent_returns; assumption. }
  unfold rewriteContent, bind at 1, update.
  destruct (heap s !! f) as [it|] eqn:Hit; [|exact I].
  set (s1 := set_heap (<[f := set_content data it]> (heap s)) s).
  assert (Hp1 : protects g ig s s1 /\ owns (heap s1) (sectorMap s1)).
  { subst s1. split.
    - split; [cbn; rewrite lookup_insert_ne by exact Hne; exact Hg|].
      intros i Hi. destruct (own_marked _ _ Ho g ig i Hg Hi). auto.
    - cbn. eapply owns_insert_same; eauto. }
  pose proof (protects_saveToDisk g ig s f Hne s1 Hp1) as H.
  destruct (saveToDisk (Some f) s1) as [[] s2|e s2|]; [| |exact I].
  - split; [apply H|]. split; [intros i Hi; apply H; exact Hi|].
    eapply protects_readBack; eauto.
  - split; [apply H|]. split; [intros i Hi; apply H; exact Hi|].
    eapply protects_readBack; eauto.
Qed.


(** * The copy made by cp *)

Lemma mirror_stocked h h' t : forall t' x it',
  mirror h h' t t' -> x ∈ nodes t' -> h' !! x = Some it' -> stocked it'.
Proof.
  induction t as [p ks IH] using tree_ind'. intros t' x it' Hm Hx Hit'.
  apply mirror_inv in Hm as (p' & ks' & it & it2 & -> & _ & Hit2 & _ & _ & _ & Hst & Hks).
  apply elem_of_nodes in Hx as [-> | (k' & Hk' & Hx)].
  - rewrite Hit2 in Hit'. injection Hit' as <-. exact Hst.
  - clear Hit2 Hst. induction Hks as [|k k2 ks ks' Hkk Hks IHks]; [inversion Hk'|].
    apply Forall_cons in IH as [IHk IH].
    apply elem_of_cons in Hk' as [-> | Hk'].
    + eapply IHk; eauto.
    + apply IHks; assumption.
Qed.

Lemma mirrorTop_stocked h h' t t' x it' :
  mirrorTop h h' t t' -> x ∈ nodes t' -> h' !! x = Some it' -> stocked it'.
Proof.
  intros (it & it2 & _ & Hit2 & _ & _ & Hst & Hks) Hx Hit'.
  destruct t' as [p' ks']. cbn [top kids] in *.
  apply elem_of_nodes in Hx as [-> | (k' & Hk' & Hx)].
  - rewrite Hit2 in Hit'. injection Hit' as <-. exact Hst.
  - clear Hit2 Hst. induction Hks as [|k k2 ks ks' Hkk Hks IHks]; [inversion Hk'|].
    apply elem_of_cons in Hk' as [-> | Hk'].
    + eapply mirror_stocked; eauto.
    + apply IHks. exact Hk'.
Qed.

(** [deepCopy s s' source]: from the state [s] to the state [s'] the
    subtree [t] of the item that [source] names has got the copy [t'],
    the last child of a directory [d]:
    - [t'] has the form of [t], item by item of the same kind and with
      the same content (and name, below the top);
    - the items of [t'] are new, and every item of [s] but [d] is as
      before;
    - every sector of an item of [t'] was free in [s], is listed by no
      item of [s] and by no other item of [s'], and a copied file has as
      many sectors as its content needs;
    - rewriting the content of an item of [t'] leaves every item of [t]
      alone, and the other way round. *)
Definition deepCopy (s s' : FileSystem) (source : string) : Prop :=
  exists src d par t t',
    getItem source s = Ok (Some src) s /\
    top t = src /\ shape (heap s) par t /\
    shape (heap s') (Some d) t' /\
    (exists di, heap s !! d = Some di /\ isFolder di = true /\
                heap s' !! d = Some (set_children (children di ++ [top t']) di)) /\
    mirrorTop (heap s) (heap s') t t' /\
    (forall c', c' ∈ nodes t' -> heap s !! c' = None) /\
    (forall p it, heap s !! p = Some it -> p <> d -> heap s' !! p = Some it) /\
    (forall c' ic' i, c' ∈ nodes t' -> heap s' !! c' = Some ic' -> i ∈ sectors ic' ->
        sectorMap s !! Z.to_nat i = Some false /\
        (forall q iq, heap s !! q = Some iq -> i ∉ sectors iq) /\
        (forall q iq, heap s' !! q = Some iq -> i ∈ sectors iq -> q = c')) /\
    (forall c' ic', c' ∈ nodes t' -> heap s' !! c' = Some ic' -> stocked ic') /\
    (forall c c', c ∈ nodes t -> c' ∈ nodes t' -> independent s' c' c /\ independent s' c c').

(** C6, amended.  In a state reached by calls none of which was a [cp] or
    a [defrag] that reported the disk-full error or a [mv] with its
    destination inside its source, a [cp] that returns has made a deep
    copy of the subtree of the source: new items with the same kinds and
    contents, whose sectors were free before and are shared with no other
    item, so that rewriting a copy and rewriting an original do not touch
    each other. *)
Theorem cp_deep_copy (s s' : FileSystem) (source dest : string) :
  reachableSafely s -> cp source dest s = Ok tt s' -> deepCopy s s' source.
Proof.
  intros Hreach Hcp.
  destruct (wf_reachable s Hreach) as [[T Hwf] Hso].
  destruct (fitsAll_reachable s Hreach) as [_ Hfits].
  destruct (cp_done source dest s s' T Hwf Hfits Hcp) as (src & d & t & t' & Hsrc & Hdone).
  destruct Hdone as [Hsub Hd Hdd Htop Hnodes Hbrk Htot Hshape Hmirror Hold Hdest Htree].
  destruct (subtree_shape _ _ _ _ _ (wf_shape s T Hwf) Hsub) as [par Hsh].
  pose proof (sectorsOk_cp source dest s Hso) as Hso'. rewrite Hcp in Hso'.
  destruct Hso as [Ho Hb]. pose proof Hso' as [Ho' Hb'].
  assert (Hlow : forall c, c ∈ nodes t -> (c < brk s)%nat).
  { intros c Hc. apply Hb. eapply wfTree_live; [exact Hwf|]. eapply subtree_nodes; eauto. }
  assert (Hhigh : forall c', c' ∈ nodes t' -> (brk s <= c')%nat).
  { intros c' Hc'. rewrite Hnodes in Hc'. apply elem_of_seq in Hc'. lia. }
  assert (Holdfree : forall c' ic' i q iq,
            c' ∈ nodes t' -> heap s' !! c' = Some ic' -> i ∈ sectors ic' ->
            heap s !! q = Some iq -> i ∉ sectors iq).
  { intros c' ic' i q iq Hc' Hic' Hi Hq Hiq.
    specialize (Hhigh c' Hc'). pose proof (Hb q ltac:(eauto)) as Hqlow.
    destruct (decide (q = d)) as [->|Hqd].
    - destruct Hdd as (di & Hdi & Hdk). rewrite Hq in Hdi. injection Hdi as ->.
      rewrite (own_dirs _ _ Ho d di Hq Hdk) in Hiq. apply elem_of_nil in Hiq. contradiction.
    - pose proof (Hold q Hqlow Hqd) as Hq'. rewrite Hq in Hq'.
      pose proof (own_excl _ _ Ho' q c' iq ic' i Hq' Hic' Hiq Hi). lia. }
  exists src, d, par, t, t'.
  split; [exact Hsrc|]. split; [eapply subtree_top; eauto|]. split; [exact Hsh|].
  split; [exact Hshape|]. split.
  { destruct Hdest as (di & Hdi & Hdi'). exists di. split; [exact Hdi|]. split.
    - destruct Hdd as (di0 & Hdi0 & Hk). congruence.
    - rewrite Htop. exact Hdi'. }
  split; [exact Hmirror|]. split.
  { intros c' Hc'. specialize (Hhigh c' Hc').
    destruct (heap s !! c') eqn:E; [|reflexivity].
    pose proof (Hb c' ltac:(eauto)). lia. }
  split.
  { intros p it Hp Hpd. rewrite Hold; [exact Hp | apply Hb; eauto | exact Hpd]. }
  split.
  { intros c' ic' i Hc' Hic' Hi.
    destruct (own_marked _ _ Ho' c' ic' i Hic' Hi) as [Hi0 Hmark].
    split; [|split].
    - apply lookup_lt_Some in Hmark. destruct Htot as [_ Hlen]. rewrite Hlen in Hmark.
      destruct (lookup_lt_is_Some_2 _ _ Hmark) as [b Hb0]. rewrite Hb0. f_equal.
      destruct b; [|reflexivity]. exfalso.
      destruct (own_owned _ _ Ho _ Hb0) as (q & iq & Hq & Hiq).
      rewrite Z2Nat.id in Hiq by exact Hi0.
      exact (Holdfree c' ic' i q iq Hc' Hic' Hi Hq Hiq).
    - intros q iq Hq. eapply Holdfree; eauto.
    - intros q iq Hq Hiq. eapply own_excl; eauto. }
  split.
  { intros c' ic' Hc' Hic'. eapply mirrorTop_stocked; eauto. }
  intros c c' Hc Hc'. specialize (Hlow c Hc). specialize (Hhigh c' Hc').
  split; apply rewriteContent_independent; try exact Hso'; lia.
Qed.

(** The state after [put f] of a 70-byte file and [cp f g] on a disk of
    four sectors. *)
Definition twoFilesState : FileSystem :=
  mkFS [replicate 64 x41; replicate 6 x41; replicate 64 x41; replicate 6 x41]
       [true; true; true; true]
       (<[2%nat := mkItem false "g" (replicate 70 x41) [2; 3] [] (Some 0%nat)]>
          (<[1%nat := oneFileItem]>
             {[ 0%nat := mkItem true "/" [] [] [1%nat; 2%nat] None ]}))
       3%nat 0%nat 0%nat 4.

Lemma cp_deep_copy_witness : deepCopy oneFileState twoFilesState "f".
Proof.
  apply (cp_deep_copy oneFileState twoFilesState "f" "g").
  - exact oneFileState_reachableSafely.
  - vm_compute. reflexivity.
Defined.


(** ** A copy that shares a sector

    On a disk of three sectors: [put a] (64 bytes), [put c] (256 bytes,
    reported disk full), [rm a], [put b] (64 bytes), [defrag] (reported
    disk full after laying out [c] over the sector of [b]), [rm c].  Then
    [b] lists sector 0 and the bitmap has it free. *)
Definition rootOf (cs : list ptr) : Item := mkItem true "/" [] [] cs None.
Definition fileA : Item := mkItem false "a" (replicate 64 x41) [0] [] (Some 0%nat).
Definition fileC (ids : list Z) : Item :=
  mkItem false "c" (replicate 256 x43) ids [] (Some 0%nat).
Definition fileB : Item := mkItem false "b" (replicate 64 x42) [0] [] (Some 0%nat).
Definition fileB2 : Item := mkItem false "b2" (replicate 64 x42) [0] [] (Some 0%nat).

Definition shareState1 : FileSystem :=
  mkFS [replicate 64 x41; []; []] [true; false; false]
       (<[1%nat := fileA]> {[ 0%nat := rootOf [1%nat] ]}) 2%nat 0%nat 0%nat 3.
Definition shareState2 : FileSystem :=
  mkFS [replicate 64 x41; replicate 64 x43; replicate 64 x43] [true; true; true]
       (<[2%nat := fileC [1; 2]]> (<[1%nat := fileA]> {[ 0%nat := rootOf [1%nat; 2%nat] ]}))
       3%nat 0%nat 0%nat 3.
Definition shareState3 : FileSystem :=
  mkFS [replicate 64 x41; replicate 64 x43; replicate 64 x43] [false; true; true]
       (<[2%nat := fileC [1; 2]]> {[ 0%nat := rootOf [2%nat] ]})
       3%nat 0%nat 0%nat 3.
Definition shareState4 : FileSystem :=
  mkFS [replicate 64 x42; replicate 64 x43; replicate 64 x43] [true; true; true]
       (<[3%nat := fileB]> (<[2%nat := fileC [1; 2]]> {[ 0%nat := rootOf [2%nat; 3%nat] ]}))
       4%nat 0%nat 0%nat 3.
Definition shareState5 : FileSystem :=
  mkFS [replicate 64 x43; replicate 64 x43; replicate 64 x43] [true; true; true]
       (<[3%nat := fileB]> (<[2%nat := fileC [0; 1; 2]]> {[ 0%nat := rootOf [2%nat; 3%nat] ]}))
       4%nat 0%nat 0%nat 3.
Definition sharedBefore : FileSystem :=
  mkFS [replicate 64 x43; replicate 64 x43; replicate 64 x43] [false; false; false]
       (<[3%nat := fileB]> {[ 0%nat := rootOf [3%nat] ]})
       4%nat 0%nat 0%nat 3.
Definition sharedAfter : FileSystem :=
  mkFS [replicate 64 x42; replicate 64 x43; replicate 64 x43] [true; false; false]
       (<[4%nat := fileB2]> (<[3%nat := fileB]> {[ 0%nat := rootOf [3%nat; 4%nat] ]}))
       5%nat 0%nat 0%nat 3.

Example shareState1_reached :
  put "a" (Some (replicate 64 x41)) "." (init 3) = Ok tt shareState1.
Proof. vm_compute. reflexivity. Qed.
Example shareState2_reached :
  put "c" (Some (replicate 256 x43)) "." shareState1
  = Throw (runtime_error "No free sectors available") shareState2.
Proof. vm_compute. reflexivity. Qed.
Example shareState3_reached : rm "a" false shareState2 = Ok tt shareState3.
Proof. vm_compute. reflexivity. Qed.
Example shareState4_reached :
  put "b" (Some (replicate 64 x42)) "." shareState3 = Ok tt shareState4.
Proof. vm_compute. reflexivity. Qed.
Example shareState5_reached :
  defrag shareState4 = Throw (runtime_error "Disk is full") shareState5.
Proof. vm_compute. reflexivity. Qed.
Example sharedBefore_reached : rm "c" false shareState5 = Ok tt sharedBefore.
Proof. vm_compute. reflexivity. Qed.
Example sharedAfter_reached : cp "b" "b2" sharedBefore = Ok tt sharedAfter.
Proof. vm_compute. reflexivity. Qed.

Lemma sharedBefore_reachable : reachable sharedBefore.
Proof.
  apply (reachable_step shareState5 (Rm "c" false) None);
    [|exact I|exact sharedBefore_reached].
  apply (reachable_step shareState4 Defrag (Some (runtime_error "Disk is full")));
    [|exact I|split; [reflexivity | exact shareState5_reached]].
  apply (reachable_step shareState3 (Put "b" (Some (replicate 64 x42)) ".") None);
    [|unfold fits, fitsInt, INT_MAX; vm_compute; discriminate|exact shareState4_reached].
  apply (reachable_step shareState2 (Rm "a" false) None);
    [|exact I|exact shareState3_reached].
  apply (reachable_step shareState1 (Put "c" (Some (replicate 256 x43)) ".")
                        (Some (runtime_error "No free sectors available")));
    [|unfold fits, fitsInt, INT_MAX; vm_compute; discriminate
     |split; [reflexivity | exact shareState2_reached]].
  apply (reachable_step (init 3) (Put "a" (Some (replicate 64 x41)) ".") None);
    [|unfold fits, fitsInt, INT_MAX; vm_compute; discriminate|exact shareState1_reached].
  apply reachable_init. lia.
Qed.

(** C6 as stated fails: in that state [cp b b2] returns, and the sector
    list of the new file [b2] is the sector list of [b]; rewriting [b2]
    then changes what the sectors of [b] read back. *)
Lemma cp_shares_sector_after_disk_full :
  reachable sharedBefore /\
  cp "b" "b2" sharedBefore = Ok tt sharedAfter /\
  heap sharedBefore !! 3%nat = Some fileB /\
  heap sharedBefore !! 4%nat = None /\
  heap sharedAfter !! 3%nat = Some fileB /\
  heap sharedAfter !! 4%nat = Some fileB2 /\
  sectors fileB2 = sectors fileB /\ sectors fileB = [0] /\
  exists s'', rewriteContent 4%nat [x44] sharedAfter = Ok tt s'' /\
              readBack (disk sharedAfter) (sectors fileB) = content fileB /\
              readBack (disk s'') (sectors fileB) = [x44].
Proof.
  split; [exact sharedBefore_reachable|]. split; [exact sharedAfter_reached|].
  split; [reflexivity|]. split; [reflexivity|]. split; [reflexivity|].
  split; [reflexivity|]. split; [reflexivity|]. split; [reflexivity|].
  eexists. split; [vm_compute; reflexivity|]. split; vm_compute; reflexivity.
Qed.


(** * What mv refuses

    The check of [mv] works when [dest] names an existing item: a
    directory is not moved to a place inside itself.  (It is when [dest]
    names a new entry that the check is void, see
    [mv_into_own_subtree_accepted].) *)

(** [insideN h src n x]: [src] is met after [n] steps up from [x]. *)
Inductive insideN (h : gmap ptr Item) (src : ptr) : nat -> ptr -> Prop :=
| insideN_self : insideN h src 0 src
| insideN_up n x it p :
    h !! x = Some it -> parent it = Some p -> insideN h src n p -> insideN h src (S n) x.

Lemma inside_insideN h src x : inside h src x -> exists n, insideN h src n x.
Proof.
  induction 1 as [|x it p Hit Hp _ [n IH]].
  - exists 0%nat. constructor.
  - exists (S n). econstructor; eauto.
Qed.

Lemma shape_insideN h t : forall par x,
  shape h par t -> x ∈ nodes t -> exists n, (n < height t)%nat /\ insideN h (top t) n x.
Proof.
  induction t as [p ks IH] using tree_ind'. intros par x Hsh Hx.
  apply shape_inv in Hsh as (it & Hit & _ & Hch & Hkids).
  rewrite Forall_forall in IH, Hkids.
  apply elem_of_nodes in Hx as [-> | (k & Hk & Hx)].
  { exists 0%nat. split; [cbn; lia | constructor]. }
  destruct (IH k Hk (Some p) x (Hkids k Hk) Hx) as (n & Hn & Hin).
  pose proof (height_kid p ks k Hk) as Hh.
  exists (S n). split; [lia|]. cbn [top].
  pose proof (Hkids k Hk) as Hsk. clear Hx Hn.
  induction Hin as [|m y ity q Hity Hq Hin IHin].
  - destruct (shape_live _ _ _ _ Hsk (nodes_top k)) as [itk Hitk].
    eapply insideN_up; [exact Hitk | eapply shape_top; eauto | constructor].
  - eapply insideN_up; eauto.
Qed.

(** The way up is one way: [src] is met before the node that has no
    parent. *)
Lemma insideN_le h r ir src : forall n d k,
  insideN h r n d -> h !! r = Some ir -> parent ir = None ->
  insideN h src k d -> (k <= n)%nat.
Proof.
  intros n d k Hup Hr Hnone. revert k.
  induction Hup as [|n x it p Hit Hp Hup IH]; intros k Hin.
  - inversion Hin as [|k' x' it' p' Hit' Hp' Hin']; subst; [lia|]. congruence.
  - inversion Hin as [|k' x' it' p' Hit' Hp' Hin']; subst; [lia|].
    rewrite Hit in Hit'. injection Hit' as <-. rewrite Hp in Hp'. injection Hp' as <-.
    specialize (IH k' Hin'). lia.
Qed.

Lemma checkNotInside_Throw h_src : forall n d fuel s,
  insideN (heap s) h_src n d -> (n <= fuel)%nat ->
  checkNotInside fuel (Some d) h_src s
  = Throw (runtime_error "Cannot move a folder into itself") s.
Proof.
  intros n d fuel s Hin. revert fuel.
  induction Hin as [|n x it p Hit Hp Hin IH]; intros fuel Hfuel.
  - destruct fuel; cbn [checkNotInside]; rewrite Nat.eqb_refl; reflexivity.
  - destruct fuel as [|fuel]; [lia|]. cbn [checkNotInside].
    destruct (Nat.eqb x h_src); [reflexivity|].
    unfold bind, deref. rewrite Hit, Hp. apply IH. lia.
Qed.

(** C2, the part that holds: when [source] is a directory and [dest]
    names an existing item that is [source] or lies below it, [mv] fails
    with "Cannot move a folder into itself" and changes nothing. *)
Lemma mv_into_existing_refused s T source dest src its d :
  wfTree s T ->
  getItem source s = Ok (Some src) s -> heap s !! src = Some its -> isFolder its = true ->
  getItem dest s = Ok (Some d) s -> inside (heap s) src d ->
  mv source dest s = Throw (runtime_error "Cannot move a folder into itself") s.
Proof.
  intros Hwf Hsrc Hits Hk Hd Hin.
  assert (HdT : d ∈ nodes T) by (eapply getItem_in; eauto).
  destruct (inside_insideN _ _ _ Hin) as [k Hk'].
  destruct (shape_insideN _ _ _ _ (wf_shape s T Hwf) HdT) as (n & Hn & Hup).
  destruct (shape_live _ _ _ _ (wf_shape s T Hwf) (nodes_top T)) as [ir Hir].
  pose proof (shape_top _ _ _ _ (wf_shape s T Hwf) Hir) as Hnone.
  pose proof (insideN_le _ _ _ _ _ _ _ Hup Hir Hnone Hk') as Hle.
  assert (Hlow : forall p, p ∈ nodes T -> (p < brk s)%nat).
  { intros p Hp. apply (wf_brk s T Hwf). eapply wfTree_live; eauto. }
  pose proof (depthBound_enough s T (wf_nodup s T Hwf) Hlow) as Hdepth.
  unfold mv, bind at 1. rewrite Hsrc. unfold bind at 1, deref. rewrite Hits, Hk.
  unfold bind at 1. unfold bind at 1. rewrite Hd.
  unfold bind at 1, depthBound, gets.
  rewrite (checkNotInside_Throw src k d (S (brk s)) s Hk') by lia. reflexivity.
Qed.


(** * What rm frees

    For a file and for an empty directory [rm] works as described, with
    and without the flag: the free sectors grow by the sectors of the
    item.  (It is for a directory with children that the recursive call
    has no defined result, see [rm_recursive_reads_deleted_child].) *)

(** The number of free sectors in the bitmap. *)
Definition freeCount (m : list bool) : nat := length (List.filter negb m).

Lemma freeCount_insert m : forall i,
  m !! i = Some true -> freeCount (<[i := false]> m) = S (freeCount m).
Proof.
  unfold freeCount. induction m as [|b m IH]; intros i Hi.
  - rewrite lookup_nil in Hi. discriminate.
  - destruct i as [|i].
    + injection Hi as ->. reflexivity.
    + cbn [lookup] in Hi. change (<[S i := false]> (b :: m)) with (b :: <[i := false]> m).
      cbn [List.filter]. destruct (negb b); cbn [length]; rewrite (IH i Hi); reflexivity.
Qed.

Lemma freeCount_clearAll l m :
  NoDup l -> (forall id, id ∈ l -> 0 <= id /\ m !! Z.to_nat id = Some true) ->
  freeCount (clearAll l m) = (freeCount m + length l)%nat.
Proof.
  induction l as [|x l IH] using rev_ind; intros Hnd Hall.
  - unfold clearAll. cbn [fold_left length]. lia.
  - apply NoDup_app in Hnd as (Hnd & Hdisj & _).
    rewrite clearAll_snoc, length_app. cbn [length].
    destruct (Hall x) as [Hx0 Hx]; [apply elem_of_app; right; left|].
    rewrite freeCount_insert.
    + rewrite IH; [lia | exact Hnd |].
      intros id Hid. apply Hall. apply elem_of_app. left. exact Hid.
    + rewrite clearAll_other; [exact Hx|].
      intros id Hid Heq.
      destruct (Hall id) as [Hid0 _]; [apply elem_of_app; left; exact Hid|].
      assert (id = x) by lia. subst id. apply (Hdisj x Hid). left.
Qed.

(** C5, the part that holds: removing a file or an empty directory
    succeeds, whatever the flag, and the number of free sectors grows by
    the number of sectors of the item. *)
Lemma rm_leaf_frees name recursive s c t it :
  wf s ->
  heap s !! currentDir s = Some c ->
  findChild (children c) name s = Ok (Some t) s ->
  heap s !! t = Some it -> children it = [] ->
  exists s', rm name recursive s = Ok tt s' /\
             heap s' !! t = None /\
             freeCount (sectorMap s') = (freeCount (sectorMap s) + length (sectors it))%nat.
Proof.
  intros [[T Hwf] [Ho Hb]] Hc Hfind Hit Hkids.
  pose proof (findChild_elem _ _ _ _ _ Hfind) as Htc.
  assert (Ht : t ∈ nodes T).
  { eapply shape_child; [apply (wf_shape s T Hwf) | apply (wf_cur s T Hwf) | exact Hc | exact Htc]. }
  destruct (shape_child_parent _ _ _ _ _ _ (wf_shape s T Hwf) (wf_cur s T Hwf) Hc Htc)
    as (it' & Hit' & Hpar).
  rewrite Hit in Hit'. injection Hit' as <-.
  assert (Hnt : t <> top T).
  { intros ->. pose proof (shape_top _ _ _ _ (wf_shape s T Hwf) Hit). congruence. }
  destruct (shape_cut _ _ _ _ (wf_shape s T Hwf) (wf_nodup s T Hwf) Ht Hnt Hit)
    as (q & qi & u & Hq & Hqi & HqT & _ & Hu & Htop & Hqu & _).
  assert (q = currentDir s) by congruence. subst q.
  assert (Hne : t <> currentDir s).
  { intros Heq. apply Hqu. rewrite <- Heq, <- Htop. apply nodes_top. }
  eexists. split; [|split].
  - apply (rm_leaf_run name recursive s c t it Hc Hfind Hit Hkids Hne).
    + exact (owns_valid _ _ t it Ho Hit).
    + intros Hk. exact (own_dirs _ _ Ho t it Hit Hk).
  - cbn [heap]. apply lookup_delete_eq.
  - cbn [sectorMap]. apply freeCount_clearAll.
    + exact (own_nodup _ _ Ho t it Hit).
    + intros id Hid. exact (own_marked _ _ Ho t it id Hit Hid).
Qed.


(** * Freeing and allocating *)

Lemma insert_back_false (m : list bool) (i : nat) :
  m !! i = Some false -> <[i := false]> (<[i := true]> m) = m.
Proof.
  intros H. rewrite list_insert_insert_eq. apply list_insert_id. exact H.
Qed.

(** X1. [freeSector] undoes [allocateSector]: freeing the id that an
    allocation has just returned gives back the state before the
    allocation.  And [freeSector] does not look at the bit it clears:
    freeing any id of the disk that is free already is accepted and
    changes nothing. *)
Theorem free_undoes_allocate (s : FileSystem) :
  (forall i s1, allocateSector s = Ok i s1 -> freeSector i s1 = Ok tt s) /\
  (forall j, 0 <= j -> sectorMap s !! Z.to_nat j = Some false -> freeSector j s = Ok tt s).
Proof.
  split.
  - intros i s1 H. apply allocateSector_Ok in H as [H ->].
    apply firstFree_Some in H as (Hle & Hi & _). rewrite Z.sub_0_r in Hi.
    pose proof (lookup_lt_Some _ _ _ Hi) as Hlt.
    apply freeSector_Ok. cbn [sectorMap set_sectorMap].
    rewrite length_insert. split; [lia|].
    rewrite insert_back_false by exact Hi. destruct s; reflexivity.
  - intros j Hj Hfree. pose proof (lookup_lt_Some _ _ _ Hfree) as Hlt.
    apply freeSector_Ok. split; [lia|].
    rewrite list_insert_id by exact Hfree. destruct s; reflexivity.
Qed.

Lemma free_undoes_allocate_witness :
  freeSector 1 (set_sectorMap [true; true; false] (init 3))
  = Ok tt (set_sectorMap [true; false; false] (init 3)) /\
  freeSector 2 (set_sectorMap [true; false; false] (init 3))
  = Ok tt (set_sectorMap [true; false; false] (init 3)).
Proof.
  split.
  - apply (proj1 (free_undoes_allocate (set_sectorMap [true; false; false] (init 3))) 1).
    reflexivity.
  - apply (proj2 (free_undoes_allocate (set_sectorMap [true; false; false] (init 3))) 2).
    + lia.
    + reflexivity.
Defined.


(** * Paths, names and texts *)

(** [slashFree p]: no character of [p] is the separator. *)
Definition slashFree (p : string) : bool :=
  allChars (fun c => negb (c =? "/")%char) p.

(** What [splitPath] yields, and what [getFullPath] joins: parts that are
    not empty and hold no separator. *)
Definition isPart (p : string) : Prop := p <> "" /\ slashFree p = true.

Lemma append_cons (c : ascii) (a b : string) :
  (String c a ++ b)%string = String c (a ++ b).
Proof. reflexivity. Qed.

Lemma append_nil_r (a : string) : (a ++ "")%string = a.
Proof.
  induction a as [|c a IH]; [reflexivity | rewrite append_cons, IH; reflexivity].
Qed.

Lemma append_assoc' (a b c : string) : ((a ++ b) ++ c)%string = (a ++ (b ++ c))%string.
Proof.
  induction a as [|x a IH]; [reflexivity | rewrite !append_cons, IH; reflexivity].
Qed.

Lemma append_eq_nil (a b : string) : (a ++ b)%string = "" -> a = "" /\ b = "".
Proof. destruct a; [auto | rewrite append_cons; discriminate]. Qed.

Lemma allChars_app p (a b : string) :
  allChars p (a ++ b) = allChars p a && allChars p b.
Proof.
  induction a as [|c a IH]; [reflexivity|].
  rewrite append_cons. cbn [allChars]. rewrite IH. apply andb_assoc.
Qed.

Lemma allChars_impl (p q : ascii -> bool) (a : string) :
  (forall c, p c = true -> q c = true) -> allChars p a = true -> allChars q a = true.
Proof.
  intros Hpq. induction a as [|c a IH]; simpl; [reflexivity|].
  intros H. apply andb_true_iff in H as [Hc Ha].
  rewrite (Hpq c Hc), (IH Ha). reflexivity.
Qed.

Lemma splitFrom_app part (a b : string) :
  splitFrom part (a ++ String "/" b) = splitFrom part a ++ splitFrom "" b.
Proof.
  revert part. induction a as [|c a IH]; intros part.
  - change ("" ++ String "/" b)%string with (String "/" b). cbn [splitFrom].
    rewrite Ascii.eqb_refl. destruct (part =? "")%string; reflexivity.
  - rewrite append_cons. cbn [splitFrom]. destruct (c =? "/")%char.
    + destruct (part =? "")%string; rewrite IH; reflexivity.
    + apply IH.
Qed.

Lemma splitFrom_isPart (stream : string) : forall part,
  slashFree part = true -> Forall isPart (splitFrom part stream).
Proof.
  induction stream as [|c rest IH]; intros part Hpart; simpl.
  - destruct (part =? "")%string eqn:E; constructor; [|constructor].
    split; [|exact Hpart]. apply String.eqb_neq. exact E.
  - destruct (c =? "/")%char eqn:Ec.
    + destruct (part =? "")%string eqn:E; [apply IH; reflexivity|].
      constructor; [|apply IH; reflexivity].
      split; [|exact Hpart]. apply String.eqb_neq. exact E.
    + apply IH. unfold slashFree in *. rewrite allChars_app, Hpart. simpl.
      rewrite Ec. reflexivity.
Qed.

Lemma splitFrom_slashFree (p : string) : forall part,
  slashFree p = true ->
  splitFrom part p = if (part ++ p =? "")%string then [] else [(part ++ p)%string].
Proof.
  induction p as [|c p IH]; intros part Hp; simpl.
  - rewrite append_nil_r. reflexivity.
  - unfold slashFree in Hp. simpl in Hp. apply andb_true_iff in Hp as [Hc Hp].
    apply negb_true_iff in Hc. rewrite Hc.
    rewrite IH by exact Hp. rewrite append_assoc'. reflexivity.
Qed.

Lemma splitPath_isPart (p : string) : isPart p -> splitPath p = [p].
Proof.
  intros [Hne Hsf]. unfold splitPath. rewrite splitFrom_slashFree by exact Hsf.
  change ("" ++ p)%string with p. apply String.eqb_neq in Hne. rewrite Hne. reflexivity.
Qed.

(** X2. [splitPath] cuts at every separator: the parts of [a/b] are the
    parts of [a] followed by the parts of [b]; and every part it yields
    is non-empty and holds no separator. *)
Theorem splitPath_parts (a b : string) :
  splitPath (a ++ "/" ++ b) = splitPath a ++ splitPath b /\
  Forall isPart (splitPath a).
Proof.
  split.
  - unfold splitPath. change ("/" ++ b)%string with (String "/" b). apply splitFrom_app.
  - apply splitFrom_isPart. reflexivity.
Qed.

Lemma splitPath_joinPath_rel (parts : list string) :
  Forall isPart parts -> splitPath (joinPath parts) = parts.
Proof.
  induction 1 as [|p rest Hp Hrest IH]; [reflexivity|].
  destruct rest as [|q rest].
  - simpl. apply splitPath_isPart. exact Hp.
  - change (joinPath (p :: q :: rest)) with (p ++ String "/" (joinPath (q :: rest)))%string.
    unfold splitPath in *. rewrite splitFrom_app, IH.
    fold (splitPath p). rewrite (splitPath_isPart p Hp). reflexivity.
Qed.

(** X3. What [getFullPath] writes, [splitPath] reads back: joining parts
    with separators after a leading separator, as [getFullPath] does,
    and splitting the result gives the parts again. *)
Theorem splitPath_joinPath (parts : list string) :
  Forall isPart parts ->
  splitPath ("/" ++ joinPath parts) = parts /\ splitPath (joinPath parts) = parts.
Proof.
  intros H. split; [|apply splitPath_joinPath_rel; exact H].
  change (splitPath ("/" ++ joinPath parts)) with (splitPath (joinPath parts)).
  apply splitPath_joinPath_rel. exact H.
Qed.

Lemma splitPath_joinPath_witness :
  splitPath ("/" ++ joinPath ["a"; "b.txt"]) = ["a"; "b.txt"] /\
  splitPath (joinPath ["a"; "b.txt"]) = ["a"; "b.txt"].
Proof.
  apply (splitPath_joinPath ["a"; "b.txt"]).
  repeat constructor; discriminate.
Defined.

Lemma validChar_not_slash (c : ascii) :
  isalnum c || (c =? "_")%char || (c =? ".")%char = true -> negb (c =? "/")%char = true.
Proof.
  intros H. destruct (Ascii.eqb_spec c "/") as [->|Hne]; [|reflexivity].
  vm_compute in H. discriminate.
Qed.

(** A name that [isValidName] accepts is a part, is neither "." nor "..",
    and does not begin with the separator. *)
Lemma validName_isPart (n : string) :
  isValidName n = true ->
  isPart n /\ n <> "" /\ n <> "." /\ n <> ".." /\ beginsWithSlash n = false.
Proof.
  unfold isValidName. intros H.
  destruct (n =? "")%string eqn:E1; [discriminate|].
  destruct (n =? ".")%string eqn:E2; [discriminate|].
  destruct (n =? "..")%string eqn:E3; [discriminate|]. simpl in H.
  apply String.eqb_neq in E1, E2, E3.
  assert (Hsf : slashFree n = true).
  { unfold slashFree. eapply allChars_impl; [|exact H]. apply validChar_not_slash. }
  repeat split; auto.
  destruct n as [|c n]; [reflexivity|]. simpl.
  unfold slashFree in Hsf. simpl in Hsf. apply andb_true_iff in Hsf as [Hc _].
  apply negb_true_iff in Hc. exact Hc.
Qed.

(** X4. A name that [isValidName] accepts is one step of a path: it
    splits into itself alone, so a path made of it is resolved by one
    lookup among the children of the current directory, and it is none
    of the names with a meaning of their own (the empty path, ".", "..",
    "/"). *)
Theorem valid_name_is_one_step (n : string) (s : FileSystem) :
  isValidName n = true ->
  splitPath n = [n] /\
  getItem n s = walk (currentDir s) [n] s /\
  n <> "" /\ n <> "." /\ n <> ".." /\ n <> "/".
Proof.
  intros H. destruct (validName_isPart n H) as (Hp & H1 & H2 & H3 & H4).
  assert (H5 : n <> "/") by (intros ->; discriminate H4).
  split; [apply splitPath_isPart; exact Hp|].
  split; [|auto].
  unfold getItem. rewrite (splitPath_isPart n Hp).
  apply String.eqb_neq in H1, H2, H3, H5. rewrite H1, H2, H3, H5, H4. reflexivity.
Qed.

Lemma valid_name_is_one_step_witness :
  splitPath "notes.txt" = ["notes.txt"] /\
  getItem "notes.txt" (init 4) = walk (currentDir (init 4)) ["notes.txt"] (init 4) /\
  "notes.txt" <> "" /\ "notes.txt" <> "." /\ "notes.txt" <> ".." /\ "notes.txt" <> "/".
Proof.
  apply (valid_name_is_one_step "notes.txt" (init 4)). reflexivity.
Defined.

(** [endsWithNewline l]: the last byte of [l] is the newline. *)
Definition endsWithNewline (l : list byte) : bool :=
  match last l with
  | Some c => Byte.eqb c newline
  | None => false
  end.

Lemma linesFrom_text (stream : list byte) : forall line,
  concat (map (fun l => l ++ [newline]) (linesFrom line stream)) =
  match stream with
  | [] => match line with [] => [] | _ => line ++ [newline] end
  | _ => if endsWithNewline stream then line ++ stream else line ++ stream ++ [newline]
  end.
Proof.
  induction stream as [|c rest IH]; intros line.
  - destruct line; simpl; [reflexivity|]. rewrite app_nil_r. reflexivity.
  - cbn [linesFrom]. destruct (Byte.eqb c newline) eqn:Ec.
    + apply Byte.byte_dec_bl in Ec. subst c.
      cbn [map concat]. rewrite IH. destruct rest as [|d rest].
      * rewrite app_nil_r. reflexivity.
      * replace (endsWithNewline (newline :: d :: rest)) with (endsWithNewline (d :: rest))
          by reflexivity.
        destruct (endsWithNewline (d :: rest)); cbn [app]; rewrite <- app_assoc; reflexivity.
    + rewrite IH. destruct rest as [|d rest].
      * unfold endsWithNewline. cbn [last]. rewrite Ec.
        destruct (line ++ [c]) eqn:El; [destruct line; discriminate|].
        rewrite <- El, <- app_assoc. reflexivity.
      * replace (endsWithNewline (c :: d :: rest)) with (endsWithNewline (d :: rest))
          by reflexivity.
        destruct (endsWithNewline (d :: rest)); rewrite <- app_assoc; reflexivity.
Qed.

Lemma removelast_snoc {A} (l : list A) (x : A) : removelast (l ++ [x]) = l.
Proof. rewrite removelast_app by discriminate. simpl. apply app_nil_r. Qed.

(** X5. The content that [put] stores is the real file's bytes without
    their final newline, if they end in one: one newline is dropped,
    never more, and nothing else is changed (a file that does not end in
    a newline is stored byte for byte). *)
Theorem readText_drops_final_newline (file : list byte) :
  readText file = if endsWithNewline file then removelast file else file.
Proof.
  unfold readText. rewrite linesFrom_text. destruct file as [|c rest]; [reflexivity|].
  cbn [app]. destruct (endsWithNewline (c :: rest)).
  - reflexivity.
  - change (c :: rest ++ [newline]) with ((c :: rest) ++ [newline]).
    rewrite removelast_snoc. destruct rest; reflexivity.
Qed.


(** * Reading the tree *)

(** ** Full paths *)

(** The names that [getFullPath] collects on the way up from [x]. *)
Lemma pathParts_up s x n :
  insideN (heap s) (root s) n x ->
  exists L, (x <> root s -> L <> []) /\
    forall acc fuel, (n <= fuel)%nat -> pathParts fuel (Some x) acc s = Ok (acc ++ L) s.
Proof.
  induction 1 as [|n x it p Hit Hp Hin [L [HL IH]]].
  - exists []. split; [congruence|]. intros acc fuel _.
    destruct fuel; cbn [pathParts]; unfold bind, gets; rewrite Nat.eqb_refl, app_nil_r;
      reflexivity.
  - destruct (decide (x = root s)) as [->|Hne].
    + exists []. split; [congruence|]. intros acc fuel _.
      destruct fuel; cbn [pathParts]; unfold bind, gets; rewrite Nat.eqb_refl, app_nil_r;
        reflexivity.
    + exists (name it :: L). split; [discriminate|]. intros acc fuel Hfuel.
      destruct fuel as [|fuel]; [lia|]. cbn [pathParts]. unfold bind at 1, gets.
      apply Nat.eqb_neq in Hne. rewrite Hne.
      unfold bind at 1, deref. rewrite Hit, Hp.
      rewrite IH by lia. rewrite <- app_assoc. reflexivity.
Qed.

Lemma tree_depth s T x :
  wfTree s T -> x ∈ nodes T ->
  exists n, (n < brk s)%nat /\ insideN (heap s) (root s) n x.
Proof.
  intros Hwf Hx.
  destruct (shape_insideN _ _ _ _ (wf_shape s T Hwf) Hx) as (n & Hn & Hin).
  rewrite (wf_top s T Hwf) in Hin. exists n. split; [|exact Hin].
  pose proof (height_le_nodes T).
  assert (length (nodes T) <= brk s)%nat; [|lia].
  apply NoDup_bounded_length; [apply (wf_nodup s T Hwf)|].
  intros p Hp. apply (wf_brk s T Hwf). eapply wfTree_live; eauto.
Qed.

Lemma getFullPath_defined s T x :
  wfTree s T -> x ∈ nodes T -> exists path, getFullPath x s = Ok path s.
Proof.
  intros Hwf Hx. unfold getFullPath, bind at 1, gets.
  destruct (Nat.eqb x (root s)); [eexists; reflexivity|].
  destruct (tree_depth s T x Hwf Hx) as (n & Hn & Hin).
  destruct (pathParts_up s x n Hin) as (L & _ & HL).
  unfold bind at 1, depthBound, gets. unfold bind.
  rewrite HL by lia. eexists. reflexivity.
Qed.

Lemma joinPath_snoc (l : list string) (x : string) :
  l <> [] -> joinPath (l ++ [x]) = (joinPath l ++ "/" ++ x)%string.
Proof.
  induction l as [|a l IH]; [congruence|]. intros _.
  destruct l as [|b l]; [reflexivity|].
  change (joinPath ((a :: b :: l) ++ [x]))
    with (a ++ "/" ++ joinPath ((b :: l) ++ [x]))%string.
  rewrite IH by discriminate.
  change (joinPath (a :: b :: l)) with (a ++ "/" ++ joinPath (b :: l))%string.
  rewrite !append_assoc'. reflexivity.
Qed.

(** The state after [mkdir d] on a fresh filesystem of four sectors. *)
Definition oneDirStateD : FileSystem :=
  mkFS [[]; []; []; []] [false; false; false; false]
       (<[1%nat := mkItem true "d" [] [] [] (Some 0%nat)]>
          {[ 0%nat := mkItem true "/" [] [] [1%nat] None ]})
       2%nat 0%nat 0%nat 4.

(** The state [dirWithFileState] (after [mkdir d] and [put f d]) is a
    state of a session. *)
Lemma dirWithFileState_safe : reachableSafely dirWithFileState.
Proof.
  apply (reachableS_step oneDirStateD (Put "f" (Some [x41]) "d") None).
  - apply (reachableS_step (init 4) (Mkdir "d") None).
    + apply reachableS_init. lia.
    + exact I.
    + vm_compute. reflexivity.
    + discriminate.
    + intros H. exact H.
  - unfold fits, fitsInt, INT_MAX. vm_compute. discriminate.
  - vm_compute. reflexivity.
  - discriminate.
  - intros H. exact H.
Qed.

Lemma dirWithFileState_tree : hasTree dirWithFileState.
Proof. apply wf_reachable. exact dirWithFileState_safe. Qed.

Lemma getFullPath_step (s : FileSystem) (T : tree) (c p : ptr) (ic : Item) :
  wfTree s T -> heap s !! c = Some ic -> parent ic = Some p ->
  getFullPath (root s) s = Ok "/" s /\
  exists pp, getFullPath p s = Ok pp s /\
    getFullPath c s =
    Ok ((if Nat.eqb p (root s) then "/" else pp ++ "/") ++ name ic)%string s.
Proof.
  intros Hwf Hic Hpar.
  assert (Hc : c ∈ nodes T) by (apply (wf_dom s T Hwf); eauto).
  split. { unfold getFullPath, bind, gets. rewrite Nat.eqb_refl. reflexivity. }
  assert (Hne : c <> root s).
  { intros ->. rewrite <- (wf_top s T Hwf) in Hic.
    pose proof (shape_top _ _ _ _ (wf_shape s T Hwf) Hic). congruence. }
  assert (Hp : p ∈ nodes T).
  { rewrite <- (wf_top s T Hwf) in Hne.
    destruct (shape_parent _ _ _ _ _ (wf_shape s T Hwf) Hc Hic Hne) as (q & qi & Hq & HqT & _).
    congruence. }
  destruct (tree_depth s T p Hwf Hp) as (n & Hn & Hin).
  destruct (pathParts_up s p n Hin) as (L & HLne & HL).
  assert (Hcpath : getFullPath c s = Ok ("/" ++ joinPath (rev ([name ic] ++ L)))%string s).
  { unfold getFullPath, bind at 1, gets. apply Nat.eqb_neq in Hne. rewrite Hne.
    unfold bind at 1, depthBound, gets. cbn [pathParts].
    unfold bind at 1. unfold bind at 1, gets. rewrite Hne.
    unfold bind at 1, deref. rewrite Hic, Hpar. cbn [app].
    rewrite HL by lia. reflexivity. }
  rewrite Hcpath. clear Hcpath.
  destruct (Nat.eqb p (root s)) eqn:Hpr.
  - exists "/". split.
    + unfold getFullPath, bind, gets. rewrite Hpr. reflexivity.
    + apply Nat.eqb_eq in Hpr. subst p.
      assert (L = []) as ->.
      { specialize (HL [] 0%nat). cbn [pathParts] in HL. unfold bind, gets in HL.
        rewrite Nat.eqb_refl in HL.
        destruct n as [|n].
        - specialize (HL (Nat.le_refl 0)). injection HL as HL. symmetry. exact HL.
        - inversion Hin as [|n' x it q Hit Hq Hin']; subst.
          rewrite <- (wf_top s T Hwf) in Hit.
          pose proof (shape_top _ _ _ _ (wf_shape s T Hwf) Hit). congruence. }
      reflexivity.
  - exists ("/" ++ joinPath (rev L))%string. split.
    + unfold getFullPath, bind at 1, gets. rewrite Hpr.
      unfold bind at 1, depthBound, gets. unfold bind.
      rewrite HL by lia. reflexivity.
    + apply Nat.eqb_neq in Hpr. specialize (HLne Hpr).
      rewrite rev_app_distr. cbn [rev app].
      rewrite joinPath_snoc.
      * rewrite !append_assoc'. reflexivity.
      * intros Hnil. apply HLne. apply (f_equal (@rev string)) in Hnil.
        rewrite rev_involutive in Hnil. exact Hnil.
Qed.

(** X6. [getFullPath] on a tree: the path of the root is "/", and the
    path of any other item is the path of its parent, a separator unless
    the parent is the root, and the item's name.  The walk up the
    [parent] pointers ends at the root for every item of the tree. *)
Theorem getFullPath_of_child (s : FileSystem) (c p : ptr) (ic : Item) :
  hasTree s -> heap s !! c = Some ic -> parent ic = Some p ->
  getFullPath (root s) s = Ok "/" s /\
  exists pp, getFullPath p s = Ok pp s /\
    getFullPath c s =
    Ok ((if Nat.eqb p (root s) then "/" else pp ++ "/") ++ name ic)%string s.
Proof.
  intros [T Hwf] Hic Hpar. exact (getFullPath_step s T c p ic Hwf Hic Hpar).
Qed.

Lemma getFullPath_of_child_witness :
  getFullPath (root dirWithFileState) dirWithFileState = Ok "/" dirWithFileState /\
  exists pp, getFullPath 1%nat dirWithFileState = Ok pp dirWithFileState /\
    getFullPath 2%nat dirWithFileState =
    Ok ((if Nat.eqb 1 (root dirWithFileState) then "/" else pp ++ "/") ++ "f")%string
       dirWithFileState.
Proof.
  apply (getFullPath_of_child dirWithFileState 2%nat 1%nat
           (mkItem false "f" [x41] [0] [] (Some 1%nat))).
  - exact dirWithFileState_tree.
  - reflexivity.
  - reflexivity.
Defined.


(** ** The files of the tree *)

(** X7. [collectAllFiles] from the root of a tree appends to the list
    it is given every live file, each once and no directory, and
    changes nothing. *)
Theorem collectAllFiles_finds_every_file (s : FileSystem) (acc : list ptr) :
  hasTree s ->
  exists found,
    collectAllFiles (S (brk s)) (root s) acc s = Ok (acc ++ found) s /\
    NoDup found /\
    forall p, p ∈ found <-> exists it, heap s !! p = Some it /\ isFolder it = false.
Proof.
  intros [T Hwf]. exists (filesBelow (heap s) T).
  assert (Hlow : forall p, p ∈ nodes T -> (p < brk s)%nat).
  { intros p Hp. apply (wf_brk s T Hwf). eapply wfTree_live; eauto. }
  split; [|split].
  - rewrite <- (wf_top s T Hwf).
    apply (collectAllFiles_tree s T None); [apply (wf_shape s T Hwf)|].
    apply depthBound_enough; [apply (wf_nodup s T Hwf) | exact Hlow].
  - apply NoDup_filesBelow. apply (wf_nodup s T Hwf).
  - intros p. split.
    + intros Hp. eapply filesBelow_file; [apply (wf_shape s T Hwf) | exact Hp].
    + intros (it & Hit & Hkind).
      eapply filesBelow_complete;
        [apply (wf_leaves s T Hwf) | apply (wf_shape s T Hwf) | | | exact Hit | exact Hkind].
      * apply (wf_dom s T Hwf). eauto.
      * intros ->. rewrite (wf_top s T Hwf) in Hit.
        destruct (wf_rootdir s T Hwf) as (ir & Hir & Hrk). congruence.
Qed.

Lemma collectAllFiles_finds_every_file_witness :
  exists found,
    collectAllFiles (S (brk dirWithFileState)) (root dirWithFileState) [] dirWithFileState
    = Ok ([] ++ found) dirWithFileState /\
    NoDup found /\
    forall p, p ∈ found <->
              exists it, heap dirWithFileState !! p = Some it /\ isFolder it = false.
Proof.
  apply (collectAllFiles_finds_every_file dirWithFileState []).
  exact dirWithFileState_tree.
Defined.

(** ** Resolution on a tree *)

Lemma tree_children_live s T q qi :
  wfTree s T -> q ∈ nodes T -> heap s !! q = Some qi -> allLive (heap s) (children qi).
Proof.
  intros Hwf Hq Hqi c Hc. eapply wfTree_live; [exact Hwf|].
  eapply shape_child; [apply (wf_shape s T Hwf) | exact Hq | exact Hqi |].
  apply list_elem_of_In. exact Hc.
Qed.

Lemma childNamed_elem h cs part c : childNamed h cs part = Some c -> c ∈ cs.
Proof.
  unfold childNamed. intros H. apply find_some in H as [H _].
  apply list_elem_of_In. exact H.
Qed.

Lemma walk_defined s T parts : forall current,
  wfTree s T -> current ∈ nodes T -> exists r, walk current parts s = Ok r s.
Proof.
  induction parts as [|part rest IH]; intros current Hwf Hc; cbn [walk].
  - eexists. reflexivity.
  - destruct (part =? ".")%string; [apply IH; assumption|].
    destruct (wfTree_live s T current Hwf Hc) as [it Hit].
    destruct (part =? "..")%string.
    + unfold bind at 1, parentOrSelf, bind at 1, deref. rewrite Hit. unfold ret at 1.
      apply IH; [exact Hwf|].
      assert (H : parentOrSelf current s
                  = Ok (match parent it with Some p => p | None => current end) s).
      { unfold parentOrSelf, bind, deref. rewrite Hit. reflexivity. }
      eapply parentOrSelf_in; eauto.
    + unfold bind at 1, deref. rewrite Hit. unfold bind at 1.
      rewrite (findChild_childNamed _ _ _ (tree_children_live s T current it Hwf Hc Hit)).
      destruct (childNamed (heap s) (children it) part) as [child|] eqn:E;
        [|eexists; reflexivity].
      apply IH; [exact Hwf|].
      eapply shape_child; [apply (wf_shape s T Hwf) | exact Hc | exact Hit |].
      eapply childNamed_elem. exact E.
Qed.

(** On a tree every path resolves to an item of the tree or to nothing. *)
Lemma getItem_defined s T path :
  wfTree s T -> exists r, getItem path s = Ok r s.
Proof.
  intros Hwf. unfold getItem.
  destruct ((path =? "")%string || (path =? ".")%string); [eexists; reflexivity|].
  destruct (path =? "/")%string; [eexists; reflexivity|].
  destruct (path =? "..")%string.
  { destruct (wfTree_live s T _ Hwf (wf_cur s T Hwf)) as [it Hit].
    unfold bind, gets, parentOrSelf, bind, deref. rewrite Hit. eexists. reflexivity. }
  destruct (beginsWithSlash path); unfold bind at 1, gets.
  - apply (walk_defined s T); [exact Hwf | eapply wfTree_root; eauto].
  - apply (walk_defined s T); [exact Hwf | exact (wf_cur s T Hwf)].
Qed.

(** ** cd *)

Lemma getItem_valid_name n s :
  isValidName n = true -> getItem n s = walk (currentDir s) [n] s.
Proof.
  intros H. destruct (validName_isPart n H) as (Hp & H1 & H2 & H3 & H4).
  assert (H5 : n <> "/") by (intros ->; discriminate H4).
  unfold getItem. rewrite (splitPath_isPart n Hp).
  apply String.eqb_neq in H1, H2, H3, H5. rewrite H1, H2, H3, H5, H4. reflexivity.
Qed.

(** X8. Down and up again: on a tree, when [cd n] with a valid name [n]
    has entered a child directory, [cd ..] comes back, and the state is
    again the one before the first call. *)
Theorem cd_down_then_up (s s1 : FileSystem) (n : string) :
  hasTree s -> isValidName n = true -> cd n s = Ok tt s1 -> cd ".." s1 = Ok tt s.
Proof.
  intros [T Hwf] Hn H.
  destruct (validName_isPart n Hn) as (_ & _ & H2 & H3 & _).
  unfold cd in H. unfold bind at 1 in H.
  rewrite (getItem_valid_name n s Hn) in H. cbn [walk] in H.
  apply String.eqb_neq in H2, H3. rewrite H2, H3 in H.
  destruct (wf_curdir s T Hwf) as (c & Hc & Hck).
  unfold bind at 1, deref in H. rewrite Hc in H.
  unfold bind at 1 in H.
  destruct (findChild (children c) n s) as [[t|] s0| |] eqn:Hfind; try discriminate.
  pose proof (readonly_Ok _ _ _ _ (readonly_findChild _ _) Hfind). subst s0.
  cbn [walk] in H. unfold ret at 1 in H.
  pose proof (findChild_elem _ _ _ _ _ Hfind) as Htc.
  destruct (shape_child_parent _ _ _ _ _ _ (wf_shape s T Hwf) (wf_cur s T Hwf) Hc Htc)
    as (it & Hit & Hpar).
  unfold bind, deref in H. rewrite Hit in H.
  destruct (isFolder it); cbn [negb] in H; [|discriminate].
  injection H as <-.
  unfold cd, getItem. cbn [String.eqb Ascii.eqb Bool.eqb orb].
  unfold bind, gets, parentOrSelf, bind, deref, ret, modify.
  cbn [currentDir heap set_currentDir]. rewrite Hit, Hpar.
  change (heap (set_currentDir t s)) with (heap s). rewrite Hc, Hck. cbn [negb].
  destruct s; reflexivity.
Qed.

Lemma cd_down_then_up_witness :
  cd ".." (set_currentDir 1%nat dirWithFileState) = Ok tt dirWithFileState.
Proof.
  apply (cd_down_then_up dirWithFileState (set_currentDir 1%nat dirWithFileState) "d").
  - exact dirWithFileState_tree.
  - reflexivity.
  - reflexivity.
Defined.

(** ** The commands that only read *)

Definition reads (o : op) : bool :=
  match o with
  | Pwd | Ls _ | Get _ _ | Info _ => true
  | _ => false
  end.

Lemma forM_deref_live s (cs : list ptr) :
  allLive (heap s) cs -> forM cs (fun child => deref child ;; ret tt) s = Ok tt s.
Proof.
  unfold forM. induction cs as [|c cs IH]; intros Hlive; cbn [foldM]; [reflexivity|].
  destruct (Hlive c (or_introl eq_refl)) as [it Hit].
  unfold bind at 1. unfold bind at 1, deref. rewrite Hit. unfold ret at 1.
  apply IH. intros c' Hc'. apply Hlive. right. exact Hc'.
Qed.

Lemma readers_run (o : op) (s : FileSystem) (T : tree) :
  wfTree s T -> reads o = true ->
  exec o s = Ok tt s \/ exists e, exec o s = Throw e s.
Proof.
  intros Hwf Hrd.
  destruct o; try discriminate Hrd; cbn [exec].
  - (* pwd *)
    left. unfold pwd, bind at 1, gets.
    destruct (getFullPath_defined s T _ Hwf (wf_cur s T Hwf)) as [p Hp].
    unfold bind. rewrite Hp. reflexivity.
  - (* ls *)
    unfold ls.
    assert (Hgo : forall t, t ∈ nodes T ->
              (let* it := deref t in
               if isFolder it then forM (children it) (fun child => deref child ;; ret tt)
               else getFullPath t ;; ret tt) s = Ok tt s).
    { intros t Hin. destruct (wfTree_live s T t Hwf Hin) as [it Hit].
      unfold bind at 1, deref. rewrite Hit. destruct (isFolder it).
      - apply forM_deref_live. eapply tree_children_live; eauto.
      - destruct (getFullPath_defined s T t Hwf Hin) as [p Hp].
        unfold bind. rewrite Hp. reflexivity. }
    destruct (path =? "")%string.
    + left. unfold bind at 1. unfold bind at 1, gets, ret.
      apply Hgo. exact (wf_cur s T Hwf).
    + destruct (getItem_defined s T path Hwf) as [r Hr].
      destruct r as [t|].
      * left. unfold bind at 1. rewrite Hr. apply Hgo. eapply getItem_in; eauto.
      * right. eexists. unfold bind at 1. rewrite Hr. reflexivity.
  - (* get *)
    unfold get. destruct (getItem_defined s T filename Hwf) as [r Hr].
    destruct r as [f|]; [|right; eexists; unfold bind at 1; rewrite Hr; reflexivity].
    assert (Hin : f ∈ nodes T) by (eapply getItem_in; eauto).
    destruct (wfTree_live s T f Hwf Hin) as [it Hit].
    destruct (isFolder it) eqn:Hk;
      [right; eexists; unfold bind at 1; rewrite Hr; unfold bind, deref;
       rewrite Hit, Hk; reflexivity|].
    destruct canCreate.
    + left. unfold bind at 1. rewrite Hr. unfold bind, deref. rewrite Hit, Hk. reflexivity.
    + right. eexists. unfold bind at 1. rewrite Hr. unfold bind, deref.
      rewrite Hit, Hk. reflexivity.
  - (* info *)
    unfold info. destruct (getItem_defined s T filename Hwf) as [r Hr].
    destruct r as [f|]; [|right; eexists; unfold bind at 1; rewrite Hr; reflexivity].
    assert (Hin : f ∈ nodes T) by (eapply getItem_in; eauto).
    destruct (wfTree_live s T f Hwf Hin) as [it Hit].
    destruct (getFullPath_defined s T f Hwf Hin) as [p Hp].
    left. unfold bind at 1. rewrite Hr. unfold bind, deref. rewrite Hit, Hp. reflexivity.
Qed.




(** * Creating directories and files *)

(** [grows s s']: the items of [s] are still there in [s'], each with
    its name and kind and with its children followed by new ones; root
    and current directory are the same. *)
Definition grows (s s' : FileSystem) : Prop :=
  root s' = root s /\ currentDir s' = currentDir s /\
  forall p it, heap s !! p = Some it ->
    exists it', heap s' !! p = Some it' /\ name it' = name it /\
                isFolder it' = isFolder it /\
                exists more, children it' = children it ++ more.

Lemma grows_refl s : grows s s.
Proof.
  split; [reflexivity|]. split; [reflexivity|]. intros p it Hit.
  exists it. repeat split; auto. exists []. rewrite app_nil_r. reflexivity.
Qed.

Lemma grows_trans s1 s2 s3 : grows s1 s2 -> grows s2 s3 -> grows s1 s3.
Proof.
  intros (Hr1 & Hc1 & H1) (Hr2 & Hc2 & H2).
  split; [congruence|]. split; [congruence|]. intros p it Hit.
  destruct (H1 p it Hit) as (it2 & Hit2 & Hn2 & Hk2 & more2 & Hm2).
  destruct (H2 p it2 Hit2) as (it3 & Hit3 & Hn3 & Hk3 & more3 & Hm3).
  exists it3. split; [exact Hit3|]. split; [congruence|]. split; [congruence|].
  exists (more2 ++ more3). rewrite Hm3, Hm2, app_assoc. reflexivity.
Qed.

(** [noneNamed s cs part]: the items [cs] are live and none has the
    name [part]. *)
Definition noneNamed (s : FileSystem) (cs : list ptr) (part : string) : Prop :=
  forall c, c ∈ cs -> exists it, heap s !! c = Some it /\ (name it =? part)%string = false.

Lemma noneNamed_grows s s2 cs part :
  noneNamed s cs part -> grows s s2 -> noneNamed s2 cs part.
Proof.
  intros Hn (_ & _ & Hg) c Hc. destruct (Hn c Hc) as (it & Hit & Hne).
  destruct (Hg c it Hit) as (it' & Hit' & Hname & _). exists it'.
  split; [exact Hit'|]. rewrite Hname. exact Hne.
Qed.

Lemma findFolder_None cs part s s' :
  findFolder cs part s = Ok None s' -> noneNamed s cs part.
Proof.
  induction cs as [|c cs IH]; cbn [findFolder]; intros H x Hx.
  - apply elem_of_nil in Hx. contradiction.
  - apply bind_Ok in H as (it & s1 & H1 & H). apply deref_Ok in H1 as [Hit ->].
    destruct (name it =? part)%string eqn:E.
    + destruct (negb (isFolder it)); discriminate.
    + apply elem_of_cons in Hx as [-> | Hx]; [eauto | exact (IH H x Hx)].
Qed.

Lemma rejectName_Ok cs n e s s' :
  rejectName cs n e s = Ok tt s' -> noneNamed s cs n.
Proof.
  induction cs as [|c cs IH]; cbn [rejectName]; intros H x Hx.
  - apply elem_of_nil in Hx. contradiction.
  - apply bind_Ok in H as (it & s1 & H1 & H). apply deref_Ok in H1 as [Hit ->].
    destruct (name it =? n)%string eqn:E; [discriminate|].
    apply elem_of_cons in Hx as [-> | Hx]; [eauto | exact (IH H x Hx)].
Qed.

Lemma findFolder_skip s cs part rest :
  noneNamed s cs part -> findFolder (cs ++ rest) part s = findFolder rest part s.
Proof.
  induction cs as [|c cs IH]; intros Hn; [reflexivity|].
  destruct (Hn c ltac:(left)) as (it & Hit & Hne).
  cbn [app findFolder]. unfold bind at 1, deref. rewrite Hit, Hne.
  apply IH. intros x Hx. apply Hn. right. exact Hx.
Qed.

Lemma findChild_skip s cs part rest :
  noneNamed s cs part -> findChild (cs ++ rest) part s = findChild rest part s.
Proof.
  induction cs as [|c cs IH]; intros Hn; [reflexivity|].
  destruct (Hn c ltac:(left)) as (it & Hit & Hne).
  cbn [app findChild]. unfold bind at 1, deref. rewrite Hit, Hne.
  apply IH. intros x Hx. apply Hn. right. exact Hx.
Qed.

Lemma rejectName_skip s cs n e rest :
  noneNamed s cs n -> rejectName (cs ++ rest) n e s = rejectName rest n e s.
Proof.
  induction cs as [|c cs IH]; intros Hn; [reflexivity|].
  destruct (Hn c ltac:(left)) as (it & Hit & Hne).
  cbn [app rejectName]. unfold bind at 1, deref. rewrite Hit, Hne.
  apply IH. intros x Hx. apply Hn. right. exact Hx.
Qed.

Lemma findFolder_grows cs part s n s' s2 more :
  findFolder cs part s = Ok (Some n) s' -> grows s s2 ->
  findFolder (cs ++ more) part s2 = Ok (Some n) s2.
Proof.
  intros H (_ & _ & Hg). induction cs as [|c cs IH]; cbn [findFolder] in H; [discriminate|].
  apply bind_Ok in H as (it & s1 & H1 & H). apply deref_Ok in H1 as [Hit ->].
  destruct (Hg c it Hit) as (it' & Hit' & Hname & Hkind & _).
  cbn [app findFolder]. unfold bind at 1, deref. rewrite Hit', Hname, Hkind.
  destruct (name it =? part)%string.
  - destruct (negb (isFolder it)); [discriminate|]. injection H as <- _. reflexivity.
  - apply IH. exact H.
Qed.

Lemma findFolder_findChild cs part s n s' :
  findFolder cs part s = Ok (Some n) s' -> findChild cs part s = Ok (Some n) s.
Proof.
  induction cs as [|c cs IH]; cbn [findFolder findChild]; intros H; [discriminate|].
  apply bind_Ok in H as (it & s1 & H1 & H). apply deref_Ok in H1 as [Hit ->].
  unfold bind, deref. rewrite Hit.
  destruct (name it =? part)%string.
  - destruct (negb (isFolder it)); [discriminate|]. injection H as <- _. reflexivity.
  - apply IH in H. unfold bind, deref in H. exact H.
Qed.

(** One step of [mkdir], and the same step taken again later. *)
Lemma mkdirStep_again current part s n s1 :
  brkOk s -> mkdirStep current part s = Ok n s1 ->
  brkOk s1 /\ grows s s1 /\
  forall s2, grows s1 s2 ->
    mkdirStep current part s2 = Ok n s2 /\ isDir (heap s2) n /\
    forall rest, walk current (part :: rest) s2 = walk n rest s2.
Proof.
  intros Hbrk H. unfold mkdirStep in *.
  destruct ((part =? "")%string || (part =? ".")%string || (part =? "..")%string) eqn:Hdots;
    [discriminate|].
  destruct (negb (isValidName part)) eqn:Hvalid; [discriminate|].
  apply orb_false_iff in Hdots as [Hdots Hd2]. apply orb_false_iff in Hdots as [_ Hd1].
  apply bind_Ok in H as (c & s0 & H0 & H). apply deref_Ok in H0 as [Hc ->].
  apply bind_Ok in H as (found & s0 & Hfind & H).
  pose proof (pure_Ok _ _ _ _ (pure_findFolder _ _) Hfind). subst s0.
  assert (Hlater : forall s2 c2 more,
            heap s2 !! current = Some c2 -> children c2 = children c ++ more ->
            findFolder (children c ++ more) part s2 = Ok (Some n) s2 ->
            (let* c := deref current in
             let* found := findFolder (children c) part in
             match found with
             | Some next => ret next
             | None =>
                 let* newDir := new (mkItem true part [] [] [] (Some current)) in
                 push_back current newDir ;; getFullPath newDir ;; ret newDir
             end) s2 = Ok n s2 /\ isDir (heap s2) n /\
            forall rest, walk current (part :: rest) s2 = walk n rest s2).
  { intros s2 c2 more Hc2 Hch Hf. split; [|split].
    - unfold bind at 1, deref. rewrite Hc2, Hch. unfold bind at 1. rewrite Hf. reflexivity.
    - apply findFolder_elem in Hf as [_ Hdir]. exact Hdir.
    - intros rest. cbn [walk]. rewrite Hd1, Hd2.
      unfold bind at 1, deref. rewrite Hc2, Hch. unfold bind at 1.
      rewrite (findFolder_findChild _ _ _ _ _ Hf). reflexivity. }
  destruct found as [next|].
  - injection H as <- <-. split; [exact Hbrk|]. split; [apply grows_refl|].
    intros s2 Hg. pose proof Hg as (_ & _ & Hg').
    destruct (Hg' current c Hc) as (c2 & Hc2 & _ & _ & more & Hch).
    apply (Hlater s2 c2 more Hc2 Hch). eapply findFolder_grows; eauto.
  - assert (Hcb : current <> brk s).
    { intros Heq. pose proof (Hbrk current ltac:(eauto)). lia. }
    apply bind_Ok in H as (newDir & sA & HA & H). injection HA as <- <-.
    apply bind_Ok in H as ([] & sB & HB & H).
    unfold push_back, update in HB. cbn [heap] in HB.
    rewrite lookup_insert_ne in HB by congruence. rewrite Hc in HB. injection HB as <-.
    apply bind_Ok in H as (str & s3 & Hpath & H).
    pose proof (pure_Ok _ _ _ _ (pure_getFullPath _) Hpath). subst s3.
    injection H as <- <-.
    assert (Hgrow : grows s
              (set_heap (<[current := set_children (children c ++ [brk s]) c]>
                           (heap (mkFS (disk s) (sectorMap s)
                                       (<[brk s := mkItem true part [] [] [] (Some current)]>
                                          (heap s))
                                       (S (brk s)) (root s) (currentDir s) (totalSectors s))))
                        (mkFS (disk s) (sectorMap s)
                              (<[brk s := mkItem true part [] [] [] (Some current)]> (heap s))
                              (S (brk s)) (root s) (currentDir s) (totalSectors s)))).
    { split; [reflexivity|]. split; [reflexivity|]. intros p it Hit. cbn [heap set_heap].
      destruct (decide (p = current)) as [->|Hpc].
      - rewrite lookup_insert_eq. rewrite Hc in Hit. injection Hit as <-.
        eexists. split; [reflexivity|]. cbn. repeat split. eexists. reflexivity.
      - rewrite lookup_insert_ne by congruence.
        assert (p <> brk s).
        { intros Heq. pose proof (Hbrk p ltac:(eauto)). lia. }
        rewrite lookup_insert_ne by congruence. exists it. repeat split; auto.
        exists []. rewrite app_nil_r. reflexivity. }
    split; [|split; [exact Hgrow|]].
    + intros p [it Hp]. cbn [heap set_heap brk] in *.
      destruct (decide (p = current)) as [->|Hpc].
      * pose proof (Hbrk current ltac:(eauto)). lia.
      * rewrite lookup_insert_ne in Hp by congruence.
        destruct (decide (p = brk s)) as [->|Hpb]; [lia|].
        rewrite lookup_insert_ne in Hp by congruence.
        pose proof (Hbrk p ltac:(eauto)). lia.
    + intros s2 Hg. pose proof Hg as (_ & _ & Hg').
      destruct (Hg' current (set_children (children c ++ [brk s]) c)) as
        (c2 & Hc2 & _ & _ & more & Hch).
      { cbn [heap set_heap]. apply lookup_insert_eq. }
      destruct (Hg' (brk s) (mkItem true part [] [] [] (Some current))) as
        (nd & Hnd & Hname & Hkind & _).
      { cbn [heap set_heap]. rewrite lookup_insert_ne by congruence. apply lookup_insert_eq. }
      cbn [children set_children name isFolder] in Hch, Hname, Hkind.
      rewrite <- app_assoc in Hch.
      apply (Hlater s2 c2 ([brk s] ++ more) Hc2 Hch).
      rewrite findFolder_skip.
      * cbn [app findFolder]. unfold bind, deref. rewrite Hnd, Hname, String.eqb_refl, Hkind.
        reflexivity.
      * eapply noneNamed_grows; [eapply findFolder_None; exact Hfind|].
        eapply grows_trans; [exact Hgrow | exact Hg].
Qed.

(** The loop of [mkdir], and the same loop run again later. *)
Lemma mkdirLoop_again parts : forall current s r s1,
  brkOk s -> foldM mkdirStep parts current s = Ok r s1 ->
  brkOk s1 /\ grows s s1 /\
  forall s2, grows s1 s2 ->
    foldM mkdirStep parts current s2 = Ok r s2 /\
    walk current parts s2 = Ok (Some r) s2 /\
    (parts <> [] -> isDir (heap s2) r).
Proof.
  induction parts as [|part rest IH]; intros current s r s1 Hbrk H; cbn [foldM] in H.
  - injection H as <- <-. split; [exact Hbrk|]. split; [apply grows_refl|].
    intros s2 _. split; [reflexivity|]. split; [reflexivity | congruence].
  - apply bind_Ok in H as (n & sA & Hstep & H).
    destruct (mkdirStep_again _ _ _ _ _ Hbrk Hstep) as (HbrkA & HgA & HagainA).
    destruct (IH n sA r s1 HbrkA H) as (Hbrk1 & Hg1 & Hagain1).
    split; [exact Hbrk1|]. split; [eapply grows_trans; eauto|].
    intros s2 Hg2.
    destruct (HagainA s2 (grows_trans _ _ _ Hg1 Hg2)) as (Hs & Hdir & Hwalk).
    destruct (Hagain1 s2 Hg2) as (Hf & Hw & Hd).
    split; [|split].
    + cbn [foldM]. unfold bind. rewrite Hs. exact Hf.
    + rewrite Hwalk. exact Hw.
    + intros _. destruct rest as [|p2 rest]; [|apply Hd; discriminate].
      cbn [foldM] in Hf. injection Hf as <-. exact Hdir.
Qed.

(** The parts of [mkdir path], when the call has returned. *)
Lemma mkdir_Ok path s s' :
  mkdir path s = Ok tt s' ->
  path <> "" /\ splitPath path <> [] /\
  exists r, foldM mkdirStep (splitPath path)
                  (if beginsWithSlash path then root s else currentDir s) s = Ok r s'.
Proof.
  unfold mkdir. intros H.
  destruct (path =? "")%string eqn:E; [discriminate|]. apply String.eqb_neq in E.
  split; [exact E|]. destruct (splitPath path) as [|p ps] eqn:Hparts; [discriminate|].
  split; [discriminate|].
  apply bind_Ok in H as (start & s0 & H0 & H).
  assert (start = (if beginsWithSlash path then root s else currentDir s) /\ s0 = s)
    as [-> ->].
  { destruct (beginsWithSlash path); injection H0 as <- <-; auto. }
  apply bind_Ok in H as (r & s1 & Hfold & H). injection H as <-.
  exists r. exact Hfold.
Qed.

Lemma mkdir_run path s r s' :
  path <> "" -> splitPath path <> [] ->
  foldM mkdirStep (splitPath path)
        (if beginsWithSlash path then root s else currentDir s) s = Ok r s' ->
  mkdir path s = Ok tt s'.
Proof.
  intros E Hparts Hfold. unfold mkdir. apply String.eqb_neq in E. rewrite E.
  destruct (splitPath path) as [|p ps] eqn:Hp; [congruence|].
  unfold bind at 1.
  replace ((if beginsWithSlash path then gets root else gets currentDir) s)
    with (Ok (if beginsWithSlash path then root s else currentDir s) s)
    by (destruct (beginsWithSlash path); reflexivity).
  unfold bind. rewrite Hfold. reflexivity.
Qed.

(** X10. [mkdir] is idempotent: when [mkdir path] has returned, a second
    [mkdir path] returns as well and changes nothing; every directory of
    the path is found where the first call has left it. *)
Theorem mkdir_twice (s s' : FileSystem) (path : string) :
  brkOk s -> mkdir path s = Ok tt s' -> mkdir path s' = Ok tt s'.
Proof.
  intros Hbrk H. destruct (mkdir_Ok path s s' H) as (E & Hparts & r & Hfold).
  destruct (mkdirLoop_again _ _ _ _ _ Hbrk Hfold) as (_ & (Hroot & Hcur & _) & Hagain).
  destruct (Hagain s' (grows_refl s')) as (Hf & _ & _).
  apply (mkdir_run path s' r); [exact E | exact Hparts|].
  rewrite Hroot, Hcur. exact Hf.
Qed.

Lemma brkOk_init capacity : brkOk (init capacity).
Proof. intros p [it Hp]. cbn in *. apply lookup_singleton_Some in Hp as [<- _]. lia. Qed.

Lemma mkdir_twice_witness :
  mkdir "d" oneDirStateD = Ok tt oneDirStateD.
Proof.
  apply (mkdir_twice (init 4) oneDirStateD "d").
  - apply brkOk_init.
  - vm_compute. reflexivity.
Defined.

(** A path that [mkdir] accepts has none of the special forms of
    [getItem]. *)
Lemma mkdir_path_plain path s r s' :
  splitPath path <> [] ->
  foldM mkdirStep (splitPath path)
        (if beginsWithSlash path then root s else currentDir s) s = Ok r s' ->
  path <> "." /\ path <> ".." /\ path <> "/".
Proof.
  intros Hparts Hfold.
  repeat split; intros ->; try (apply Hparts; reflexivity); discriminate Hfold.
Qed.

(** X11. What [mkdir] has made, [cd] enters: when [mkdir path] has
    returned, [path] resolves to a directory, and [cd path] makes it the
    current directory. *)
Theorem mkdir_then_cd (s s' : FileSystem) (path : string) :
  brkOk s -> mkdir path s = Ok tt s' ->
  exists d, getItem path s' = Ok (Some d) s' /\ isDir (heap s') d /\
            cd path s' = Ok tt (set_currentDir d s').
Proof.
  intros Hbrk H. destruct (mkdir_Ok path s s' H) as (E & Hparts & r & Hfold).
  destruct (mkdir_path_plain path s r s' Hparts Hfold) as (E1 & E2 & E3).
  destruct (mkdirLoop_again _ _ _ _ _ Hbrk Hfold) as (_ & (Hroot & Hcur & _) & Hagain).
  destruct (Hagain s' (grows_refl s')) as (_ & Hwalk & Hdir).
  specialize (Hdir Hparts). exists r.
  assert (Hget : getItem path s' = Ok (Some r) s').
  { unfold getItem. apply String.eqb_neq in E, E1, E2, E3. rewrite E, E1, E2, E3.
    cbn [orb]. unfold bind at 1.
    replace ((if beginsWithSlash path then gets root else gets currentDir) s')
      with (Ok (if beginsWithSlash path then root s else currentDir s) s')
      by (rewrite <- Hroot, <- Hcur; destruct (beginsWithSlash path); reflexivity).
    exact Hwalk. }
  split; [exact Hget|]. split; [exact Hdir|].
  destruct Hdir as (it & Hit & Hk).
  unfold cd, bind at 1. rewrite Hget. unfold bind, deref. rewrite Hit, Hk. reflexivity.
Qed.

Lemma mkdir_then_cd_witness :
  exists d, getItem "d" oneDirStateD = Ok (Some d) oneDirStateD /\
            isDir (heap oneDirStateD) d /\
            cd "d" oneDirStateD = Ok tt (set_currentDir d oneDirStateD).
Proof.
  apply (mkdir_then_cd (init 4) oneDirStateD "d").
  - apply brkOk_init.
  - vm_compute. reflexivity.
Defined.


(** ** A new file in a directory *)

(** The heap after [new it] and the [push_back] of the new address into
    the children of [d]. *)
Definition attached (h : gmap ptr Item) (n d : ptr) (c it : Item) : gmap ptr Item :=
  <[n := it]> (<[d := set_children (children c ++ [n]) c]> h).

Lemma attach_run s d c it :
  brkOk s -> heap s !! d = Some c ->
  forall B (k : ptr -> M B),
    bind (new it) (fun n => bind (push_back d n) (fun _ => k n)) s
    = k (brk s) (mkFS (disk s) (sectorMap s) (attached (heap s) (brk s) d c it)
                      (S (brk s)) (root s) (currentDir s) (totalSectors s)).
Proof.
  intros Hbrk Hd B k.
  assert (Hne : d <> brk s).
  { intros Heq. pose proof (Hbrk d ltac:(eauto)). lia. }
  unfold bind at 1, new. unfold bind at 1, push_back, update. cbn [heap].
  rewrite lookup_insert_ne by congruence. rewrite Hd. unfold set_heap, attached.
  cbn [disk sectorMap heap brk root currentDir totalSectors].
  rewrite (insert_insert_ne _ d (brk s)) by exact Hne. reflexivity.
Qed.

Lemma grows_attached s s' d c it :
  brkOk s -> heap s !! d = Some c ->
  root s' = root s -> currentDir s' = currentDir s ->
  heap s' = attached (heap s) (brk s) d c it ->
  grows s s'.
Proof.
  intros Hbrk Hd Hr Hc Hh. split; [exact Hr|]. split; [exact Hc|].
  intros p ip Hp. rewrite Hh. unfold attached.
  assert (p <> brk s).
  { intros Heq. pose proof (Hbrk p ltac:(eauto)). lia. }
  rewrite lookup_insert_ne by congruence.
  destruct (decide (p = d)) as [->|Hpd].
  - rewrite lookup_insert_eq. rewrite Hd in Hp. injection Hp as <-.
    eexists. split; [reflexivity|]. cbn. repeat split. eexists. reflexivity.
  - rewrite lookup_insert_ne by congruence. exists ip. repeat split; auto.
    exists []. rewrite app_nil_r. reflexivity.
Qed.

(** [saveToDisk] on a file that has no sectors yet. *)
Lemma saveToDisk_first s n it :
  heap s !! n = Some it -> isFolder it = false -> sectors it = [] -> fitsInt (content it) ->
  saveToDisk (Some n) s =
  saved s n it (storeChunks (chunks (content it)) (sectorMap s) (disk s)).
Proof.
  intros Hit Hk Hsec Hfit.
  rewrite (saveToDisk_run s n it s Hit Hk Hfit).
  - rewrite Hsec. reflexivity.
  - rewrite Hsec. destruct s; reflexivity.
Qed.

(** X12. [touch f], when it returns, has added to the current directory
    one new file named [f], empty and without sectors, and has left
    bitmap and disk alone.  The path [f] now resolves to that file, and a
    second [touch f] is refused with "File already exists". *)
Theorem touch_creates_empty_file (s s' : FileSystem) (f : string) :
  brkOk s -> touch f s = Ok tt s' ->
  exists c,
    heap s !! currentDir s = Some c /\
    heap s' = attached (heap s) (brk s) (currentDir s) c
                       (mkItem false f [] [] [] (Some (currentDir s))) /\
    disk s' = disk s /\ sectorMap s' = sectorMap s /\
    getItem f s' = Ok (Some (brk s)) s' /\
    touch f s' = Throw (runtime_error ("File already exists: " ++ f)%string) s'.
Proof.
  intros Hbrk H. unfold touch in H.
  destruct (isValidName f) eqn:Hvalid; cbn [negb] in H; [|discriminate].
  apply bind_Ok in H as (cur & s0 & H0 & H). injection H0 as <- <-.
  apply bind_Ok in H as (c & s0 & H0 & H). apply deref_Ok in H0 as [Hc ->].
  apply bind_Ok in H as ([] & s0 & Hrej & H).
  pose proof (pure_Ok _ _ _ _ (pure_rejectName _ _ _) Hrej). subst s0.
  rewrite (attach_run s (currentDir s) c _ Hbrk Hc) in H.
  set (it := mkItem false f [] [] [] (Some (currentDir s))) in *.
  set (sB := mkFS _ _ _ _ _ _ _) in H.
  rewrite (saveToDisk_first sB (brk s) it) in H;
    [| apply lookup_insert_eq | reflexivity | reflexivity | apply fitsInt_nil].
  cbn in H. injection H as <-.
  exists c. split; [exact Hc|]. cbn [heap disk sectorMap].
  assert (Hheap : <[brk s := set_sectors [] it]> (attached (heap s) (brk s) (currentDir s) c it)
                  = attached (heap s) (brk s) (currentDir s) c it).
  { unfold attached. rewrite insert_insert_eq. reflexivity. }
  rewrite Hheap. split; [reflexivity|]. split; [reflexivity|]. split; [reflexivity|].
  set (s' := mkFS _ _ _ _ _ _ _).
  assert (Hg : grows s s').
  { eapply grows_attached; [exact Hbrk | exact Hc | reflexivity | reflexivity | reflexivity]. }
  assert (Hnone : noneNamed s' (children c) f).
  { eapply noneNamed_grows; [eapply rejectName_Ok; exact Hrej | exact Hg]. }
  assert (Hcur : heap s' !! currentDir s = Some (set_children (children c ++ [brk s]) c)).
  { cbn [heap s']. unfold attached.
    rewrite lookup_insert_ne, lookup_insert_eq; [reflexivity|].
    intros Heq. pose proof (Hbrk (currentDir s) ltac:(eauto)). lia. }
  assert (Hnew : heap s' !! brk s = Some it).
  { cbn [heap s']. apply lookup_insert_eq. }
  destruct (validName_isPart f Hvalid) as (_ & _ & H2 & H3 & _).
  apply String.eqb_neq in H2, H3.
  split.
  - rewrite (getItem_valid_name f s' Hvalid). cbn [walk]. rewrite H2, H3.
    change (currentDir s') with (currentDir s).
    unfold bind at 1, deref. rewrite Hcur. cbn [children set_children].
    unfold bind at 1. rewrite findChild_skip by exact Hnone.
    cbn [findChild]. unfold bind, deref. rewrite Hnew. cbn [name it].
    rewrite String.eqb_refl. reflexivity.
  - unfold touch. rewrite Hvalid. cbn [negb].
    unfold bind at 1, gets. change (currentDir s') with (currentDir s).
    unfold bind at 1, deref. rewrite Hcur. cbn [children set_children].
    unfold bind at 1. rewrite rejectName_skip by exact Hnone.
    cbn [rejectName]. unfold bind, deref. rewrite Hnew. cbn [name it].
    rewrite String.eqb_refl. reflexivity.
Qed.

(** The state after [touch f] on a fresh filesystem of four sectors. *)
Definition touchedState : FileSystem :=
  mkFS [[]; []; []; []] [false; false; false; false]
       (<[1%nat := mkItem false "f" [] [] [] (Some 0%nat)]>
          {[ 0%nat := mkItem true "/" [] [] [1%nat] None ]})
       2%nat 0%nat 0%nat 4.

Lemma touch_creates_empty_file_witness :
  exists c,
    heap (init 4) !! currentDir (init 4) = Some c /\
    heap touchedState
    = attached (heap (init 4)) (brk (init 4)) (currentDir (init 4)) c
               (mkItem false "f" [] [] [] (Some (currentDir (init 4)))) /\
    disk touchedState = disk (init 4) /\
    sectorMap touchedState = sectorMap (init 4) /\
    getItem "f" touchedState = Ok (Some (brk (init 4))) touchedState /\
    touch "f" touchedState
    = Throw (runtime_error ("File already exists: " ++ "f")%string) touchedState.
Proof.
  apply (touch_creates_empty_file (init 4) touchedState "f").
  - apply brkOk_init.
  - vm_compute. reflexivity.
Defined.

(** ** The content of a file that has been put *)

Lemma readBack_slots (d : list (list byte)) (ids : list Z) (cs : list (list byte)) :
  length ids = length cs ->
  (forall k id, ids !! k = Some id -> d !! Z.to_nat id = cs !! k) ->
  readBack d ids = concat cs.
Proof.
  unfold readBack. revert cs. induction ids as [|id ids IH]; intros cs Hlen Hslot.
  - destruct cs; [reflexivity | discriminate].
  - destruct cs as [|c cs]; [discriminate|]. cbn [map concat].
    rewrite (Hslot 0%nat id eq_refl). cbn [lookup default]. f_equal.
    apply IH; [simpl in Hlen; lia|].
    intros k i Hk. apply (Hslot (S k) i Hk).
Qed.

(** X13. [put], when it returns, has created in the destination
    directory one file with the name of the real file and the text read
    from it.  The file has as many sectors as the text needs, all
    different, each free before the call and allocated after it; the
    sectors read back the text, in order; and no other entry of the
    bitmap and no other slot of the disk has changed. *)
Theorem put_stores_content
        (s s' : FileSystem) (realFile : string) (bytes : list byte) (fsPath : string) :
  brkOk s -> fitsInt (readText bytes) ->
  put realFile (Some bytes) fsPath s = Ok tt s' ->
  exists d c ids,
    getItem fsPath s = Ok (Some d) s /\ heap s !! d = Some c /\
    heap s' = attached (heap s) (brk s) d c
                       (mkItem false realFile (readText bytes) ids [] (Some d)) /\
    length ids = sectorsNeeded (length (readText bytes)) /\
    NoDup ids /\
    readBack (disk s') ids = readText bytes /\
    (forall i, i ∈ ids ->
       0 <= i /\ sectorMap s !! Z.to_nat i = Some false /\
       sectorMap s' !! Z.to_nat i = Some true) /\
    (forall j : nat, (forall i, i ∈ ids -> Z.to_nat i <> j) ->
       sectorMap s' !! j = sectorMap s !! j /\
       ((j < length (disk s))%nat -> disk s' !! j = disk s !! j)).
Proof.
  intros Hbrk Hfit H. unfold put in H. cbv zeta in H.
  apply bind_Ok in H as (d & s0 & Hdest & H).
  pose proof (pure_Ok _ _ _ _ (pure_getDestDir _) Hdest). subst s0.
  apply bind_Ok in H as (c & s0 & H0 & H). apply deref_Ok in H0 as [Hc ->].
  apply bind_Ok in H as ([] & s0 & Hrej & H).
  pose proof (pure_Ok _ _ _ _ (pure_rejectFileName _ _ _) Hrej). subst s0.
  rewrite (attach_run s d c _ Hbrk Hc) in H.
  set (it := mkItem false realFile (readText bytes) [] [] (Some d)) in *.
  set (sB := mkFS _ _ _ _ _ _ _) in H.
  rewrite (saveToDisk_first sB (brk s) it) in H;
    [| apply lookup_insert_eq | reflexivity | reflexivity | exact Hfit].
  cbn [content it sectorMap disk sB] in H.
  destruct (storeChunks _ _ _) as [[[ids m'] d'] ok] eqn:Hstore.
  apply storeChunks_spec in Hstore
    as [_ Hall _ Hnodup Hfresh _ Hmoth Hslot Hdoth _].
  unfold saved in H. destruct ok; [|discriminate]. injection H as <-.
  specialize (Hall eq_refl).
  exists d, c, ids. cbn [heap disk sectorMap sB].
  split.
  { unfold getDestDir in Hdest. apply bind_Ok in Hdest as (r & s0 & Hr & Hdest).
    pose proof (pure_Ok _ _ _ _ (pure_getItem _) Hr). subst s0.
    destruct r as [r|]; [|discriminate].
    apply bind_Ok in Hdest as (ir & s0 & H0 & Hdest). apply deref_Ok in H0 as [_ ->].
    destruct (negb (isFolder ir)); [discriminate|]. injection Hdest as <-. exact Hr. }
  split; [exact Hc|]. split.
  { unfold attached. rewrite insert_insert_eq. reflexivity. }
  split; [rewrite Hall; apply length_chunks|].
  split; [exact Hnodup|]. split.
  { transitivity (concat (chunks (readText bytes))); [|apply concat_chunks].
    apply readBack_slots; [exact Hall | exact Hslot]. }
  split; [exact Hfresh|].
  intros j Hj. split; [apply Hmoth; exact Hj | apply Hdoth; exact Hj].
Qed.

Lemma put_stores_content_witness :
  exists d c ids,
    getItem "." (init 4) = Ok (Some d) (init 4) /\ heap (init 4) !! d = Some c /\
    heap oneFileState = attached (heap (init 4)) (brk (init 4)) d c
                       (mkItem false "f" (readText (replicate 70 x41)) ids [] (Some d)) /\
    length ids = sectorsNeeded (length (readText (replicate 70 x41))) /\
    NoDup ids /\
    readBack (disk oneFileState) ids = readText (replicate 70 x41) /\
    (forall i, i ∈ ids ->
       0 <= i /\ sectorMap (init 4) !! Z.to_nat i = Some false /\
       sectorMap oneFileState !! Z.to_nat i = Some true) /\
    (forall j : nat, (forall i, i ∈ ids -> Z.to_nat i <> j) ->
       sectorMap oneFileState !! j = sectorMap (init 4) !! j /\
       ((j < length (disk (init 4)))%nat -> disk oneFileState !! j = disk (init 4) !! j)).
Proof.
  apply (put_stores_content (init 4) oneFileState "f" (replicate 70 x41) ".").
  - apply brkOk_init.
  - unfold fitsInt, INT_MAX. vm_compute. discriminate.
  - vm_compute. reflexivity.
Defined.


(** * Removing and moving *)

(** X14. Where [rm] does what it says: on a state with sound
    bookkeeping, removing a file or an empty directory of the current
    directory succeeds with and without the flag; the item is deleted and
    taken out of the children; each of its sectors is free afterwards and
    no other entry of the bitmap changes, so that the number of free
    sectors grows by the number of sectors of the item; the disk is not
    touched. *)
Theorem rm_frees_the_item
        (s : FileSystem) (name : string) (recursive : bool) (c : Item) (t : ptr) (it : Item) :
  wf s ->
  heap s !! currentDir s = Some c ->
  findChild (children c) name s = Ok (Some t) s ->
  heap s !! t = Some it -> children it = [] ->
  exists s', rm name recursive s = Ok tt s' /\
    heap s' = delete t (<[currentDir s := set_children (eraseFirst t (children c)) c]> (heap s)) /\
    (forall i, i ∈ sectors it -> sectorMap s' !! Z.to_nat i = Some false) /\
    (forall j : nat, (forall i, i ∈ sectors it -> Z.to_nat i <> j) ->
       sectorMap s' !! j = sectorMap s !! j) /\
    freeCount (sectorMap s') = (freeCount (sectorMap s) + length (sectors it))%nat /\
    disk s' = disk s.
Proof.
  intros [[T Hwf] [Ho Hb]] Hc Hfind Hit Hkids.
  pose proof (findChild_elem _ _ _ _ _ Hfind) as Htc.
  assert (Ht : t ∈ nodes T).
  { eapply shape_child; [apply (wf_shape s T Hwf) | apply (wf_cur s T Hwf) | exact Hc | exact Htc]. }
  assert (Hnt : t <> top T).
  { intros ->.
    destruct (shape_child_parent _ _ _ _ _ _ (wf_shape s T Hwf) (wf_cur s T Hwf) Hc Htc)
      as (it' & Hit' & Hpar).
    pose proof (shape_top _ _ _ _ (wf_shape s T Hwf) Hit'). congruence. }
  destruct (shape_cut _ _ _ _ (wf_shape s T Hwf) (wf_nodup s T Hwf) Ht Hnt Hit)
    as (q & qi & u & Hq & Hqi & HqT & _ & Hu & Htop & Hqu & _).
  destruct (shape_child_parent _ _ _ _ _ _ (wf_shape s T Hwf) (wf_cur s T Hwf) Hc Htc)
    as (it' & Hit' & Hpar).
  rewrite Hit in Hit'. injection Hit' as <-.
  assert (q = currentDir s) by congruence. subst q.
  assert (Hne : t <> currentDir s).
  { intros Heq. apply Hqu. rewrite <- Heq, <- Htop. apply nodes_top. }
  eexists. split.
  { apply (rm_leaf_run name recursive s c t it Hc Hfind Hit Hkids Hne).
    - exact (owns_valid _ _ t it Ho Hit).
    - intros Hk. exact (own_dirs _ _ Ho t it Hit Hk). }
  cbn [heap sectorMap disk]. split; [reflexivity|].
  pose proof (owns_valid _ _ t it Ho Hit) as Hvalid. rewrite Forall_forall in Hvalid.
  split; [|split; [|split; [|reflexivity]]].
  - intros i Hi. apply clearAll_cleared; [exact Hi|].
    destruct (Hvalid i Hi). lia.
  - intros j Hj. apply clearAll_other. exact Hj.
  - apply freeCount_clearAll.
    + exact (own_nodup _ _ Ho t it Hit).
    + intros id Hid. exact (own_marked _ _ Ho t it id Hit Hid).
Qed.

Lemma rm_frees_the_item_witness :
  exists s', rm "f" false oneFileState = Ok tt s' /\
    heap s' = delete 1%nat
                (<[currentDir oneFileState :=
                     set_children (eraseFirst 1%nat [1%nat]) (mkItem true "/" [] [] [1%nat] None)]>
                   (heap oneFileState)) /\
    (forall i, i ∈ sectors oneFileItem -> sectorMap s' !! Z.to_nat i = Some false) /\
    (forall j : nat, (forall i, i ∈ sectors oneFileItem -> Z.to_nat i <> j) ->
       sectorMap s' !! j = sectorMap oneFileState !! j) /\
    freeCount (sectorMap s')
    = (freeCount (sectorMap oneFileState) + length (sectors oneFileItem))%nat /\
    disk s' = disk oneFileState.
Proof.
  apply (rm_frees_the_item oneFileState "f" false
           (mkItem true "/" [] [] [1%nat] None) 1%nat oneFileItem).
  - apply wf_reachable. exact oneFileState_reachableSafely.
  - reflexivity.
  - reflexivity.
  - reflexivity.
  - reflexivity.
Defined.

(** X15. Where the check of [mv] works: on a tree, when [source] is a
    directory and [dest] names an existing item that is [source] itself
    or lies below it, [mv] reports "Cannot move a folder into itself"
    and changes nothing. *)
Theorem mv_refuses_destination_inside_source
        (s : FileSystem) (source dest : string) (src d : ptr) (its : Item) :
  hasTree s ->
  getItem source s = Ok (Some src) s -> heap s !! src = Some its -> isFolder its = true ->
  getItem dest s = Ok (Some d) s -> inside (heap s) src d ->
  mv source dest s = Throw (runtime_error "Cannot move a folder into itself") s.
Proof.
  intros [T Hwf] Hsrc Hits Hk Hd Hin.
  exact (mv_into_existing_refused s T source dest src its d Hwf Hsrc Hits Hk Hd Hin).
Qed.

Lemma mv_refuses_destination_inside_source_witness :
  mv "d" "d/." dirWithFileState
  = Throw (runtime_error "Cannot move a folder into itself") dirWithFileState.
Proof.
  apply (mv_refuses_destination_inside_source dirWithFileState "d" "d/." 1%nat 1%nat
           (mkItem true "d" [] [] [2%nat] (Some 0%nat))).
  - exact dirWithFileState_tree.
  - reflexivity.
  - reflexivity.
  - reflexivity.
  - reflexivity.
  - constructor.
Defined.

(** [sameStore s0 s]: disk, bitmap and free store are those of [s0], the
    same addresses are live, and every item has the kind, the content and
    the sectors it has in [s0]. *)
Definition sameStore (s0 s : FileSystem) : Prop :=
  disk s = disk s0 /\ sectorMap s = sectorMap s0 /\ brk s = brk s0 /\
  totalSectors s = totalSectors s0 /\ root s = root s0 /\ currentDir s = currentDir s0 /\
  forall p, match heap s0 !! p, heap s !! p with
            | Some it0, Some it =>
                isFolder it = isFolder it0 /\ content it = content it0 /\
                sectors it = sectors it0
            | None, None => True
            | _, _ => False
            end.

Lemma sameStore_refl s : sameStore s s.
Proof.
  repeat split. intros p. destruct (heap s !! p); auto.
Qed.

Lemma sameStore_update s0 p f E :
  keepsData f -> hoare (sameStore s0) (update p f) (fun _ => sameStore s0) E.
Proof.
  intros Hf. apply hoare_update.
  intros s it (Hd & Hm & Hb & Ht & Hr & Hc & Hh) Hit.
  repeat split; cbn; auto. intros q. specialize (Hh q). cbn.
  destruct (decide (q = p)) as [->|Hne].
  - rewrite lookup_insert_eq. rewrite Hit in Hh.
    destruct (heap s0 !! p) as [it0|]; [|contradiction].
    destruct (Hf it) as (H1 & H2 & H3). rewrite H1, H2, H3. exact Hh.
  - rewrite lookup_insert_ne by congruence. exact Hh.
Qed.

Ltac store_step s0 :=
  first
    [ apply hoare_ret; solve [auto]
    | apply hoare_throw; solve [auto]
    | apply hoare_fail
    | apply sameStore_update; solve [auto]
    | apply hoare_pure_any; [solve [pure_tac] | solve [auto]]
    | apply hoare_bind with (R := fun _ => sameStore s0); [|intros ?]
    | match goal with
      | |- hoare _ (if ?b then _ else _) _ _ => destruct b
      | |- hoare _ (match ?x with Some _ => _ | None => _ end) _ _ => destruct x
      | |- hoare _ (let (_, _) := ?x in _) _ _ => destruct x
      end ].

Lemma sameStore_detach s0 src :
  hoare (sameStore s0) (detach src) (fun _ => sameStore s0) (fun _ => sameStore s0).
Proof. unfold detach, eraseChild. repeat store_step s0. Qed.

Lemma sameStore_mv s0 source dest :
  hoare (sameStore s0) (mv source dest) (fun _ => sameStore s0) (fun _ => sameStore s0).
Proof.
  unfold mv, push_back.
  repeat first [ apply sameStore_detach | store_step s0 ].
Qed.

(** X16. [mv] only relinks: whether it returns or reports an error, the
    disk, the bitmap and the free store are untouched, the same items
    are live, and every item has kept its kind, its content and its
    sectors (what changes is a name, a parent pointer, two lists of
    children). *)
Theorem mv_keeps_the_store (s : FileSystem) (source dest : string) :
  match mv source dest s with
  | Ok _ s' => sameStore s s'
  | Throw _ s' => sameStore s s'
  | Fault _ => True
  end.
Proof.
  pose proof (sameStore_mv s source dest s (sameStore_refl s)) as H.
  destruct (mv source dest s); exact H.
Qed.


(** * The destructor *)

(** [~FileSystem()]: [deleteTree(root)]. *)
Definition destroy : M unit :=
  let* r := gets root in
  let* fuel := depthBound in
  deleteTree fuel (Some r).

(** X17. The destructor on a state with sound bookkeeping: when the root
    has no children it deletes the root and returns; when the root has a
    child the call has no defined result, because [deleteTree] reads the
    children it has deleted.  So has every exit from a session in which
    something was created and not removed. *)
Theorem destructor_reads_deleted_children (s : FileSystem) (ir : Item) :
  wf s -> heap s !! root s = Some ir ->
  (children ir = [] -> destroy s = Ok tt (set_heap (delete (root s) (heap s)) s)) /\
  (children ir <> [] -> exists f, destroy s = Fault f).
Proof.
  intros [[T Hwf] [Ho Hb]] Hir. split.
  - intros Hnil. destruct (wf_rootdir s T Hwf) as (ir' & Hir' & Hk).
    rewrite Hir in Hir'. injection Hir' as <-.
    unfold destroy, bind at 1, gets. unfold bind at 1, depthBound, gets.
    cbn [deleteTree]. unfold bind at 1, deref. rewrite Hir, Hnil.
    unfold forM at 1. cbn [foldM]. unfold bind at 1, ret at 1.
    cbn [freeSectorsRecursive]. unfold bind at 1. unfold bind at 1, deref. rewrite Hir, Hk, Hnil.
    cbn [negb]. unfold bind at 1, ret at 1. unfold forM. cbn [foldM]. unfold ret at 1.
    unfold delete_. rewrite Hir. reflexivity.
  - intros Hne. unfold destroy, bind at 1, gets. unfold bind at 1, depthBound, gets.
    pose proof (validAll_deleteTree _ (S (brk s)) (Some (root s)) s (owns_validAll s Ho)) as Hv.
    pose proof (deleteTree_use_after_free (S (brk s)) (root s) s ir Hir Hne) as Hu.
    destruct (deleteTree (S (brk s)) (Some (root s)) s) as [[] s'|e s'|f].
    + exfalso. exact (Hu s' eq_refl).
    + contradiction.
    + exists f. reflexivity.
Qed.

Lemma destructor_reads_deleted_children_witness :
  (children (mkItem true "/" [] [] [1%nat] None) = [] ->
   destroy oneFileState
   = Ok tt (set_heap (delete (root oneFileState) (heap oneFileState)) oneFileState)) /\
  (children (mkItem true "/" [] [] [1%nat] None) <> [] ->
   exists f, destroy oneFileState = Fault f).
Proof.
  apply (destructor_reads_deleted_children oneFileState (mkItem true "/" [] [] [1%nat] None)).
  - apply wf_reachable. exact oneFileState_reachableSafely.
  - reflexivity.
Defined.

(** * What defrag leaves alone *)

(** [sameItems s0 s]: the same items are live as in [s0], each with its
    kind, name, content, children and parent; the capacity, the root and
    the current directory are those of [s0].  Only sector lists, bitmap
    and disk may differ. *)
Definition sameItems (s0 s : FileSystem) : Prop :=
  brk s = brk s0 /\ totalSectors s = totalSectors s0 /\
  length (sectorMap s) = length (sectorMap s0) /\
  root s = root s0 /\ currentDir s = currentDir s0 /\
  forall p, match heap s0 !! p, heap s !! p with
            | Some it0, Some it =>
                isFolder it = isFolder it0 /\ name it = name it0 /\
                content it = content it0 /\ children it = children it0 /\
                parent it = parent it0
            | None, None => True
            | _, _ => False
            end.

Lemma sameItems_refl s : sameItems s s.
Proof. repeat split. intros p. destruct (heap s !! p); auto. Qed.

(** Functions on items that change the sector list only. *)
Definition onlySectors (f : Item -> Item) : Prop :=
  forall it, isFolder (f it) = isFolder it /\ name (f it) = name it /\
             content (f it) = content it /\ children (f it) = children it /\
             parent (f it) = parent it.

Lemma onlySectors_set l : onlySectors (set_sectors l).
Proof. intros it. auto. Qed.

Lemma onlySectors_push x : onlySectors (fun it => set_sectors (sectors it ++ [x]) it).
Proof. intros it. auto. Qed.

Lemma sameItems_update s0 p f E :
  onlySectors f -> hoare (sameItems s0) (update p f) (fun _ => sameItems s0) E.
Proof.
  intros Hf. apply hoare_update.
  intros s it (Hb & Ht & Hl & Hr & Hc & Hh) Hit.
  repeat split; cbn; auto. intros q. specialize (Hh q). cbn.
  destruct (decide (q = p)) as [->|Hne].
  - rewrite lookup_insert_eq. rewrite Hit in Hh.
    destruct (heap s0 !! p) as [it0|]; [|contradiction].
    destruct (Hf it) as (H1 & H2 & H3 & H4 & H5). rewrite H1, H2, H3, H4, H5. exact Hh.
  - rewrite lookup_insert_ne by congruence. exact Hh.
Qed.

Lemma sameItems_bitmap s0 (g : list bool -> list bool) s :
  (forall m, length (g m) = length m) ->
  sameItems s0 s -> sameItems s0 (set_sectorMap (g (sectorMap s)) s).
Proof.
  intros Hg (Hb & Ht & Hl & Hr & Hc & Hh). repeat split; cbn; auto.
  rewrite Hg. exact Hl.
Qed.

Lemma sameItems_markSector s0 x E :
  hoare (sameItems s0) (markSector x) (fun _ => sameItems s0) E.
Proof.
  intros s Hs. unfold markSector.
  destruct (Z.of_nat (length (sectorMap s)) <=? x); [exact I|].
  apply (sameItems_bitmap s0 (fun m => <[Z.to_nat x := true]> m)); [|exact Hs].
  intros m. apply length_insert.
Qed.

Lemma sameItems_writeSlot s0 x c E :
  hoare (sameItems s0) (writeSlot x c) (fun _ => sameItems s0) E.
Proof. apply hoare_modify. intros s Hs. exact Hs. Qed.

Lemma sameItems_defragLoop s0 fuel : forall file data pos next,
  hoare (sameItems s0) (defragLoop fuel file data pos next)
        (fun _ => sameItems s0) (fun _ => sameItems s0).
Proof.
  induction fuel as [|fuel IH]; intros file data pos next; cbn [defragLoop];
    (destruct (to_size_t pos <? Z.of_nat (length data)); [|apply hoare_ret; auto]).
  - apply hoare_fail.
  - apply hoare_bind with (R := fun _ => sameItems s0); [apply hoare_gets; auto|].
    intros total. destruct (total <=? next); [apply hoare_throw; auto|].
    apply hoare_bind with (R := fun _ => sameItems s0); [apply sameItems_markSector|].
    intros _. apply hoare_bind with (R := fun _ => sameItems s0).
    { apply sameItems_update. apply onlySectors_push. }
    intros _. apply hoare_bind with (R := fun _ => sameItems s0);
      [apply sameItems_writeSlot|].
    intros _. apply IH.
Qed.

Lemma sameItems_defragFile s0 next file :
  hoare (sameItems s0) (defragFile next file)
        (fun _ => sameItems s0) (fun _ => sameItems s0).
Proof.
  unfold defragFile.
  apply hoare_bind with (R := fun _ => sameItems s0); [apply hoare_deref; auto|].
  intros it. destruct (isFolder it); [apply hoare_ret; auto|].
  apply hoare_bind with (R := fun _ => sameItems s0).
  { apply sameItems_update. apply onlySectors_set. }
  intros _. apply sameItems_defragLoop.
Qed.

Lemma sameItems_defrag s0 :
  hoare (sameItems s0) defrag (fun _ => sameItems s0) (fun _ => sameItems s0).
Proof.
  unfold defrag.
  apply hoare_bind with (R := fun _ => sameItems s0); [apply hoare_gets; auto|].
  intros r. apply hoare_bind with (R := fun _ => sameItems s0).
  { apply hoare_pure_any; [apply pure_depthBound | auto]. }
  intros fuel. apply hoare_bind with (R := fun _ => sameItems s0).
  { apply hoare_pure_any; [apply pure_collectAllFiles | auto]. }
  intros files. apply hoare_bind with (R := fun _ => sameItems s0).
  { apply hoare_modify. intros s Hs.
    apply (sameItems_bitmap s0 (map (fun _ => false))); [|exact Hs].
    intros m. apply length_map. }
  intros _. apply hoare_bind with (R := fun _ => sameItems s0); [|intros; apply hoare_ret; auto].
  apply (hoare_foldM (fun _ => sameItems s0)). intros a x _. apply sameItems_defragFile.
Qed.

(** X18. [defrag] moves sectors, nothing else: whether it returns or
    reports that the disk is full, the same items are live, each with its
    kind, name, content, children and parent, and capacity, root and
    current directory are unchanged.  Only the sector lists, the bitmap
    and the disk may have changed. *)
Theorem defrag_changes_sectors_only (s : FileSystem) :
  match defrag s with
  | Ok _ s' => sameItems s s'
  | Throw _ s' => sameItems s s'
  | Fault _ => True
  end.
Proof.
  pose proof (sameItems_defrag s s (sameItems_refl s)) as H.
  destruct (defrag s); exact H.
Qed.


(** * Errors and the state *)

(** The errors of the allocator: the two disk-full messages and the
    range error of [freeSector]. *)
Definition allocErr (e : exn) : Prop := diskFull e \/ exists i, e = out_of_range i.

(** [quiet m]: [m] throws nothing but the errors of the allocator. *)
Definition quiet {A} (m : M A) : Prop :=
  forall s, match m s with
            | Throw e _ => allocErr e
            | _ => True
            end.

(** [atomic s m]: when [m], started in [s], throws anything but an error
    of the allocator, the state is [s] again. *)
Definition atomic {A} (s : FileSystem) (m : M A) : Prop :=
  match m s with
  | Throw e s' => allocErr e \/ s' = s
  | _ => True
  end.

Lemma quiet_ret {A} (a : A) : quiet (ret a).
Proof. intros s. exact I. Qed.

Lemma quiet_fail {A} f : quiet (@fail A f).
Proof. intros s. exact I. Qed.

Lemma quiet_gets {A} (f : FileSystem -> A) : quiet (gets f).
Proof. intros s. exact I. Qed.

Lemma quiet_modify f : quiet (modify f).
Proof. intros s. exact I. Qed.

Lemma quiet_deref p : quiet (deref p).
Proof. intros s. unfold deref. destruct (heap s !! p); exact I. Qed.

Lemma quiet_update p f : quiet (update p f).
Proof. intros s. unfold update. destruct (heap s !! p); exact I. Qed.

Lemma quiet_new it : quiet (new it).
Proof. intros s. exact I. Qed.

Lemma quiet_delete p : quiet (delete_ p).
Proof. intros s. unfold delete_. destruct (heap s !! p); exact I. Qed.

Lemma quiet_bind {A B} (m : M A) (k : A -> M B) :
  quiet m -> (forall a, quiet (k a)) -> quiet (bind m k).
Proof.
  intros Hm Hk s. unfold bind. specialize (Hm s).
  destruct (m s) as [a s1| |]; auto. apply Hk.
Qed.

Lemma quiet_foldM {A B} (body : A -> B -> M A) l :
  (forall a x, quiet (body a x)) -> forall a, quiet (foldM body l a).
Proof.
  intros Hbody. induction l as [|x l IH]; intros a; cbn [foldM].
  - apply quiet_ret.
  - apply quiet_bind; auto.
Qed.

Lemma quiet_forM {B} (body : B -> M unit) l :
  (forall x, quiet (body x)) -> quiet (forM l body).
Proof. intros H. unfold forM. apply quiet_foldM. intros _ x. apply H. Qed.

Lemma quiet_allocateSector : quiet allocateSector.
Proof.
  intros s. unfold allocateSector. destruct (firstFree 0 (sectorMap s)); [exact I|].
  left. left. reflexivity.
Qed.

Lemma quiet_freeSector x : quiet (freeSector x).
Proof.
  intros s. unfold freeSector.
  destruct ((x <? 0) || (Z.of_nat (length (sectorMap s)) <=? x)); [|exact I].
  right. eauto.
Qed.

Lemma quiet_writeSlot x c : quiet (writeSlot x c).
Proof. apply quiet_modify. Qed.

Lemma quiet_markSector x : quiet (markSector x).
Proof.
  intros s. unfold markSector. destruct (Z.of_nat (length (sectorMap s)) <=? x); exact I.
Qed.

Lemma quiet_depthBound : quiet depthBound.
Proof. apply quiet_gets. Qed.

Create HintDb quiet.
#[export] Hint Resolve quiet_ret quiet_fail quiet_gets quiet_modify quiet_deref quiet_update
  quiet_new quiet_delete quiet_allocateSector quiet_freeSector quiet_writeSlot
  quiet_markSector quiet_depthBound : quiet.

Ltac quiet_tac :=
  repeat first
    [ apply quiet_bind; [|intros ?]
    | apply quiet_forM; intros ?
    | apply quiet_foldM; intros ? ?
    | progress auto with quiet
    | match goal with
      | |- quiet (if ?b then _ else _) => destruct b
      | |- quiet (match ?x with Some _ => _ | None => _ end) => destruct x
      end ].

Lemma quiet_saveLoop fuel : forall file data pos, quiet (saveLoop fuel file data pos).
Proof.
  induction fuel as [|fuel IH]; intros file data pos; cbn [saveLoop];
    (destruct (to_size_t pos <? Z.of_nat (length data)); [|apply quiet_ret]).
  - apply quiet_fail.
  - quiet_tac; apply IH.
Qed.

#[export] Hint Resolve quiet_saveLoop : quiet.

Lemma quiet_saveToDisk file : quiet (saveToDisk file).
Proof. destruct file as [f|]; cbn [saveToDisk]; quiet_tac. Qed.

#[export] Hint Resolve quiet_saveToDisk : quiet.

Lemma quiet_freeSectorsRecursive fuel : forall item, quiet (freeSectorsRecursive fuel item).
Proof.
  induction fuel as [|fuel IH]; intros [i|]; cbn [freeSectorsRecursive]; quiet_tac; apply IH.
Qed.

#[export] Hint Resolve quiet_freeSectorsRecursive : quiet.

Lemma quiet_deleteTree fuel : forall node, quiet (deleteTree fuel node).
Proof.
  induction fuel as [|fuel IH]; intros [i|]; cbn [deleteTree]; quiet_tac; apply IH.
Qed.

Lemma quiet_copyItem fuel : forall source newParent, quiet (copyItem fuel source newParent).
Proof.
  induction fuel as [|fuel IH]; intros source newParent; cbn [copyItem]; quiet_tac; apply IH.
Qed.

Lemma quiet_defragLoop fuel : forall file data pos next,
  quiet (defragLoop fuel file data pos next).
Proof.
  induction fuel as [|fuel IH]; intros file data pos next; cbn [defragLoop];
    (destruct (to_size_t pos <? Z.of_nat (length data)); [|apply quiet_ret]).
  - apply quiet_fail.
  - apply quiet_bind; [apply quiet_gets|]. intros total.
    destruct (total <=? next).
    + intros s. left. right. reflexivity.
    + quiet_tac; apply IH.
Qed.

#[export] Hint Resolve quiet_deleteTree quiet_copyItem quiet_defragLoop : quiet.

Lemma quiet_defragFile next file : quiet (defragFile next file).
Proof. unfold defragFile. quiet_tac. Qed.

Lemma quiet_detach src : quiet (detach src).
Proof. unfold detach, eraseChild. quiet_tac. Qed.

Lemma quiet_push_back p c : quiet (push_back p c).
Proof. apply quiet_update. Qed.

Lemma quiet_eraseChild p c : quiet (eraseChild p c).
Proof. apply quiet_update. Qed.

#[export] Hint Resolve quiet_defragFile quiet_detach quiet_push_back quiet_eraseChild : quiet.

Lemma atomic_throw {A} s e : atomic s (@throw A e).
Proof. right. reflexivity. Qed.

Lemma atomic_quiet {A} s (m : M A) : quiet m -> atomic s m.
Proof. intros H. unfold atomic. specialize (H s). destruct (m s); auto. Qed.

Lemma atomic_bind {A B} s (m : M A) (k : A -> M B) :
  pure m -> (forall a, atomic s (k a)) -> atomic s (bind m k).
Proof.
  intros Hm Hk. unfold atomic, bind. specialize (Hm s).
  destruct (m s) as [a s1|e s1|]; auto. subst s1. apply Hk.
Qed.

(** The steps of a proof that a command is atomic: what only reads is
    stepped over, a [throw] leaves the state, and from the first write
    on the rest must be quiet. *)
Ltac atomic_tac :=
  repeat first
    [ apply atomic_throw
    | apply atomic_quiet; solve [quiet_tac]
    | apply atomic_bind; [solve [pure_tac] | intros ?]
    | match goal with
      | |- atomic _ (if ?b then _ else _) => destruct b
      | |- atomic _ (match ?x with Some _ => _ | None => _ end) => destruct x
      | |- atomic _ (let (_, _) := ?x in _) => destruct x
      end ].

Definition isMkdir (o : op) : bool :=
  match o with
  | Mkdir _ => true
  | _ => false
  end.

Lemma atomic_exec o s : isMkdir o = false -> atomic s (exec o).
Proof.
  destruct o; intros Hm; try discriminate Hm; cbn [exec].
  - pose proof (pure_pwd s) as H. unfold atomic. destruct (pwd s); auto.
  - unfold cd. atomic_tac.
  - pose proof (pure_ls path s) as H. unfold atomic. destruct (ls path s); auto.
  - unfold touch. atomic_tac.
  - unfold rm. atomic_tac.
  - unfold cp. atomic_tac.
  - unfold mv. atomic_tac.
  - pose proof (pure_get filename canCreate s) as H. unfold atomic.
    destruct (get filename canCreate s); auto.
  - unfold put. destruct file as [bytes|]; [|apply atomic_throw]. cbv zeta. atomic_tac.
  - pose proof (pure_info filename s) as H. unfold atomic. destruct (info filename s); auto.
  - unfold defrag. atomic_tac.
Qed.

(** X19. An error means nothing has happened: when a command other than
    [mkdir] reports an error that is not one of the allocator (disk full,
    sector out of range), the filesystem is exactly what it was before
    the call.  Every check of these commands comes before their first
    write. *)
Theorem errors_change_nothing (o : op) (s s' : FileSystem) (e : exn) :
  isMkdir o = false -> exec o s = Throw e s' ->
  ~ diskFull e -> (forall i, e <> out_of_range i) ->
  s' = s.
Proof.
  intros Hm H Hfull Hrange. pose proof (atomic_exec o s Hm) as Ha.
  unfold atomic in Ha. rewrite H in Ha. destruct Ha as [[Hd | [i Hi]] | Hs].
  - contradiction.
  - exfalso. exact (Hrange i Hi).
  - exact Hs.
Qed.

Lemma errors_change_nothing_witness : oneFileState = oneFileState.
Proof.
  apply (errors_change_nothing (Cp "f" "f") oneFileState oneFileState
           (runtime_error "Destination already exists: f")).
  - reflexivity.
  - vm_compute. reflexivity.
  - intros [H | H]; discriminate H.
  - intros i H. discriminate H.
Defined.


(** * Sector ids stay on the disk *)

(** [ranged n s]: the bitmap has [n] entries, [n] is the capacity, and
    every sector id listed by a live item is below [n]. *)
Definition ranged (n : nat) (s : FileSystem) : Prop :=
  validAll n s /\ totalSectors s = Z.of_nat n.

(** What a computation that keeps [ranged] may throw: anything but the
    range error. *)
Definition rangedOr (n : nat) (e : exn) (s : FileSystem) : Prop :=
  ranged n s /\ forall i, e <> out_of_range i.

Lemma ranged_update n p f :
  (forall it, sectors (f it) = sectors it) ->
  hoare (ranged n) (update p f) (fun _ => ranged n) (rangedOr n).
Proof.
  intros Hf. apply hoare_update. intros s it [[Hlen Hs] Ht] Hit.
  split; [|exact Ht]. split; [exact Hlen|]. intros q iq i Hq Hi. cbn in Hq.
  destruct (decide (q = p)) as [->|Hne].
  - rewrite lookup_insert_eq in Hq. injection Hq as <-. rewrite Hf in Hi. eauto.
  - rewrite lookup_insert_ne in Hq by congruence. eauto.
Qed.

Lemma ranged_set_sectors n p l :
  (forall i, i ∈ l -> 0 <= i < Z.of_nat n) ->
  hoare (ranged n) (update p (set_sectors l)) (fun _ => ranged n) (rangedOr n).
Proof.
  intros Hl. apply hoare_update. intros s it [[Hlen Hs] Ht] Hit.
  split; [|exact Ht]. split; [exact Hlen|]. intros q iq i Hq Hi. cbn in Hq.
  destruct (decide (q = p)) as [->|Hne].
  - rewrite lookup_insert_eq in Hq. injection Hq as <-. cbn in Hi. auto.
  - rewrite lookup_insert_ne in Hq by congruence. eauto.
Qed.

Lemma ranged_push_sector n p x :
  0 <= x < Z.of_nat n ->
  hoare (ranged n) (update p (fun it => set_sectors (sectors it ++ [x]) it))
        (fun _ => ranged n) (rangedOr n).
Proof.
  intros Hx. apply hoare_update. intros s it [[Hlen Hs] Ht] Hit.
  split; [|exact Ht]. split; [exact Hlen|]. intros q iq i Hq Hi. cbn in Hq.
  destruct (decide (q = p)) as [->|Hne].
  - rewrite lookup_insert_eq in Hq. injection Hq as <-. cbn in Hi.
    apply elem_of_app in Hi as [Hi | Hi]; [eauto|].
    apply list_elem_of_singleton in Hi. subst. exact Hx.
  - rewrite lookup_insert_ne in Hq by congruence. eauto.
Qed.

Lemma ranged_new n it :
  sectors it = [] -> hoare (ranged n) (new it) (fun _ => ranged n) (rangedOr n).
Proof.
  intros Hsec. apply hoare_new. intros s [[Hlen Hs] Ht].
  split; [|exact Ht]. split; [exact Hlen|]. intros q iq i Hq Hi. cbn in Hq.
  destruct (decide (q = brk s)) as [->|Hne].
  - rewrite lookup_insert_eq in Hq. injection Hq as <-. rewrite Hsec in Hi.
    apply elem_of_nil in Hi. contradiction.
  - rewrite lookup_insert_ne in Hq by congruence. eauto.
Qed.

Lemma ranged_delete n p : hoare (ranged n) (delete_ p) (fun _ => ranged n) (rangedOr n).
Proof.
  apply hoare_delete. intros s it [[Hlen Hs] Ht] _.
  split; [|exact Ht]. split; [exact Hlen|]. intros q iq i Hq. cbn in Hq.
  apply lookup_delete_Some in Hq as [_ Hq]. eauto.
Qed.

Lemma ranged_bitmap n s (i : nat) b :
  ranged n s -> ranged n (set_sectorMap (<[i := b]> (sectorMap s)) s).
Proof.
  intros [[Hlen Hs] Ht]. split; [|exact Ht]. split; [|exact Hs].
  cbn. rewrite length_insert. exact Hlen.
Qed.

Lemma ranged_freeSector n x :
  0 <= x < Z.of_nat n ->
  hoare (ranged n) (freeSector x) (fun _ => ranged n) (rangedOr n).
Proof.
  intros Hx s Hs. pose proof Hs as [[Hlen _] _]. unfold freeSector.
  destruct (x <? 0) eqn:E1; [apply Z.ltb_lt in E1; lia|].
  destruct (Z.of_nat (length (sectorMap s)) <=? x) eqn:E2; [apply Z.leb_le in E2; lia|].
  cbn [orb]. apply ranged_bitmap. exact Hs.
Qed.

Lemma ranged_allocateSector n :
  hoare (ranged n) allocateSector (fun i s => ranged n s /\ 0 <= i < Z.of_nat n) (rangedOr n).
Proof.
  intros s Hs. pose proof Hs as [[Hlen _] _]. unfold allocateSector.
  destruct (firstFree 0 (sectorMap s)) as [i|] eqn:E.
  - split; [apply ranged_bitmap; exact Hs|].
    apply firstFree_Some in E as (H0 & Hi & _). rewrite Z.sub_0_r in Hi.
    apply lookup_lt_Some in Hi. lia.
  - split; [exact Hs | discriminate].
Qed.

Lemma ranged_writeSlot n x c :
  hoare (ranged n) (writeSlot x c) (fun _ => ranged n) (rangedOr n).
Proof. apply hoare_modify. intros s Hs. exact Hs. Qed.

(** [plain m]: [m] never throws the range error. *)
Definition plain {A} (m : M A) : Prop :=
  forall s e s', m s = Throw e s' -> forall i, e <> out_of_range i.

Lemma ranged_pure {A} n (m : M A) :
  pure m -> plain m ->
  hoare (ranged n) m (fun _ => ranged n) (rangedOr n).
Proof.
  intros Hp Hne s Hs. specialize (Hp s). specialize (Hne s).
  destruct (m s) as [a s1|e s1|]; auto; subst s1; [exact Hs|].
  split; [exact Hs|]. eapply Hne. reflexivity.
Qed.

Lemma plain_ret {A} (a : A) : plain (ret a).
Proof. intros s e s' H. discriminate H. Qed.
Lemma plain_throw {A} w : plain (@throw A (runtime_error w)).
Proof. intros s e s' H. injection H as <- _. discriminate. Qed.
Lemma plain_fail {A} f : plain (@fail A f).
Proof. intros s e s' H. discriminate H. Qed.
Lemma plain_gets {A} (f : FileSystem -> A) : plain (gets f).
Proof. intros s e s' H. discriminate H. Qed.
Lemma plain_deref p : plain (deref p).
Proof. intros s e s' H. unfold deref in H. destruct (heap s !! p); discriminate H. Qed.
Lemma plain_bind {A B} (m : M A) (k : A -> M B) :
  plain m -> (forall a, plain (k a)) -> plain (bind m k).
Proof.
  intros Hm Hk s e s' H. unfold bind in H.
  destruct (m s) as [a s1|e1 s1|] eqn:E; [| |discriminate].
  - eapply Hk. exact H.
  - injection H as <- _. eapply Hm. exact E.
Qed.
Lemma plain_foldM {A B} (body : A -> B -> M A) l :
  (forall a x, plain (body a x)) -> forall a, plain (foldM body l a).
Proof.
  intros Hbody. induction l as [|x l IH]; intros a; cbn [foldM].
  - apply plain_ret.
  - apply plain_bind; auto.
Qed.

Create HintDb plain.
#[export] Hint Resolve plain_ret plain_throw plain_fail plain_gets plain_deref : plain.

Ltac plain_tac :=
  repeat first
    [ apply plain_bind; [|intros ?]
    | apply plain_foldM; intros ? ?
    | progress auto with plain
    | match goal with
      | |- plain (if ?b then _ else _) => destruct b
      | |- plain (match ?x with _ => _ end) => destruct x
      end ].

Lemma plain_findChild cs part : plain (findChild cs part).
Proof. induction cs as [|c cs IH]; cbn [findChild]; plain_tac. Qed.
Lemma plain_findFolder cs part : plain (findFolder cs part).
Proof. induction cs as [|c cs IH]; cbn [findFolder]; plain_tac. Qed.
Lemma plain_rejectName cs n w : plain (rejectName cs n (runtime_error w)).
Proof. induction cs as [|c cs IH]; cbn [rejectName]; plain_tac. Qed.
Lemma plain_rejectOtherName cs n src w : plain (rejectOtherName cs n src (runtime_error w)).
Proof. induction cs as [|c cs IH]; cbn [rejectOtherName]; plain_tac. Qed.
Lemma plain_rejectFileName cs n w : plain (rejectFileName cs n (runtime_error w)).
Proof. induction cs as [|c cs IH]; cbn [rejectFileName]; plain_tac. Qed.
Lemma plain_getItem path : plain (getItem path).
Proof. intros s e s' H. exfalso. exact (readonly_Throw _ _ _ _ (readonly_getItem path) H). Qed.
Lemma plain_checkNotInside fuel : forall c src, plain (checkNotInside fuel c src).
Proof.
  induction fuel as [|fuel IH]; intros [c|] src; cbn [checkNotInside]; plain_tac.
Qed.
Lemma plain_pathParts fuel : forall c acc, plain (pathParts fuel c acc).
Proof.
  induction fuel as [|fuel IH]; intros [c|] acc; cbn [pathParts]; plain_tac.
Qed.
Lemma plain_collectAllFiles fuel : forall folder files, plain (collectAllFiles fuel folder files).
Proof.
  induction fuel as [|fuel IH]; intros folder files; cbn [collectAllFiles]; plain_tac.
Qed.

#[export] Hint Resolve plain_findChild plain_findFolder plain_rejectName plain_rejectOtherName
  plain_rejectFileName plain_getItem plain_checkNotInside plain_pathParts
  plain_collectAllFiles : plain.

Lemma plain_getFullPath item : plain (getFullPath item).
Proof. unfold getFullPath, depthBound. plain_tac. Qed.
Lemma plain_getDestDir path : plain (getDestDir path).
Proof. unfold getDestDir. plain_tac. Qed.
Lemma plain_isExistingFolder d : plain (isExistingFolder d).
Proof. unfold isExistingFolder. plain_tac. Qed.
Lemma plain_depthBound : plain depthBound.
Proof. apply plain_gets. Qed.

#[export] Hint Resolve plain_getFullPath plain_getDestDir plain_isExistingFolder
  plain_depthBound : plain.

(** The steps of a proof that a piece of code keeps [ranged]. *)
Ltac ranged_step n :=
  first
    [ apply hoare_ret; solve [auto]
    | apply hoare_throw; intros ? ?; split; [assumption | discriminate]
    | apply hoare_fail
    | apply ranged_update; intros ?; reflexivity
    | apply ranged_new; reflexivity
    | apply ranged_delete
    | apply ranged_writeSlot
    | apply ranged_pure; [solve [pure_tac] | solve [plain_tac]]
    | apply hoare_forM; intros ? _
    | apply hoare_bind with (R := fun _ => ranged n); [|intros ?]
    | match goal with
      | |- hoare _ (if ?b then _ else _) _ _ => destruct b
      | |- hoare _ (match ?x with Some _ => _ | None => _ end) _ _ => destruct x
      | |- hoare _ (let (_, _) := ?x in _) _ _ => destruct x
      end ].

Lemma ranged_saveLoop n fuel : forall file data pos,
  hoare (ranged n) (saveLoop fuel file data pos) (fun _ => ranged n) (rangedOr n).
Proof.
  induction fuel as [|fuel IH]; intros file data pos; cbn [saveLoop];
    (destruct (to_size_t pos <? Z.of_nat (length data)); [|apply hoare_ret; auto]).
  - apply hoare_fail.
  - eapply hoare_bind; [apply ranged_allocateSector|].
    intros sector. apply hoare_bind with (R := fun _ => ranged n).
    + intros s [Hs Hx]. apply (ranged_push_sector n file sector Hx). exact Hs.
    + intros _. apply hoare_bind with (R := fun _ => ranged n); [apply ranged_writeSlot|].
      intros _. apply IH.
Qed.

(** Freeing the sectors of an item that is live. *)
Lemma ranged_freeAll n (l : list Z) :
  (forall x, x ∈ l -> 0 <= x < Z.of_nat n) ->
  hoare (ranged n) (forM l freeSector) (fun _ => ranged n) (rangedOr n).
Proof.
  intros Hl. apply hoare_forM. intros x Hx. apply ranged_freeSector.
  apply Hl. apply list_elem_of_In. exact Hx.
Qed.

Lemma ranged_saveToDisk n file :
  hoare (ranged n) (saveToDisk file) (fun _ => ranged n) (rangedOr n).
Proof.
  destruct file as [f|]; cbn [saveToDisk]; [|apply hoare_ret; auto].
  apply hoare_bind with
    (R := fun it s => ranged n s /\ forall x, x ∈ sectors it -> 0 <= x < Z.of_nat n).
  { apply hoare_deref. intros s it Hs Hit. split; [exact Hs|].
    intros x Hx. eapply (proj2 (proj1 Hs)); eauto. }
  intros it. destruct (isFolder it); [apply hoare_ret; tauto|].
  apply hoare_bind with (R := fun _ => ranged n).
  { intros s [Hs Hval]. apply (ranged_freeAll n _ Hval). exact Hs. }
  intros _. apply hoare_bind with (R := fun _ => ranged n).
  { apply ranged_set_sectors. intros i Hi. apply elem_of_nil in Hi. contradiction. }
  intros _. apply ranged_saveLoop.
Qed.

Lemma ranged_freeSectorsRecursive n fuel : forall item,
  hoare (ranged n) (freeSectorsRecursive fuel item) (fun _ => ranged n) (rangedOr n).
Proof.
  induction fuel as [|fuel IH]; intros [i|]; cbn [freeSectorsRecursive];
    try (apply hoare_ret; auto); try apply hoare_fail.
  apply hoare_bind with
    (R := fun it s => ranged n s /\ forall x, x ∈ sectors it -> 0 <= x < Z.of_nat n).
  { apply hoare_deref. intros s it Hs Hit. split; [exact Hs|].
    intros x Hx. eapply (proj2 (proj1 Hs)); eauto. }
  intros it. apply hoare_bind with (R := fun _ => ranged n).
  - destruct (negb (isFolder it)).
    + intros s [Hs Hval]. apply (ranged_freeAll n _ Hval). exact Hs.
    + apply hoare_ret. tauto.
  - intros ?. apply hoare_forM. intros x _. apply IH.
Qed.

Lemma ranged_deleteTree n fuel : forall node,
  hoare (ranged n) (deleteTree fuel node) (fun _ => ranged n) (rangedOr n).
Proof.
  induction fuel as [|fuel IH]; intros [i|]; cbn [deleteTree];
    try (apply hoare_ret; auto); try apply hoare_fail.
  repeat first [ apply IH | apply ranged_freeSectorsRecursive | ranged_step n ].
Qed.

Lemma ranged_copyItem n fuel : forall source newParent,
  hoare (ranged n) (copyItem fuel source newParent) (fun _ => ranged n) (rangedOr n).
Proof.
  induction fuel as [|fuel IH]; intros source newParent; cbn [copyItem];
    [apply hoare_fail|].
  repeat first [ apply IH | apply ranged_saveToDisk | ranged_step n ].
Qed.

Lemma ranged_markSector n x :
  hoare (ranged n) (markSector x) (fun _ => ranged n) (rangedOr n).
Proof.
  intros s Hs. unfold markSector.
  destruct (Z.of_nat (length (sectorMap s)) <=? x); [exact I|].
  apply ranged_bitmap. exact Hs.
Qed.

Lemma hoare_with {A} (P : FileSystem -> Prop) (m : M A) Q E (F : Prop) :
  (F -> hoare P m Q E) -> hoare (fun s => P s /\ F) m (fun a s => Q a s /\ F) E.
Proof.
  intros H s [Hs HF]. specialize (H HF s Hs). destruct (m s); auto.
Qed.

Lemma ranged_defragLoop n fuel : forall file data pos next,
  0 <= next ->
  hoare (ranged n) (defragLoop fuel file data pos next)
        (fun next' s => ranged n s /\ 0 <= next') (rangedOr n).
Proof.
  induction fuel as [|fuel IH]; intros file data pos next Hnext; cbn [defragLoop];
    (destruct (to_size_t pos <? Z.of_nat (length data)); [|apply hoare_ret; auto]).
  - apply hoare_fail.
  - apply hoare_bind with (R := fun total s => ranged n s /\ total = Z.of_nat n).
    { intros s Hs. split; [exact Hs | apply Hs]. }
    intros total. destruct (total <=? next) eqn:E.
    + intros s [Hs _]. split; [exact Hs | discriminate].
    + apply Z.leb_gt in E.
      apply hoare_bind with (R := fun _ s => ranged n s /\ total = Z.of_nat n).
      { apply hoare_with. intros _. apply ranged_markSector. }
      intros _. apply hoare_bind with (R := fun _ => ranged n).
      { intros s [Hs Ht]. apply (ranged_push_sector n file next); [lia | exact Hs]. }
      intros _. apply hoare_bind with (R := fun _ => ranged n); [apply ranged_writeSlot|].
      intros _. apply IH. lia.
Qed.

Lemma ranged_defragFile n next file :
  0 <= next ->
  hoare (ranged n) (defragFile next file)
        (fun next' s => ranged n s /\ 0 <= next') (rangedOr n).
Proof.
  intros Hnext. unfold defragFile.
  apply hoare_bind with (R := fun _ => ranged n); [apply hoare_deref; auto|].
  intros it. destruct (isFolder it); [apply hoare_ret; auto|].
  apply hoare_bind with (R := fun _ => ranged n).
  { apply ranged_set_sectors. intros i Hi. apply elem_of_nil in Hi. contradiction. }
  intros _. apply ranged_defragLoop. exact Hnext.
Qed.

Lemma ranged_detach n src :
  hoare (ranged n) (detach src) (fun _ => ranged n) (rangedOr n).
Proof. unfold detach, eraseChild. repeat ranged_step n. Qed.

Lemma ranged_mkdirStep n current part :
  hoare (ranged n) (mkdirStep current part) (fun _ => ranged n) (rangedOr n).
Proof. unfold mkdirStep, push_back. repeat ranged_step n. Qed.

Lemma ranged_exec n o :
  hoare (ranged n) (exec o) (fun _ => ranged n) (rangedOr n).
Proof.
  destruct o; cbn [exec].
  - apply ranged_pure; [apply pure_pwd | unfold pwd; plain_tac].
  - unfold cd. repeat ranged_step n.
    apply hoare_modify. intros s Hs. exact Hs.
  - apply ranged_pure; [apply pure_ls | unfold ls; plain_tac].
  - unfold mkdir. destruct (path =? "")%string; [ranged_step n|].
    destruct (splitPath path) as [|p ps]; [ranged_step n|].
    apply hoare_bind with (R := fun _ => ranged n).
    { destruct (beginsWithSlash path); apply hoare_gets; auto. }
    intros start. apply hoare_bind with (R := fun _ => ranged n);
      [|intros ?; apply hoare_ret; auto].
    apply (hoare_foldM (fun _ => ranged n)). intros a x _. apply ranged_mkdirStep.
  - unfold touch, push_back. repeat first [ apply ranged_saveToDisk | ranged_step n ].
  - unfold rm, eraseChild. repeat first [ apply ranged_deleteTree | ranged_step n ].
  - unfold cp, push_back. repeat first [ apply ranged_copyItem | ranged_step n ].
  - unfold mv, push_back. repeat first [ apply ranged_detach | ranged_step n ].
  - apply ranged_pure; [apply pure_get | unfold get; plain_tac].
  - unfold put, push_back. destruct file as [bytes|]; cbv zeta.
    + repeat first [ apply ranged_saveToDisk | ranged_step n ].
    + apply hoare_throw. intros s Hs. split; [exact Hs | discriminate].
  - apply ranged_pure; [apply pure_info | unfold info; plain_tac].
  - unfold defrag. repeat ranged_step n.
    + apply hoare_modify. intros s [[Hlen Hs] Ht]. split; [|exact Ht].
      split; [cbn; rewrite length_map; exact Hlen | exact Hs].
    + apply hoare_conseq with (P' := fun s => ranged n s /\ 0 <= 0)
                              (Q' := fun next s => ranged n s /\ 0 <= next)
                              (E' := rangedOr n).
      * apply (hoare_foldM (fun next s => ranged n s /\ 0 <= next) defragFile).
        intros nx x _ s1 [Hs1 Ha]. apply (ranged_defragFile n nx x Ha). exact Hs1.
      * intros s Hs. split; [exact Hs | lia].
      * intros nx s [Hs _]. exact Hs.
      * intros e s Hs. exact Hs.
Qed.

Lemma ranged_init capacity : 0 < capacity -> ranged (Z.to_nat capacity) (init capacity).
Proof.
  intros Hcap. split; [split|].
  - cbn. apply length_replicate.
  - intros p it i Hp Hi. cbn in Hp. apply lookup_singleton_Some in Hp as [_ <-].
    apply elem_of_nil in Hi. contradiction.
  - cbn. lia.
Qed.

Lemma ranged_reachable s : reachable s -> exists n, ranged n s.
Proof.
  induction 1 as [capacity Hcap | s o e s' _ [n IH] _ Hret].
  - eexists. apply ranged_init. exact Hcap.
  - exists n. pose proof (ranged_exec n o s IH) as H.
    destruct e as [x|]; simpl in Hret.
    + destruct Hret as [_ Hret]. rewrite Hret in H. apply H.
    + rewrite Hret in H. exact H.
Qed.

(** * When defrag cannot fail *)

Lemma placeChunks_fits cs total : forall next m d,
  next + Z.of_nat (length cs) <= total ->
  exists ids m' d', placeChunks cs next total m d = (ids, m', d', true) /\
                    length ids = length cs.
Proof.
  induction cs as [|c cs IH]; intros next m d Hfit; cbn [placeChunks].
  - exists [], m, d. auto.
  - cbn [length] in Hfit.
    destruct (total <=? next) eqn:E; [apply Z.leb_le in E; lia|].
    destruct (IH (next + 1) (<[Z.to_nat next := true]> m)
                 (<[Z.to_nat next := c]> (growDisk next d)) ltac:(lia))
      as (ids & m' & d' & Hrun & Hlen).
    rewrite Hrun. exists (next :: ids), m', d'. split; [reflexivity|].
    cbn [length]. rewrite Hlen. reflexivity.
Qed.

(** The sectors that the content of the item at [p] needs. *)
Definition neededAt (h : gmap ptr Item) (p : ptr) : nat :=
  match h !! p with
  | Some it => sectorsNeeded (length (content it))
  | None => 0%nat
  end.

Lemma laid_step_ok s0 done next s f it0 :
  laid s0 done next s -> f ∉ done ->
  heap s0 !! f = Some it0 -> isFolder it0 = false -> fitsInt (content it0) ->
  next + Z.of_nat (neededAt (heap s0) f) <= totalSectors s ->
  exists s', defragFile next f s = Ok (next + Z.of_nat (neededAt (heap s0) f)) s'.
Proof.
  intros Hlaid Hf Hit0 Hkind Hfit Hroom.
  pose proof Hlaid as [Hnext Hbound Hm Htot Hrest Hmap Hdisk Hother Hdone Hids].
  assert (Hit : heap s !! f = Some it0) by (rewrite Hother; assumption).
  unfold neededAt in *. rewrite Hit0 in *.
  unfold defragFile, bind, deref, update. rewrite Hit, Hkind, Hit.
  rewrite defragLoop_run with (it := set_sectors [] it0);
    [| exact Hfit | lia | rewrite drop_0; reflexivity | exact Hnext | exact Hm
     | cbn; apply lookup_insert_eq].
  cbn [sectorMap disk heap set_heap totalSectors]. rewrite drop_0.
  destruct (placeChunks_fits (chunks (content it0)) (totalSectors s) next
              (sectorMap s) (disk s)) as (ids & m' & d' & Hrun & Hlen).
  { rewrite length_chunks. exact Hroom. }
  rewrite Hrun. unfold placed. rewrite Hlen, length_chunks. eexists. reflexivity.
Qed.

Lemma laid_fold_ok s0 : forall files done next s,
  laid s0 done next s -> NoDup files ->
  (forall f, f ∈ files ->
     (f ∉ done) /\ exists it0, heap s0 !! f = Some it0 /\ isFolder it0 = false /\
                             fitsInt (content it0)) ->
  next + Z.of_nat (list_sum (map (neededAt (heap s0)) files)) <= totalSectors s0 ->
  exists next' s', foldM defragFile files next s = Ok next' s'.
Proof.
  induction files as [|f files IH]; intros done next s Hlaid Hnd Hfiles Hroom; cbn [foldM].
  - eexists _, _. reflexivity.
  - apply NoDup_cons in Hnd as [Hf Hnd].
    destruct (Hfiles f ltac:(left)) as (Hfd & it0 & Hit0 & Hkind & Hfit).
    change (list_sum (map (neededAt (heap s0)) (f :: files)))
      with (neededAt (heap s0) f + list_sum (map (neededAt (heap s0)) files))%nat in Hroom.
    destruct (laid_step_ok s0 done next s f it0 Hlaid Hfd Hit0 Hkind Hfit) as [s1 Hstep].
    { rewrite (laid_total _ _ _ _ Hlaid). lia. }
    pose proof (laid_step s0 done next s f it0 Hlaid Hfd Hit0 Hkind Hfit) as Hlaid1.
    rewrite Hstep in Hlaid1. unfold bind. rewrite Hstep.
    apply (IH (done ++ [f]) _ s1 Hlaid1 Hnd).
    + intros g Hg. destruct (Hfiles g ltac:(right; exact Hg)) as (Hgd & Hrest).
      split; [|exact Hrest]. intros Hin. apply elem_of_app in Hin as [Hin | Hin].
      * contradiction.
      * apply list_elem_of_singleton in Hin. subst g. contradiction.
    + lia.
Qed.

Lemma NoDup_flat_map_excl {A B} (f : A -> list B) (l : list A) :
  NoDup l -> (forall x, x ∈ l -> NoDup (f x)) ->
  (forall x y i, x ∈ l -> y ∈ l -> i ∈ f x -> i ∈ f y -> x = y) ->
  NoDup (flat_map f l).
Proof.
  induction l as [|a l IH]; intros Hnd Hin Hex; cbn [flat_map]; [constructor|].
  apply NoDup_cons in Hnd as [Ha Hnd]. apply NoDup_app. split; [|split].
  - apply Hin. left.
  - intros i Hi Hi'. apply elem_of_flat_map in Hi' as (b & Hb & Hi').
    assert (a = b) by (eapply Hex; [left | right; exact Hb | exact Hi | exact Hi']).
    subst b. contradiction.
  - apply IH; [exact Hnd| |].
    + intros x Hx. apply Hin. right. exact Hx.
    + intros x y i Hx Hy. apply Hex; right; assumption.
Qed.

Lemma NoDup_Z_bounded (l : list Z) (n : nat) :
  NoDup l -> (forall i, i ∈ l -> 0 <= i < Z.of_nat n) -> (length l <= n)%nat.
Proof.
  intros Hnd Hr. rewrite <- (length_map Z.to_nat).
  apply NoDup_bounded_length.
  - apply NoDup_fmap_2_strong; [|exact Hnd].
    intros x y Hx Hy Heq. pose proof (Hr x Hx). pose proof (Hr y Hy). lia.
  - intros x Hx. apply list_elem_of_fmap in Hx as (i & -> & Hi).
    specialize (Hr i Hi). lia.
Qed.

Lemma length_flat_map_sum {A B} (f : A -> list B) (l : list A) :
  length (flat_map f l) = list_sum (map (fun x => length (f x)) l).
Proof.
  induction l as [|a l IH]; [reflexivity|].
  cbn [flat_map]. rewrite length_app, IH. reflexivity.
Qed.

(** The files of a state with sound bookkeeping and exact sector counts
    need no more sectors than the disk has. *)
Lemma needed_fits s (files : list ptr) :
  owns (heap s) (sectorMap s) -> sound s -> NoDup files ->
  (forall f, f ∈ files -> is_Some (heap s !! f)) ->
  Z.of_nat (list_sum (map (neededAt (heap s)) files)) <= totalSectors s.
Proof.
  intros Ho [Hm Hitems] Hnd Hlive.
  assert (Hsum : list_sum (map (neededAt (heap s)) files)
                 = length (flat_map (sectorsAt (heap s)) files)).
  { rewrite length_flat_map_sum. f_equal. apply map_ext_in. intros f Hf.
    apply list_elem_of_In in Hf. destruct (Hlive f Hf) as [it Hit].
    unfold neededAt, sectorsAt. rewrite Hit.
    destruct (Hitems f it Hit) as [_ Hok]. destruct (isFolder it).
    - destruct Hok as [-> ->]. reflexivity.
    - symmetry. exact Hok. }
  rewrite Hsum. unfold mapOk in Hm. rewrite <- Hm. apply inj_le.
  apply NoDup_Z_bounded.
  - apply NoDup_flat_map_excl; [exact Hnd| |].
    + intros f Hf. destruct (Hlive f Hf) as [it Hit]. unfold sectorsAt. rewrite Hit.
      exact (own_nodup _ _ Ho f it Hit).
    + intros x y i Hx Hy. unfold sectorsAt.
      destruct (heap s !! x) as [ix|] eqn:Ex; [|intros Hi; inversion Hi].
      destruct (heap s !! y) as [iy|] eqn:Ey; [|intros _ Hi; inversion Hi].
      intros Hix Hiy. exact (own_excl _ _ Ho x y ix iy i Ex Ey Hix Hiy).
  - intros i Hi. apply elem_of_flat_map in Hi as (f & Hf & Hi). unfold sectorsAt in Hi.
    destruct (heap s !! f) as [it|] eqn:Ef; [|inversion Hi].
    destruct (own_marked _ _ Ho f it i Ef Hi) as [H0 Hmark].
    apply lookup_lt_Some in Hmark. lia.
Qed.

(** X21. [defrag] cannot fail while the counts are right: on a state
    with sound bookkeeping in which every file has exactly the sectors
    its content needs (so it is until a command reports the disk full),
    [defrag] returns; it never reports "Disk is full" there. *)
Theorem defrag_succeeds (s : FileSystem) :
  wf s -> sound s -> exists s', defrag s = Ok tt s'.
Proof.
  intros [[T Hwf] [Ho Hb]] Hsound. pose proof Hsound as [Hm Hitems].
  pose proof (wf_shape s T Hwf) as Hsh. pose proof (wf_nodup s T Hwf) as Hnd.
  assert (Hbrk : forall p, p ∈ nodes T -> (p < brk s)%nat).
  { intros p Hp. apply (wf_brk s T Hwf). eapply wfTree_live; eauto. }
  unfold defrag, bind at 1, gets at 1.
  unfold bind at 1, depthBound, gets at 1.
  rewrite <- (wf_top s T Hwf).
  unfold bind at 1.
  rewrite (collectAllFiles_tree s T None (S (brk s)) [] Hsh)
    by (apply depthBound_enough; assumption).
  cbn [app]. set (files := filesBelow (heap s) T).
  unfold bind at 1, modify.
  set (s0 := set_sectorMap (map (fun _ => false) (sectorMap s)) s).
  assert (Hlaid0 : laid s0 [] 0 s0).
  { unfold s0.
    constructor; cbn [sectorMap heap disk totalSectors brk root currentDir set_sectorMap];
      auto; try lia; try (intros p Hp; apply elem_of_nil in Hp; contradiction).
    - unfold mapOk in Hm. lia.
    - unfold mapOk in *. cbn. rewrite length_map. exact Hm.
    - intros j Hj. rewrite length_map in Hj. rewrite list_lookup_fmap.
      rewrite bool_decide_eq_false_2 by lia.
      destruct (sectorMap s !! j) eqn:E; [reflexivity|].
      apply lookup_ge_None in E. lia. }
  assert (Hfiles : forall f, f ∈ files ->
            (f ∉ []) /\ exists it0, heap s0 !! f = Some it0 /\ isFolder it0 = false /\
                                    fitsInt (content it0)).
  { intros f Hf. split; [intros Hin; inversion Hin|].
    destruct (filesBelow_file _ _ _ _ Hsh Hf) as (it & Hit & Hkind).
    exists it. cbn. split; [exact Hit|]. split; [exact Hkind|].
    exact (proj1 (Hitems f it Hit)). }
  destruct (laid_fold_ok s0 files [] 0 s0 Hlaid0 (NoDup_filesBelow _ _ Hnd) Hfiles)
    as (next & s1 & Hrun).
  { rewrite Z.add_0_l. apply (needed_fits s files Ho Hsound (NoDup_filesBelow _ _ Hnd)).
    intros f Hf. destruct (filesBelow_file _ _ _ _ Hsh Hf) as (it & Hit & _). eauto. }
  unfold bind. rewrite Hrun. eexists. reflexivity.
Qed.

Lemma defrag_succeeds_witness : exists s', defrag oneFileState = Ok tt s'.
Proof.
  apply (defrag_succeeds oneFileState).
  - apply wf_reachable. exact oneFileState_reachableSafely.
  - apply sound_reachable. exact oneFileState_reachable.
Defined.


(** * Defined behaviour *)

(** [defined r]: the run [r] has a result, a value or an exception. *)
Definition defined {A} (r : result A) : Prop :=
  match r with
  | Fault _ => False
  | _ => True
  end.

Lemma defined_bind {A B} (m : M A) (k : A -> M B) s :
  defined (m s) -> (forall a s1, m s = Ok a s1 -> defined (k a s1)) -> defined (bind m k s).
Proof.
  unfold bind. intros Hm Hk.
  destruct (m s) as [a s1|e s1|f]; [apply Hk; reflexivity | exact I | exact Hm].
Qed.

(** A step that only reads: it has a result, and the state stays. *)
Lemma defined_pure_bind {A B} (m : M A) (k : A -> M B) s :
  pure m -> defined (m s) -> (forall a, m s = Ok a s -> defined (k a s)) ->
  defined (bind m k s).
Proof.
  intros Hp Hm Hk. apply defined_bind; [exact Hm|].
  intros a s1 H. pose proof (pure_Ok _ _ _ _ Hp H). subst s1. apply Hk. exact H.
Qed.

Lemma defined_findChild cs part s : allLive (heap s) cs -> defined (findChild cs part s).
Proof. intros H. rewrite (findChild_childNamed _ _ _ H). exact I. Qed.

Lemma allLive_tail h (c : ptr) cs : allLive h (c :: cs) -> allLive h cs.
Proof. intros H x Hx. apply H. right. exact Hx. Qed.

Lemma defined_findFolder cs part s : allLive (heap s) cs -> defined (findFolder cs part s).
Proof.
  induction cs as [|c cs IH]; intros H; cbn [findFolder]; [exact I|].
  destruct (H c (or_introl eq_refl)) as [it Hit].
  unfold bind, deref. rewrite Hit. destruct (name it =? part)%string.
  - destruct (negb (isFolder it)); exact I.
  - apply IH. eapply allLive_tail; eauto.
Qed.

Lemma defined_rejectName cs n e s : allLive (heap s) cs -> defined (rejectName cs n e s).
Proof.
  induction cs as [|c cs IH]; intros H; cbn [rejectName]; [exact I|].
  destruct (H c (or_introl eq_refl)) as [it Hit].
  unfold bind, deref. rewrite Hit. destruct (name it =? n)%string; [exact I|].
  apply IH. eapply allLive_tail; eauto.
Qed.

Lemma defined_rejectOtherName cs n src e s :
  allLive (heap s) cs -> defined (rejectOtherName cs n src e s).
Proof.
  induction cs as [|c cs IH]; intros H; cbn [rejectOtherName]; [exact I|].
  destruct (H c (or_introl eq_refl)) as [it Hit].
  unfold bind, deref. rewrite Hit.
  destruct ((name it =? n)%string && negb (Nat.eqb c src)); [exact I|].
  apply IH. eapply allLive_tail; eauto.
Qed.

Lemma defined_rejectFileName cs n e s :
  allLive (heap s) cs -> defined (rejectFileName cs n e s).
Proof.
  induction cs as [|c cs IH]; intros H; cbn [rejectFileName]; [exact I|].
  destruct (H c (or_introl eq_refl)) as [it Hit].
  unfold bind, deref. rewrite Hit.
  destruct (negb (isFolder it) && (n =? name it)%string); [exact I|].
  apply IH. eapply allLive_tail; eauto.
Qed.

Lemma defined_getItem s T path : wfTree s T -> defined (getItem path s).
Proof. intros Hwf. destruct (getItem_defined s T path Hwf) as [r ->]. exact I. Qed.

Lemma defined_getFullPath s T x : wfTree s T -> x ∈ nodes T -> defined (getFullPath x s).
Proof. intros Hwf Hx. destruct (getFullPath_defined s T x Hwf Hx) as [p ->]. exact I. Qed.

Lemma defined_getDestDir s T path : wfTree s T -> defined (getDestDir path s).
Proof.
  intros Hwf. unfold getDestDir.
  apply defined_pure_bind; [apply pure_getItem | eapply defined_getItem; eauto|].
  intros [d|] Hd; [|exact I].
  destruct (wfTree_live s T d Hwf (getItem_in s T path d s Hwf Hd)) as [it Hit].
  unfold bind, deref. rewrite Hit. destruct (negb (isFolder it)); exact I.
Qed.

(** ** cd, mkdir, touch, put *)

Lemma defined_cd s T path : wfTree s T -> defined (cd path s).
Proof.
  intros Hwf. unfold cd.
  apply defined_pure_bind; [apply pure_getItem | eapply defined_getItem; eauto|].
  intros [t|] Ht; [|exact I].
  destruct (wfTree_live s T t Hwf (getItem_in s T path t s Hwf Ht)) as [it Hit].
  unfold bind, deref. rewrite Hit. destruct (negb (isFolder it)); exact I.
Qed.

Lemma defined_mkdirStep current part s :
  standsIn current s -> defined (mkdirStep current part s).
Proof.
  intros (T & Hwf & Hcur & Hdir). unfold mkdirStep.
  destruct ((part =? "")%string || (part =? ".")%string || (part =? "..")%string); [exact I|].
  destruct (negb (isValidName part)); [exact I|].
  pose proof Hdir as (c & Hc & Hck).
  unfold bind at 1, deref. rewrite Hc.
  apply defined_pure_bind; [apply pure_findFolder| |].
  { apply defined_findFolder. eapply tree_children_live; eauto. }
  intros [next|] Hfind; [exact I|].
  destruct (attach_leaf_run s T current (mkItem true part [] [] [] (Some current))
              Hwf Hcur Hdir eq_refl eq_refl) as (s2 & Hrun & Hwf2 & _).
  rewrite Hrun.
  apply defined_pure_bind; [apply pure_getFullPath| |intros; exact I].
  eapply defined_getFullPath; [exact Hwf2|].
  rewrite nodes_graft by (try exact Hcur; apply Hwf).
  apply elem_of_app. right. left.
Qed.

Lemma defined_mkdirLoop parts : forall current s,
  standsIn current s -> defined (foldM mkdirStep parts current s).
Proof.
  induction parts as [|part rest IH]; intros current s Hst; cbn [foldM]; [exact I|].
  apply defined_bind; [apply defined_mkdirStep; exact Hst|].
  intros next s1 Hstep. apply IH.
  pose proof (standsIn_mkdirStep current part s Hst) as H. rewrite Hstep in H. exact H.
Qed.

Lemma defined_mkdir s T path : wfTree s T -> defined (mkdir path s).
Proof.
  intros Hwf. unfold mkdir. destruct (path =? "")%string; [exact I|].
  destruct (splitPath path) as [|p ps] eqn:Hparts; [exact I|].
  assert (Hstart : standsIn (if beginsWithSlash path then root s else currentDir s) s).
  { exists T. split; [exact Hwf|]. destruct (beginsWithSlash path).
    - split; [eapply wfTree_root; eauto | exact (wf_rootdir s T Hwf)].
    - split; [exact (wf_cur s T Hwf) | exact (wf_curdir s T Hwf)]. }
  unfold bind at 1.
  replace ((if beginsWithSlash path then gets root else gets currentDir) s)
    with (Ok (if beginsWithSlash path then root s else currentDir s) s)
    by (destruct (beginsWithSlash path); reflexivity).
  apply defined_bind; [apply defined_mkdirLoop; exact Hstart | intros; exact I].
Qed.

Lemma defined_saved s n it r : defined (saved s n it r).
Proof. destruct r as [[[ids m'] d'] ok]. unfold saved. destruct ok; exact I. Qed.

(** [new], [push_back] and [saveToDisk] of a file below a directory. *)
Lemma defined_attach_file s d c it :
  brkOk s -> heap s !! d = Some c ->
  isFolder it = false -> sectors it = [] -> fitsInt (content it) ->
  defined (bind (new it) (fun n => bind (push_back d n) (fun _ => saveToDisk (Some n))) s).
Proof.
  intros Hbrk Hd Hk Hsec Hfit. rewrite (attach_run s d c it Hbrk Hd).
  rewrite (saveToDisk_first _ (brk s) it);
    [apply defined_saved | apply lookup_insert_eq | exact Hk | exact Hsec | exact Hfit].
Qed.

Lemma defined_touch s T filename : wfTree s T -> defined (touch filename s).
Proof.
  intros Hwf. unfold touch. destruct (negb (isValidName filename)); [exact I|].
  unfold bind at 1, gets. destruct (wf_curdir s T Hwf) as (c & Hc & Hck).
  unfold bind at 1, deref. rewrite Hc.
  apply defined_pure_bind; [apply pure_rejectName| |].
  { apply defined_rejectName. eapply tree_children_live; eauto. exact (wf_cur s T Hwf). }
  intros [] _.
  apply (defined_attach_file s (currentDir s) c); auto.
  - exact (wf_brk s T Hwf).
  - apply fitsInt_nil.
Qed.

Lemma defined_put s T realFile file fsPath :
  wfTree s T -> fits (Put realFile file fsPath) -> defined (put realFile file fsPath s).
Proof.
  intros Hwf Hfit. unfold put. destruct file as [bytes|]; [|exact I]. cbv zeta.
  apply defined_pure_bind; [apply pure_getDestDir | eapply defined_getDestDir; eauto|].
  intros d Hd. apply (getDestDir_in _ _ T) in Hd as (_ & HdT & (c & Hc & Hck)); [|exact Hwf].
  unfold bind at 1, deref. rewrite Hc.
  apply defined_pure_bind; [apply pure_rejectFileName| |].
  { apply defined_rejectFileName. eapply tree_children_live; eauto. }
  intros [] _.
  apply (defined_attach_file s d c); auto. exact (wf_brk s T Hwf).
Qed.


(** ** rm *)

(** The one call whose result is not defined: [rm -r] of an item that
    has children. *)
Definition rmHazard (o : op) (s : FileSystem) : Prop :=
  match o with
  | Rm name true =>
      exists c t it, heap s !! currentDir s = Some c /\
                     findChild (children c) name s = Ok (Some t) s /\
                     heap s !! t = Some it /\ children it <> []
  | _ => False
  end.

Lemma child_not_current s T c t :
  wfTree s T -> heap s !! currentDir s = Some c -> t ∈ children c -> t <> currentDir s.
Proof.
  intros Hwf Hc Htc.
  assert (Ht : t ∈ nodes T).
  { eapply shape_child; [apply (wf_shape s T Hwf) | apply (wf_cur s T Hwf) | exact Hc | exact Htc]. }
  destruct (shape_child_parent _ _ _ _ _ _ (wf_shape s T Hwf) (wf_cur s T Hwf) Hc Htc)
    as (it & Hit & Hpar).
  assert (Hnt : t <> top T).
  { intros ->. pose proof (shape_top _ _ _ _ (wf_shape s T Hwf) Hit). congruence. }
  destruct (shape_cut _ _ _ _ (wf_shape s T Hwf) (wf_nodup s T Hwf) Ht Hnt Hit)
    as (q & qi & u & Hq & Hqi & HqT & _ & Hu & Htop & Hqu & _).
  assert (q = currentDir s) by congruence. subst q.
  intros Heq. apply Hqu. rewrite <- Heq, <- Htop. apply nodes_top.
Qed.

Lemma rm_defined_or_hazard s name recursive :
  wf s -> defined (rm name recursive s) \/ rmHazard (Rm name recursive) s.
Proof.
  intros Hwf. pose proof Hwf as [[T Ht] _].
  destruct (wf_curdir s T Ht) as (c & Hc & Hck).
  pose proof (tree_children_live s T _ c Ht (wf_cur s T Ht) Hc) as Hlive.
  pose proof (findChild_childNamed _ name _ Hlive) as Hfind.
  destruct (childNamed (heap s) (children c) name) as [t|] eqn:Echild.
  2:{ left. unfold rm, bind, gets, deref. rewrite Hc, Hfind. exact I. }
  pose proof (findChild_elem _ _ _ _ _ Hfind) as Htc.
  destruct (Hlive t) as [it Hit]; [apply list_elem_of_In; exact Htc|].
  destruct (children it) as [|k ks] eqn:Hkids.
  - left.
    destruct (rm_leaf_frees name recursive s c t it Hwf Hc Hfind Hit Hkids) as (s' & -> & _).
    exact I.
  - destruct (isFolder it) eqn:Hk.
    + destruct recursive.
      * right. exists c, t, it. rewrite Hkids.
        split; [exact Hc|]. split; [exact Hfind|]. split; [exact Hit | discriminate].
      * left. rewrite (rm_not_empty_refused name s c t it Hc Hfind Hit Hk); [exact I|].
        rewrite Hkids. discriminate.
    + pose proof (wf_leaves s T Ht t it Hit Hk). congruence.
Qed.

Lemma rm_hazard_Fault s name :
  wf s -> rmHazard (Rm name true) s -> exists f, rm name true s = Fault f.
Proof.
  intros [[T Hwf] [Ho Hb]] (c & t & it & Hc & Hfind & Hit & Hkids).
  pose proof (findChild_elem _ _ _ _ _ Hfind) as Htc.
  pose proof (child_not_current s T c t Hwf Hc Htc) as Hne.
  unfold rm, bind at 1, gets. unfold bind at 1, deref. rewrite Hc.
  unfold bind at 1. rewrite Hfind. unfold bind at 1. rewrite Hit.
  rewrite andb_false_r.
  unfold bind at 1, eraseChild, update. rewrite Hc.
  unfold bind at 1, depthBound, gets.
  set (s1 := set_heap _ s).
  assert (Hit1 : heap s1 !! t = Some it).
  { subst s1. cbn. rewrite lookup_insert_ne by congruence. exact Hit. }
  pose proof (deleteTree_use_after_free (S (brk s1)) t s1 it Hit1 Hkids) as Huaf.
  assert (Hval : validAll (length (sectorMap s1)) s1).
  { apply owns_validAll. subst s1. cbn. eapply owns_insert_same; eauto. }
  pose proof (validAll_deleteTree _ (S (brk s1)) (Some t) s1 Hval) as Hnever.
  destruct (deleteTree (S (brk s1)) (Some t) s1) as [[] s2|e s2|f].
  - exfalso. exact (Huaf s2 eq_refl).
  - destruct Hnever.
  - exists f. reflexivity.
Qed.

(** ** Sector ids and the range error *)

Lemma reachableSafely_reachable s : reachableSafely s -> reachable s.
Proof.
  induction 1 as [capacity Hcap | s o e s' _ IH Hfit Hret _ _].
  - apply reachable_init. exact Hcap.
  - apply (reachable_step s o e s' IH Hfit Hret).
Qed.

(** X20. Sector ids stay on the disk, in every session, also after a
    disk-full error: in every state reached by calls that have returned,
    the bitmap has as many entries as the disk has sectors and every
    sector id listed by a live item is below that number.  So a command
    returns, or reports an error that is not the range error of
    [freeSector], or has no defined behaviour; and [rm -r] of an item
    with children in a well-formed state is of the third kind: there the
    program reads the sector list of a deleted item, and what it then
    reports, the range error included, is not fixed by the code. *)
Theorem sectors_stay_in_range (s : FileSystem) :
  reachable s ->
  Z.of_nat (length (sectorMap s)) = totalSectors s /\
  (forall p it i, heap s !! p = Some it -> i ∈ sectors it -> 0 <= i < totalSectors s) /\
  (forall o, (exists s', exec o s = Ok tt s') \/
             (exists e s', exec o s = Throw e s' /\ forall i, e <> out_of_range i) \/
             (exists f, exec o s = Fault f)) /\
  (forall o, wf s -> rmHazard o s -> exists f, exec o s = Fault f).
Proof.
  intros Hreach. destruct (ranged_reachable s Hreach) as [n Hr].
  pose proof Hr as [[Hlen Hs] Ht]. split; [lia|]. split; [|split].
  - intros p it i Hp Hi. rewrite Ht. eauto.
  - intros o. pose proof (ranged_exec n o s Hr) as Hx.
    destruct (exec o s) as [[] s'|e s'|f].
    + left. exists s'. reflexivity.
    + right. left. exists e, s'. split; [reflexivity | exact (proj2 Hx)].
    + right. right. exists f. reflexivity.
  - intros o Hwf Hh.
    destruct o as [ | path | path | path | filename | nm recursive | source dest | source dest
                 | filename canCreate | realFile file fsPath | filename | ];
      cbn [rmHazard] in Hh; try contradiction.
    destruct recursive; [|contradiction].
    cbn [exec]. apply rm_hazard_Fault; assumption.
Qed.

Lemma sectors_stay_in_range_witness :
  Z.of_nat (length (sectorMap dirWithFileState)) = totalSectors dirWithFileState /\
  (forall p it i, heap dirWithFileState !! p = Some it -> i ∈ sectors it ->
                  0 <= i < totalSectors dirWithFileState) /\
  (forall o, (exists s', exec o dirWithFileState = Ok tt s') \/
             (exists e s', exec o dirWithFileState = Throw e s' /\
                           forall i, e <> out_of_range i) \/
             (exists f, exec o dirWithFileState = Fault f)) /\
  (forall o, wf dirWithFileState -> rmHazard o dirWithFileState ->
             exists f, exec o dirWithFileState = Fault f).
Proof.
  apply (sectors_stay_in_range dirWithFileState).
  apply reachableSafely_reachable. exact dirWithFileState_safe.
Defined.

(** ** mv *)

Lemma defined_checkNotInside_up h_root s src : forall n c fuel,
  insideN (heap s) h_root n c ->
  (exists ir, heap s !! h_root = Some ir /\ parent ir = None) ->
  (n < fuel)%nat -> defined (checkNotInside fuel (Some c) src s).
Proof.
  intros n c fuel Hin (ir & Hir & Hnone). revert fuel.
  induction Hin as [|n x it p Hit Hp Hin IH]; intros fuel Hfuel.
  - destruct fuel as [|fuel]; [lia|]. cbn [checkNotInside].
    destruct (Nat.eqb h_root src); [exact I|].
    unfold bind, deref. rewrite Hir, Hnone.
    destruct fuel; exact I.
  - destruct fuel as [|fuel]; [lia|]. cbn [checkNotInside].
    destruct (Nat.eqb x src); [exact I|].
    unfold bind, deref. rewrite Hit, Hp. apply IH. lia.
Qed.

Lemma defined_checkNotInside s T chk src :
  wfTree s T -> (forall c, chk = Some c -> c ∈ nodes T) ->
  defined (checkNotInside (S (brk s)) chk src s).
Proof.
  intros Hwf Hin. destruct chk as [c|]; [|exact I].
  destruct (tree_depth s T c Hwf (Hin c eq_refl)) as (n & Hn & Hup).
  apply (defined_checkNotInside_up (root s) s src n c); [exact Hup| |lia].
  destruct (wfTree_live s T _ Hwf (wfTree_root s T Hwf)) as [ir Hir].
  exists ir. split; [exact Hir|].
  rewrite <- (wf_top s T Hwf) in Hir. exact (shape_top _ _ _ _ (wf_shape s T Hwf) Hir).
Qed.

(** [lives L s]: the addresses [L] are live in [s]. *)
Definition lives (L : list ptr) (s : FileSystem) : Prop :=
  forall p, p ∈ L -> is_Some (heap s !! p).

Lemma lives_update L p f s :
  lives L s -> p ∈ L ->
  exists s', update p f s = Ok tt s' /\ lives L s'.
Proof.
  intros HL Hp. destruct (HL p Hp) as [it Hit]. unfold update. rewrite Hit.
  eexists. split; [reflexivity|]. intros q Hq. cbn.
  apply lookup_insert_is_Some'. right. apply HL. exact Hq.
Qed.

Lemma defined_update_then {A} L p f (k : M A) s :
  lives L s -> p ∈ L -> (forall s', lives L s' -> defined (k s')) ->
  defined (bind (update p f) (fun _ => k) s).
Proof.
  intros HL Hp Hk. destruct (lives_update L p f s HL Hp) as (s' & Hrun & HL').
  unfold bind. rewrite Hrun. apply Hk. exact HL'.
Qed.

Lemma defined_update_last L p f s : lives L s -> p ∈ L -> defined (update p f s).
Proof.
  intros HL Hp. destruct (lives_update L p f s HL Hp) as (s' & -> & _). exact I.
Qed.

Lemma defined_detach_then {A} L src its (k : M A) s :
  lives L s -> heap s !! src = Some its ->
  (forall p, parent its = Some p -> p ∈ L) ->
  (forall s', lives L s' -> defined (k s')) ->
  defined (bind (detach src) (fun _ => k) s).
Proof.
  intros HL Hits Hpar Hk. unfold detach.
  unfold bind at 1. unfold bind at 1, deref. rewrite Hits.
  destruct (parent its) as [p|] eqn:Hp.
  - unfold eraseChild.
    destruct (lives_update L p (fun it => set_children (eraseFirst src (children it)) it)
                s HL (Hpar p eq_refl)) as (s' & -> & HL').
    apply Hk. exact HL'.
  - unfold ret. apply Hk. exact HL.
Qed.

Lemma defined_mv s T source dest : wfTree s T -> defined (mv source dest s).
Proof.
  intros Hwf. unfold mv.
  apply defined_pure_bind; [apply pure_getItem | eapply defined_getItem; eauto|].
  intros [src|] Hsrc; [|exact I].
  assert (HsrcT : src ∈ nodes T) by (eapply getItem_in; eauto).
  destruct (wfTree_live s T src Hwf HsrcT) as [its Hits].
  unfold bind at 1, deref. rewrite Hits.
  apply defined_pure_bind.
  { destruct (isFolder its); pure_tac; apply pure_checkNotInside. }
  { destruct (isFolder its); [|exact I].
    apply defined_pure_bind; [apply pure_getItem | eapply defined_getItem; eauto|].
    intros chk Hchk. unfold bind, depthBound, gets.
    apply (defined_checkNotInside s T); [exact Hwf|].
    intros c ->. eapply getItem_in; eauto. }
  intros _ _.
  apply defined_pure_bind; [apply pure_getItem | eapply defined_getItem; eauto|].
  intros destItem Hdest.
  assert (Hpar : forall p, parent its = Some p -> p ∈ nodes T).
  { intros p Hp.
    assert (Hne : src <> top T).
    { intros ->. pose proof (shape_top _ _ _ _ (wf_shape s T Hwf) Hits). congruence. }
    destruct (shape_parent _ _ _ _ _ (wf_shape s T Hwf) HsrcT Hits Hne)
      as (q & qi & Hq & HqT & _). congruence. }
  assert (Hall : lives (nodes T) s).
  { intros p Hp. eapply wfTree_live; eauto. }
  apply defined_pure_bind; [apply pure_isExistingFolder| |].
  { destruct destItem as [d|]; [|exact I]. cbn [isExistingFolder].
    destruct (wfTree_live s T d Hwf (getItem_in s T dest d s Hwf Hdest)) as [di Hdi].
    unfold bind, deref. rewrite Hdi. exact I. }
  intros intoFolder Hinto.
  assert (Hrename :
    defined ((let (destDirPath, destName) := splitDest dest in
              let* destDir := getDestDir destDirPath in
              let* di := deref destDir in
              rejectOtherName (children di) destName src
                (runtime_error ("Destination already exists: " ++ destName)%string) ;;
              let sameParent := sameNode (parent its) destDir in
              (if negb sameParent then detach src else ret tt) ;;
              update src (set_name destName) ;;
              if negb sameParent then
                update src (set_parent (Some destDir)) ;; push_back destDir src
              else ret tt) s)).
  { destruct (splitDest dest) as [destDirPath destName].
    apply defined_pure_bind; [apply pure_getDestDir | eapply defined_getDestDir; eauto|].
    intros d Hd. apply (getDestDir_in _ _ T) in Hd as (_ & HdT & (di & Hdi & Hdk));
      [|exact Hwf].
    unfold bind at 1, deref. rewrite Hdi.
    apply defined_pure_bind; [apply pure_rejectOtherName| |].
    { apply defined_rejectOtherName. eapply tree_children_live; eauto. }
    intros [] _. cbv zeta.
    destruct (negb (sameNode (parent its) d)).
    - apply (defined_detach_then (nodes T) src its); [exact Hall | exact Hits | exact Hpar|].
      intros s1 H1. apply (defined_update_then (nodes T)); [exact H1 | exact HsrcT|].
      intros s2 H2. apply (defined_update_then (nodes T)); [exact H2 | exact HsrcT|].
      intros s3 H3. apply (defined_update_last (nodes T)); [exact H3 | exact HdT].
    - unfold bind at 1, ret at 1.
      apply (defined_update_then (nodes T)); [exact Hall | exact HsrcT|].
      intros s2 H2. exact I. }
  destruct destItem as [d|]; [|destruct intoFolder; exact Hrename].
  destruct intoFolder; [|exact Hrename].
  assert (HdT : d ∈ nodes T) by (eapply getItem_in; eauto).
  destruct (wfTree_live s T d Hwf HdT) as [di Hdi].
  unfold bind at 1, deref. rewrite Hdi.
  apply defined_pure_bind; [apply pure_rejectName| |].
  { apply defined_rejectName. eapply tree_children_live; eauto. }
  intros [] _.
  destruct (negb (sameNode (parent its) d)); [|exact I].
  apply (defined_detach_then (nodes T) src its); [exact Hall | exact Hits | exact Hpar|].
  intros s1 H1. apply (defined_update_then (nodes T)); [exact H1 | exact HsrcT|].
  intros s2 H2. apply (defined_update_last (nodes T)); [exact H2 | exact HdT].
Qed.


(** ** cp *)

Lemma subtree_in_kid x p ks u :
  subtree x (Node p ks) = Some u -> p <> x -> exists k, k ∈ ks /\ subtree x k = Some u.
Proof.
  intros H Hne. cbn [subtree] in H. apply Nat.eqb_neq in Hne. rewrite Hne in H.
  induction ks as [|k ks IH]; simpl in H; [discriminate|].
  destruct (subtree x k) as [u'|] eqn:Ek.
  - injection H as <-. exists k. split; [left | exact Ek].
  - destruct (IH H) as (k' & Hk' & Hu). exists k'. split; [right; exact Hk' | exact Hu].
Qed.

Lemma height_subtree x t : forall u, subtree x t = Some u -> (height u <= height t)%nat.
Proof.
  induction t as [p ks IH] using tree_ind'. intros u H.
  destruct (decide (p = x)) as [->|Hne].
  - cbn [subtree] in H. rewrite Nat.eqb_refl in H. injection H as <-. lia.
  - destruct (subtree_in_kid x p ks u H Hne) as (k & Hk & Hu).
    rewrite Forall_forall in IH. specialize (IH k Hk u Hu).
    pose proof (height_kid p ks k Hk). lia.
Qed.

(** The loop of [copyItem] over the children [ks] of the source, in a
    state [sj] that agrees with [s0] below [brk s0] and holds the new
    item [n]. *)
Lemma copyKids_defined fuel p n s0 : forall ks sj,
  Forall (fun k => forall fuel par newParent s,
            shape (heap s) par k -> brkOk s -> fitsIn (heap s) k ->
            (height k <= fuel)%nat -> defined (copyItem fuel (top k) newParent s)) ks ->
  Forall (shape (heap s0) (Some p)) ks -> brkOk s0 ->
  (forall k, k ∈ ks -> fitsIn (heap s0) k) ->
  (forall k, k ∈ ks -> (height k <= fuel)%nat) ->
  (forall x, (x < brk s0)%nat -> heap sj !! x = heap s0 !! x) ->
  brkOk sj -> (brk s0 <= n)%nat -> is_Some (heap sj !! n) ->
  defined (forM (map top ks)
                (fun child =>
                   let* newChild := copyItem fuel child (Some n) in
                   update n (fun it => set_children (children it ++ [newChild]) it)) sj).
Proof.
  induction ks as [|k ks IHks]; intros sj IH Hsh Hb0 Hfits Hh Hold Hbj Hn Hlive;
    unfold forM; cbn [map foldM]; [exact I|].
  apply Forall_cons in IH as [IHk IHrest]. apply Forall_cons in Hsh as [Hk Hrest].
  assert (Hlow : forall x, x ∈ nodes k -> (x < brk s0)%nat).
  { intros x Hx. apply Hb0. eapply shape_live; eauto. }
  assert (Hshj : shape (heap sj) (Some p) k).
  { eapply shape_same; [exact Hk|]. intros x Hx. apply Hold. apply Hlow. exact Hx. }
  assert (Hfitj : fitsIn (heap sj) k).
  { intros x it Hx Hit. rewrite Hold in Hit by (apply Hlow; exact Hx).
    eapply (Hfits k); [left | exact Hx | exact Hit]. }
  apply defined_bind.
  - apply defined_bind.
    + apply (IHk fuel (Some p) (Some n) sj Hshj Hbj Hfitj). apply Hh. left.
    + intros newChild s' Hcopy.
      destruct (copyItem_copied k fuel (Some p) (Some n) sj newChild s' Hshj Hbj Hfitj Hcopy)
        as (_ & t' & Hcp).
      destruct Hlive as [itn Hitn].
      assert (Hnj : (n < brk sj)%nat) by (apply Hbj; eauto).
      unfold update. rewrite (cp_old _ _ _ _ _ Hcp n Hnj), Hitn. exact I.
  - intros [] s2 Hstep.
    apply bind_Ok in Hstep as (newChild & s' & Hcopy & Hupd).
    destruct (copyItem_copied k fuel (Some p) (Some n) sj newChild s' Hshj Hbj Hfitj Hcopy)
      as (_ & t' & Hcp).
    destruct Hlive as [itn Hitn].
    assert (Hnj : (n < brk sj)%nat) by (apply Hbj; eauto).
    unfold update in Hupd. rewrite (cp_old _ _ _ _ _ Hcp n Hnj), Hitn in Hupd.
    injection Hupd as <-.
    apply (IHks _ IHrest Hrest Hb0).
    + intros k' Hk'. apply Hfits. right. exact Hk'.
    + intros k' Hk'. apply Hh. right. exact Hk'.
    + intros x Hx. cbn [heap set_heap]. rewrite lookup_insert_ne by lia.
      rewrite (cp_old _ _ _ _ _ Hcp x) by (pose proof (Hbj n ltac:(eauto)); lia).
      apply Hold. exact Hx.
    + intros q [iq Hq]. cbn [heap set_heap brk] in *.
      pose proof (cp_brk _ _ _ _ _ Hcp) as Hbrk.
      destruct (decide (q = n)) as [->|Hqn]; [lia|].
      rewrite lookup_insert_ne in Hq by congruence.
      apply (cp_brkOk _ _ _ _ _ Hcp). eauto.
    + exact Hn.
    + cbn [heap set_heap]. rewrite lookup_insert_eq. eauto.
Qed.

Lemma copyItem_defined t : forall fuel par newParent s,
  shape (heap s) par t -> brkOk s -> fitsIn (heap s) t -> (height t <= fuel)%nat ->
  defined (copyItem fuel (top t) newParent s).
Proof.
  induction t as [p ks IH] using tree_ind'. intros fuel par newParent s Hsh Hb Hfits Hfuel.
  destruct fuel as [|fuel]; [cbn [height] in Hfuel; lia|].
  pose proof Hsh as Hsh'. apply shape_inv in Hsh' as (it & Hit & _ & Hch & Hks).
  cbn [copyItem top]. unfold bind at 1, deref. rewrite Hit.
  unfold bind at 1, new.
  set (item := mkItem (isFolder it) (name it) (content it) [] [] newParent).
  set (s1 := mkFS _ _ _ _ _ _ _).
  assert (Hnew : heap s1 !! brk s = Some item) by apply lookup_insert_eq.
  apply defined_bind.
  { destruct (isFolder it) eqn:Hk; cbn [negb]; [exact I|].
    rewrite (saveToDisk_first s1 (brk s) item Hnew); [apply defined_saved| | |].
    - reflexivity.
    - reflexivity.
    - cbn. eapply (Hfits p); [apply (nodes_top (Node p ks)) | exact Hit]. }
  intros [] s2 Hsave.
  assert (Hrw : rewrites (brk s) s1 s2).
  { destruct (isFolder it); cbn [negb] in Hsave.
    - injection Hsave as <-. apply rewrites_refl.
    - pose proof (rewrites_saveToDisk s1 (brk s) s1 (rewrites_refl _ s1)) as H.
      rewrite Hsave in H. exact H. }
  destruct Hrw as (Hbrk2 & _ & _ & _ & Hother2 & Hat2).
  rewrite Hnew in Hat2.
  destruct (heap s2 !! brk s) as [itn|] eqn:Hitn; [|contradiction].
  apply defined_bind; [|intros; exact I].
  rewrite Hch.
  apply (copyKids_defined fuel p (brk s) s ks s2 IH Hks Hb).
  - intros k Hk x ix Hx Hix. eapply (Hfits x); [eapply nodes_kid; eauto | exact Hix].
  - intros k Hk. pose proof (height_kid p ks k Hk). lia.
  - intros x Hx. rewrite Hother2 by lia. subst s1. cbn [heap].
    apply lookup_insert_ne. lia.
  - intros q [iq Hq]. rewrite Hbrk2. subst s1. cbn [brk].
    destruct (decide (q = brk s)) as [->|Hqn]; [lia|].
    rewrite Hother2 in Hq by congruence. cbn [heap] in Hq.
    rewrite lookup_insert_ne in Hq by congruence.
    pose proof (Hb q ltac:(eauto)). lia.
  - lia.
  - eauto.
Qed.

Lemma defined_cp s T source dest :
  wfTree s T -> (forall p it, heap s !! p = Some it -> fitsInt (content it)) ->
  defined (cp source dest s).
Proof.
  intros Hwf Hfits. unfold cp.
  apply defined_pure_bind; [apply pure_getItem | eapply defined_getItem; eauto|].
  intros [src|] Hsrc; [|exact I].
  assert (HsrcT : src ∈ nodes T) by (eapply getItem_in; eauto).
  destruct (wfTree_live s T src Hwf HsrcT) as [its Hits].
  destruct (subtree_exists src T HsrcT) as [t Ht].
  destruct (subtree_shape _ _ _ _ _ (wf_shape s T Hwf) Ht) as [par Hsh].
  pose proof (subtree_top _ _ _ Ht) as Htop.
  assert (Hfuel : (height t <= S (brk s))%nat).
  { pose proof (height_subtree src T t Ht).
    assert (height T <= S (brk s))%nat; [|lia].
    apply depthBound_enough; [apply (wf_nodup s T Hwf)|].
    intros p Hp. apply (wf_brk s T Hwf). eapply wfTree_live; eauto. }
  assert (Hcopy : forall d (k : ptr -> M unit),
            d ∈ nodes T ->
            (forall n s1, (forall x, (x < brk s)%nat -> heap s1 !! x = heap s !! x) ->
                          (brk s <= n)%nat -> is_Some (heap s1 !! n) -> defined (k n s1)) ->
            defined ((let* fuel := depthBound in
                      let* newItem := copyItem fuel src (Some d) in k newItem) s)).
  { intros d k Hd Hk. unfold bind at 1, depthBound, gets.
    apply defined_bind.
    - rewrite <- Htop. apply (copyItem_defined t _ par); [exact Hsh | apply (wf_brk s T Hwf)| |exact Hfuel].
      intros x ix _ Hix. eapply Hfits; eauto.
    - intros n s1 Hrun. rewrite <- Htop in Hrun.
      destruct (copyItem_copied t (S (brk s)) par (Some d) s n s1 Hsh (wf_brk s T Hwf))
        as (-> & t' & Hcp);
        [intros x ix _ Hix; eapply Hfits; eauto | exact Hrun|].
      apply Hk; [apply (cp_old _ _ _ _ _ Hcp) | lia |].
      rewrite <- (cp_top _ _ _ _ _ Hcp).
      eapply shape_live; [apply (cp_shape _ _ _ _ _ Hcp) | apply nodes_top]. }
  assert (Hpush : forall d n s1, d ∈ nodes T ->
            (forall x, (x < brk s)%nat -> heap s1 !! x = heap s !! x) ->
            defined (push_back d n s1)).
  { intros d n s1 Hd Hold. destruct (wfTree_live s T d Hwf Hd) as [di Hdi].
    unfold push_back, update. rewrite Hold by (apply (wf_brk s T Hwf); eauto).
    rewrite Hdi. exact I. }
  apply defined_pure_bind; [apply pure_getItem | eapply defined_getItem; eauto|].
  intros destItem Hdest.
  apply defined_pure_bind; [apply pure_isExistingFolder| |].
  { destruct destItem as [d|]; [|exact I]. cbn [isExistingFolder].
    destruct (wfTree_live s T d Hwf (getItem_in s T dest d s Hwf Hdest)) as [di Hdi].
    unfold bind, deref. rewrite Hdi. exact I. }
  intros intoFolder _.
  assert (Hrename :
    defined ((let (destDirPath, destName) := splitDest dest in
              let* destDir := getDestDir destDirPath in
              let* di := deref destDir in
              rejectName (children di) destName
                (runtime_error ("Destination already exists: " ++ destName)%string) ;;
              let* fuel := depthBound in
              let* newItem := copyItem fuel src (Some destDir) in
              update newItem (set_name destName) ;;
              push_back destDir newItem) s)).
  { destruct (splitDest dest) as [destDirPath destName].
    apply defined_pure_bind; [apply pure_getDestDir | eapply defined_getDestDir; eauto|].
    intros d Hd. apply (getDestDir_in _ _ T) in Hd as (_ & HdT & (di & Hdi & Hdk));
      [|exact Hwf].
    unfold bind at 1, deref. rewrite Hdi.
    apply defined_pure_bind; [apply pure_rejectName| |].
    { apply defined_rejectName. eapply tree_children_live; eauto. }
    intros [] _. apply (Hcopy d); [exact HdT|].
    intros n s1 Hold Hn [itn Hitn]. unfold bind, update. rewrite Hitn.
    apply (Hpush d n); [exact HdT|].
    intros x Hx. cbn [heap set_heap].
    rewrite lookup_insert_ne by lia. apply Hold. exact Hx. }
  destruct destItem as [d|]; [|destruct intoFolder; exact Hrename].
  destruct intoFolder; [|exact Hrename].
  assert (HdT : d ∈ nodes T) by (eapply getItem_in; eauto).
  destruct (wfTree_live s T d Hwf HdT) as [di Hdi].
  unfold bind at 1, deref. rewrite Hits.
  unfold bind at 1, deref. rewrite Hdi.
  apply defined_pure_bind; [apply pure_rejectName| |].
  { apply defined_rejectName. eapply tree_children_live; eauto. }
  intros [] _. apply (Hcopy d); [exact HdT|].
  intros n s1 Hold _ _. apply (Hpush d n); [exact HdT | exact Hold].
Qed.


(** ** defrag, and every command *)

Lemma defined_defrag s T :
  wfTree s T -> fitsAll s -> defined (defrag s).
Proof.
  intros Hwf [Hm Hfits].
  pose proof (defrag_laid s T (wf_shape s T Hwf) (wf_top s T Hwf) (wf_nodup s T Hwf)) as H.
  assert (Hlow : forall p, p ∈ nodes T -> (p < brk s)%nat).
  { intros p Hp. apply (wf_brk s T Hwf). eapply wfTree_live; eauto. }
  specialize (H Hlow Hm Hfits). destruct (defrag s); [exact I | exact I | exact H].
Qed.

Lemma defined_reader o s T : wfTree s T -> reads o = true -> defined (exec o s).
Proof.
  intros Ht Hr. destruct (readers_run o s T Ht Hr) as [H | [e H]]; rewrite H; exact I.
Qed.

(** [isValidName] hands each byte of a name to [isalnum] as a plain
    [char].  For a byte from 0x80 on, which is negative where [char] is
    signed, that call itself has no defined result, and [isalnum] above
    does not say so.  [asciiOnly n]: the name [n] has no such byte. *)
Definition asciiOnly (n : string) : bool :=
  allChars (fun c => Z.of_N (N_of_ascii c) <? 128) n.

(** The names and paths given to a command are ASCII.  ([isValidName]
    is called by [mkdir], on each part of the path, and by [touch], on
    the name.) *)
Definition namesAscii (o : op) : Prop :=
  match o with
  | Pwd | Defrag => True
  | Cd path | Ls path | Mkdir path => asciiOnly path = true
  | Touch filename | Get filename _ | Info filename => asciiOnly filename = true
  | Rm name _ => asciiOnly name = true
  | Cp source dest | Mv source dest => asciiOnly source = true /\ asciiOnly dest = true
  | Put realFile _ fsPath => asciiOnly realFile = true /\ asciiOnly fsPath = true
  end.




(** * A destination of the form /name *)

Lemma find_last_of_slashFree (n : string) : forall i last,
  slashFree n = true -> find_last_of n i last = last.
Proof.
  induction n as [|c n IH]; intros i last H; cbn [find_last_of]; [reflexivity|].
  unfold slashFree in H. cbn [allChars] in H. apply andb_true_iff in H as [Hc Hn].
  apply negb_true_iff in Hc. rewrite Hc. apply IH. exact Hn.
Qed.

Lemma substring_all (n : string) : substring 0 (String.length n) n = n.
Proof. induction n as [|c n IH]; cbn; [reflexivity | rewrite IH; reflexivity]. Qed.

Lemma splitDest_slash_name (n : string) :
  slashFree n = true -> splitDest (String "/" n) = ("", n) /\ splitDest n = (".", n).
Proof.
  intros H. unfold splitDest. cbn [find_last_of]. rewrite Ascii.eqb_refl.
  rewrite !find_last_of_slashFree by exact H. split; [|reflexivity].
  assert (E : (String.length (String "/" n) - 1 = String.length n)%nat)
    by (cbn [String.length]; lia).
  rewrite E. f_equal.
  change (substring 1 (String.length n) (String "/" n))
    with (substring 0 (String.length n) n).
  apply substring_all.
Qed.

Lemma bind_ext {A B} (m : M A) (k1 k2 : A -> M B) s :
  (forall a s1, m s = Ok a s1 -> k1 a s1 = k2 a s1) -> bind m k1 s = bind m k2 s.
Proof. intros H. unfold bind. destruct (m s); auto. Qed.

Lemma bind_same {A B} (m1 m2 : M A) (k1 k2 : A -> M B) s a s1 :
  m1 s = Ok a s1 -> m2 s = Ok a s1 -> k1 a s1 = k2 a s1 -> bind m1 k1 s = bind m2 k2 s.
Proof. intros H1 H2 H. unfold bind. rewrite H1, H2. exact H. Qed.

(** X23. A destination of the form [/name] that does not exist is
    not looked for in the root: [cp] and [mv] cut it at its last
    separator into the directory path "" and the name, and the empty
    path resolves to the current directory.  So [cp source /name] and
    [mv source /name] do exactly what [cp source name] and
    [mv source name] do, whatever the current directory is. *)
Theorem slash_name_means_current_directory (s : FileSystem) (source n : string) :
  slashFree n = true ->
  getItem (String "/" n) s = Ok None s -> getItem n s = Ok None s ->
  cp source (String "/" n) s = cp source n s /\
  mv source (String "/" n) s = mv source n s.
Proof.
  intros Hn H1 H2. destruct (splitDest_slash_name n Hn) as [Hs1 Hs2].
  assert (Hdir : getDestDir "" = getDestDir ".") by reflexivity.
  split.
  - unfold cp. apply bind_ext. intros [src|] s0 Hsrc; [|reflexivity].
    pose proof (pure_Ok _ _ _ _ (pure_getItem source) Hsrc). subst s0.
    apply (bind_same _ _ _ _ s None s H1 H2).
    cbn [isExistingFolder]. apply (bind_same _ _ _ _ s false s eq_refl eq_refl).
    rewrite Hs1, Hs2, Hdir. reflexivity.
  - unfold mv. apply bind_ext. intros [src|] s0 Hsrc; [|reflexivity].
    pose proof (pure_Ok _ _ _ _ (pure_getItem source) Hsrc). subst s0.
    apply bind_ext. intros its s0 Hits. apply deref_Ok in Hits as [Hits ->].
    assert (Hchk : forall dest, getItem dest s = Ok None s ->
              (if isFolder its
               then let* checkItem := getItem dest in
                    let* fuel := depthBound in checkNotInside fuel checkItem src
               else ret tt) s = Ok tt s).
    { intros dest Hd. destruct (isFolder its); [|reflexivity].
      unfold bind at 1. rewrite Hd. reflexivity. }
    apply (bind_same _ _ _ _ s tt s (Hchk _ H1) (Hchk _ H2)).
    apply (bind_same _ _ _ _ s None s H1 H2).
    cbn [isExistingFolder]. apply (bind_same _ _ _ _ s false s eq_refl eq_refl).
    rewrite Hs1, Hs2, Hdir. reflexivity.
Qed.

Lemma slash_name_means_current_directory_witness :
  cp "f" "/g" (set_currentDir 1%nat dirWithFileState)
  = cp "f" "g" (set_currentDir 1%nat dirWithFileState) /\
  mv "f" "/g" (set_currentDir 1%nat dirWithFileState)
  = mv "f" "g" (set_currentDir 1%nat dirWithFileState).
Proof.
  apply (slash_name_means_current_directory (set_currentDir 1%nat dirWithFileState) "f" "g");
    reflexivity.
Defined.

(** * Files on a compact disk *)

(** [compact next m]: exactly the first [next] entries of the bitmap
    [m] are allocated. *)
Definition compact (next : Z) (m : list bool) : Prop :=
  forall j : nat, (j < length m)%nat -> m !! j = Some (bool_decide (Z.of_nat j < next)).

Lemma firstFree_compact next m :
  0 <= next -> compact next m ->
  firstFree 0 m = if bool_decide (next < Z.of_nat (length m)) then Some next else None.
Proof.
  intros H0 Hc. case_bool_decide as Hroom.
  - assert (Hfree : m !! Z.to_nat next = Some false).
    { rewrite Hc by lia. rewrite bool_decide_eq_false_2 by lia. reflexivity. }
    destruct (firstFree_below 0 m _ Hfree) as (i & Hi & Hle). rewrite Hi. f_equal.
    apply firstFree_Some in Hi as (Hi0 & Hif & _). rewrite Z.sub_0_r in Hif.
    pose proof (lookup_lt_Some _ _ _ Hif) as Hlt.
    rewrite Hc in Hif by exact Hlt. injection Hif as Hif.
    apply bool_decide_eq_false in Hif. lia.
  - apply firstFree_None. intros j Hj.
    pose proof (lookup_lt_Some _ _ _ Hj) as Hlt.
    rewrite Hc in Hj by exact Hlt. injection Hj as Hj.
    apply bool_decide_eq_false in Hj. lia.
Qed.

Lemma compact_next next m :
  0 <= next -> compact next m -> compact (next + 1) (<[Z.to_nat next := true]> m).
Proof.
  intros H0 Hc j Hj. rewrite length_insert in Hj.
  destruct (decide (j = Z.to_nat next)) as [->|Hne].
  - rewrite list_lookup_insert_eq by exact Hj.
    rewrite bool_decide_eq_true_2 by lia. reflexivity.
  - rewrite list_lookup_insert_ne by congruence. rewrite Hc by exact Hj.
    f_equal. apply bool_decide_ext. lia.
Qed.

Lemma storeChunks_compact cs : forall next m d ids m' d' ok,
  0 <= next -> compact next m ->
  storeChunks cs m d = (ids, m', d', ok) ->
  ids = seqZ next (Z.of_nat (length ids)) /\ compact (next + Z.of_nat (length ids)) m'.
Proof.
  induction cs as [|c cs IH]; intros next m d ids m' d' ok H0 Hc H; cbn [storeChunks] in H.
  - injection H as <- <- _ _. cbn. rewrite Z.add_0_r. auto.
  - rewrite (firstFree_compact next m H0 Hc) in H. case_bool_decide as Hroom.
    + destruct (storeChunks cs _ _) as [[[ids1 m1] d1] ok1] eqn:Hrest.
      injection H as <- <- _ _.
      destruct (IH (next + 1) _ _ _ _ _ _ ltac:(lia) (compact_next next m H0 Hc) Hrest)
        as [Hids Hm1].
      cbn [length]. split.
      * rewrite Nat2Z.inj_succ. rewrite seqZ_cons by lia. f_equal.
        rewrite Z.pred_succ. exact Hids.
      * replace (next + Z.of_nat (S (length ids1))) with (next + 1 + Z.of_nat (length ids1))
          by lia. exact Hm1.
    + injection H as <- <- _ _. cbn. rewrite Z.add_0_r. auto.
Qed.

(** X24. A compact disk stays compact: when exactly the first [next]
    sectors are allocated (as they are after [defrag]), the file that
    [put] creates gets the sectors [next], [next + 1], ... in this
    order, as many as its content needs, and afterwards exactly the
    sectors up to the last of them are allocated. *)
Theorem put_on_compact_disk
        (s s' : FileSystem) (realFile : string) (bytes : list byte) (fsPath : string)
        (next : Z) :
  brkOk s -> fitsInt (readText bytes) -> 0 <= next -> compact next (sectorMap s) ->
  put realFile (Some bytes) fsPath s = Ok tt s' ->
  let needed := Z.of_nat (sectorsNeeded (length (readText bytes))) in
  (exists it, heap s' !! brk s = Some it /\ content it = readText bytes /\
              sectors it = seqZ next needed) /\
  compact (next + needed) (sectorMap s').
Proof.
  intros Hbrk Hfit H0 Hc H needed. unfold put in H. cbv zeta in H.
  apply bind_Ok in H as (d & s0 & Hdest & H).
  pose proof (pure_Ok _ _ _ _ (pure_getDestDir _) Hdest). subst s0.
  apply bind_Ok in H as (c & s0 & Hd & H). apply deref_Ok in Hd as [Hd ->].
  apply bind_Ok in H as ([] & s0 & Hrej & H).
  pose proof (pure_Ok _ _ _ _ (pure_rejectFileName _ _ _) Hrej). subst s0.
  rewrite (attach_run s d c _ Hbrk Hd) in H.
  set (it := mkItem false realFile (readText bytes) [] [] (Some d)) in *.
  set (sB := mkFS _ _ _ _ _ _ _) in H.
  rewrite (saveToDisk_first sB (brk s) it) in H;
    [| apply lookup_insert_eq | reflexivity | reflexivity | exact Hfit].
  cbn [content it sectorMap disk sB] in H.
  destruct (storeChunks _ _ _) as [[[ids m'] d'] ok] eqn:Hstore.
  destruct (storeChunks_compact _ _ _ _ _ _ _ _ H0 Hc Hstore) as [Hids Hm'].
  apply storeChunks_spec in Hstore as [_ Hall _ _ _ _ _ _ _ _].
  unfold saved in H. destruct ok; [|discriminate]. injection H as <-.
  specialize (Hall eq_refl). rewrite length_chunks in Hall.
  cbn [heap sectorMap]. subst needed. rewrite <- Hall. split; [|exact Hm'].
  eexists. split; [apply lookup_insert_eq|]. split; [reflexivity|]. exact Hids.
Qed.

(** The state after [put g .] with a one-byte file in [oneFileState]. *)
Definition twoFilesPut : FileSystem :=
  mkFS [replicate 64 x41; replicate 6 x41; [x42]; []] [true; true; true; false]
       (<[2%nat := mkItem false "g" [x42] [2] [] (Some 0%nat)]>
          (<[1%nat := oneFileItem]> {[ 0%nat := mkItem true "/" [] [] [1%nat; 2%nat] None ]}))
       3%nat 0%nat 0%nat 4.

Lemma put_on_compact_disk_witness :
  let needed := Z.of_nat (sectorsNeeded (length (readText [x42]))) in
  (exists it, heap twoFilesPut !! brk oneFileState = Some it /\
              content it = readText [x42] /\ sectors it = seqZ 2 needed) /\
  compact (2 + needed) (sectorMap twoFilesPut).
Proof.
  apply (put_on_compact_disk oneFileState twoFilesPut "g" [x42] "." 2).
  - exact (proj2 (proj2 (wf_reachable _ oneFileState_reachableSafely))).
  - unfold fitsInt, INT_MAX. vm_compute. discriminate.
  - lia.
  - intros j Hj. cbn in Hj.
    destruct j as [|[|[|[|j]]]]; try reflexivity. lia.
  - vm_compute. reflexivity.
Defined.


(** * From an item to its path and back *)

(** [addressable s x]: on the way from the root down to [x] every item
    is the first child of its parent that has its name, and the names
    are parts other than "." and "..". *)
Inductive addressable (s : FileSystem) : ptr -> Prop :=
| addr_root : addressable s (root s)
| addr_child p c ip ic :
    addressable s p -> heap s !! p = Some ip -> heap s !! c = Some ic ->
    parent ic = Some p ->
    childNamed (heap s) (children ip) (name ic) = Some c ->
    isPart (name ic) -> name ic <> "." -> name ic <> ".." ->
    addressable s c.

Lemma walk_app_Some l1 : forall c x s l2,
  walk c l1 s = Ok (Some x) s -> walk c (l1 ++ l2) s = walk x l2 s.
Proof.
  induction l1 as [|part rest IH]; intros c x s l2 H; cbn [walk app] in *.
  - injection H as <-. reflexivity.
  - destruct (part =? ".")%string; [apply IH; exact H|].
    destruct (part =? "..")%string.
    + apply bind_Ok in H as (up & s1 & H1 & H).
      pose proof (readonly_Ok _ _ _ _ (readonly_parentOrSelf c) H1). subst s1.
      unfold bind. rewrite H1. apply IH. exact H.
    + apply bind_Ok in H as (it & s1 & H1 & H). apply deref_Ok in H1 as [Hit ->].
      apply bind_Ok in H as (found & s1 & H1 & H).
      pose proof (readonly_Ok _ _ _ _ (readonly_findChild _ _) H1). subst s1.
      unfold bind at 1, deref. rewrite Hit. unfold bind. rewrite H1.
      destruct found as [child|]; [apply IH; exact H | discriminate].
Qed.

Lemma joinPath_nonempty (names : list string) :
  Forall isPart names -> names <> [] -> joinPath names <> "".
Proof.
  intros H Hne. destruct H as [|p rest [Hp _] Hrest]; [congruence|].
  destruct rest as [|q rest]; [exact Hp|].
  change (joinPath (p :: q :: rest)) with (p ++ String "/" (joinPath (q :: rest)))%string.
  intros E. apply append_eq_nil in E as [_ E]. discriminate.
Qed.

Lemma addressable_path s T x :
  wfTree s T -> addressable s x ->
  exists names, Forall isPart names /\ (names = [] <-> x = root s) /\
                getFullPath x s = Ok ("/" ++ joinPath names)%string s /\
                walk (root s) names s = Ok (Some x) s.
Proof.
  intros Hwf. induction 1 as [|p c ip ic Hp IH Hip Hic Hpar Hchild Hpart Hd1 Hd2].
  - exists []. split; [constructor|]. split; [tauto|]. split; [|reflexivity].
    unfold getFullPath, bind, gets. rewrite Nat.eqb_refl. reflexivity.
  - destruct IH as (names & Hparts & Hroot & Hpath & Hwalk).
    destruct (getFullPath_step s T c p ic Hwf Hic Hpar) as (_ & pp & Hpp & Hcp).
    rewrite Hpath in Hpp. injection Hpp as <-.
    exists (names ++ [name ic]). split; [|split; [|split]].
    + apply Forall_app. split; [exact Hparts | constructor; [exact Hpart | constructor]].
    + split; [intros E; destruct names; discriminate E|].
      intros ->. rewrite <- (wf_top s T Hwf) in Hic.
      pose proof (shape_top _ _ _ _ (wf_shape s T Hwf) Hic). congruence.
    + rewrite Hcp. f_equal. destruct (Nat.eqb p (root s)) eqn:E.
      * apply Nat.eqb_eq in E. apply Hroot in E. subst names. reflexivity.
      * assert (Hne : names <> []).
        { intros Hn. apply Hroot in Hn. apply Nat.eqb_neq in E. contradiction. }
        rewrite joinPath_snoc by exact Hne. rewrite !append_assoc'. reflexivity.
    + rewrite (walk_app_Some names _ p s [name ic] Hwalk). cbn [walk].
      apply String.eqb_neq in Hd1, Hd2. rewrite Hd1, Hd2.
      unfold bind at 1, deref. rewrite Hip. unfold bind.
      rewrite findChild_childNamed.
      * rewrite Hchild. reflexivity.
      * eapply tree_children_live; [exact Hwf | | exact Hip].
        apply (wf_dom s T Hwf). eauto.
Qed.

(** X25. From an item to its path and back: on a tree, for an item
    that is reached from the root through first children with plain
    names, [getFullPath] returns a path that [getItem] resolves to that
    very item, from whatever current directory.  (What [pwd] prints can
    be given to [cd].) *)
Theorem getItem_of_getFullPath (s : FileSystem) (x : ptr) :
  hasTree s -> addressable s x ->
  exists path, getFullPath x s = Ok path s /\ getItem path s = Ok (Some x) s.
Proof.
  intros [T Hwf] Hx.
  destruct (addressable_path s T x Hwf Hx) as (names & Hparts & Hroot & Hpath & Hwalk).
  exists ("/" ++ joinPath names)%string. split; [exact Hpath|].
  destruct names as [|n names].
  - assert (x = root s) by (apply Hroot; reflexivity). subst x. reflexivity.
  - pose proof (joinPath_nonempty (n :: names) Hparts ltac:(discriminate)) as Hne.
    change ("/" ++ joinPath (n :: names))%string with (String "/" (joinPath (n :: names))).
    unfold getItem.
    assert (E : (String "/" (joinPath (n :: names)) =? "/")%string = false).
    { cbn [String.eqb]. rewrite Ascii.eqb_refl. apply String.eqb_neq. exact Hne. }
    rewrite E. cbn [String.eqb Ascii.eqb Bool.eqb orb beginsWithSlash].
    unfold bind, gets.
    change (splitPath (String "/" (joinPath (n :: names))))
      with (splitPath (joinPath (n :: names))).
    rewrite (splitPath_joinPath_rel _ Hparts). exact Hwalk.
Qed.

Lemma getItem_of_getFullPath_witness :
  exists path, getFullPath 2%nat dirWithFileState = Ok path dirWithFileState /\
               getItem path dirWithFileState = Ok (Some 2%nat) dirWithFileState.
Proof.
  apply (getItem_of_getFullPath dirWithFileState 2%nat).
  - exact dirWithFileState_tree.
  - apply (addr_child dirWithFileState 1%nat 2%nat
             (mkItem true "d" [] [] [2%nat] (Some 0%nat))
             (mkItem false "f" [x41] [0] [] (Some 1%nat)));
      try reflexivity; try discriminate.
    + apply (addr_child dirWithFileState 0%nat 1%nat
               (mkItem true "/" [] [] [1%nat] None)
               (mkItem true "d" [] [] [2%nat] (Some 0%nat)));
        try reflexivity; try discriminate.
      * apply (addr_root dirWithFileState).
      * split; [discriminate | reflexivity].
    + split; [discriminate | reflexivity].
Defined.


(** * Running defrag again *)

(** The bitmap of [n] sectors that marks exactly the ids below [next]. *)
Definition marked (n : nat) (next : Z) : list bool :=
  map (fun j : nat => bool_decide (Z.of_nat j < next)) (seq 0 n).

Lemma marked_length n next : length (marked n next) = n.
Proof. unfold marked. rewrite length_map, length_seq. reflexivity. Qed.

Lemma marked_lookup n next (j : nat) :
  (j < n)%nat -> marked n next !! j = Some (bool_decide (Z.of_nat j < next)).
Proof.
  intros H. unfold marked. rewrite list_lookup_fmap, lookup_seq_lt by exact H. reflexivity.
Qed.

Lemma marked_eq (m : list bool) next :
  (forall j : nat, (j < length m)%nat -> m !! j = Some (bool_decide (Z.of_nat j < next))) ->
  m = marked (length m) next.
Proof.
  intros H. apply list_eq. intros j. destruct (decide (j < length m)%nat) as [Hj|Hj].
  - rewrite H, marked_lookup by exact Hj. reflexivity.
  - rewrite !(proj2 (lookup_ge_None _ _)); [reflexivity | rewrite marked_length; lia | lia].
Qed.

Lemma marked_zero (m : list bool) : map (fun _ => false) m = marked (length m) 0.
Proof.
  transitivity (marked (length (map (fun _ : bool => false) m)) 0);
    [|rewrite length_map; reflexivity].
  apply marked_eq.
  intros j Hj. rewrite length_map in Hj. rewrite list_lookup_fmap.
  destruct (m !! j) eqn:E; [|apply lookup_ge_None in E; lia].
  cbn. rewrite bool_decide_eq_false_2 by lia. reflexivity.
Qed.

Lemma marked_step n next :
  0 <= next -> <[Z.to_nat next := true]> (marked n next) = marked n (next + 1).
Proof.
  intros Hnext. apply list_eq. intros j.
  destruct (decide (j < n)%nat) as [Hj|Hj].
  - rewrite (marked_lookup n (next + 1)) by exact Hj.
    destruct (decide (j = Z.to_nat next)) as [->|Hne].
    + rewrite list_lookup_insert_eq by (rewrite marked_length; exact Hj).
      rewrite bool_decide_eq_true_2 by lia. reflexivity.
    + rewrite list_lookup_insert_ne by congruence.
      rewrite marked_lookup by exact Hj. f_equal. apply bool_decide_ext. lia.
  - rewrite !(proj2 (lookup_ge_None _ _));
      [reflexivity | rewrite marked_length; lia | rewrite length_insert, marked_length; lia].
Qed.

(** The files [files] lie one after the other from sector [a] up to
    sector [b]: each has the consecutive sectors that its chunks need,
    and the slot of each of them holds the chunk. *)
Inductive span (h : gmap ptr Item) (d : list (list byte)) : Z -> list ptr -> Z -> Prop :=
| span_nil a : span h d a [] a
| span_cons a f rest b it :
    h !! f = Some it -> isFolder it = false ->
    sectors it = seqZ a (Z.of_nat (length (chunks (content it)))) ->
    (forall k : nat, (k < length (chunks (content it)))%nat ->
       d !! Z.to_nat (a + Z.of_nat k) = chunks (content it) !! k) ->
    span h d (a + Z.of_nat (length (chunks (content it)))) rest b ->
    span h d a (f :: rest) b.

Lemma span_le h d a files b : span h d a files b -> a <= b.
Proof. induction 1; lia. Qed.

Lemma span_app h d a l1 b l2 c :
  span h d a l1 b -> span h d b l2 c -> span h d a (l1 ++ l2) c.
Proof.
  induction 1 as [|a f rest b it Hit Hk Hs Hd Hrest IH]; intros H2; [exact H2|].
  cbn [app]. eapply span_cons; eauto.
Qed.

Lemma span_ext h d h' d' a files b :
  span h d a files b -> 0 <= a ->
  (forall f, f ∈ files -> h' !! f = h !! f) ->
  (forall j : nat, Z.of_nat j < b -> (j < length d)%nat -> d' !! j = d !! j) ->
  span h' d' a files b.
Proof.
  induction 1 as [|a f rest b it Hit Hk Hs Hd Hrest IH]; intros Ha Hh Hdisk; [constructor|].
  pose proof (span_le _ _ _ _ _ Hrest) as Hle.
  apply span_cons with (it := it); auto.
  - rewrite Hh by left. exact Hit.
  - intros k Hlt. rewrite Hdisk; [apply Hd; exact Hlt | lia |].
    specialize (Hd k Hlt). destruct (chunks (content it) !! k) eqn:E.
    + apply lookup_lt_Some in Hd. exact Hd.
    + apply lookup_ge_None in E. lia.
  - apply IH; [lia | intros g Hg; apply Hh; right; exact Hg | exact Hdisk].
Qed.

Lemma defragFile_run s f it next :
  heap s !! f = Some it -> isFolder it = false -> fitsInt (content it) ->
  0 <= next -> mapOk s ->
  defragFile next f s =
  placed (set_heap (<[f := set_sectors [] it]> (heap s)) s) f (set_sectors [] it) next
         (placeChunks (chunks (content it)) next (totalSectors s) (sectorMap s) (disk s)).
Proof.
  intros Hit Hkind Hfit Hnext Hm.
  unfold defragFile, bind, deref, update. rewrite Hit, Hkind, Hit.
  rewrite defragLoop_run with (it := set_sectors [] it);
    [| exact Hfit | lia | rewrite drop_0; reflexivity | exact Hnext | exact Hm
     | cbn; apply lookup_insert_eq].
  cbn [sectorMap disk heap set_heap totalSectors]. rewrite drop_0. reflexivity.
Qed.

(** One file of the first run: the files done stay where they are, and
    the file is put behind them. *)
Lemma span_step s0 done next s f it0 :
  laid s0 done next s -> span (heap s) (disk s) 0 done next -> f ∉ done ->
  heap s0 !! f = Some it0 -> isFolder it0 = false -> fitsInt (content it0) ->
  match defragFile next f s with
  | Ok next' s' => span (heap s') (disk s') 0 (done ++ [f]) next'
  | _ => True
  end.
Proof.
  intros [Hnext Hbound Hm Htot Hrest Hmap Hdisk Hother Hdone Hids] Hspan Hf Hit0 Hkind Hfit.
  assert (Hit : heap s !! f = Some it0) by (rewrite Hother; assumption).
  rewrite (defragFile_run s f it0 next Hit Hkind Hfit Hnext Hm).
  destruct (placeChunks _ _ _ _ _) as [[[ids m'] d'] ok] eqn:Hplace.
  apply placeChunks_spec in Hplace
    as [Hidseq _ Hall _ Hfull Hmlen Hmin Hmoth Hslot Hdoth Hdlen]; [|exact Hnext].
  unfold placed. destruct ok; [|exact I]. specialize (Hall eq_refl).
  cbn [heap disk set_heap sectors set_sectors app].
  apply span_app with (b := next).
  - apply (span_ext (heap s) (disk s)); [exact Hspan | lia | |].
    + intros p Hp. rewrite !lookup_insert_ne by (intros ->; contradiction). reflexivity.
    + intros j Hj Hlt. apply Hdoth; [lia | exact Hlt].
  - rewrite Hall.
    eapply span_cons; [apply lookup_insert_eq | exact Hkind | | | apply span_nil].
    + cbn [sectors set_sectors content]. rewrite <- Hall. exact Hidseq.
    + cbn [content set_sectors]. intros k Hk. apply Hslot. rewrite Hall. exact Hk.
Qed.

Lemma span_fold s0 : forall files done next s,
  laid s0 done next s -> span (heap s) (disk s) 0 done next -> NoDup files ->
  (forall f, f ∈ files ->
     (f ∉ done) /\ exists it0, heap s0 !! f = Some it0 /\ isFolder it0 = false /\
                             fitsInt (content it0)) ->
  match foldM defragFile files next s with
  | Ok next' s' => laid s0 (done ++ files) next' s' /\
                   span (heap s') (disk s') 0 (done ++ files) next'
  | _ => True
  end.
Proof.
  induction files as [|f files IH]; intros done next s Hlaid Hspan Hnd Hfiles; cbn [foldM].
  - unfold ret. rewrite app_nil_r. split; assumption.
  - apply NoDup_cons in Hnd as [Hf Hnd].
    destruct (Hfiles f ltac:(left)) as (Hfd & it0 & Hit0 & Hkind & Hfit).
    pose proof (laid_step s0 done next s f it0 Hlaid Hfd Hit0 Hkind Hfit) as Hlaid1.
    pose proof (span_step s0 done next s f it0 Hlaid Hspan Hfd Hit0 Hkind Hfit) as Hspan1.
    unfold bind. destruct (defragFile next f s) as [next1 s1| |]; auto.
    specialize (IH (done ++ [f]) next1 s1 Hlaid1 Hspan1 Hnd).
    rewrite <- app_assoc in IH. apply IH.
    intros g Hg. destruct (Hfiles g ltac:(right; exact Hg)) as (Hgd & Hrest).
    split; [|exact Hrest]. intros Hin. apply elem_of_app in Hin as [Hin | Hin].
    + contradiction.
    + apply list_elem_of_singleton in Hin. subst g. contradiction.
Qed.

(** The loop of [defrag] on chunks that are in their slots already:
    it assigns the same ids and leaves the disk as it is. *)
Lemma placeChunks_in_place cs total n : forall next d,
  0 <= next -> next + Z.of_nat (length cs) <= total ->
  (forall k : nat, (k < length cs)%nat -> d !! Z.to_nat (next + Z.of_nat k) = cs !! k) ->
  placeChunks cs next total (marked n next) d =
  (seqZ next (Z.of_nat (length cs)), marked n (next + Z.of_nat (length cs)), d, true).
Proof.
  induction cs as [|c cs IH]; intros next d Hnext Hroom Hslots; cbn [placeChunks length].
  - rewrite Z.add_0_r. reflexivity.
  - cbn [length] in Hroom.
    destruct (total <=? next) eqn:E; [apply Z.leb_le in E; lia|].
    pose proof (Hslots 0%nat ltac:(cbn; lia)) as H0. rewrite Z.add_0_r in H0. cbn in H0.
    assert (Hg : growDisk next d = d).
    { unfold growDisk. apply lookup_lt_Some in H0.
      replace (Z.to_nat next + 1 - length d)%nat with 0%nat by lia. apply app_nil_r. }
    rewrite Hg, (list_insert_id _ _ _ H0), (marked_step n next Hnext).
    rewrite IH; [| lia | lia |].
    + rewrite Nat2Z.inj_succ, (seqZ_cons next) by lia.
      replace (Z.pred (Z.succ (Z.of_nat (length cs)))) with (Z.of_nat (length cs)) by lia.
      replace (next + 1 + Z.of_nat (length cs)) with (next + Z.succ (Z.of_nat (length cs)))
        by lia.
      reflexivity.
    + intros k Hk. specialize (Hslots (S k) ltac:(cbn; lia)). cbn in Hslots.
      replace (next + 1 + Z.of_nat k) with (next + Z.of_nat (S k)) by lia. exact Hslots.
Qed.

Lemma set_sectorMap_heap_id s (m : list bool) f it :
  heap s !! f = Some it ->
  mkFS (disk s) m (<[f := it]> (<[f := set_sectors [] it]> (heap s)))
       (brk s) (root s) (currentDir s) (totalSectors s) = set_sectorMap m s.
Proof.
  intros H. rewrite insert_insert_eq, insert_id by exact H. destruct s. reflexivity.
Qed.

(** The second run, file by file: nothing moves. *)
Lemma settle_fold s1 : forall files a b,
  span (heap s1) (disk s1) a files b -> 0 <= a -> b <= totalSectors s1 ->
  mapOk s1 -> (forall p it, heap s1 !! p = Some it -> fitsInt (content it)) ->
  foldM defragFile files a (set_sectorMap (marked (length (sectorMap s1)) a) s1) =
  Ok b (set_sectorMap (marked (length (sectorMap s1)) b) s1).
Proof.
  intros files a b Hspan.
  induction Hspan as [|a f rest b it Hit Hk Hs Hd Hrest IH]; intros Ha Hb Hm Hfit;
    [reflexivity|].
  pose proof (span_le _ _ _ _ _ Hrest) as Hle.
  cbn [foldM]. unfold bind.
  rewrite (defragFile_run _ f it a);
    [| exact Hit | exact Hk | exact (Hfit f it Hit) | exact Ha
     | unfold mapOk in *; cbn; rewrite marked_length; exact Hm].
  cbn [totalSectors sectorMap disk heap set_sectorMap].
  rewrite placeChunks_in_place; [| exact Ha | lia | exact Hd].
  unfold placed.
  cbn [heap disk set_heap set_sectorMap sectors set_sectors app brk root currentDir
       totalSectors sectorMap].
  rewrite length_seqZ, Z2Nat.id, <- Hs by lia.
  change (set_sectors (sectors it) (set_sectors [] it)) with (set_sectors (sectors it) it).
  rewrite set_sectors_id, (set_sectorMap_heap_id s1 _ f it Hit).
  apply IH; [lia | exact Hb | exact Hm | exact Hfit].
Qed.

Lemma filesBelow_ext h h' t :
  (forall x, isFolder <$> h' !! x = isFolder <$> h !! x) ->
  filesBelow h' t = filesBelow h t.
Proof.
  intros H. induction t as [p ks IH] using tree_ind'. cbn [filesBelow].
  apply flat_map_ext_elem. intros k Hk.
  rewrite Forall_forall in IH. specialize (IH k Hk). specialize (H (top k)).
  destruct (h' !! top k) as [it'|], (h !! top k) as [it|]; cbn in H; try discriminate;
    [|reflexivity].
  injection H as ->. rewrite IH. reflexivity.
Qed.

(** X26. [defrag] twice is [defrag] once: on a tree, when [defrag]
    returns, the state it leaves is one that a second [defrag] returns
    unchanged: no file, no sector list, no bit of the bitmap and no slot
    of the disk changes. *)
Theorem defrag_twice (s s1 : FileSystem) :
  hasTree s -> fitsAll s -> defrag s = Ok tt s1 -> defrag s1 = Ok tt s1.
Proof.
  intros [T Hwf] [Hm Hitems] Hrun.
  pose proof (wf_shape s T Hwf) as Hsh. pose proof (wf_nodup s T Hwf) as Hnd.
  assert (Hbrk : forall p, p ∈ nodes T -> (p < brk s)%nat).
  { intros p Hp. apply (wf_brk s T Hwf). eapply wfTree_live; eauto. }
  pose proof (wfTree_defrag s T Hwf) as Hwf1. rewrite Hrun in Hwf1.
  unfold defrag, bind at 1, gets at 1 in Hrun.
  unfold bind at 1, depthBound, gets at 1 in Hrun.
  rewrite <- (wf_top s T Hwf) in Hrun.
  unfold bind at 1 in Hrun.
  rewrite (collectAllFiles_tree s T None (S (brk s)) [] Hsh) in Hrun
    by (apply depthBound_enough; assumption).
  cbn [app] in Hrun. set (files := filesBelow (heap s) T) in *.
  unfold bind at 1, modify in Hrun.
  set (s0 := set_sectorMap (map (fun _ => false) (sectorMap s)) s) in *.
  assert (Hlaid0 : laid s0 [] 0 s0).
  { unfold s0.
    constructor; cbn [sectorMap heap disk totalSectors brk root currentDir set_sectorMap];
      auto; try lia; try (intros p Hp; apply elem_of_nil in Hp; contradiction).
    - unfold mapOk in Hm. lia.
    - unfold mapOk in *. cbn. rewrite length_map. exact Hm.
    - intros j Hj. rewrite length_map in Hj. rewrite list_lookup_fmap.
      rewrite bool_decide_eq_false_2 by lia.
      destruct (sectorMap s !! j) eqn:E; [reflexivity|].
      apply lookup_ge_None in E. lia. }
  assert (Hfiles : forall f, f ∈ files ->
            (f ∉ []) /\ exists it0, heap s0 !! f = Some it0 /\ isFolder it0 = false /\
                                    fitsInt (content it0)).
  { intros f Hf. split; [intros Hin; inversion Hin|].
    destruct (filesBelow_file _ _ _ _ Hsh Hf) as (it & Hit & Hkind).
    exists it. cbn. eauto. }
  pose proof (span_fold s0 files [] 0 s0 Hlaid0 (span_nil _ _ 0)
                (NoDup_filesBelow _ _ Hnd) Hfiles) as Hfold.
  unfold bind in Hrun.
  destruct (foldM defragFile files 0 s0) as [next s2| |]; try discriminate.
  unfold ret in Hrun. injection Hrun as ->. cbn [app] in Hfold.
  destruct Hfold as [[Hnext Hbound Hm1 Htot Hrest Hmap Hdisk Hother Hdone Hids] Hspan].
  destruct Hrest as (Hb1 & Hr1 & Hc1).
  cbn [brk root currentDir totalSectors heap s0 set_sectorMap] in Hb1, Hr1, Htot, Hother, Hdone.
  assert (Hsame : forall x, isFolder <$> heap s1 !! x = isFolder <$> heap s !! x).
  { intros x. destruct (decide (x ∈ files)) as [Hx|Hx].
    - destruct (Hdone x Hx) as (it0 & H0 & _ & H1 & _). rewrite H0, H1. reflexivity.
    - rewrite Hother by exact Hx. reflexivity. }
  assert (Hfit1 : forall p it, heap s1 !! p = Some it -> fitsInt (content it)).
  { intros p it Hit. destruct (decide (p ∈ files)) as [Hp|Hp].
    - destruct (Hdone p Hp) as (it0 & H0 & _ & H1 & _). rewrite H1 in Hit.
      injection Hit as <-. exact (Hitems p it0 H0).
    - rewrite Hother in Hit by exact Hp. exact (Hitems p it Hit). }
  unfold defrag, bind at 1, gets at 1.
  unfold bind at 1, depthBound, gets at 1.
  rewrite <- (wf_top s1 T Hwf1).
  unfold bind at 1.
  rewrite (collectAllFiles_tree s1 T None (S (brk s1)) [] (wf_shape s1 T Hwf1)).
  2:{ apply depthBound_enough; [exact Hnd|]. rewrite Hb1. exact Hbrk. }
  cbn [app]. rewrite (filesBelow_ext (heap s) (heap s1) T Hsame). fold files.
  unfold bind at 1, modify. rewrite marked_zero.
  unfold bind.
  rewrite (settle_fold s1 files 0 next Hspan ltac:(lia) Hbound Hm1 Hfit1).
  unfold ret. f_equal.
  rewrite <- (marked_eq (sectorMap s1) next Hmap). destruct s1. reflexivity.
Qed.

(** The fragmented disk is a state of a session. *)
Lemma fragmentedState_safe : reachableSafely fragmentedState.
Proof.
  assert (H0 : reachableSafely (init 4)) by (apply reachableS_init; lia).
  eassert (H1 : reachableSafely _).
  { apply (reachableS_step (init 4) (Mkdir "d") None _ H0);
      [exact I | vm_compute; reflexivity | discriminate | intros H; exact H]. }
  eassert (H2 : reachableSafely _).
  { apply (reachableS_step _ (Put "a" (Some (replicate 70 x41)) ".") None _ H1);
      [unfold fits, fitsInt, INT_MAX; vm_compute; discriminate
      | vm_compute; reflexivity | discriminate | intros H; exact H]. }
  eassert (H3 : reachableSafely _).
  { apply (reachableS_step _ (Put "b" (Some [x42]) "d") None _ H2);
      [unfold fits, fitsInt, INT_MAX; vm_compute; discriminate
      | vm_compute; reflexivity | discriminate | intros H; exact H]. }
  eassert (H4 : reachableSafely _).
  { apply (reachableS_step _ (Rm "a" false) None _ H3);
      [exact I | vm_compute; reflexivity | discriminate | intros H; exact H]. }
  apply (reachableS_step _ (Put "c" (Some (replicate 130 x43)) ".") None _ H4);
    [unfold fits, fitsInt, INT_MAX; vm_compute; discriminate
    | vm_compute; reflexivity | discriminate | intros H; exact H].
Qed.

Lemma defrag_twice_witness : defrag defragmentedState = Ok tt defragmentedState.
Proof.
  apply (defrag_twice fragmentedState defragmentedState).
  - apply wf_reachable. exact fragmentedState_safe.
  - apply fitsAll_reachable. exact fragmentedState_safe.
  - vm_compute. reflexivity.
Defined.
